(** * Room layout planner (src/Room/autoPlanner.ts): min-cut ramparts,
      dead-end pruning, distance fields and the minimum finder.

    Numbers of the source are JavaScript doubles.  Every number the
    modelled functions compute is an integer far below 2^53 or the constant
    [Number.MAX_VALUE]; they are modelled as [Z], with [MAX_VALUE] the
    integer value of that constant.  Arrays are lists ([room2D[x][y]] is a
    list of columns), the adjacency list, the level array and the DFS
    cursor array of the flow graph are finite maps from vertex numbers. *)

From Stdlib Require Import ZArith List Lia Bool Permutation.
From stdpp Require Import base tactics option list gmap fin_maps.

Local Open Scope Z_scope.

(** ** Constants *)

Definition UNWALKABLE : Z := -1.
Definition NORMAL : Z := 0.
Definition PROTECTED : Z := 1.
Definition TO_EXIT : Z := 2.
Definition EXIT : Z := 3.
Definition EXPOSED : Z := 5.
Definition RAMPART_MIN : Z := 9.

Definition SURROUND_OFFSETS : list (Z * Z) :=
  [(0, -1); (-1, -1); (-1, 0); (-1, 1); (0, 1); (1, 1); (1, 0); (1, -1)].

Definition ROOM_SIZE : Z := 50.
Definition ROOM_MAX_INDEX : Z := 49.
Definition GRAPH_VERTEX_COUNT : Z := 2 * ROOM_SIZE * ROOM_SIZE + 2.
Definition SOURCE_VERTEX : Z := 2 * ROOM_SIZE * ROOM_SIZE.
Definition SINK_VERTEX : Z := 2 * ROOM_SIZE * ROOM_SIZE + 1.
Definition TOP_OFFSET : Z := 0.
Definition BOT_OFFSET : Z := ROOM_SIZE * ROOM_SIZE.

(** [Number.MAX_VALUE], the largest finite double. *)
Definition MAX_VALUE : Z := 2 ^ 1024 - 2 ^ 971.

(** Modelled from the spec: the host constant [TERRAIN_MASK_WALL] is not
    declared in the sources; the terrain query returns an integer whose
    bit 0 denotes a wall, and the host's value of the mask is 1. *)
Definition TERRAIN_MASK_WALL : Z := 1.

(** [TerrainData]: the terrain query [get(x, y)]. *)
Definition TerrainData := Z -> Z -> Z.

Record Bounds := mkBounds { x1 : Z; y1 : Z; x2 : Z; y2 : Z }.

Definition defaultBounds : Bounds := mkBounds 0 0 49 49.

Record Position := mkPos { px : Z; py : Z }.

(** ** 50 x 50 arrays *)

(** [Grid A] is [A[][]]: the list of the columns [a[x]]. *)
Abbreviation Grid A := (list (list A)).

Definition initArr {A} (defaultValue : A) : Grid A :=
  replicate (Z.to_nat ROOM_SIZE) (replicate (Z.to_nat ROOM_SIZE) defaultValue).

(** [a[x]?.[y]]: [None] stands for [undefined]. *)
Definition arr_get {A} (a : Grid A) (x y : Z) : option A :=
  if (x <? 0) || (y <? 0) then None
  else match a !! Z.to_nat x with
       | Some col => col !! Z.to_nat y
       | None => None
       end.

(** [a[x][y] = v] for a cell of the array.  (Outside the array the source
    either throws, when the column [a[x]] is missing, or adds a property
    to the column; the callers below guard or note it.) *)
Definition arr_set {A} (a : Grid A) (x y : Z) (v : A) : Grid A :=
  if (x <? 0) || (y <? 0) then a
  else match a !! Z.to_nat x with
       | Some col => <[Z.to_nat x := <[Z.to_nat y := v]> col]> a
       | None => a
       end.

(** [a[x]] exists. *)
Definition has_column {A} (a : Grid A) (x : Z) : bool :=
  (0 <=? x) && (x <? Z.of_nat (length a)).

(** ** Terrain classifier *)

(** Body of the double loop over the bounds: one tile. *)
Definition classifyTile (terrainData : TerrainData) (bounds : Bounds)
    (x y : Z) (room2D : Grid Z) : Grid Z :=
  if negb (terrainData x y =? TERRAIN_MASK_WALL) then
    let room2D := arr_set room2D x y NORMAL in
    let room2D :=
      if (x =? x1 bounds) || (y =? y1 bounds) || (x =? x2 bounds) || (y =? y2 bounds)
      then arr_set room2D x y TO_EXIT else room2D in
    if (x =? 0) || (y =? 0) || (x =? ROOM_MAX_INDEX) || (y =? ROOM_MAX_INDEX)
    then arr_set room2D x y EXIT else room2D
  else room2D.

(** [for (let i = lo; i <= hi; i++)] as the list of the values of [i]. *)
Definition range_incl (lo hi : Z) : list Z := seqZ lo (hi - lo + 1).

(** [for (let i = lo; i < hi; i++)]. *)
Definition range_excl (lo hi : Z) : list Z := seqZ lo (hi - lo).

Definition is_tag (room2D : Grid Z) (x y tag : Z) : bool :=
  match arr_get room2D x y with
  | Some v => v =? tag
  | None => false
  end.

Definition markLeftRight (room2D : Grid Z) (y : Z) : Grid Z :=
  let room2D :=
    if is_tag room2D 0 (y - 1) EXIT || is_tag room2D 0 y EXIT || is_tag room2D 0 (y + 1) EXIT
    then arr_set room2D 1 y TO_EXIT else room2D in
  if is_tag room2D ROOM_MAX_INDEX (y - 1) EXIT || is_tag room2D ROOM_MAX_INDEX y EXIT
     || is_tag room2D ROOM_MAX_INDEX (y + 1) EXIT
  then arr_set room2D (ROOM_MAX_INDEX - 1) y TO_EXIT else room2D.

Definition markTopBottom (room2D : Grid Z) (x : Z) : Grid Z :=
  let room2D :=
    if is_tag room2D (x - 1) 0 EXIT || is_tag room2D x 0 EXIT || is_tag room2D (x + 1) 0 EXIT
    then arr_set room2D x 1 TO_EXIT else room2D in
  if is_tag room2D (x - 1) ROOM_MAX_INDEX EXIT || is_tag room2D x ROOM_MAX_INDEX EXIT
     || is_tag room2D (x + 1) ROOM_MAX_INDEX EXIT
  then arr_set room2D x (ROOM_MAX_INDEX - 1) TO_EXIT else room2D.

(** The bounds lie in the room, so that no write of the first loop leaves
    the array.  [createGraph] checks more than this before it classifies,
    and the other callers pass the whole room. *)
Definition boundsInRoom (bounds : Bounds) : bool :=
  (0 <=? x1 bounds) && (0 <=? y1 bounds)
  && (x2 bounds <=? ROOM_MAX_INDEX) && (y2 bounds <=? ROOM_MAX_INDEX).

Definition createRoom2DArrayFromTerrain (terrainData : TerrainData)
    (bounds : Bounds) : Grid Z :=
  let room2D := initArr UNWALKABLE in
  let room2D :=
    fold_left (fun room2D x =>
      fold_left (fun room2D y => classifyTile terrainData bounds x y room2D)
                (range_incl (y1 bounds) (y2 bounds)) room2D)
      (range_incl (x1 bounds) (x2 bounds)) room2D in
  let room2D := fold_left markLeftRight (range_excl 1 ROOM_MAX_INDEX) room2D in
  fold_left markTopBottom (range_excl 1 ROOM_MAX_INDEX) room2D.

Definition vertexToPosition (vertex : Z) : Position :=
  mkPos (vertex mod ROOM_SIZE) (vertex / ROOM_SIZE).

Definition positionToVertex (x y : Z) : Z := y * ROOM_SIZE + x.

(** ** Loops over a work list *)

Section WorkLists.
Context {St A : Type}.
(** The body of the loop: from the state and the element taken from the
    work list, the new state and the elements pushed, in push order. *)
Variable body : St -> A -> St * list A.

(** [while (index < queue.length) { const u = queue[index++]; ... }]:
    a growing buffer with a read index. *)
Fixpoint queue_loop (fuel : nat) (st : St) (queue : list A) (index : nat)
    : option (St * list A) :=
  match fuel with
  | O => None
  | S fuel' =>
      match queue !! index with
      | None => Some (st, queue)
      | Some u =>
          let '(st', pushed) := body st u in
          queue_loop fuel' st' (queue ++ pushed) (S index)
      end
  end.

(** [while (stack.length > 0) { const u = stack.pop(); ... }]: the list
    holds the array from its last element to its first. *)
Fixpoint stack_loop (fuel : nat) (st : St) (stack : list A) : option St :=
  match fuel with
  | O => None
  | S fuel' =>
      match stack with
      | [] => Some st
      | u :: rest =>
          let '(st', pushed) := body st u in
          stack_loop fuel' st' (rev pushed ++ rest)
      end
  end.
End WorkLists.

(** ** Flow graph *)

(** An edge [{v, r, c, f}].  The optional field [u] of the source is
    written and read by [bfsTheCut] only, which is modelled with pairs. *)
Record Edge := mkEdge { e_v : Z; e_r : nat; e_c : Z; e_f : Z }.

Record Graph := mkGraph {
  g_v : Z;
  g_level : gmap Z Z;
  g_edges : gmap Z (list Edge)
}.

(** [this.edges[u]]; every vertex below [g_v] starts with the empty array. *)
Definition edgesOf (edges : gmap Z (list Edge)) (u : Z) : list Edge :=
  default [] (edges !! u).

(** [this.level[u]] after [this.level.fill(-1)] and the writes recorded in
    the map. *)
Definition lvl (level : gmap Z Z) (u : Z) : Z := default (-1) (level !! u).

(** [count[u]] after [count.fill(0)] and the increments recorded. *)
Definition cnt (count : gmap Z nat) (u : Z) : nat := default O (count !! u).

Definition newGraph (vertexCount : Z) : Graph := mkGraph vertexCount ∅ ∅.

Definition pushEdge (edges : gmap Z (list Edge)) (u : Z) (e : Edge)
    : gmap Z (list Edge) :=
  <[u := edgesOf edges u ++ [e]]> edges.

Definition addEdge (g : Graph) (u v c : Z) : Graph :=
  let edges := g_edges g in
  let edges := pushEdge edges u (mkEdge v (length (edgesOf edges v)) c 0) in
  let edges := pushEdge edges v (mkEdge u (length (edgesOf edges u) - 1)%nat 0 0) in
  mkGraph (g_v g) (g_level g) edges.

(** *** BFS: the level graph *)

Definition bfs_visit (u : Z) (st : gmap Z Z * list Z) (edge : Edge)
    : gmap Z Z * list Z :=
  let '(level, pushed) := st in
  if (lvl level (e_v edge) <? 0) && (e_f edge <? e_c edge)
  then (<[e_v edge := lvl level u + 1]> level, pushed ++ [e_v edge])
  else (level, pushed).

Definition bfs_body (edges : gmap Z (list Edge)) (level : gmap Z Z) (u : Z)
    : gmap Z Z * list Z :=
  fold_left (bfs_visit u) (edgesOf edges u) (level, []).

Definition bfs (fuel : nat) (g : Graph) (s t : Z) : option (bool * Graph) :=
  if t >=? g_v g then Some (false, g)
  else
    match queue_loop (bfs_body (g_edges g)) fuel (<[s := 0]> ∅) [s] 0 with
    | None => None
    | Some (level, _) =>
        Some (0 <=? lvl level t, mkGraph (g_v g) level (g_edges g))
    end.

(** *** DFS: one augmenting path *)

Definition addFlow (edges : gmap Z (list Edge)) (u : Z) (i : nat) (d : Z)
    : gmap Z (list Edge) :=
  match edgesOf edges u !! i with
  | Some e => <[u := <[i := mkEdge (e_v e) (e_r e) (e_c e) (e_f e + d)]> (edgesOf edges u)]> edges
  | None => edges
  end.

Fixpoint dfsFlow (fuel : nat) (level : gmap Z Z) (edges : gmap Z (list Edge))
    (u f t : Z) (count : gmap Z nat)
    : option (Z * gmap Z (list Edge) * gmap Z nat) :=
  match fuel with
  | O => None
  | S fuel' =>
      if u =? t then Some (f, edges, count)
      else
        match edgesOf edges u !! cnt count u with
        | None => Some (0, edges, count)
        | Some edge =>
            if (lvl level (e_v edge) =? lvl level u + 1) && (e_f edge <? e_c edge)
            then
              let flowTillHere := Z.min f (e_c edge - e_f edge) in
              match dfsFlow fuel' level edges (e_v edge) flowTillHere t count with
              | None => None
              | Some (flowToT, edges', count') =>
                  if 0 <? flowToT
                  then
                    let edges' := addFlow edges' u (cnt count u) flowToT in
                    let edges' := addFlow edges' (e_v edge) (e_r edge) (- flowToT) in
                    Some (flowToT, edges', count')
                  else
                    dfsFlow fuel' level edges' u f t (<[u := S (cnt count' u)]> count')
              end
            else dfsFlow fuel' level edges u f t (<[u := S (cnt count u)]> count)
        end
  end.

(** The [do ... while (flow > 0)] loop of one phase. *)
Fixpoint blockingFlow (fuel fuelD : nat) (level : gmap Z Z)
    (edges : gmap Z (list Edge)) (s t : Z) (count : gmap Z nat) (returnValue : Z)
    : option (Z * gmap Z (list Edge)) :=
  match fuel with
  | O => None
  | S fuel' =>
      match dfsFlow fuelD level edges s MAX_VALUE t count with
      | None => None
      | Some (flow, edges', count') =>
          if 0 <? flow
          then blockingFlow fuel' fuelD level edges' s t count' (returnValue + flow)
          else Some (returnValue, edges')
      end
  end.

(** The [while (this.bfs(s, t))] loop. *)
Fixpoint dinicPhases (fuel fuelI : nat) (g : Graph) (s t : Z) (returnValue : Z)
    : option (Z * Graph) :=
  match fuel with
  | O => None
  | S fuel' =>
      match bfs fuelI g s t with
      | None => None
      | Some (false, g') => Some (returnValue, g')
      | Some (true, g') =>
          match blockingFlow fuelI fuelI (g_level g') (g_edges g') s t ∅ returnValue with
          | None => None
          | Some (returnValue', edges') =>
              dinicPhases fuel' fuelI (mkGraph (g_v g') (g_level g') edges') s t returnValue'
          end
      end
  end.

Definition calcMinCut (fuel : nat) (g : Graph) (s t : Z) : option (Z * Graph) :=
  if s =? t then Some (-1, g) else dinicPhases fuel fuel g s t 0.

(** *** Extraction of the cut *)

Definition cut_visit (u : Z) (st : (gmap Z Z * list (Z * Edge)) * list Z) (edge : Edge)
    : (gmap Z Z * list (Z * Edge)) * list Z :=
  let '((level, edgesInCut), pushed) := st in
  let '(level, pushed) :=
    if (e_f edge <? e_c edge) && (lvl level (e_v edge) <? 1)
    then (<[e_v edge := 1]> level, pushed ++ [e_v edge])
    else (level, pushed) in
  let edgesInCut :=
    if (e_f edge =? e_c edge) && (0 <? e_c edge)
    then edgesInCut ++ [(u, edge)] else edgesInCut in
  ((level, edgesInCut), pushed).

Definition cut_body (edges : gmap Z (list Edge))
    (st : gmap Z Z * list (Z * Edge)) (u : Z)
    : (gmap Z Z * list (Z * Edge)) * list Z :=
  fold_left (cut_visit u) (edgesOf edges u) (st, []).

Definition bfsTheCut (fuel : nat) (g : Graph) (s : Z) : option (list Z * Graph) :=
  match queue_loop (cut_body (g_edges g)) fuel (<[s := 1]> ∅, []) [s] 0 with
  | None => None
  | Some ((level, edgesInCut), _) =>
      let minCut :=
        map fst (List.filter (fun ue => lvl level (e_v (snd ue)) =? -1) edgesInCut) in
      Some (minCut, mkGraph (g_v g) level (g_edges g))
  end.

(** ** Graph builder *)

Definition validBounds (bounds : Bounds) : bool :=
  negb ((x1 bounds >=? x2 bounds) || (y1 bounds >=? y2 bounds)
        || (x1 bounds <? 0) || (y1 bounds <? 0)
        || (x2 bounds >? ROOM_MAX_INDEX) || (y2 bounds >? ROOM_MAX_INDEX)).

Definition markProtected (roomArray : Grid Z) (coord : Z * Z) : Grid Z :=
  if is_tag roomArray (fst coord) (snd coord) NORMAL
  then arr_set roomArray (fst coord) (snd coord) PROTECTED
  else roomArray.

(** The tags of the tiles after the protected coordinates are marked. *)
Definition protectedRoomArray (terrainData : TerrainData) (coords : list (Z * Z))
    (bounds : Bounds) : Grid Z :=
  fold_left markProtected coords (createRoom2DArrayFromTerrain terrainData bounds).

Definition connectNeighbours (roomArray : Grid Z) (x y bot : Z) (graph : Graph)
    : Graph :=
  fold_left (fun graph d =>
      let nx := x + fst d in
      let ny := y + snd d in
      if is_tag roomArray nx ny NORMAL || is_tag roomArray nx ny TO_EXIT
      then addEdge graph bot (positionToVertex nx ny + TOP_OFFSET) MAX_VALUE
      else graph)
    SURROUND_OFFSETS graph.

Definition addTile (roomArray : Grid Z) (x y : Z) (graph : Graph) : Graph :=
  let top := positionToVertex x y + TOP_OFFSET in
  let bot := top + BOT_OFFSET in
  if is_tag roomArray x y NORMAL then
    connectNeighbours roomArray x y bot (addEdge graph top bot 1)
  else if is_tag roomArray x y PROTECTED then
    connectNeighbours roomArray x y bot
      (addEdge (addEdge graph SOURCE_VERTEX top MAX_VALUE) top bot 1)
  else if is_tag roomArray x y TO_EXIT then
    addEdge graph top SINK_VERTEX MAX_VALUE
  else graph.

Definition buildGraph (roomArray : Grid Z) : Graph :=
  fold_left (fun graph x =>
      fold_left (fun graph y => addTile roomArray x y graph)
                (range_excl 1 ROOM_MAX_INDEX) graph)
    (range_excl 1 ROOM_MAX_INDEX) (newGraph GRAPH_VERTEX_COUNT).

(** [None] is the [null] returned for invalid bounds. *)
Definition createGraph (terrainData : TerrainData) (coords : list (Z * Z))
    (bounds : Bounds) : option Graph :=
  if validBounds bounds
  then Some (buildGraph (protectedRoomArray terrainData coords bounds))
  else None.

(** ** Dead-end pruning *)

Definition markCutTile (roomArray : Grid Z) (tile : Position) : Grid Z :=
  match arr_get roomArray (px tile) (py tile) with
  | Some _ => arr_set roomArray (px tile) (py tile) UNWALKABLE
  | None => roomArray
  end.

Definition exitBandSeeds (roomArray : Grid Z) : list Z :=
  flat_map (fun y =>
      (if is_tag roomArray 1 y TO_EXIT then [positionToVertex 1 y] else [])
      ++ (if is_tag roomArray (ROOM_MAX_INDEX - 1) y TO_EXIT
          then [positionToVertex (ROOM_MAX_INDEX - 1) y] else []))
    (range_excl 1 ROOM_MAX_INDEX)
  ++ flat_map (fun x =>
      (if is_tag roomArray x 1 TO_EXIT then [positionToVertex x 1] else [])
      ++ (if is_tag roomArray x (ROOM_MAX_INDEX - 1) TO_EXIT
          then [positionToVertex x (ROOM_MAX_INDEX - 1)] else []))
    (range_excl 1 ROOM_MAX_INDEX).

Definition flood_visit (x y : Z) (st : Grid Z * list Z) (d : Z * Z)
    : Grid Z * list Z :=
  let '(roomArray, pushed) := st in
  let nx := x + fst d in
  let ny := y + snd d in
  if is_tag roomArray nx ny NORMAL
  then (arr_set roomArray nx ny TO_EXIT, pushed ++ [positionToVertex nx ny])
  else (roomArray, pushed).

Definition flood_body (roomArray : Grid Z) (index : Z) : Grid Z * list Z :=
  let pos := vertexToPosition index in
  fold_left (flood_visit (px pos) (py pos)) SURROUND_OFFSETS (roomArray, []).

Definition leadsToExit (roomArray : Grid Z) (tile : Position) : bool :=
  existsb (fun d => is_tag roomArray (px tile + fst d) (py tile + snd d) TO_EXIT)
          SURROUND_OFFSETS.

(** The array is modified in place in the source; the model returns the
    tiles that are left, in their order. *)
Definition deleteTilesToDeadEnds (fuel : nat) (terrainData : TerrainData)
    (cutTilesArray : list Position) : option (list Position) :=
  let roomArray := createRoom2DArrayFromTerrain terrainData defaultBounds in
  let roomArray := fold_left markCutTile (rev cutTilesArray) roomArray in
  match stack_loop flood_body fuel roomArray (rev (exitBandSeeds roomArray)) with
  | None => None
  | Some roomArray => Some (List.filter (leadsToExit roomArray) cutTilesArray)
  end.

(** ** Min-cut driver *)

Definition isWholeRoom (bounds : Bounds) : bool :=
  (x1 bounds =? 0) && (y1 bounds =? 0)
  && (x2 bounds =? ROOM_MAX_INDEX) && (y2 bounds =? ROOM_MAX_INDEX).

(** The cut before the dead ends are removed. *)
Definition cutPositions (fuel : nat) (graph : Graph) : option (list Position) :=
  match calcMinCut fuel graph SOURCE_VERTEX SINK_VERTEX with
  | None => None
  | Some (count, graph) =>
      if 0 <? count then
        match bfsTheCut fuel graph SOURCE_VERTEX with
        | None => None
        | Some (cutEdges, _) => Some (map vertexToPosition cutEdges)
        end
      else Some []
  end.

Definition getCutTiles (fuel : nat) (terrainData : TerrainData)
    (coords : list (Z * Z)) (bounds : Bounds) : option (list Position) :=
  match createGraph terrainData coords bounds with
  | None => Some []
  | Some graph =>
      match cutPositions fuel graph with
      | None => None
      | Some positions =>
          if (0 <? Z.of_nat (length positions)) && negb (isWholeRoom bounds)
          then deleteTilesToDeadEnds fuel terrainData positions
          else Some positions
      end
  end.



(** ** Minimum finder *)

(** [matrix[x]?.[y] ?? Number.MAX_VALUE]. *)
Definition cellValue (matrix : Grid Z) (x y : Z) : Z :=
  default MAX_VALUE (arr_get matrix x y).

Definition findMin_step (matrix : Grid Z) (predicate : Z -> Z -> bool)
    (x : Z) (acc : Z * Z * Z) (y : Z) : Z * Z * Z :=
  let '(minValue, minX, minY) := acc in
  let value := cellValue matrix x y in
  if (value <? minValue) && predicate x y then (value, x, y) else acc.

Definition findMin (matrix : Grid Z) (predicate : Z -> Z -> bool) : Z * Z :=
  let '(_, minX, minY) :=
    fold_left (fun acc x =>
        fold_left (findMin_step matrix predicate x) (range_excl 0 ROOM_SIZE) acc)
      (range_excl 0 ROOM_SIZE) (MAX_VALUE, 0, 0) in
  (minX, minY).

(** A tile of the room. *)
Definition inRoom (x y : Z) : Prop := 0 <= x < ROOM_SIZE /\ 0 <= y < ROOM_SIZE.

(** [(x', y')] is scanned before [(x, y)]: x is the outer loop. *)
Definition scanBefore (x' y' x y : Z) : Prop := x' < x \/ (x' = x /\ y' < y).

(** A cell that [findMin] can accept: in the room, satisfying the
    predicate, with a value below the sentinel [MAX_VALUE]. *)
Definition candidate (matrix : Grid Z) (predicate : Z -> Z -> bool) (x y : Z) : Prop :=
  inRoom x y /\ predicate x y = true /\ cellValue matrix x y < MAX_VALUE.

(** What the scan has established when it reaches the cell [(cx, cy)]. *)
Definition findMin_inv (matrix : Grid Z) (predicate : Z -> Z -> bool)
    (cx cy : Z) (acc : Z * Z * Z) : Prop :=
  let '(minValue, minX, minY) := acc in
  minValue <= MAX_VALUE
  /\ (forall x y, inRoom x y -> scanBefore x y cx cy -> predicate x y = true ->
        minValue <= cellValue matrix x y)
  /\ (minValue = MAX_VALUE -> minX = 0 /\ minY = 0)
  /\ (minValue < MAX_VALUE ->
        inRoom minX minY /\ scanBefore minX minY cx cy
        /\ predicate minX minY = true /\ cellValue matrix minX minY = minValue
        /\ forall x y, inRoom x y -> scanBefore x y minX minY ->
             predicate x y = true -> minValue < cellValue matrix x y).

(** ** Distance fields *)

Definition inRoomb (x y : Z) : bool :=
  (0 <=? x) && (x <? ROOM_SIZE) && (0 <=? y) && (y <? ROOM_SIZE).

Definition isWall (terrainData : TerrainData) (x y : Z) : bool :=
  terrainData x y =? TERRAIN_MASK_WALL.

(** [explored[x][y]] read as a condition. *)
Definition isExplored (explored : Grid bool) (x y : Z) : bool :=
  default false (arr_get explored x y).

(** One neighbour of the tile [(x, y)] taken from the frontier. *)
Definition cost_visit (terrainData : TerrainData) (maxRange x y cost : Z)
    (st : (Grid Z * Grid bool) * list (Z * Z * Z)) (d : Z * Z)
    : (Grid Z * Grid bool) * list (Z * Z * Z) :=
  let '((costArr, explored), pushed) := st in
  let nx := x + fst d in
  let ny := y + snd d in
  if inRoomb nx ny && negb (isExplored explored nx ny) && negb (isWall terrainData nx ny)
  then
    let explored := arr_set explored nx ny true in
    let newCost := cost + 1 in
    let costArr := arr_set costArr nx ny newCost in
    ((costArr, explored),
     if newCost <? maxRange then pushed ++ [(nx, ny, newCost)] else pushed)
  else st.

Definition cost_body (terrainData : TerrainData) (maxRange : Z)
    (st : Grid Z * Grid bool) (entry : Z * Z * Z)
    : (Grid Z * Grid bool) * list (Z * Z * Z) :=
  let '(x, y, cost) := entry in
  if cost >=? maxRange then (st, [])
  else fold_left (cost_visit terrainData maxRange x y cost) SURROUND_OFFSETS (st, []).

(** [getCostArrayPure]: the cost array is modified in place in the source
    and returned here.  [None] with enough fuel is the [TypeError] of
    [explored[startX][startY] = true] when [startX] is not a column of the
    room; [costArr] is a 50 x 50 array, as [initArr] makes them. *)
Definition getCostArrayPure (fuel : nat) (costArr : Grid Z)
    (startX startY maxRange : Z) (terrainData : TerrainData) : option (Grid Z) :=
  let explored := initArr false in
  if has_column explored startX then
    let explored := arr_set explored startX startY true in
    let costArr := arr_set costArr startX startY 0 in
    match queue_loop (cost_body terrainData maxRange) fuel (costArr, explored)
                     [(startX, startY, 0)] 0 with
    | Some ((costArr, _), _) => Some costArr
    | None => None
    end
  else None.

(** A 50 x 50 array. *)
Definition isField {A} (a : Grid A) : Prop :=
  length a = Z.to_nat ROOM_SIZE
  /\ forall col, In col a -> length col = Z.to_nat ROOM_SIZE.

(** [q] is one of the eight neighbours of [p]. *)
Definition neighbour8 (p q : Z * Z) : Prop :=
  exists d, In d SURROUND_OFFSETS /\ q = (fst p + fst d, snd p + snd d).

(** One step of the distance field: to a neighbour that lies in the room
    and is not a wall. *)
Definition fieldStep (terrainData : TerrainData) (p q : Z * Z) : Prop :=
  neighbour8 p q /\ inRoom (fst q) (snd q)
  /\ isWall terrainData (fst q) (snd q) = false.

(** [walk step s n p]: [p] is reached from the seed [s] in [n] steps.  The
    seed itself is at distance 0 whatever its terrain (sources, minerals
    and controllers sit on walls); every tile entered is subject to
    [step]. *)
Inductive walk (step : Z * Z -> Z * Z -> Prop) (s : Z * Z) : Z -> Z * Z -> Prop :=
| walk_seed : walk step s 0 s
| walk_step n p q : walk step s n p -> step p q -> walk step s (n + 1) q.

(** ** Ramparts and exposure: [calculate] *)

(** One neighbour of the tile [p] taken from the frontier at level
    [currentLevel]; the state is [protectedArr] and [expandedProtectedPos]. *)
Definition expand_visit (p : Z * Z) (currentLevel : Z)
    (st : (Grid Z * list (Z * Z)) * list (Z * Z)) (d : Z * Z)
    : (Grid Z * list (Z * Z)) * list (Z * Z) :=
  let '((protectedArr, expandedProtectedPos), pushed) := st in
  let x := fst p + fst d in
  let y := snd p + snd d in
  if inRoomb x y && is_tag protectedArr x y 0
  then
    let newLevel := currentLevel + 1 in
    let protectedArr := arr_set protectedArr x y newLevel in
    let expandedProtectedPos := expandedProtectedPos ++ [(x, y)] in
    ((protectedArr, expandedProtectedPos),
     if newLevel <=? 3 then pushed ++ [(x, y)] else pushed)
  else st.

Definition expand_body (st : Grid Z * list (Z * Z)) (p : Z * Z)
    : (Grid Z * list (Z * Z)) * list (Z * Z) :=
  let currentLevel := default 0 (arr_get (fst st) (fst p) (snd p)) in
  fold_left (expand_visit p currentLevel) SURROUND_OFFSETS (st, []).

(** [protectedArr] after the seeds are written. *)
Definition seedLevels (protectedPos : list (Z * Z)) : Grid Z :=
  fold_left (fun protectedArr pos => arr_set protectedArr (fst pos) (snd pos) 1)
            protectedPos (initArr 0).

(** The expansion of the protected positions by [calculate], up to the
    point where the neighbours of the controller are appended.  The model
    covers seeds in the room ([None] otherwise: the source throws on a
    missing column, or stores the level outside the 50 cells). *)
Definition expandProtected (fuel : nat) (protectedPos : list (Z * Z))
    : option (list (Z * Z)) :=
  if forallb (fun pos => inRoomb (fst pos) (snd pos)) protectedPos then
    match queue_loop expand_body fuel (seedLevels protectedPos, protectedPos)
                     protectedPos 0 with
    | Some ((_, expandedProtectedPos), _) => Some expandedProtectedPos
    | None => None
    end
  else None.

Definition controllerNeighbours (controllerPos : Z * Z) : list (Z * Z) :=
  flat_map (fun d =>
      let x := fst controllerPos + fst d in
      let y := snd controllerPos + snd d in
      if inRoomb x y then [(x, y)] else [])
    SURROUND_OFFSETS.

Definition markRampart (roomArray : Grid Z) (pos : Position) : Grid Z :=
  match arr_get roomArray (px pos) (py pos) with
  | Some _ => arr_set roomArray (px pos) (py pos) RAMPART_MIN
  | None => roomArray
  end.

(** The exits, in the order of the double loop, become the first frontier. *)
Definition exitSeeds (roomArray : Grid Z) : list (Z * Z) :=
  List.filter (fun p => is_tag roomArray (fst p) (snd p) EXIT)
    (flat_map (fun x => map (fun y => (x, y)) (range_excl 0 ROOM_SIZE))
              (range_excl 0 ROOM_SIZE)).

Definition markExposed (st : Grid Z * Grid bool) (p : Z * Z) : Grid Z * Grid bool :=
  (arr_set (fst st) (fst p) (snd p) EXPOSED, arr_set (snd st) (fst p) (snd p) true).

Definition exposed_visit (p : Z * Z) (st : (Grid Z * Grid bool) * list (Z * Z))
    (d : Z * Z) : (Grid Z * Grid bool) * list (Z * Z) :=
  let '((roomArray, explored), pushed) := st in
  let x := fst p + fst d in
  let y := snd p + snd d in
  if inRoomb x y && negb (isExplored explored x y)
     && match arr_get roomArray x y with
        | Some tag => negb (tag =? UNWALKABLE) && negb (tag =? RAMPART_MIN)
        | None => false
        end
  then (markExposed (roomArray, explored) (x, y), pushed ++ [(x, y)])
  else st.

Definition exposed_body (st : Grid Z * Grid bool) (p : Z * Z)
    : (Grid Z * Grid bool) * list (Z * Z) :=
  fold_left (exposed_visit p) SURROUND_OFFSETS (st, []).

(** [new PathFinder.CostMatrix()] with [0xff] on the exposed tiles: the
    matrix is a 50 x 50 array of zeros at first. *)
Definition exposedCostMatrix (roomArray : Grid Z) : Grid Z :=
  map (map (fun tag => if tag =? EXPOSED then 255 else 0)) roomArray.

Definition calculate (fuel : nat) (terrainData : TerrainData)
    (protectedPos : list (Z * Z)) (controllerPos : Z * Z)
    : option (list Position * Grid Z) :=
  let roomArray := createRoom2DArrayFromTerrain terrainData defaultBounds in
  match expandProtected fuel protectedPos with
  | None => None
  | Some expandedProtectedPos =>
      let expandedProtectedPos := expandedProtectedPos ++ controllerNeighbours controllerPos in
      match getCutTiles fuel terrainData expandedProtectedPos defaultBounds with
      | None => None
      | Some positions =>
          let roomArray := fold_left markRampart positions roomArray in
          let exits := exitSeeds roomArray in
          let st := fold_left markExposed exits (roomArray, initArr false) in
          match queue_loop exposed_body fuel st exits 0 with
          | None => None
          | Some ((roomArray, _), _) => Some (positions, exposedCostMatrix roomArray)
          end
      end
  end.

(** Chebyshev distance of two tiles. *)
Definition cheb (p s : Z * Z) : Z :=
  Z.max (Z.abs (fst p - fst s)) (Z.abs (snd p - snd s)).

(** The distance from [p] to the nearest of the seeds lies in [lo, hi]. *)
Definition nearestSeedWithin (seeds : list (Z * Z)) (p : Z * Z) (lo hi : Z) : Prop :=
  (exists s, In s seeds /\ cheb p s <= hi) /\ (forall s, In s seeds -> lo <= cheb p s).

Definition levelAt (protectedArr : Grid Z) (p : Z * Z) : option Z :=
  arr_get protectedArr (fst p) (snd p).

(** [protectedArr] holds a level for [p]: the tile is a seed or was added. *)
Definition leveled (protectedArr : Grid Z) (p : Z * Z) : Prop :=
  exists l, levelAt protectedArr p = Some l /\ l <> 0.

Section ExpandInvariant.
Variable seeds : list (Z * Z).

Record expand_inv (st : Grid Z * list (Z * Z)) (q : list (Z * Z)) (i : nat) : Prop := {
  ei_field : isField (fst st);
  ei_sound : forall p l, levelAt (fst st) p = Some l -> l <> 0 ->
    1 <= l <= 4 /\ exists s, In s seeds /\ cheb p s <= l - 1;
  ei_expanded : forall p, In p (snd st) <-> leveled (fst st) p;
  ei_queue : forall k p, q !! k = Some p ->
    exists l, levelAt (fst st) p = Some l /\ 1 <= l <= 3;
  ei_tail : exists q2, q = seeds ++ q2 /\ NoDup q2;
  ei_sorted : forall k k' p p' l l', (k <= k')%nat ->
    q !! k = Some p -> q !! k' = Some p' ->
    levelAt (fst st) p = Some l -> levelAt (fst st) p' = Some l' -> l <= l';
  ei_front : forall p l k p' l', levelAt (fst st) p = Some l -> l <> 0 ->
    (i <= k)%nat -> q !! k = Some p' -> levelAt (fst st) p' = Some l' -> l <= l' + 1;
  ei_closed : forall k p l, (k < i)%nat -> q !! k = Some p ->
    levelAt (fst st) p = Some l ->
    forall p', neighbour8 p p' -> inRoom (fst p') (snd p') ->
      exists l', levelAt (fst st) p' = Some l' /\ l' <> 0 /\ l' <= l + 1;
  ei_queued : forall p l, levelAt (fst st) p = Some l -> 1 <= l <= 3 ->
    exists k, q !! k = Some p;
  ei_seed : forall s, In s seeds -> levelAt (fst st) s = Some 1
}.

(** What the visits of some neighbours of the tile [p0], taken at level
    [cl], do to the state and to the list of pushed tiles. *)
Record expand_post (p0 : Z * Z) (cl : Z) (st : Grid Z * list (Z * Z))
    (pushed0 : list (Z * Z)) (st' : Grid Z * list (Z * Z))
    (pushed : list (Z * Z)) : Prop := {
  ep_field : isField (fst st) -> isField (fst st');
  ep_keep : forall p l, levelAt (fst st) p = Some l -> l <> 0 ->
    levelAt (fst st') p = Some l;
  ep_new : forall p, leveled (fst st') p -> ~ leveled (fst st) p ->
    neighbour8 p0 p /\ inRoom (fst p) (snd p) /\ levelAt (fst st') p = Some (cl + 1);
  ep_pushed : forall p, In p pushed <->
    In p pushed0 \/ (cl + 1 <= 3 /\ leveled (fst st') p /\ ~ leveled (fst st) p);
  ep_expanded : forall p, In p (snd st') <->
    In p (snd st) \/ (leveled (fst st') p /\ ~ leveled (fst st) p);
  ep_nodup : NoDup pushed0 -> (forall p, In p pushed0 -> leveled (fst st) p) ->
    NoDup pushed
}.
End ExpandInvariant.

(** ** Invariants of the distance-field BFS *)

Definition exploredAt (explored : Grid bool) (p : Z * Z) : Prop :=
  isExplored explored (fst p) (snd p) = true.

Definition costAt (costArr : Grid Z) (p : Z * Z) : option Z :=
  arr_get costArr (fst p) (snd p).

(** All the tiles of the room. *)
Definition roomCells : list (Z * Z) :=
  flat_map (fun x => map (fun y => (x, y)) (range_excl 0 ROOM_SIZE))
           (range_excl 0 ROOM_SIZE).

Section CostInvariant.
Variables (terrainData : TerrainData) (maxRange sx sy : Z) (costArr0 : Grid Z).

(** Invariant of the loop of [getCostArrayPure]: [st] is the pair of the
    cost array and the explored array, [q] the frontier, [i] its read
    index. *)
Record cost_inv (st : Grid Z * Grid bool) (q : list (Z * Z * Z)) (i : nat) : Prop := {
  ci_fieldC : isField (fst st);
  ci_fieldE : isField (snd st);
  ci_sound : forall p, exploredAt (snd st) p ->
    exists n, costAt (fst st) p = Some n
              /\ walk (fieldStep terrainData) (sx, sy) n p /\ 0 <= n <= maxRange;
  ci_frame : forall x y, isExplored (snd st) x y = false ->
    arr_get (fst st) x y = arr_get costArr0 x y;
  ci_queue : forall k e, q !! k = Some e ->
    exploredAt (snd st) (fst e) /\ costAt (fst st) (fst e) = Some (snd e);
  ci_nodup : NoDup (map fst q);
  ci_sorted : forall k k' e e', (k <= k')%nat ->
    q !! k = Some e -> q !! k' = Some e' -> snd e <= snd e';
  ci_front : forall p n k e, exploredAt (snd st) p -> costAt (fst st) p = Some n ->
    (i <= k)%nat -> q !! k = Some e -> n <= snd e + 1;
  ci_closed : forall k e, (k < i)%nat -> q !! k = Some e -> snd e < maxRange ->
    forall p', fieldStep terrainData (fst e) p' ->
      exploredAt (snd st) p' /\ exists n, costAt (fst st) p' = Some n /\ n <= snd e + 1;
  ci_queued : forall p n, exploredAt (snd st) p -> costAt (fst st) p = Some n ->
    n < maxRange -> exists k, q !! k = Some (p, n)
}.

(** What the visits of some neighbours of [(x, y)], taken at cost [c],
    do to the state and to the list of pushed entries. *)
Record cost_post (x y c : Z) (st : Grid Z * Grid bool) (pushed0 : list (Z * Z * Z))
    (st' : Grid Z * Grid bool) (pushed : list (Z * Z * Z)) : Prop := {
  cp_fieldC : isField (fst st) -> isField (fst st');
  cp_fieldE : isField (snd st) -> isField (snd st');
  cp_keep : forall p, exploredAt (snd st) p ->
    exploredAt (snd st') p /\ costAt (fst st') p = costAt (fst st) p;
  cp_new : forall p, exploredAt (snd st') p -> ~ exploredAt (snd st) p ->
    fieldStep terrainData (x, y) p /\ costAt (fst st') p = Some (c + 1);
  cp_frame : forall x' y', isExplored (snd st') x' y' = false ->
    arr_get (fst st') x' y' = arr_get (fst st) x' y';
  cp_pushed : forall e, In e pushed <->
    In e pushed0
    \/ (snd e = c + 1 /\ c + 1 < maxRange
        /\ exploredAt (snd st') (fst e) /\ ~ exploredAt (snd st) (fst e));
  cp_nodup : NoDup (map fst pushed0) ->
    (forall e, In e pushed0 -> exploredAt (snd st) (fst e)) ->
    NoDup (map fst pushed)
}.
End CostInvariant.

(** ** Invariants of the flow graph *)

(** The edge at index [i] of the adjacency list of [u]. *)
Definition edgeAt (edges : gmap Z (list Edge)) (u : Z) (i : nat) : option Edge :=
  edgesOf edges u !! i.

Definition sumFlow (l : list Edge) : Z := foldr (fun e acc => e_f e + acc) 0 l.

(** Net flow out of [u]: reverse edges carry the negated flow. *)
Definition excess (edges : gmap Z (list Edge)) (u : Z) : Z := sumFlow (edgesOf edges u).

(** What the solver never changes in an edge. *)
Definition skel (e : Edge) : Z * nat * Z := (e_v e, e_r e, e_c e).

Definition same_skel (edges edges' : gmap Z (list Edge)) : Prop :=
  forall u, map skel (edgesOf edges u) = map skel (edgesOf edges' u).

(** [edges[e.v][e.r]] is the partner of [e], no edge is a loop, and the
    capacities are not negative. *)
Record paired (edges : gmap Z (list Edge)) : Prop := {
  pr_partner : forall u i e, edgeAt edges u i = Some e ->
    exists e', edgeAt edges (e_v e) (e_r e) = Some e' /\ e_v e' = u /\ e_r e' = i;
  pr_noloop : forall u i e, edgeAt edges u i = Some e -> e_v e <> u;
  pr_cap : forall u i e, edgeAt edges u i = Some e -> 0 <= e_c e
}.

(** A flow: antisymmetric on partners, within the capacities, conserved
    at every vertex but the source and the sink. *)
Record flow_ok (edges : gmap Z (list Edge)) (s t : Z) : Prop := {
  fo_anti : forall u i e e', edgeAt edges u i = Some e ->
    edgeAt edges (e_v e) (e_r e) = Some e' -> e_f e' = - e_f e;
  fo_cap : forall u i e, edgeAt edges u i = Some e -> e_f e <= e_c e;
  fo_cons : forall w, w <> s -> w <> t -> excess edges w = 0
}.

(** The edge [e] out of [w] belongs to the level graph and is not full. *)
Definition admissible (level : gmap Z Z) (w : Z) (e : Edge) : Prop :=
  lvl level (e_v e) = lvl level w + 1 /\ e_f e < e_c e.

(** Every edge that the cursor of a vertex has passed is a dead end:
    outside the level graph or full, or leading to a vertex, not the
    sink, whose own cursor has passed all its edges. *)
Definition deadInv (level : gmap Z Z) (t : Z) (edges : gmap Z (list Edge))
    (count : gmap Z nat) : Prop :=
  forall w i e, edgeAt edges w i = Some e -> (i < cnt count w)%nat ->
    admissible level w e ->
    e_v e <> t /\ (length (edgesOf edges (e_v e)) <= cnt count (e_v e))%nat.

(** A path of the level graph from [s]. *)
Inductive lchain (level : gmap Z Z) (edges : gmap Z (list Edge)) (s : Z) : Z -> Prop :=
| lchain_start : lchain level edges s s
| lchain_edge w i e : lchain level edges s w -> edgeAt edges w i = Some e ->
    admissible level w e -> lchain level edges s (e_v e).

(** What one call of [dfsFlow] from [u] with bottleneck [f] establishes. *)
Record dfs_post (level : gmap Z Z) (t : Z) (edges : gmap Z (list Edge))
    (count : gmap Z nat) (u f r : Z) (edges' : gmap Z (list Edge))
    (count' : gmap Z nat) : Prop := {
  dp_range : 0 <= r <= f;
  dp_skel : same_skel edges edges';
  dp_zero : r = 0 -> edges' = edges;
  dp_anti : forall w i e e', edgeAt edges' w i = Some e ->
    edgeAt edges' (e_v e) (e_r e) = Some e' -> e_f e' = - e_f e;
  dp_cap : forall w i e, edgeAt edges' w i = Some e -> e_f e <= e_c e;
  dp_excess : forall w, excess edges' w
    = excess edges w + (if decide (w = u) then r else 0) - (if decide (w = t) then r else 0);
  dp_frame : forall w i e, edgeAt edges w i = Some e ->
    lvl level w < lvl level u \/ lvl level (e_v e) < lvl level u ->
    edgeAt edges' w i = Some e;
  dp_count_mono : forall w, (cnt count w <= cnt count' w)%nat;
  dp_count_frame : forall w, lvl level w < lvl level u -> cnt count' w = cnt count w;
  dp_dead : deadInv level t edges' count';
  dp_exhausted : r = 0 -> u <> t /\ (length (edgesOf edges u) <= cnt count' u)%nat
}.

(** The set [S] is closed under the edges that are not full. *)
Definition residualClosed (edges : gmap Z (list Edge)) (S : Z -> Prop) : Prop :=
  forall u i e, S u -> edgeAt edges u i = Some e -> e_f e < e_c e -> S (e_v e).

(** The edge [e] with [d] added to its flow. *)
Definition bump (d : Z) (e : Edge) : Edge :=
  mkEdge (e_v e) (e_r e) (e_c e) (e_f e + d).

(** Number of edges that the cursors have not passed yet. *)
Definition remaining (edges : gmap Z (list Edge)) (count : gmap Z nat) : nat :=
  foldr (fun ul acc => (length (snd ul) - cnt count (fst ul) + acc)%nat) O
        (map_to_list edges).

(** The largest level. *)
Definition maxLevel (level : gmap Z Z) : Z :=
  foldr (fun ux acc => Z.max (snd ux) acc) 0 (map_to_list level).

(** Sum of the capacities of a list of edges. *)
Definition sumCap (l : list Edge) : Z := foldr (fun e acc => e_c e + acc) 0 l.

(** Fuel that is enough for every [dfsFlow] of a phase. *)
Definition dfsBound (level : gmap Z Z) (edges : gmap Z (list Edge)) : nat :=
  (remaining edges ∅ + Z.to_nat (maxLevel level + 1) + 1)%nat.

(** The vertices that edges lead to. *)
Definition targets (edges : gmap Z (list Edge)) : list Z :=
  flat_map (fun ul => map e_v (snd ul)) (map_to_list edges).

(** Invariant of the loop of [bfs]: [q] is the queue, [i] its read index. *)
Record bfs_inv (edges : gmap Z (list Edge)) (s : Z) (level : gmap Z Z)
    (q : list Z) (i : nat) : Prop := {
  bi_nodup : NoDup q;
  bi_dom : forall w, In w q <-> is_Some (level !! w);
  bi_nonneg : forall w x, level !! w = Some x -> 0 <= x;
  bi_src : level !! s = Some 0;
  bi_vert : forall w, In w q -> In w (s :: targets edges);
  bi_chain : forall w, is_Some (level !! w) -> lchain level edges s w;
  bi_closed : forall k u j e, (k < i)%nat -> q !! k = Some u ->
    edgeAt edges u j = Some e -> e_f e < e_c e -> is_Some (level !! e_v e)
}.

(** What the visits of some edges [es] out of [u] do in [bfs]. *)
Record bfs_post (u : Z) (es : list Edge) (level : gmap Z Z) (pushed0 : list Z)
    (level' : gmap Z Z) (pushed : list Z) : Prop := {
  bp_ext : forall w x, level !! w = Some x -> level' !! w = Some x;
  bp_new : forall w, is_Some (level' !! w) -> ~ is_Some (level !! w) ->
    level' !! w = Some (lvl level u + 1)
    /\ exists e, In e es /\ e_v e = w /\ e_f e < e_c e;
  bp_pushed : forall w, In w pushed <->
    In w pushed0 \/ (is_Some (level' !! w) /\ ~ is_Some (level !! w));
  bp_nodup : NoDup pushed0 -> (forall w, In w pushed0 -> is_Some (level !! w)) ->
    NoDup pushed;
  bp_all : forall e, In e es -> e_f e < e_c e -> is_Some (level' !! e_v e)
}.

(** What [calcMinCut] leaves behind: a flow on the same edges whose value
    was added to the result, and the levels of the last [bfs], a set that
    holds the source, not the sink, and is closed under the edges that are
    not full. *)
Record dinic_post (edges0 : gmap Z (list Edge)) (s t : Z) (g : Graph) (rv : Z)
    (g' : Graph) (rv' : Z) : Prop := {
  dn_skel : same_skel edges0 (g_edges g');
  dn_flow : flow_ok (g_edges g') s t;
  dn_value : rv' - rv = excess (g_edges g') s - excess (g_edges g) s;
  dn_v : g_v g' = g_v g;
  dn_source : g_level g' !! s = Some 0;
  dn_sink : g_level g' !! t = None;
  dn_closed : residualClosed (g_edges g') (fun w => is_Some (g_level g' !! w))
}.

(** ** The cut *)

Definition zsum {A} (f : A -> Z) (l : list A) : Z := foldr (fun x acc => f x + acc) 0 l.

(** [edge.f === edge.c && edge.c > 0]. *)
Definition saturated (e : Edge) : bool := (e_f e =? e_c e) && (0 <? e_c e).

Definition memb (q : list Z) (v : Z) : bool := existsb (Z.eqb v) q.

(** The edge leaves the set of vertices [q]. *)
Definition crossing (q : list Z) (e : Edge) : bool := negb (memb q (e_v e)).

(** The vertices returned for the set [q] of reached vertices: one
    occurrence of [u] for every saturated edge out of [u] that leaves [q]. *)
Definition cutOf (edges : gmap Z (list Edge)) (q : list Z) : list Z :=
  flat_map (fun u =>
      map (fun _ => u) (List.filter (fun e => saturated e && crossing q e) (edgesOf edges u)))
    q.

(** Flow and capacity over the edges that leave [q]. *)
Definition cutFlow (edges : gmap Z (list Edge)) (q : list Z) : Z :=
  zsum (fun u => zsum (fun e => if crossing q e then e_f e else 0) (edgesOf edges u)) q.

Definition cutCap (edges : gmap Z (list Edge)) (q : list Z) : Z :=
  zsum (fun u => zsum (fun e => if crossing q e then e_c e else 0) (edgesOf edges u)) q.

(** The flow at an index of an adjacency list, 0 where there is no edge. *)
Definition flowAt (edges : gmap Z (list Edge)) (x : Z * nat) : Z :=
  from_option e_f 0 (edgeAt edges (fst x) (snd x)).

(** The position of the partner of the edge at a position. *)
Definition partnerPos (edges : gmap Z (list Edge)) (x : Z * nat) : Z * nat :=
  match edgeAt edges (fst x) (snd x) with
  | Some e => (e_v e, e_r e)
  | None => x
  end.

(** The positions of the edges between two vertices of [q]. *)
Definition innerPos (edges : gmap Z (list Edge)) (q : list Z) : list (Z * nat) :=
  flat_map (fun u =>
      List.filter (fun x => match edgeAt edges (fst x) (snd x) with
                            | Some e => memb q (e_v e)
                            | None => false
                            end)
                  (map (pair u) (seq 0 (length (edgesOf edges u)))))
    q.

(** The saturated edges of the vertices [us], with their origin. *)
Definition saturatedFrom (edges : gmap Z (list Edge)) (us : list Z) : list (Z * Edge) :=
  flat_map (fun u => map (pair u) (List.filter saturated (edgesOf edges u))) us.

(** Invariant of the loop of [bfsTheCut]; [C] is a set that holds the
    source and is closed under the edges that are not full. *)
Record cut_inv (edges : gmap Z (list Edge)) (s : Z) (C : Z -> Prop)
    (st : gmap Z Z * list (Z * Edge)) (q : list Z) (i : nat) : Prop := {
  ki_nodup : NoDup q;
  ki_dom : forall w, In w q <-> is_Some (fst st !! w);
  ki_one : forall w x, fst st !! w = Some x -> x = 1;
  ki_src : In s q;
  ki_vert : forall w, In w q -> In w (s :: targets edges);
  ki_sub : forall w, In w q -> C w;
  ki_closed : forall k u j e, (k < i)%nat -> q !! k = Some u ->
    edgeAt edges u j = Some e -> e_f e < e_c e -> is_Some (fst st !! e_v e);
  ki_cut : snd st = saturatedFrom edges (take i q)
}.

(** What the visits of some edges [es] out of [u] do in [bfsTheCut]. *)
Record cut_post (u : Z) (es : list Edge) (st : gmap Z Z * list (Z * Edge))
    (pushed0 : list Z) (st' : gmap Z Z * list (Z * Edge)) (pushed : list Z) : Prop := {
  kp_ext : forall w x, fst st !! w = Some x -> fst st' !! w = Some x;
  kp_new : forall w, is_Some (fst st' !! w) -> ~ is_Some (fst st !! w) ->
    fst st' !! w = Some 1 /\ exists e, In e es /\ e_v e = w /\ e_f e < e_c e;
  kp_pushed : forall w, In w pushed <->
    In w pushed0 \/ (is_Some (fst st' !! w) /\ ~ is_Some (fst st !! w));
  kp_nodup : NoDup pushed0 -> (forall w, In w pushed0 -> is_Some (fst st !! w)) ->
    NoDup pushed;
  kp_all : forall e, In e es -> e_f e < e_c e -> is_Some (fst st' !! e_v e);
  kp_cut : snd st' = snd st ++ map (pair u) (List.filter saturated es)
}.

(** ** The calls of [addEdge] made by [createGraph] *)

Definition addEdgeCall (graph : Graph) (call : Z * Z * Z) : Graph :=
  addEdge graph (fst (fst call)) (snd (fst call)) (snd call).

Definition neighbourCalls (roomArray : Grid Z) (x y bot : Z) : list (Z * Z * Z) :=
  flat_map (fun d =>
      let nx := x + fst d in
      let ny := y + snd d in
      if is_tag roomArray nx ny NORMAL || is_tag roomArray nx ny TO_EXIT
      then [(bot, positionToVertex nx ny + TOP_OFFSET, MAX_VALUE)]
      else [])
    SURROUND_OFFSETS.

Definition tileCalls (roomArray : Grid Z) (x y : Z) : list (Z * Z * Z) :=
  let top := positionToVertex x y + TOP_OFFSET in
  let bot := top + BOT_OFFSET in
  if is_tag roomArray x y NORMAL then
    (top, bot, 1) :: neighbourCalls roomArray x y bot
  else if is_tag roomArray x y PROTECTED then
    (SOURCE_VERTEX, top, MAX_VALUE) :: (top, bot, 1) :: neighbourCalls roomArray x y bot
  else if is_tag roomArray x y TO_EXIT then
    [(top, SINK_VERTEX, MAX_VALUE)]
  else [].

Definition graphCalls (roomArray : Grid Z) : list (Z * Z * Z) :=
  flat_map (fun x => flat_map (fun y => tileCalls roomArray x y) (range_excl 1 ROOM_MAX_INDEX))
           (range_excl 1 ROOM_MAX_INDEX).

(** What a graph made by the calls [calls] of [addEdge] looks like. *)
Record built (calls : list (Z * Z * Z)) (edges : gmap Z (list Edge)) : Prop := {
  bl_paired : paired edges;
  bl_zero : forall u i e, edgeAt edges u i = Some e -> e_f e = 0;
  bl_fwd : forall u i e, edgeAt edges u i = Some e ->
    e_c e = 0 \/ In (u, e_v e, e_c e) calls;
  bl_has : forall u v c, In (u, v, c) calls ->
    exists i e, edgeAt edges u i = Some e /\ e_v e = v /\ e_c e = c;
  bl_capsum : forall w, sumCap (edgesOf edges w)
    = zsum (fun call : Z * Z * Z => if fst (fst call) =? w then snd call else 0) calls;
  bl_len : forall w, (length (edgesOf edges w) <= 2 * length calls)%nat
}.

(** The tile [(x, y)] is not on the border of the room. *)
Definition interior (x y : Z) : Prop := 1 <= x <= 48 /\ 1 <= y <= 48.

(** The solver has run on the graph of [roomArray]: [count] is the value
    it returned, [g'] the graph it left, [q] a set of vertices with the
    source, without the sink, that no edge with capacity left leaves. *)
Record solved (roomArray : Grid Z) (count : Z) (g' : Graph) (q : list Z) : Prop := {
  sv_skel : same_skel (g_edges (buildGraph roomArray)) (g_edges g');
  sv_flow : flow_ok (g_edges g') SOURCE_VERTEX SINK_VERTEX;
  sv_count : count = excess (g_edges g') SOURCE_VERTEX;
  sv_nodup : NoDup q;
  sv_source : In SOURCE_VERTEX q;
  sv_sink : ~ In SINK_VERTEX q;
  sv_closed : residualClosed (g_edges g') (fun w => In w q)
}.

(** ** The tags of the classifier, tile by tile *)

Definition inBounds (bounds : Bounds) (x y : Z) : bool :=
  (x1 bounds <=? x) && (x <=? x2 bounds) && (y1 bounds <=? y) && (y <=? y2 bounds).

(** The tag that the first loop of the classifier leaves at [(x, y)]. *)
Definition baseTag (terrainData : TerrainData) (bounds : Bounds) (x y : Z) : Z :=
  if inBounds bounds x y && negb (terrainData x y =? TERRAIN_MASK_WALL) then
    if (x =? 0) || (y =? 0) || (x =? ROOM_MAX_INDEX) || (y =? ROOM_MAX_INDEX) then EXIT
    else if (x =? x1 bounds) || (y =? y1 bounds) || (x =? x2 bounds) || (y =? y2 bounds)
         then TO_EXIT
         else NORMAL
  else UNWALKABLE.

Definition exitAt (terrainData : TerrainData) (bounds : Bounds) (x y : Z) : bool :=
  baseTag terrainData bounds x y =? EXIT.

(** The tests of the second and third loops. *)
Definition nearLeftRight (terrainData : TerrainData) (bounds : Bounds) (x y : Z) : bool :=
  (1 <=? y) && (y <? ROOM_MAX_INDEX)
  && (((x =? 1)
       && (exitAt terrainData bounds 0 (y - 1) || exitAt terrainData bounds 0 y
           || exitAt terrainData bounds 0 (y + 1)))
      || ((x =? ROOM_MAX_INDEX - 1)
          && (exitAt terrainData bounds ROOM_MAX_INDEX (y - 1)
              || exitAt terrainData bounds ROOM_MAX_INDEX y
              || exitAt terrainData bounds ROOM_MAX_INDEX (y + 1)))).

Definition nearTopBottom (terrainData : TerrainData) (bounds : Bounds) (x y : Z) : bool :=
  (1 <=? x) && (x <? ROOM_MAX_INDEX)
  && (((y =? 1)
       && (exitAt terrainData bounds (x - 1) 0 || exitAt terrainData bounds x 0
           || exitAt terrainData bounds (x + 1) 0))
      || ((y =? ROOM_MAX_INDEX - 1)
          && (exitAt terrainData bounds (x - 1) ROOM_MAX_INDEX
              || exitAt terrainData bounds x ROOM_MAX_INDEX
              || exitAt terrainData bounds (x + 1) ROOM_MAX_INDEX))).

(** The tag of [(x, y)] in the array that the classifier returns. *)
Definition classTag (terrainData : TerrainData) (bounds : Bounds) (x y : Z) : Z :=
  if nearLeftRight terrainData bounds x y || nearTopBottom terrainData bounds x y
  then TO_EXIT
  else baseTag terrainData bounds x y.

(** [a] is a 50 x 50 array whose cell [(x, y)] holds [tag x y]. *)
Definition tagged (a : Grid Z) (tag : Z -> Z -> Z) : Prop :=
  isField a /\ forall x y, inRoom x y -> arr_get a x y = Some (tag x y).

(** ** Invariants of the flood fill of [deleteTilesToDeadEnds] *)

Definition normalCount (roomArray : Grid Z) : nat :=
  length (List.filter (fun p => is_tag roomArray (fst p) (snd p) NORMAL) roomCells).

(** [v] is the vertex number of a tile of the room. *)
Definition tileVertex (v : Z) : Prop := 0 <= v < ROOM_SIZE * ROOM_SIZE.

(** What the scan of the offsets [ds] around [(x, y)] establishes. *)
Record flood_post (x y : Z) (ds : list (Z * Z)) (ra : Grid Z) (pushed : list Z)
    (ra' : Grid Z) (pushed' : list Z) : Prop := {
  fp_field : isField ra';
  fp_frame : forall x' y',
    arr_get ra' x' y' = arr_get ra x' y'
    \/ (arr_get ra x' y' = Some NORMAL /\ arr_get ra' x' y' = Some TO_EXIT
        /\ In (positionToVertex x' y') pushed');
  fp_done : forall d, In d ds -> arr_get ra' (x + fst d) (y + snd d) <> Some NORMAL;
  fp_pushed : exists more, pushed' = pushed ++ more /\ forall v, In v more -> tileVertex v;
  fp_count : (normalCount ra' + length pushed' <= normalCount ra + length pushed)%nat
}.

(** Invariant of the flood fill: only NORMAL tiles have changed, to
    TO_EXIT, and every TO_EXIT tile is on the stack or has no NORMAL
    neighbour left. *)
Record flood_inv (ra0 : Grid Z) (ra : Grid Z) (stack : list Z) : Prop := {
  fl_field : isField ra;
  fl_frame : forall x y,
    arr_get ra x y = arr_get ra0 x y
    \/ (arr_get ra0 x y = Some NORMAL /\ arr_get ra x y = Some TO_EXIT);
  fl_closed : forall x y, arr_get ra x y = Some TO_EXIT ->
    In (positionToVertex x y) stack
    \/ forall d, In d SURROUND_OFFSETS -> arr_get ra (x + fst d) (y + snd d) <> Some NORMAL;
  fl_stack : forall v, In v stack -> tileVertex v
}.

(** ** Paths between tiles *)

(** The tiles an intruder can stand on once the tiles of [cut] hold a
    rampart: the tiles of the room that are not a wall and not in [cut]. *)
Definition walkable (terrainData : TerrainData) (cut : list Position) (p : Z * Z) : Prop :=
  inRoom (fst p) (snd p)
  /\ terrainData (fst p) (snd p) <> TERRAIN_MASK_WALL
  /\ ~ In (mkPos (fst p) (snd p)) cut.

(** [connected ok p e]: a path of 8-neighbour steps leads from [p] to [e]
    over tiles that all satisfy [ok], [p] and [e] included. *)
Inductive connected (ok : Z * Z -> Prop) : Z * Z -> Z * Z -> Prop :=
| connected_here p : ok p -> connected ok p p
| connected_step p n e : ok p -> neighbour8 p n -> connected ok n e -> connected ok p e.

(** A tile of an exit: a tile of the border of the room that is not a wall. *)
Definition exitTile (terrainData : TerrainData) (p : Z * Z) : Prop :=
  inRoom (fst p) (snd p)
  /\ (fst p = 0 \/ snd p = 0 \/ fst p = ROOM_MAX_INDEX \/ snd p = ROOM_MAX_INDEX)
  /\ terrainData (fst p) (snd p) <> TERRAIN_MASK_WALL.

(** A tile that [createGraph] has tagged PROTECTED. *)
Definition protectedTile (terrainData : TerrainData) (coords : list (Z * Z))
    (bounds : Bounds) (p : Z * Z) : Prop :=
  arr_get (protectedRoomArray terrainData coords bounds) (fst p) (snd p) = Some PROTECTED.

(** The array of [deleteTilesToDeadEnds] before the flood fill. *)
Definition pruneArray (terrainData : TerrainData) (cut : list Position) : Grid Z :=
  fold_left markCutTile (rev cut) (createRoom2DArrayFromTerrain terrainData defaultBounds).

(** The tiles that [getCutTiles] returns for the cut [cut] found by the
    solver, [flooded] being the array after the flood fill. *)
Definition prunedCut (bounds : Bounds) (flooded : Grid Z) (cut : list Position)
    : list Position :=
  if (0 <? Z.of_nat (length cut)) && negb (isWholeRoom bounds)
  then List.filter (leadsToExit flooded) cut
  else cut.

(** The tiles on the side of the protected tiles, for the set [q] of
    vertices on the side of the source: the inner tiles tagged NORMAL by
    the classifier whose bottom vertex is in [q]. *)
Definition insideCut (terrainData : TerrainData) (bounds : Bounds) (q : list Z)
    (p : Z * Z) : Prop :=
  classTag terrainData bounds (fst p) (snd p) = NORMAL
  /\ In (positionToVertex (fst p) (snd p) + TOP_OFFSET + BOT_OFFSET) q.

(** The tiles on the side of the exits, for the array [flooded] that the
    flood fill of the pruning leaves: the walkable tiles it tags EXIT or
    TO_EXIT. *)
Definition floodSide (terrainData : TerrainData) (cut : list Position)
    (flooded : Grid Z) (p : Z * Z) : Prop :=
  walkable terrainData cut p
  /\ (arr_get flooded (fst p) (snd p) = Some EXIT
      \/ arr_get flooded (fst p) (snd p) = Some TO_EXIT).

(** ** Invariants of the exposure BFS of [calculate] *)

(** The test of the exposure BFS on the tag of a tile: not a wall, not a
    rampart. *)
Definition passableTag (tag : Z) : bool :=
  negb (tag =? UNWALKABLE) && negb (tag =? RAMPART_MIN).

(** A tile of the room that the exposure BFS can enter. *)
Definition passable (roomArray : Grid Z) (p : Z * Z) : Prop :=
  inRoom (fst p) (snd p)
  /\ exists tag, arr_get roomArray (fst p) (snd p) = Some tag /\ passableTag tag = true.

(** [p] is reached from a tile tagged EXIT over tiles that are neither
    UNWALKABLE nor ramparts. *)
Definition exposedFrom (roomArray : Grid Z) (p : Z * Z) : Prop :=
  exists e, arr_get roomArray (fst e) (snd e) = Some EXIT
            /\ connected (passable roomArray) e p.

(** Invariant of the loop of the exposure BFS; [ra1] is the array when the
    BFS starts, before the exits are retagged. *)
Record expose_inv (ra1 : Grid Z) (st : Grid Z * Grid bool) (q : list (Z * Z))
    (i : nat) : Prop := {
  xi_fieldR : isField (fst st);
  xi_fieldE : isField (snd st);
  xi_explored : forall p, exploredAt (snd st) p ->
    arr_get (fst st) (fst p) (snd p) = Some EXPOSED /\ exposedFrom ra1 p;
  xi_frame : forall x y, isExplored (snd st) x y = false ->
    arr_get (fst st) x y = arr_get ra1 x y;
  xi_queue : forall p, In p q <-> exploredAt (snd st) p;
  xi_nodup : NoDup q;
  xi_closed : forall k p, (k < i)%nat -> q !! k = Some p ->
    forall n, neighbour8 p n -> passable ra1 n -> exploredAt (snd st) n
}.

(** What the visits of some neighbours of the tile [p] do to the state and
    to the list of pushed tiles. *)
Record expose_post (p : Z * Z) (st : Grid Z * Grid bool) (pushed0 : list (Z * Z))
    (st' : Grid Z * Grid bool) (pushed : list (Z * Z)) : Prop := {
  xp_fieldR : isField (fst st) -> isField (fst st');
  xp_fieldE : isField (snd st) -> isField (snd st');
  xp_keep : forall t, exploredAt (snd st) t ->
    exploredAt (snd st') t
    /\ arr_get (fst st') (fst t) (snd t) = arr_get (fst st) (fst t) (snd t);
  xp_new : forall t, exploredAt (snd st') t -> ~ exploredAt (snd st) t ->
    neighbour8 p t /\ passable (fst st) t
    /\ arr_get (fst st') (fst t) (snd t) = Some EXPOSED;
  xp_frame : forall x y, isExplored (snd st') x y = false ->
    arr_get (fst st') x y = arr_get (fst st) x y;
  xp_pushed : forall t, In t pushed <->
    In t pushed0 \/ (exploredAt (snd st') t /\ ~ exploredAt (snd st) t);
  xp_nodup : NoDup pushed0 -> (forall t, In t pushed0 -> exploredAt (snd st) t) ->
    NoDup pushed
}.

(** The array of [calculate] when the exposure BFS starts: the tags of the
    classifier with the ramparts marked. *)
Definition rampartArray (terrainData : TerrainData) (ramparts : list Position) : Grid Z :=
  fold_left markRampart ramparts (createRoom2DArrayFromTerrain terrainData defaultBounds).

(** ** Graphs made through [addEdge] *)

(** A call [addEdge(u, v, c)] on a graph of [vertexCount] vertices that
    stays inside the arrays of the class: both ends are vertices, the edge
    is no loop and the capacity is not negative. *)
Definition validCall (vertexCount : Z) (call : Z * Z * Z) : Prop :=
  0 <= fst (fst call) < vertexCount /\ 0 <= snd (fst call) < vertexCount
  /\ fst (fst call) <> snd (fst call) /\ 0 <= snd call.

(** [Number.MAX_SAFE_INTEGER]: sums of integers below it are exact. *)
Definition MAX_SAFE_INTEGER : Z := 2 ^ 53 - 1.

(** The calls are valid and their capacities add up exactly. *)
Definition validCalls (vertexCount : Z) (calls : list (Z * Z * Z)) : Prop :=
  (forall call, In call calls -> validCall vertexCount call)
  /\ zsum (fun call : Z * Z * Z => snd call) calls <= MAX_SAFE_INTEGER.

(** [new Graph(vertexCount)] followed by the calls of [addEdge]. *)
Definition graphOf (vertexCount : Z) (calls : list (Z * Z * Z)) : Graph :=
  fold_left addEdgeCall calls (newGraph vertexCount).

(** [w] is reached from [s] along edges that are not full. *)
Inductive residualReach (edges : gmap Z (list Edge)) (s : Z) : Z -> Prop :=
| reach_start : residualReach edges s s
| reach_edge u i e : residualReach edges s u -> edgeAt edges u i = Some e ->
    e_f e < e_c e -> residualReach edges s (e_v e).

(** A state of the graph of [calls]: the same vertices and edges, any flow
    numbers and levels. *)
Definition stateOf (vertexCount : Z) (calls : list (Z * Z * Z)) (g : Graph) : Prop :=
  g_v g = vertexCount /\ same_skel (g_edges (graphOf vertexCount calls)) (g_edges g).

(** ** What the flood fill of the pruning reaches *)

(** The tiles that the flood fill starts from or can enter: those tagged
    TO_EXIT or NORMAL in the array [ra0] it starts with. *)
Definition floodOpen (ra0 : Grid Z) (p : Z * Z) : Prop :=
  arr_get ra0 (fst p) (snd p) = Some NORMAL \/ arr_get ra0 (fst p) (snd p) = Some TO_EXIT.

(** A path over such tiles joins [p] to a tile tagged TO_EXIT in [ra0]. *)
Definition floodable (ra0 : Grid Z) (p : Z * Z) : Prop :=
  exists e, arr_get ra0 (fst e) (snd e) = Some TO_EXIT /\ connected (floodOpen ra0) e p.

(** The flood fill only tags tiles that a path joins to its seeds, and
    its stack holds tiles tagged TO_EXIT. *)
Record flood_sound (ra0 ra : Grid Z) (stack : list Z) : Prop := {
  fs_inv : flood_inv ra0 ra stack;
  fs_reach : forall x y, arr_get ra x y = Some TO_EXIT -> floodable ra0 (x, y);
  fs_stack : forall v, In v stack ->
    exists x y, v = positionToVertex x y /\ arr_get ra x y = Some TO_EXIT
}.

(** ** Placement of building clusters *)

Definition isOnWallOrEdgePure (x y : Z) (terrainData : TerrainData) : bool :=
  if (x <=? 0) || (x >=? ROOM_MAX_INDEX) || (y <=? 0) || (y >=? ROOM_MAX_INDEX)
  then true
  else terrainData x y =? TERRAIN_MASK_WALL.

Definition isNearWallOrEdgePure (x y : Z) (terrainData : TerrainData) : bool :=
  if (x <=? 1) || (x >=? ROOM_MAX_INDEX - 1) || (y <=? 1) || (y >=? ROOM_MAX_INDEX - 1)
  then true
  else existsb (fun d => terrainData (x + fst d) (y + snd d) =? TERRAIN_MASK_WALL)
               SURROUND_OFFSETS.

(** [built[x][y]] read as a condition: a missing cell is falsy. *)
Definition isBuilt (built : Grid bool) (x y : Z) : bool :=
  default false (arr_get built x y).

Section Clusters.
Context {K : Type} `{Countable K}.

(** A [BuildingCluster]: its structure types, in the order in which
    [for (const structureType in cluster)] visits them, each with the
    relative positions of its structures.  A [RoomLayout] maps structure
    types to the positions placed so far. *)
Definition BuildingCluster : Type := list (K * list (Z * Z)).
Definition RoomLayout : Type := gmap K (list (Z * Z)).

(** The three tests of [canPutPure] for one relative position. *)
Definition canPut_offset (x y : Z) (built : Grid bool) (terrainData : TerrainData)
    (d : Z * Z) : bool :=
  let nx := x + fst d in
  let ny := y + snd d in
  if (nx <? 0) || (nx >=? ROOM_SIZE) || (ny <? 0) || (ny >=? ROOM_SIZE) then false
  else if isBuilt built nx ny then false
  else if terrainData nx ny =? TERRAIN_MASK_WALL then false
  else true.

Definition canPutPure (x y : Z) (cluster : BuildingCluster) (built : Grid bool)
    (terrainData : TerrainData) : bool :=
  forallb (fun entry => forallb (canPut_offset x y built terrainData) (snd entry)) cluster.

(** One relative position in [put]: [None] is the [TypeError] of
    [built[nx][ny] = true] when [built] has no column [nx].  (For [ny]
    outside the column the source adds a property to the column, which the
    guarded reads of [canPutPure] never see; the model leaves the column.) *)
Definition put_offset (x y : Z) (st : option (list (Z * Z) * Grid bool)) (d : Z * Z)
    : option (list (Z * Z) * Grid bool) :=
  match st with
  | None => None
  | Some (placed, built) =>
      let nx := x + fst d in
      let ny := y + snd d in
      if has_column built nx
      then Some (placed ++ [(nx, ny)], arr_set built nx ny true)
      else None
  end.

Definition put_type (x y : Z) (st : option (RoomLayout * Grid bool))
    (entry : K * list (Z * Z)) : option (RoomLayout * Grid bool) :=
  match st with
  | None => None
  | Some (layout, built) =>
      let placed := default [] (layout !! fst entry) in
      match fold_left (put_offset x y) (snd entry) (Some (placed, built)) with
      | None => None
      | Some (placed, built) => Some (<[fst entry := placed]> layout, built)
      end
  end.

(** [put]: the layout and [built] are modified in place in the source and
    returned here. *)
Definition put (x y : Z) (layout : RoomLayout) (cluster : BuildingCluster)
    (built : Grid bool) : option (RoomLayout * Grid bool) :=
  fold_left (put_type x y) cluster (Some (layout, built)).

(** The tiles that a cluster placed at [(x, y)] covers, in the order in
    which [put] visits them, and those of one structure type. *)
Definition footprint (x y : Z) (cluster : BuildingCluster) : list (Z * Z) :=
  map (fun d => (x + fst d, y + snd d)) (flat_map snd cluster).

Definition footprintOf (x y : Z) (cluster : BuildingCluster) (k : K) : list (Z * Z) :=
  map (fun d => (x + fst d, y + snd d))
      (flat_map snd (List.filter (fun entry => bool_decide (fst entry = k)) cluster)).
End Clusters.

(** The structure types that key a [RoomLayout]. *)
Inductive StructureType : Type :=
| STRUCTURE_SPAWN | STRUCTURE_EXTENSION | STRUCTURE_EXTRACTOR | STRUCTURE_FACTORY
| STRUCTURE_LAB | STRUCTURE_TOWER | STRUCTURE_LINK | STRUCTURE_NUKER
| STRUCTURE_OBSERVER | STRUCTURE_POWER_SPAWN | STRUCTURE_STORAGE | STRUCTURE_TERMINAL
| STRUCTURE_CONTAINER | STRUCTURE_ROAD.

Definition structureIndex (s : StructureType) : positive :=
  match s with
  | STRUCTURE_SPAWN => 1 | STRUCTURE_EXTENSION => 2 | STRUCTURE_EXTRACTOR => 3
  | STRUCTURE_FACTORY => 4 | STRUCTURE_LAB => 5 | STRUCTURE_TOWER => 6
  | STRUCTURE_LINK => 7 | STRUCTURE_NUKER => 8 | STRUCTURE_OBSERVER => 9
  | STRUCTURE_POWER_SPAWN => 10 | STRUCTURE_STORAGE => 11 | STRUCTURE_TERMINAL => 12
  | STRUCTURE_CONTAINER => 13 | STRUCTURE_ROAD => 14
  end%positive.

Definition structureOfIndex (p : positive) : option StructureType :=
  match p with
  | 1 => Some STRUCTURE_SPAWN | 2 => Some STRUCTURE_EXTENSION
  | 3 => Some STRUCTURE_EXTRACTOR | 4 => Some STRUCTURE_FACTORY
  | 5 => Some STRUCTURE_LAB | 6 => Some STRUCTURE_TOWER | 7 => Some STRUCTURE_LINK
  | 8 => Some STRUCTURE_NUKER | 9 => Some STRUCTURE_OBSERVER
  | 10 => Some STRUCTURE_POWER_SPAWN | 11 => Some STRUCTURE_STORAGE
  | 12 => Some STRUCTURE_TERMINAL | 13 => Some STRUCTURE_CONTAINER
  | 14 => Some STRUCTURE_ROAD | _ => None
  end%positive.

#[global] Instance StructureType_eq_dec : EqDecision StructureType :=
  fun a b => ltac:(unfold Decision; decide equality).

#[global] Instance StructureType_countable : Countable StructureType :=
  {| encode := structureIndex;
     decode := structureOfIndex;
     decode_encode := ltac:(intros []; reflexivity) |}.

(** The clusters of [buildLayout], with their relative positions. *)
Definition storageCluster : @BuildingCluster StructureType :=
  [(STRUCTURE_STORAGE, [(0, 0)]); (STRUCTURE_LINK, [(0, 1)])].

Definition labCluster : @BuildingCluster StructureType :=
  [(STRUCTURE_LAB,
    [(-1, -1); (0, -1); (1, -1); (-1, 0); (0, 0); (1, 0); (-1, 1); (0, 1); (1, 1); (0, 2)])].

Definition towerCluster : @BuildingCluster StructureType :=
  [(STRUCTURE_TOWER, [(-1, -1); (0, -1); (1, -1)])].

Definition extensionCluster : @BuildingCluster StructureType :=
  [(STRUCTURE_EXTENSION, [(-1, -1); (0, -1); (1, -1); (-1, 0); (1, 0)])].

Definition observerCluster : @BuildingCluster StructureType :=
  [(STRUCTURE_OBSERVER, [(0, 0)])].

(** ** Sums and multiples of arrays *)

(** The cost matrices of [buildLayout] hold fractions, so the two
    functions are modelled over any type of numbers with its 0, its sum
    and its product; no law of arithmetic is assumed. *)
Section ArrayArithmetic.
Context {N : Type} (zero : N) (add mul : N -> N -> N).

(** [arr[x]?.[y] ?? 0]. *)
Definition cellOrZero (arr : Grid N) (x y : Z) : N := default zero (arr_get arr x y).

(** [result[x][y] += arr[x]?.[y] ?? 0] on the 50 x 50 array [result]. *)
Definition addCell (arr : Grid N) (x : Z) (result : Grid N) (y : Z) : Grid N :=
  match arr_get result x y with
  | Some r => arr_set result x y (add r (cellOrZero arr x y))
  | None => result
  end.

Definition addArray (result arr : Grid N) : Grid N :=
  fold_left (fun result x => fold_left (addCell arr x) (range_excl 0 ROOM_SIZE) result)
            (range_excl 0 ROOM_SIZE) result.

Definition addArrays (arrays : list (Grid N)) : Grid N :=
  fold_left addArray arrays (initArr zero).

Definition multiplyArray (arr : Grid N) (scalar : N) : Grid N :=
  fold_left (fun result x =>
      fold_left (fun result y => arr_set result x y (mul (cellOrZero arr x y) scalar))
                (range_excl 0 ROOM_SIZE) result)
    (range_excl 0 ROOM_SIZE) (initArr zero).

(** The sum that [addArrays] accumulates in one cell, from [acc] on. *)
Definition cellSum (arrays : list (Grid N)) (x y : Z) (acc : N) : N :=
  fold_left (fun acc arr => add acc (cellOrZero arr x y)) arrays acc.
End ArrayArithmetic.

(** ** Sets of tiles that block the way to the exits *)

(** [escapes roomArray T p]: from the inner tile [p], tagged NORMAL or
    PROTECTED and not in [T], steps of the 8-neighbourhood over inner tiles
    tagged NORMAL that are not in [T] lead next to an inner tile tagged
    TO_EXIT.  These are the ways through the graph of [createGraph] once
    the tiles of [T] hold a rampart. *)
Inductive escapes (roomArray : Grid Z) (T : list Position) : Z * Z -> Prop :=
| escapes_exit p n :
    interior (fst p) (snd p) ->
    arr_get roomArray (fst p) (snd p) = Some NORMAL
    \/ arr_get roomArray (fst p) (snd p) = Some PROTECTED ->
    ~ In (mkPos (fst p) (snd p)) T ->
    neighbour8 p n -> interior (fst n) (snd n) ->
    arr_get roomArray (fst n) (snd n) = Some TO_EXIT ->
    escapes roomArray T p
| escapes_step p n :
    interior (fst p) (snd p) ->
    arr_get roomArray (fst p) (snd p) = Some NORMAL
    \/ arr_get roomArray (fst p) (snd p) = Some PROTECTED ->
    ~ In (mkPos (fst p) (snd p)) T ->
    neighbour8 p n -> arr_get roomArray (fst n) (snd n) = Some NORMAL ->
    escapes roomArray T n ->
    escapes roomArray T p.

(** No protected tile escapes [T]. *)
Definition blocks (roomArray : Grid Z) (T : list Position) : Prop :=
  forall x y, interior x y -> arr_get roomArray x y = Some PROTECTED ->
    ~ escapes roomArray T (x, y).

(** The call makes the edge from the top to the bottom vertex of a tile
    of [T]. *)
Definition cutEdge (T : list Position) (call : Z * Z * Z) : bool :=
  existsb (fun t => fst (fst call) =? positionToVertex (px t) (py t) + TOP_OFFSET) T
  && (snd (fst call) =? fst (fst call) + BOT_OFFSET).

(** The graph of [createGraph] without the edges through the tiles of [T]. *)
Definition openCalls (roomArray : Grid Z) (T : list Position) : list (Z * Z * Z) :=
  List.filter (fun call => negb (cutEdge T call)) (graphCalls roomArray).

Definition openGraph (roomArray : Grid Z) (T : list Position) : Graph :=
  fold_left addEdgeCall (openCalls roomArray T) (newGraph GRAPH_VERTEX_COUNT).

(** From the vertex [v] of the graph the sink is reached without an edge
    through a tile of [T], told by the kind of the vertex. *)
Definition escapesVertex (roomArray : Grid Z) (T : list Position) (v : Z) : Prop :=
  v = SINK_VERTEX
  \/ (v = SOURCE_VERTEX
      /\ exists x y, interior x y /\ arr_get roomArray x y = Some PROTECTED
           /\ escapes roomArray T (x, y))
  \/ (exists x y, v = positionToVertex x y + TOP_OFFSET /\ interior x y
        /\ (arr_get roomArray x y = Some TO_EXIT \/ escapes roomArray T (x, y)))
  \/ (exists x y, v = positionToVertex x y + TOP_OFFSET + BOT_OFFSET /\ interior x y
        /\ (arr_get roomArray x y = Some NORMAL \/ arr_get roomArray x y = Some PROTECTED)
        /\ exists n, neighbour8 (x, y) n /\ interior (fst n) (snd n)
             /\ (arr_get roomArray (fst n) (snd n) = Some TO_EXIT
                 \/ (arr_get roomArray (fst n) (snd n) = Some NORMAL
                     /\ escapes roomArray T n))).

(** ** Distances in the room *)

(** [v] is the distance of the tile [p] from the seed [s]: the length of
    a shortest walk from [s] to [p] over tiles of the room that are not
    walls (the seed may be one). *)
Definition distanceFrom (terrainData : TerrainData) (s p : Z * Z) (v : Z) : Prop :=
  walk (fieldStep terrainData) s v p
  /\ forall n, walk (fieldStep terrainData) s n p -> v <= n.

(** [p] lies within [maxRange] steps of the seed [s]. *)
Definition withinRange (terrainData : TerrainData) (s : Z * Z) (maxRange : Z) (p : Z * Z)
    : Prop :=
  exists n, n <= maxRange /\ walk (fieldStep terrainData) s n p.

(** ** Terrains and inputs of the scenarios *)

(** A room without walls. *)
Definition openTerrain : TerrainData := fun _ _ => 0.

(** A room whose only wall is the tile [(wx, wy)]. *)
Definition wallAt (wx wy : Z) : TerrainData :=
  fun x y => if (x =? wx) && (y =? wy) then TERRAIN_MASK_WALL else 0.

(** The eight tiles around [(25, 25)]. *)
Definition ring25 : list Position :=
  [mkPos 24 24; mkPos 25 24; mkPos 26 24; mkPos 24 25; mkPos 26 25;
   mkPos 24 26; mkPos 25 26; mkPos 26 26].

(** Bounds that [createGraph] rejects, as the specification lists them. *)
Definition invalidBounds (bounds : Bounds) : Prop :=
  x1 bounds >= x2 bounds \/ y1 bounds >= y2 bounds
  \/ ~ (0 <= x1 bounds <= 49) \/ ~ (0 <= y1 bounds <= 49)
  \/ ~ (0 <= x2 bounds <= 49) \/ ~ (0 <= y2 bounds <= 49).

(** Fuel that is enough for the open room. *)
Definition openRoomFuel : nat := Z.to_nat 20000.

(** The tiles that are left when the tiles of [cut] are removed from the
    tiles tagged NORMAL only: a tile of [cut] with another tag stays. *)
Definition normalWalkable (terrainData : TerrainData) (roomArray : Grid Z)
    (cut : list Position) (p : Z * Z) : Prop :=
  inRoom (fst p) (snd p)
  /\ terrainData (fst p) (snd p) <> TERRAIN_MASK_WALL
  /\ ~ (In (mkPos (fst p) (snd p)) cut
        /\ arr_get roomArray (fst p) (snd p) = Some NORMAL).

(** A graph of four vertices: two paths from 0 to 3 and an edge across. *)
Definition diamondCalls : list (Z * Z * Z) :=
  [(0, 1, 3); (0, 2, 2); (1, 2, 1); (1, 3, 2); (2, 3, 3)].
(** * Properties *)

(** ** More fuel gives the same result *)

Section WorkListFuel.
Context {St A : Type} (body : St -> A -> St * list A).

Lemma queue_loop_mono fuel fuel' st queue index r :
  (fuel <= fuel')%nat ->
  queue_loop body fuel st queue index = Some r ->
  queue_loop body fuel' st queue index = Some r.
Proof.
  revert fuel' st queue index.
  induction fuel as [|fuel IH]; intros fuel' st queue index Hle H; [discriminate|].
  destruct fuel' as [|fuel']; [lia|].
  simpl in *. destruct (queue !! index) as [u|]; [|exact H].
  destruct (body st u) as [st' pushed]. apply IH; [lia|exact H].
Qed.

Lemma stack_loop_mono fuel fuel' st stack r :
  (fuel <= fuel')%nat ->
  stack_loop body fuel st stack = Some r ->
  stack_loop body fuel' st stack = Some r.
Proof.
  revert fuel' st stack.
  induction fuel as [|fuel IH]; intros fuel' st stack Hle H; [discriminate|].
  destruct fuel' as [|fuel']; [lia|].
  simpl in *. destruct stack as [|u rest]; [exact H|].
  destruct (body st u) as [st' pushed]. apply IH; [lia|exact H].
Qed.
End WorkListFuel.

Lemma bfs_mono fuel fuel' g s t r :
  (fuel <= fuel')%nat -> bfs fuel g s t = Some r -> bfs fuel' g s t = Some r.
Proof.
  unfold bfs. intros Hle H. destruct (t >=? g_v g); [exact H|].
  destruct (queue_loop _ fuel _ _ _) as [[level q]|] eqn:E; [|discriminate].
  rewrite (queue_loop_mono _ _ _ _ _ _ _ Hle E). exact H.
Qed.

Lemma dfsFlow_mono fuel : forall fuel' level edges u f t count r,
  (fuel <= fuel')%nat ->
  dfsFlow fuel level edges u f t count = Some r ->
  dfsFlow fuel' level edges u f t count = Some r.
Proof.
  induction fuel as [|fuel IH]; intros fuel' level edges u f t count r Hle H;
    [discriminate|].
  destruct fuel' as [|fuel']; [lia|].
  simpl in *. destruct (u =? t); [exact H|].
  destruct (edgesOf edges u !! cnt count u) as [edge|]; [|exact H].
  destruct (_ && _).
  - destruct (dfsFlow fuel level edges (e_v edge) _ t count) as [[[r1 e1] c1]|] eqn:E;
      [|discriminate].
    rewrite (IH fuel' _ _ _ _ _ _ _ ltac:(lia) E).
    destruct (0 <? r1); [exact H|]. apply IH; [lia|exact H].
  - apply IH; [lia|exact H].
Qed.

Lemma blockingFlow_mono fuel : forall fuel' fuelD fuelD' level edges s t count rv r,
  (fuel <= fuel')%nat -> (fuelD <= fuelD')%nat ->
  blockingFlow fuel fuelD level edges s t count rv = Some r ->
  blockingFlow fuel' fuelD' level edges s t count rv = Some r.
Proof.
  induction fuel as [|fuel IH]; intros fuel' fuelD fuelD' level edges s t count rv r
    Hle HleD H; [discriminate|].
  destruct fuel' as [|fuel']; [lia|].
  simpl in *.
  destruct (dfsFlow fuelD level edges s MAX_VALUE t count) as [[[r1 e1] c1]|] eqn:E;
    [|discriminate].
  rewrite (dfsFlow_mono _ _ _ _ _ _ _ _ _ HleD E).
  destruct (0 <? r1); [|exact H]. eapply IH; [lia|exact HleD|exact H].
Qed.

Lemma blocking_mono_both fuel fuel' level edges s t count rv r :
  blockingFlow fuel fuel level edges s t count rv = Some r ->
  (fuel <= fuel')%nat ->
  blockingFlow fuel' fuel' level edges s t count rv = Some r.
Proof. intros H Hle. eapply blockingFlow_mono; eauto. Qed.

Lemma dinicPhases_mono fuel : forall fuel' fuelI fuelI' g s t rv r,
  (fuel <= fuel')%nat -> (fuelI <= fuelI')%nat ->
  dinicPhases fuel fuelI g s t rv = Some r ->
  dinicPhases fuel' fuelI' g s t rv = Some r.
Proof.
  induction fuel as [|fuel IH]; intros fuel' fuelI fuelI' g s t rv r Hle HleI H;
    [discriminate|].
  destruct fuel' as [|fuel']; [lia|].
  simpl in *.
  destruct (bfs fuelI g s t) as [[b g1]|] eqn:E; [|discriminate].
  rewrite (bfs_mono _ _ _ _ _ _ HleI E).
  destruct b; [|exact H].
  destruct (blockingFlow fuelI fuelI _ _ s t _ rv) as [[rv1 e1]|] eqn:E1; [|discriminate].
  rewrite (blockingFlow_mono _ _ _ _ _ _ _ _ _ _ _ HleI HleI E1).
  eapply IH; [lia|exact HleI|exact H].
Qed.

Lemma calcMinCut_mono fuel fuel' g s t r :
  (fuel <= fuel')%nat -> calcMinCut fuel g s t = Some r -> calcMinCut fuel' g s t = Some r.
Proof.
  unfold calcMinCut. intros Hle H. destruct (s =? t); [exact H|].
  eapply dinicPhases_mono; eauto.
Qed.

Lemma bfsTheCut_mono fuel fuel' g s r :
  (fuel <= fuel')%nat -> bfsTheCut fuel g s = Some r -> bfsTheCut fuel' g s = Some r.
Proof.
  unfold bfsTheCut. intros Hle H.
  destruct (queue_loop _ fuel _ _ _) as [[[level ec] q]|] eqn:E; [|discriminate].
  rewrite (queue_loop_mono _ _ _ _ _ _ _ Hle E). exact H.
Qed.

Lemma deleteTilesToDeadEnds_mono fuel fuel' terrainData cut r :
  (fuel <= fuel')%nat ->
  deleteTilesToDeadEnds fuel terrainData cut = Some r ->
  deleteTilesToDeadEnds fuel' terrainData cut = Some r.
Proof.
  unfold deleteTilesToDeadEnds. intros Hle H.
  destruct (stack_loop _ fuel _ _) as [ra|] eqn:E; [|discriminate].
  rewrite (stack_loop_mono _ _ _ _ _ _ Hle E). exact H.
Qed.

Lemma cutPositions_mono fuel fuel' graph r :
  (fuel <= fuel')%nat ->
  cutPositions fuel graph = Some r -> cutPositions fuel' graph = Some r.
Proof.
  unfold cutPositions. intros Hle H.
  destruct (calcMinCut fuel graph _ _) as [[c g1]|] eqn:E; [|discriminate].
  rewrite (calcMinCut_mono _ _ _ _ _ _ Hle E).
  destruct (0 <? c); [|exact H].
  destruct (bfsTheCut fuel g1 _) as [[ce g2]|] eqn:E1; [|discriminate].
  rewrite (bfsTheCut_mono _ _ _ _ _ Hle E1). exact H.
Qed.

Lemma getCutTiles_mono fuel fuel' terrainData coords bounds r :
  (fuel <= fuel')%nat ->
  getCutTiles fuel terrainData coords bounds = Some r ->
  getCutTiles fuel' terrainData coords bounds = Some r.
Proof.
  unfold getCutTiles. intros Hle H.
  destruct (createGraph terrainData coords bounds) as [graph|]; [|exact H].
  destruct (cutPositions fuel graph) as [ps|] eqn:E; [|discriminate].
  rewrite (cutPositions_mono _ _ _ _ Hle E).
  destruct (_ && _); [|exact H].
  eapply deleteTilesToDeadEnds_mono; eauto.
Qed.

(** ** Loops over a range *)

Lemma range_excl_nil lo hi : hi <= lo -> range_excl lo hi = [].
Proof.
  intros H. unfold range_excl, seqZ.
  replace (Z.to_nat (hi - lo)) with O by lia. reflexivity.
Qed.

Lemma range_excl_cons lo hi : lo < hi -> range_excl lo hi = lo :: range_excl (lo + 1) hi.
Proof.
  intros H. unfold range_excl. rewrite seqZ_cons by lia.
  f_equal. f_equal; lia.
Qed.

Lemma range_excl_snoc lo hi : lo <= hi -> range_excl lo (hi + 1) = range_excl lo hi ++ [hi].
Proof.
  intros H. unfold range_excl.
  replace (hi + 1 - lo) with ((hi - lo) + 1) by lia.
  rewrite seqZ_app by lia. f_equal.
  rewrite seqZ_cons by lia. rewrite seqZ_nil by lia. f_equal. lia.
Qed.

Lemma range_incl_excl lo hi : range_incl lo hi = range_excl lo (hi + 1).
Proof. unfold range_incl, range_excl. f_equal. lia. Qed.

Lemma elem_of_range_excl lo hi i : In i (range_excl lo hi) <-> lo <= i < hi.
Proof.
  unfold range_excl. rewrite <- list_elem_of_In, elem_of_seqZ. lia.
Qed.

(** The invariant rule of [for (let i = lo; i < hi; i++)]. *)
Lemma range_excl_inv {St} (P : Z -> St -> Prop) (f : St -> Z -> St) lo hi st :
  lo <= hi ->
  P lo st ->
  (forall i st, lo <= i < hi -> P i st -> P (i + 1) (f st i)) ->
  P hi (fold_left f (range_excl lo hi) st).
Proof.
  intros Hle H0 Hstep.
  assert (Hgen : forall n lo' st', lo <= lo' -> lo' + Z.of_nat n = hi -> P lo' st' ->
            P hi (fold_left f (range_excl lo' hi) st')).
  { induction n as [|n IH]; intros lo' st' Hlo Hn HP.
    - rewrite range_excl_nil by lia. simpl. replace hi with lo' by lia. exact HP.
    - rewrite range_excl_cons by lia. simpl. apply IH; [lia|lia|].
      apply Hstep; [lia|exact HP]. }
  apply (Hgen (Z.to_nat (hi - lo))); [lia|lia|exact H0].
Qed.

(** ** Loops over a queue with a read index *)

Section QueueLoopRules.
Context {St A : Type} (body : St -> A -> St * list A).
Variable Inv : St -> list A -> nat -> Prop.
Hypothesis Inv_step : forall st q i u st' pushed,
  Inv st q i -> q !! i = Some u -> body st u = (st', pushed) ->
  Inv st' (q ++ pushed) (S i).

(** The invariant holds when the loop ends, with the whole queue read. *)
Lemma queue_loop_inv fuel : forall st q i st' q',
  Inv st q i -> (i <= length q)%nat ->
  queue_loop body fuel st q i = Some (st', q') ->
  Inv st' q' (length q').
Proof.
  induction fuel as [|fuel IH]; intros st q i st' q' HI Hi H; [discriminate|].
  simpl in H. destruct (q !! i) as [u|] eqn:Hu.
  - destruct (body st u) as [st1 pushed] eqn:Hb.
    apply IH in H; [exact H|eapply Inv_step; eauto|].
    apply lookup_lt_Some in Hu. rewrite length_app. lia.
  - injection H as <- <-. apply lookup_ge_None in Hu.
    replace (length q) with i by lia. exact HI.
Qed.

(** The queue only grows. *)
Lemma queue_loop_prefix fuel : forall st q i st' q',
  queue_loop body fuel st q i = Some (st', q') -> exists more, q' = q ++ more.
Proof.
  induction fuel as [|fuel IH]; intros st q i st' q' H; [discriminate|].
  simpl in H. destruct (q !! i) as [u|] eqn:Hu.
  - destruct (body st u) as [st1 pushed] eqn:Hb.
    apply IH in H. destruct H as [more ->]. exists (pushed ++ more).
    by rewrite <- app_assoc.
  - injection H as <- <-. exists []. by rewrite app_nil_r.
Qed.

(** When the invariant bounds the length of the queue, the loop ends. *)
Lemma queue_loop_terminates (bound : nat) :
  (forall st q i, Inv st q i -> (length q <= bound)%nat) ->
  forall fuel st q i,
    Inv st q i -> (i <= length q)%nat -> (bound < fuel + i)%nat ->
    is_Some (queue_loop body fuel st q i).
Proof.
  intros Hbound. induction fuel as [|fuel IH]; intros st q i HI Hi Hf.
  - apply Hbound in HI. lia.
  - simpl. destruct (q !! i) as [u|] eqn:Hu; [|eauto].
    destruct (body st u) as [st1 pushed] eqn:Hb.
    apply IH; [eapply Inv_step; eauto| |lia].
    apply lookup_lt_Some in Hu. rewrite length_app. lia.
Qed.
End QueueLoopRules.

(** ** Reads and writes of 50 x 50 arrays *)

Lemma arr_get_set {A} (a : Grid A) x y v x' y' :
  arr_get (arr_set a x y v) x' y'
  = if (x =? x') && (y =? y')
    then match arr_get a x y with Some _ => Some v | None => None end
    else arr_get a x' y'.
Proof.
  unfold arr_set, arr_get.
  destruct (x <? 0) eqn:Hx; simpl.
  { destruct (x =? x') eqn:E; simpl; [|reflexivity].
    apply Z.eqb_eq in E. subst x'. rewrite Hx. simpl.
    destruct (y =? y'); reflexivity. }
  destruct (y <? 0) eqn:Hy; simpl.
  { destruct (x =? x') eqn:E; simpl; [|reflexivity].
    destruct (y =? y') eqn:E'; [|reflexivity].
    apply Z.eqb_eq in E, E'. subst. rewrite Hx, Hy. reflexivity. }
  apply Z.ltb_ge in Hx, Hy.
  destruct (a !! Z.to_nat x) as [col|] eqn:Hcol.
  - destruct (x =? x') eqn:E; simpl.
    + apply Z.eqb_eq in E. subst x'.
      assert (Hx' : (x <? 0) = false) by (apply Z.ltb_ge; lia). rewrite Hx'. simpl.
      rewrite list_lookup_insert_eq by (eapply lookup_lt_Some; eauto).
      destruct (y =? y') eqn:E'.
      * apply Z.eqb_eq in E'. subst y'.
        assert (Hy' : (y <? 0) = false) by (apply Z.ltb_ge; lia). rewrite Hy'.
        destruct (col !! Z.to_nat y) eqn:Hc.
        -- apply list_lookup_insert_eq. eapply lookup_lt_Some; eauto.
        -- rewrite list_insert_ge by (by apply lookup_ge_None). exact Hc.
      * apply Z.eqb_neq in E'. destruct (y' <? 0) eqn:Hy'; [reflexivity|].
        apply Z.ltb_ge in Hy'. rewrite Hcol.
        apply list_lookup_insert_ne. lia.
    + apply Z.eqb_neq in E. destruct ((x' <? 0) || (y' <? 0)) eqn:Hneg; [reflexivity|].
      apply orb_false_iff in Hneg. destruct Hneg as [Hx' _]. apply Z.ltb_ge in Hx'.
      rewrite list_lookup_insert_ne by lia. reflexivity.
  - destruct ((x =? x') && (y =? y')) eqn:E; [|reflexivity].
    apply andb_true_iff in E. destruct E as [E E'].
    apply Z.eqb_eq in E, E'. subst.
    assert (Hx' : (x' <? 0) = false) by (apply Z.ltb_ge; lia).
    assert (Hy' : (y' <? 0) = false) by (apply Z.ltb_ge; lia).
    rewrite Hx', Hy', Hcol. reflexivity.
Qed.

Lemma isField_set {A} (a : Grid A) x y v : isField a -> isField (arr_set a x y v).
Proof.
  intros [Hlen Hcols]. unfold arr_set.
  destruct ((x <? 0) || (y <? 0)); [split; assumption|].
  destruct (a !! Z.to_nat x) as [col|] eqn:Hcol; [|split; assumption].
  split; [by rewrite length_insert|].
  intros col' Hin. apply list_elem_of_In, list_elem_of_lookup in Hin.
  destruct Hin as [i Hi].
  destruct (decide (i = Z.to_nat x)) as [->|Hne].
  - rewrite list_lookup_insert_eq in Hi by (eapply lookup_lt_Some; eauto).
    injection Hi as <-. rewrite length_insert. apply Hcols.
    apply list_elem_of_In, list_elem_of_lookup. eauto.
  - rewrite list_lookup_insert_ne in Hi by auto.
    apply Hcols. apply list_elem_of_In, list_elem_of_lookup. eauto.
Qed.

Lemma isField_initArr {A} (d : A) : isField (initArr d).
Proof.
  unfold isField, initArr. split; [by rewrite length_replicate|].
  intros col Hin. apply list_elem_of_In, elem_of_replicate in Hin.
  destruct Hin as [-> _]. by rewrite length_replicate.
Qed.

Lemma arr_get_field {A} (a : Grid A) x y :
  isField a -> inRoom x y -> is_Some (arr_get a x y).
Proof.
  intros [Hlen Hcols] [Hx Hy]. unfold arr_get, ROOM_SIZE in *.
  assert (Hx' : (x <? 0) = false) by (apply Z.ltb_ge; lia).
  assert (Hy' : (y <? 0) = false) by (apply Z.ltb_ge; lia).
  rewrite Hx', Hy'. simpl.
  destruct (a !! Z.to_nat x) as [col|] eqn:Hcol.
  - apply lookup_lt_is_Some. rewrite (Hcols col); [lia|].
    apply list_elem_of_In, list_elem_of_lookup. eauto.
  - apply lookup_ge_None in Hcol. lia.
Qed.

Lemma arr_get_outside {A} (a : Grid A) x y :
  isField a -> ~ inRoom x y -> arr_get a x y = None.
Proof.
  intros [Hlen Hcols] Hout. unfold arr_get, inRoom, ROOM_SIZE in *.
  destruct (x <? 0) eqn:Hx; [reflexivity|].
  destruct (y <? 0) eqn:Hy; [reflexivity|]. simpl.
  apply Z.ltb_ge in Hx, Hy.
  destruct (a !! Z.to_nat x) as [col|] eqn:Hcol; [|reflexivity].
  apply lookup_ge_None. rewrite (Hcols col).
  - apply lookup_lt_Some in Hcol. lia.
  - apply list_elem_of_In, list_elem_of_lookup. eauto.
Qed.

Lemma arr_get_initArr {A} (d : A) x y : inRoom x y -> arr_get (initArr d) x y = Some d.
Proof.
  intros [Hx Hy]. unfold arr_get, initArr.
  assert (Hx' : (x <? 0) = false) by (apply Z.ltb_ge; lia).
  assert (Hy' : (y <? 0) = false) by (apply Z.ltb_ge; lia).
  rewrite Hx', Hy'. cbn [orb].
  rewrite lookup_replicate_2 by lia. apply lookup_replicate_2. lia.
Qed.

Lemma arr_get_set_same {A} (a : Grid A) x y v :
  isField a -> inRoom x y -> arr_get (arr_set a x y v) x y = Some v.
Proof.
  intros Hf Hin. rewrite arr_get_set, !Z.eqb_refl. simpl.
  destruct (arr_get_field a x y Hf Hin) as [w ->]. reflexivity.
Qed.

Lemma arr_get_set_other {A} (a : Grid A) x y v x' y' :
  (x, y) <> (x', y') -> arr_get (arr_set a x y v) x' y' = arr_get a x' y'.
Proof.
  intros Hne. rewrite arr_get_set.
  destruct (x =? x') eqn:E; [|reflexivity].
  destruct (y =? y') eqn:E'; [|reflexivity].
  apply Z.eqb_eq in E, E'. congruence.
Qed.

Lemma inRoomb_spec x y : inRoomb x y = true <-> inRoom x y.
Proof.
  unfold inRoomb, inRoom. rewrite !andb_true_iff, !Z.leb_le, !Z.ltb_lt. lia.
Qed.

(** ** The minimum finder *)

Lemma findMin_step_inv matrix predicate x y acc :
  0 <= x < ROOM_SIZE -> 0 <= y < ROOM_SIZE ->
  findMin_inv matrix predicate x y acc ->
  findMin_inv matrix predicate x (y + 1) (findMin_step matrix predicate x acc y).
Proof.
  intros Hx Hy. destruct acc as [[mv mx] my]. unfold findMin_step, findMin_inv.
  intros (Hmax & Hmin & Hnone & Hsome).
  destruct (cellValue matrix x y <? mv) eqn:Hlt; simpl.
  - apply Z.ltb_lt in Hlt. destruct (predicate x y) eqn:Hp.
    + split; [lia|]. split; [|split; [lia|]].
      * intros x' y' Hin Hb Hp'.
        assert (Hc : scanBefore x' y' x y \/ (x' = x /\ y' = y))
          by (unfold scanBefore in *; lia).
        destruct Hc as [Hc|[-> ->]]; [|lia].
        specialize (Hmin x' y' Hin Hc Hp'). lia.
      * intros _. split; [split; assumption|]. split; [unfold scanBefore; lia|].
        split; [exact Hp|]. split; [reflexivity|].
        intros x' y' Hin Hb Hp'. specialize (Hmin x' y' Hin Hb Hp'). lia.
    + split; [exact Hmax|]. split; [|split; [exact Hnone|]].
      * intros x' y' Hin Hb Hp'.
        assert (Hc : scanBefore x' y' x y \/ (x' = x /\ y' = y))
          by (unfold scanBefore in *; lia).
        destruct Hc as [Hc|[-> ->]]; [auto|congruence].
      * intros Hv. destruct (Hsome Hv) as (H1 & H2 & H3 & H4 & H5).
        split; [exact H1|]. split; [unfold scanBefore in *; lia|]. auto.
  - apply Z.ltb_ge in Hlt.
    split; [exact Hmax|]. split; [|split; [exact Hnone|]].
    + intros x' y' Hin Hb Hp'.
      assert (Hc : scanBefore x' y' x y \/ (x' = x /\ y' = y))
        by (unfold scanBefore in *; lia).
      destruct Hc as [Hc|[-> ->]]; [auto|lia].
    + intros Hv. destruct (Hsome Hv) as (H1 & H2 & H3 & H4 & H5).
      split; [exact H1|]. split; [unfold scanBefore in *; lia|]. auto.
Qed.

Lemma findMin_inv_next_row matrix predicate x acc :
  findMin_inv matrix predicate x ROOM_SIZE acc ->
  findMin_inv matrix predicate (x + 1) 0 acc.
Proof.
  destruct acc as [[mv mx] my]. unfold findMin_inv.
  intros (Hmax & Hmin & Hnone & Hsome).
  split; [exact Hmax|]. split; [|split; [exact Hnone|]].
  - intros x' y' Hin Hb. apply Hmin; [exact Hin|].
    destruct Hin. unfold scanBefore in *. lia.
  - intros Hv. destruct (Hsome Hv) as (H1 & H2 & H3 & H4 & H5).
    split; [exact H1|]. split; [|auto].
    destruct H1. unfold scanBefore in *. lia.
Qed.

Lemma findMin_scan_inv matrix predicate :
  findMin_inv matrix predicate ROOM_SIZE 0
    (fold_left (fun acc x =>
        fold_left (findMin_step matrix predicate x) (range_excl 0 ROOM_SIZE) acc)
      (range_excl 0 ROOM_SIZE) (MAX_VALUE, 0, 0)).
Proof.
  apply (range_excl_inv (fun x acc => findMin_inv matrix predicate x 0 acc)).
  - unfold ROOM_SIZE; lia.
  - unfold findMin_inv. split; [lia|]. split; [|split; [auto|lia]].
    intros x y [Hx Hy] Hb. unfold scanBefore in Hb. lia.
  - intros x acc Hx Hinv. apply findMin_inv_next_row.
    apply (range_excl_inv (fun y acc => findMin_inv matrix predicate x y acc)).
    + unfold ROOM_SIZE; lia.
    + exact Hinv.
    + intros y acc' Hy Hinv'. apply findMin_step_inv; assumption.
Qed.

(** ** The distance-field BFS *)

Lemma In_roomCells p : In p roomCells <-> inRoom (fst p) (snd p).
Proof.
  unfold roomCells, inRoom. rewrite in_flat_map. split.
  - intros (x & Hx & Hp). apply in_map_iff in Hp. destruct Hp as (y & <- & Hy).
    apply elem_of_range_excl in Hx, Hy. simpl. lia.
  - intros [Hx Hy]. exists (fst p). split; [apply elem_of_range_excl; lia|].
    apply in_map_iff. exists (snd p). split; [by destruct p|].
    apply elem_of_range_excl; lia.
Qed.

Lemma length_roomCells : length roomCells = 2500%nat.
Proof. vm_compute. reflexivity. Qed.

Lemma NoDup_room_length (l : list (Z * Z)) :
  NoDup l -> (forall p, In p l -> inRoom (fst p) (snd p)) -> (length l <= 2500)%nat.
Proof.
  intros Hnd Hin. rewrite <- length_roomCells.
  apply NoDup_incl_length; [by apply NoDup_ListNoDup|].
  intros p Hp. apply In_roomCells. auto.
Qed.

Lemma exploredAt_inRoom explored p :
  isField explored -> exploredAt explored p -> inRoom (fst p) (snd p).
Proof.
  intros Hf He. unfold exploredAt, isExplored in He.
  destruct (decide (inRoom (fst p) (snd p))) as [|Hout]; [assumption|].
  rewrite (arr_get_outside _ _ _ Hf Hout) in He. discriminate.
Qed.

Lemma exploredAt_dec explored p : {exploredAt explored p} + {~ exploredAt explored p}.
Proof. unfold exploredAt. destruct (isExplored explored (fst p) (snd p)); [left|right]; congruence. Qed.

Section CostField.
Variables (terrainData : TerrainData) (maxRange sx sy : Z) (costArr0 : Grid Z).
Hypothesis maxRange_nonneg : 0 <= maxRange.

Local Abbreviation post := (cost_post terrainData maxRange).
Local Abbreviation visit := (cost_visit terrainData maxRange).

Lemma cost_post_refl x y c st pushed : post x y c st pushed st pushed.
Proof.
  constructor; auto.
  - intros p Hp Hn. contradiction.
  - intros e. split; [auto|]. intros [H|(_ & _ & H1 & H2)]; [exact H|contradiction].
Qed.

Lemma cost_post_trans x y c st p0 st1 p1 st2 p2 :
  post x y c st p0 st1 p1 -> post x y c st1 p1 st2 p2 -> post x y c st p0 st2 p2.
Proof.
  intros [A1 A2 Akeep Anew Aframe Apush And] [B1 B2 Bkeep Bnew Bframe Bpush Bnd].
  constructor.
  - auto.
  - auto.
  - intros p Hp. destruct (Akeep p Hp) as [H1 H2]. destruct (Bkeep p H1) as [H3 H4].
    split; [exact H3|congruence].
  - intros p Hp Hn. destruct (exploredAt_dec (snd st1) p) as [H1|H1].
    + destruct (Anew p H1 Hn) as [H2 H3]. destruct (Bkeep p H1) as [_ H4].
      split; [exact H2|congruence].
    + apply (Bnew p Hp H1).
  - intros x' y' H. rewrite (Bframe x' y' H). apply Aframe.
    destruct (isExplored (snd st1) x' y') eqn:E; [|reflexivity].
    destruct (Bkeep (x', y') E) as [H1 _].
    unfold exploredAt in H1. simpl in H1. congruence.
  - intros e. rewrite (Bpush e), (Apush e). split.
    + intros [[H|(H1 & H2 & H3 & H4)]|(H1 & H2 & H3 & H4)]; [auto| |].
      * right. repeat split; try assumption. apply Bkeep. exact H3.
      * right. repeat split; try assumption.
        intros H. apply H4. apply Akeep. exact H.
    + intros [H|(H1 & H2 & H3 & H4)]; [auto|].
      destruct (exploredAt_dec (snd st1) (fst e)) as [H5|H5]; [left; right|right]; auto.
  - intros Hnd Hex. apply Bnd.
    + apply And; assumption.
    + intros e He. apply Apush in He.
      destruct He as [He|(_ & _ & He & _)]; [|exact He].
      apply Akeep. auto.
Qed.

Lemma cost_visit_post x y c st pushed d :
  In d SURROUND_OFFSETS -> isField (fst st) -> isField (snd st) ->
  post x y c st pushed (fst (visit x y c (st, pushed) d)) (snd (visit x y c (st, pushed) d))
  /\ (inRoom (x + fst d) (y + snd d) -> isWall terrainData (x + fst d) (y + snd d) = false ->
      exploredAt (snd (fst (visit x y c (st, pushed) d))) (x + fst d, y + snd d)).
Proof.
  intros Hd HfC HfE. destruct st as [ca ex]. unfold cost_visit.
  set (nx := x + fst d). set (ny := y + snd d).
  destruct (inRoomb nx ny) eqn:Hin; simpl.
  2:{ split; [apply cost_post_refl|]. intros H. apply inRoomb_spec in H. congruence. }
  apply inRoomb_spec in Hin.
  destruct (isExplored ex nx ny) eqn:Hex; simpl.
  { split; [apply cost_post_refl|]. intros _ _. exact Hex. }
  destruct (isWall terrainData nx ny) eqn:Hw; simpl.
  { split; [apply cost_post_refl|]. intros _ H. congruence. }
  assert (Hset : forall p, exploredAt (arr_set ex nx ny true) p <-> p = (nx, ny) \/ exploredAt ex p).
  { intros [px' py']. unfold exploredAt, isExplored. simpl. rewrite arr_get_set.
    destruct ((nx =? px') && (ny =? py')) eqn:E.
    - apply andb_true_iff in E. destruct E as [E1 E2]. apply Z.eqb_eq in E1, E2. subst px' py'.
      destruct (arr_get_field ex _ _ HfE Hin) as [b ->]. simpl. tauto.
    - split; [auto|]. intros [H|H]; [|exact H]. injection H as -> ->.
      rewrite !Z.eqb_refl in E. discriminate. }
  split.
  - constructor; simpl.
    + intros _. by apply isField_set.
    + intros _. by apply isField_set.
    + intros p Hp. split; [apply Hset; auto|].
      unfold costAt. apply arr_get_set_other. intros Heq. injection Heq as Hx Hy.
      unfold exploredAt in Hp. rewrite <- Hx, <- Hy in Hp. congruence.
    + intros p Hp Hn. apply Hset in Hp. destruct Hp as [->|Hp]; [|contradiction].
      split.
      * split; [|split; assumption]. exists d. split; [exact Hd|reflexivity].
      * unfold costAt. simpl. by apply arr_get_set_same.
    + intros x' y' H. apply arr_get_set_other. intros Heq. injection Heq as Hx Hy.
      assert (He : exploredAt (arr_set ex nx ny true) (x', y')) by (apply Hset; left; congruence).
      unfold exploredAt in He. simpl in He. congruence.
    + intros e.
      assert (Hnew : (snd e = c + 1 /\ exploredAt (arr_set ex nx ny true) (fst e)
                /\ ~ exploredAt ex (fst e)) <-> e = (nx, ny, c + 1)).
      { destruct e as [p n]. simpl. rewrite Hset. split.
        - intros (-> & [->|H] & Hn); [reflexivity|contradiction].
        - intros H. injection H as -> ->. split; [reflexivity|]. split; [auto|].
          unfold exploredAt. simpl. congruence. }
      destruct (c + 1 <? maxRange) eqn:Hlt.
      * apply Z.ltb_lt in Hlt. rewrite in_app_iff. simpl. split.
        -- intros [H|[H|[]]]; [auto|]. right. symmetry in H. apply Hnew in H. tauto.
        -- intros [H|(H1 & H2 & H3 & H4)]; [auto|]. right. left. symmetry. apply Hnew. tauto.
      * apply Z.ltb_ge in Hlt. split; [auto|]. intros [H|(H1 & H2 & _)]; [exact H|lia].
    + intros Hnd Hall. destruct (c + 1 <? maxRange); [|exact Hnd].
      rewrite map_app. simpl. apply NoDup_app. split; [exact Hnd|].
      split; [|apply NoDup_singleton].
      intros p Hp Hp'. apply list_elem_of_In in Hp. apply list_elem_of_In in Hp'.
      destruct Hp' as [<-|[]].
      apply in_map_iff in Hp. destruct Hp as (e & He & Hin'). apply Hall in Hin'.
      rewrite He in Hin'. unfold exploredAt in Hin'. simpl in Hin'. congruence.
  - intros _ _. apply Hset. auto.
Qed.

Lemma cost_fold_post x y c ds : forall st pushed,
  (forall d, In d ds -> In d SURROUND_OFFSETS) ->
  isField (fst st) -> isField (snd st) ->
  post x y c st pushed (fst (fold_left (visit x y c) ds (st, pushed)))
                       (snd (fold_left (visit x y c) ds (st, pushed)))
  /\ (forall d, In d ds ->
       inRoom (x + fst d) (y + snd d) -> isWall terrainData (x + fst d) (y + snd d) = false ->
       exploredAt (snd (fst (fold_left (visit x y c) ds (st, pushed)))) (x + fst d, y + snd d)).
Proof.
  induction ds as [|d ds IH]; intros st pushed Hds HfC HfE.
  - simpl. split; [apply cost_post_refl|]. intros d [].
  - cbn [fold_left].
    destruct (cost_visit_post x y c st pushed d) as [Hp1 He1]; [apply Hds; left; auto|auto|auto|].
    destruct (visit x y c (st, pushed) d) as [st1 pushed1] eqn:Hv. simpl in Hp1, He1.
    destruct (IH st1 pushed1) as [Hp2 He2].
    { intros d' Hd'. apply Hds. right. exact Hd'. }
    { apply (cp_fieldC _ _ _ _ _ _ _ _ _ Hp1 HfC). }
    { apply (cp_fieldE _ _ _ _ _ _ _ _ _ Hp1 HfE). }
    split; [eapply cost_post_trans; eauto|].
    intros d' [<-|Hd'] Hin Hw; [|auto].
    apply (cp_keep _ _ _ _ _ _ _ _ _ Hp2). auto.
Qed.

Local Abbreviation inv := (cost_inv terrainData maxRange sx sy costArr0).

Lemma cost_inv_step st q i e st' pushed :
  inv st q i -> q !! i = Some e ->
  cost_body terrainData maxRange st e = (st', pushed) ->
  inv st' (q ++ pushed) (S i).
Proof.
  intros [HfC HfE Hsound Hframe Hqueue Hnd Hsorted Hfront Hclosed Hqueued] Hi Hbody.
  destruct e as [[x y] c]. unfold cost_body in Hbody.
  destruct (c >=? maxRange) eqn:Hc.
  - injection Hbody as <- <-. rewrite app_nil_r. apply Z.geb_le in Hc.
    constructor; auto.
    + intros p n k e Hp Hn Hk He. apply (Hfront p n k e); auto. lia.
    + intros k e Hk He Hlt. destruct (decide (k = i)) as [->|Hne].
      * rewrite Hi in He. injection He as <-. simpl in Hlt. lia.
      * apply (Hclosed k e); auto. lia.
  - assert (Hlt : c < maxRange) by (destruct (Z.geb_spec c maxRange); [discriminate|lia]).
    clear Hc.
    destruct (cost_fold_post x y c SURROUND_OFFSETS st []) as [Hpost Hall]; auto.
    rewrite Hbody in Hpost, Hall. simpl in Hpost, Hall.
    destruct Hpost as [P1 P2 Pkeep Pnew Pframe Ppush Pnd].
    destruct (Hqueue i _ Hi) as [Hxy Hcxy]. simpl in Hxy, Hcxy.
    destruct (Hsound _ Hxy) as (n0 & Hn0 & Hwalk & Hrange).
    rewrite Hcxy in Hn0. injection Hn0 as <-.
    assert (Hle : forall k e, q !! k = Some e -> snd e <= c + 1).
    { intros k e He. destruct (Hqueue k e He) as [H1 H2].
      apply (Hfront _ _ i (x, y, c) H1 H2); auto. }
    assert (Hin_pushed : forall e, In e pushed ->
              snd e = c + 1 /\ exploredAt (snd st') (fst e) /\ ~ exploredAt (snd st) (fst e)
              /\ costAt (fst st') (fst e) = Some (c + 1)).
    { intros e He. apply Ppush in He. destruct He as [[]|(H1 & H2 & H3 & H4)].
      repeat split; auto. apply (Pnew _ H3 H4). }
    assert (Hlookup : forall k e, (q ++ pushed) !! k = Some e ->
              q !! k = Some e \/ ((length q <= k)%nat /\ In e pushed)).
    { intros k e He. apply lookup_app_Some in He. destruct He as [He|[Hk He]]; [auto|].
      right. split; [exact Hk|]. apply list_elem_of_In. eapply list_elem_of_lookup_2; eauto. }
    constructor; auto.
    + (* sound *)
      intros p Hp. destruct (exploredAt_dec (snd st) p) as [Hold|Hnew].
      * destruct (Pkeep p Hold) as [_ Hcost]. rewrite Hcost. auto.
      * destruct (Pnew p Hp Hnew) as [Hstep Hcost]. exists (c + 1).
        split; [exact Hcost|]. split; [|lia]. eapply walk_step; eauto.
    + (* frame *)
      intros x' y' Hun. rewrite (Pframe x' y' Hun). apply Hframe.
      destruct (isExplored (snd st) x' y') eqn:E; [|reflexivity].
      destruct (Pkeep (x', y') E) as [H1 _]. unfold exploredAt in H1. simpl in H1. congruence.
    + (* queue *)
      intros k e He. apply Hlookup in He. destruct He as [He|[_ He]].
      * destruct (Hqueue k e He) as [H1 H2]. destruct (Pkeep _ H1) as [H3 H4].
        split; [exact H3|congruence].
      * destruct (Hin_pushed e He) as (H1 & H2 & H3 & H4). rewrite H1. auto.
    + (* nodup *)
      rewrite map_app. apply NoDup_app. split; [exact Hnd|]. split.
      * intros p Hp Hp'. apply list_elem_of_In, in_map_iff in Hp, Hp'.
        destruct Hp as (e & <- & He). destruct Hp' as (e' & Heq & He').
        apply list_elem_of_In, list_elem_of_lookup in He. destruct He as [k He].
        destruct (Hqueue k e He) as [H1 _].
        destruct (Hin_pushed e' He') as (_ & _ & H3 & _). rewrite Heq in H3. contradiction.
      * apply Pnd; [constructor|]. intros e [].
    + (* sorted *)
      intros k k' e e' Hk He He'. apply Hlookup in He, He'.
      destruct He as [He|[Hlen He]], He' as [He'|[Hlen' He']].
      * eapply Hsorted; eauto.
      * destruct (Hin_pushed e' He') as (-> & _). eapply Hle; eauto.
      * apply lookup_lt_Some in He'. lia.
      * destruct (Hin_pushed e He) as (-> & _).
        destruct (Hin_pushed e' He') as (-> & _). lia.
    + (* front *)
      intros p n k e Hp Hn Hk He. apply Hlookup in He.
      destruct (exploredAt_dec (snd st) p) as [Hold|Hnew].
      * destruct (Pkeep p Hold) as [_ Hcost]. rewrite Hcost in Hn.
        destruct He as [He|[_ He]].
        -- apply (Hfront p n k e Hold Hn); [lia|exact He].
        -- destruct (Hin_pushed e He) as (-> & _).
           pose proof (Hfront p n i _ Hold Hn ltac:(lia) Hi) as H. simpl in H. lia.
      * destruct (Pnew p Hp Hnew) as [_ Hcost]. rewrite Hcost in Hn. injection Hn as <-.
        destruct He as [He|[_ He]].
        -- pose proof (Hsorted i k _ e ltac:(lia) Hi He) as H. simpl in H. lia.
        -- destruct (Hin_pushed e He) as (-> & _). lia.
    + (* closed *)
      intros k e Hk He Hr p' Hstep. apply Hlookup in He.
      destruct He as [He|[Hlen He]]; [|apply lookup_lt_Some in Hi; lia].
      destruct (decide (k = i)) as [->|Hne].
      * rewrite Hi in He. injection He as <-. simpl in *.
        destruct Hstep as ((d & Hd & ->) & Hroom & Hwall). simpl in *.
        specialize (Hall d Hd Hroom Hwall). split; [exact Hall|].
        destruct (exploredAt_dec (snd st) (x + fst d, y + snd d)) as [Hold|Hnew].
        -- destruct (Pkeep _ Hold) as [_ Hcost]. rewrite Hcost.
           destruct (Hsound _ Hold) as (n & Hn & _). exists n. split; [exact Hn|].
           apply (Hfront _ n i (x, y, c) Hold Hn); auto.
        -- destruct (Pnew _ Hall Hnew) as [_ Hcost]. exists (c + 1). split; [exact Hcost|lia].
      * destruct (Hclosed k e ltac:(lia) He Hr p' Hstep) as [H1 (n & H2 & H3)].
        destruct (Pkeep _ H1) as [H4 H5]. split; [exact H4|].
        exists n. split; [congruence|exact H3].
    + (* queued *)
      intros p n Hp Hn Hr. destruct (exploredAt_dec (snd st) p) as [Hold|Hnew].
      * destruct (Pkeep p Hold) as [_ Hcost]. rewrite Hcost in Hn.
        destruct (Hqueued p n Hold Hn Hr) as [k Hk]. exists k.
        apply lookup_app_l_Some. exact Hk.
      * destruct (Pnew p Hp Hnew) as [_ Hcost]. rewrite Hcost in Hn. injection Hn as <-.
        assert (He : In (p, c + 1) pushed).
        { apply Ppush. right. simpl. auto. }
        apply list_elem_of_In, list_elem_of_lookup in He. destruct He as [k He].
        exists (length q + k)%nat. rewrite lookup_app_r by lia.
        replace (length q + k - length q)%nat with k by lia. exact He.
Qed.
End CostField.

Section CostFieldRun.
Variables (terrainData : TerrainData) (maxRange sx sy : Z) (costArr : Grid Z).
Hypothesis maxRange_nonneg : 0 <= maxRange.
Hypothesis seed_inRoom : inRoom sx sy.
Hypothesis costArr_field : isField costArr.

Local Abbreviation inv := (cost_inv terrainData maxRange sx sy costArr).
Local Abbreviation st0 := (arr_set costArr sx sy 0, arr_set (initArr false) sx sy true).

Lemma seed_explored p :
  exploredAt (arr_set (initArr false) sx sy true) p <-> p = (sx, sy).
Proof.
  destruct p as [x y]. unfold exploredAt, isExplored. simpl. rewrite arr_get_set.
  destruct ((sx =? x) && (sy =? y)) eqn:E.
  - apply andb_true_iff in E. destruct E as [E1 E2]. apply Z.eqb_eq in E1, E2. subst.
    rewrite arr_get_initArr by assumption. simpl. tauto.
  - split.
    + destruct (decide (inRoom x y)) as [Hin|Hout].
      * rewrite arr_get_initArr by assumption. discriminate.
      * rewrite arr_get_outside; [discriminate|apply isField_initArr|assumption].
    + intros H. injection H as -> ->. rewrite !Z.eqb_refl in E. discriminate.
Qed.

Lemma cost_inv_init : inv st0 [(sx, sy, 0)] 0.
Proof.
  assert (Hcost : costAt (arr_set costArr sx sy 0) (sx, sy) = Some 0).
  { unfold costAt. simpl. by apply arr_get_set_same. }
  constructor; simpl.
  - by apply isField_set.
  - apply isField_set, isField_initArr.
  - intros p Hp. apply seed_explored in Hp. subst p. exists 0.
    split; [exact Hcost|]. split; [constructor|lia].
  - intros x y H. apply arr_get_set_other. intros Heq. injection Heq as Hx Hy.
    assert (He : exploredAt (arr_set (initArr false) sx sy true) (x, y))
      by (apply seed_explored; congruence).
    unfold exploredAt in He. simpl in He. congruence.
  - intros k e He. apply list_lookup_singleton_Some in He. destruct He as [-> <-]. simpl.
    split; [by apply seed_explored|exact Hcost].
  - apply NoDup_singleton.
  - intros k k' e e' _ He He'.
    apply list_lookup_singleton_Some in He, He'. destruct He as [_ <-], He' as [_ <-]. lia.
  - intros p n k e Hp Hn _ He. apply seed_explored in Hp. subst p.
    rewrite Hcost in Hn. injection Hn as <-.
    apply list_lookup_singleton_Some in He. destruct He as [_ <-]. simpl. lia.
  - intros k e Hk. lia.
  - intros p n Hp Hn _. apply seed_explored in Hp. subst p.
    rewrite Hcost in Hn. injection Hn as <-. exists O. reflexivity.
Qed.

Lemma cost_inv_length st q i : inv st q i -> (length q <= 2500)%nat.
Proof.
  intros Hinv. rewrite <- (length_map fst). apply NoDup_room_length.
  - apply (ci_nodup _ _ _ _ _ _ _ _ Hinv).
  - intros p Hp. apply in_map_iff in Hp. destruct Hp as (e & <- & He).
    apply list_elem_of_In, list_elem_of_lookup in He. destruct He as [k He].
    eapply exploredAt_inRoom.
    + apply (ci_fieldE _ _ _ _ _ _ _ _ Hinv).
    + apply (ci_queue _ _ _ _ _ _ _ _ Hinv k e He).
Qed.

Lemma cost_loop_terminates fuel :
  (2501 <= fuel)%nat ->
  is_Some (queue_loop (cost_body terrainData maxRange) fuel st0 [(sx, sy, 0)] 0).
Proof.
  intros Hfuel.
  apply (queue_loop_terminates _ inv) with (bound := 2500%nat).
  - intros. eapply cost_inv_step; eauto.
  - apply cost_inv_length.
  - apply cost_inv_init.
  - simpl. lia.
  - lia.
Qed.

(** At the end of the loop every tile within [maxRange] steps of the seed
    is explored, at a cost that is at most the number of steps. *)
Lemma cost_inv_optimal st q :
  inv st q (length q) -> q !! O = Some (sx, sy, 0) ->
  forall n p, walk (fieldStep terrainData) (sx, sy) n p -> n <= maxRange ->
    exploredAt (snd st) p /\ exists v, costAt (fst st) p = Some v /\ v <= n.
Proof.
  intros Hinv Hq0 n p Hwalk. induction Hwalk as [|n p p' Hwalk IH Hstep]; intros Hn.
  - destruct (ci_queue _ _ _ _ _ _ _ _ Hinv _ _ Hq0) as [H1 H2]. simpl in H1, H2.
    split; [exact H1|]. exists 0. split; [exact H2|lia].
  - destruct IH as [Hex (v & Hv & Hle)]; [lia|].
    destruct (ci_queued _ _ _ _ _ _ _ _ Hinv p v Hex Hv ltac:(lia)) as [k Hk].
    destruct (ci_closed _ _ _ _ _ _ _ _ Hinv k _ (lookup_lt_Some _ _ _ Hk) Hk
                ltac:(simpl; lia) p' Hstep) as [H1 (v' & H2 & H3)].
    simpl in H3. split; [exact H1|]. exists v'. split; [exact H2|lia].
Qed.
End CostFieldRun.

(** ** The expansion of the protected positions *)

Lemma leveled_dec arr p : {leveled arr p} + {~ leveled arr p}.
Proof.
  unfold leveled. destruct (levelAt arr p) as [l|].
  - destruct (Z.eq_dec l 0) as [->|Hne].
    + right. intros (l' & H & Hne). congruence.
    + left. eauto.
  - right. intros (l' & H & _). discriminate.
Qed.

Lemma leveled_inRoom arr p : isField arr -> leveled arr p -> inRoom (fst p) (snd p).
Proof.
  intros Hf (l & Hl & _). destruct (decide (inRoom (fst p) (snd p))) as [|Hout]; [assumption|].
  unfold levelAt in Hl. rewrite (arr_get_outside _ _ _ Hf Hout) in Hl. discriminate.
Qed.

Lemma is_tag_spec arr x y tag : is_tag arr x y tag = true <-> arr_get arr x y = Some tag.
Proof.
  unfold is_tag. destruct (arr_get arr x y) as [v|]; [|split; discriminate].
  rewrite Z.eqb_eq. split; congruence.
Qed.

Lemma neighbour8_bound p q :
  neighbour8 p q -> Z.abs (fst q - fst p) <= 1 /\ Z.abs (snd q - snd p) <= 1 /\ p <> q.
Proof.
  intros (d & Hd & ->). simpl.
  unfold SURROUND_OFFSETS in Hd. simpl in Hd.
  destruct p as [x y].
  repeat (destruct Hd as [ <- | Hd ]; [simpl; split; [lia|split; [lia|intros H; injection H; lia]]|]).
  destruct Hd.
Qed.

Lemma neighbour8_intro p q :
  Z.abs (fst q - fst p) <= 1 -> Z.abs (snd q - snd p) <= 1 -> p <> q -> neighbour8 p q.
Proof.
  destruct p as [x y], q as [x' y']. simpl. intros Hx Hy Hne.
  exists (x' - x, y' - y). split.
  - assert (Hdx : x' - x = -1 \/ x' - x = 0 \/ x' - x = 1) by lia.
    assert (Hdy : y' - y = -1 \/ y' - y = 0 \/ y' - y = 1) by lia.
    unfold SURROUND_OFFSETS.
    destruct Hdx as [E1|[E1|E1]], Hdy as [E2|[E2|E2]]; rewrite E1, E2; simpl; try tauto.
    exfalso. apply Hne. f_equal; lia.
  - simpl. f_equal; lia.
Qed.

Lemma cheb_neighbour p q s : neighbour8 p q -> cheb q s <= cheb p s + 1.
Proof.
  intros H. apply neighbour8_bound in H. destruct H as (Hx & Hy & _).
  unfold cheb. lia.
Qed.

Lemma cheb_zero p s : cheb p s <= 0 -> p = s.
Proof. destruct p, s. unfold cheb. simpl. intros H. f_equal; lia. Qed.

(** A tile at distance n + 1 of a seed has a neighbour in the room at
    distance n of it: the room is a box. *)
Lemma cheb_step_towards p s n :
  inRoom (fst p) (snd p) -> inRoom (fst s) (snd s) -> 0 <= n -> cheb p s = n + 1 ->
  exists p0, inRoom (fst p0) (snd p0) /\ cheb p0 s = n /\ neighbour8 p0 p.
Proof.
  destruct p as [x y], s as [a b]. unfold cheb, inRoom. simpl.
  intros Hp Hs Hn Hc.
  exists (x - Z.sgn (x - a), y - Z.sgn (y - b)). simpl.
  split; [lia|]. split; [lia|].
  apply neighbour8_intro; simpl; [lia|lia|intros H; injection H; lia].
Qed.

Section Expand.
Variable seeds : list (Z * Z).

Lemma expand_post_refl p0 cl st pushed : expand_post p0 cl st pushed st pushed.
Proof.
  constructor; auto.
  - intros p Hp Hn. contradiction.
  - intros p. split; [auto|]. intros [H|(_ & H1 & H2)]; [exact H|contradiction].
  - intros p. split; [auto|]. intros [H|(H1 & H2)]; [exact H|contradiction].
Qed.

Lemma expand_post_trans p0 cl st q0 st1 q1 st2 q2 :
  expand_post p0 cl st q0 st1 q1 -> expand_post p0 cl st1 q1 st2 q2 ->
  expand_post p0 cl st q0 st2 q2.
Proof.
  intros [A1 Akeep Anew Apush Aexp And] [B1 Bkeep Bnew Bpush Bexp Bnd].
  assert (Akeep' : forall p, leveled (fst st) p -> leveled (fst st1) p).
  { intros p (l & Hl & Hne). exists l. split; [apply Akeep|]; auto. }
  assert (Bkeep' : forall p, leveled (fst st1) p -> leveled (fst st2) p).
  { intros p (l & Hl & Hne). exists l. split; [apply Bkeep|]; auto. }
  constructor.
  - auto.
  - intros p l Hl Hne. apply Bkeep; auto.
  - intros p Hp Hn. destruct (leveled_dec (fst st1) p) as [H1|H1].
    + destruct (Anew p H1 Hn) as (H2 & H3 & H4).
      split; [exact H2|]. split; [exact H3|]. apply Bkeep; [exact H4|].
      destruct H1 as (l & Hl & Hne). congruence.
    + apply (Bnew p Hp H1).
  - intros p. rewrite (Bpush p), (Apush p). split.
    + intros [[H|(H1 & H2 & H3)]|(H1 & H2 & H3)]; [auto| |].
      * right. auto.
      * right. split; [exact H1|]. split; [exact H2|]. auto.
    + intros [H|(H1 & H2 & H3)]; [auto|].
      destruct (leveled_dec (fst st1) p) as [H5|H5]; [left; right|right]; auto.
  - intros p. rewrite (Bexp p), (Aexp p). split.
    + intros [[H|(H2 & H3)]|(H2 & H3)]; [auto| |].
      * right. auto.
      * right. split; [exact H2|]. auto.
    + intros [H|(H2 & H3)]; [auto|].
      destruct (leveled_dec (fst st1) p) as [H5|H5]; [left; right|right]; auto.
  - intros Hnd Hall. apply Bnd.
    + apply And; assumption.
    + intros p Hp. apply Apush in Hp. destruct Hp as [Hp|(_ & Hp & _)]; auto.
Qed.

Lemma expand_visit_post p0 cl st pushed d :
  In d SURROUND_OFFSETS -> isField (fst st) -> 1 <= cl ->
  expand_post p0 cl st pushed (fst (expand_visit p0 cl (st, pushed) d))
                              (snd (expand_visit p0 cl (st, pushed) d))
  /\ (inRoom (fst p0 + fst d) (snd p0 + snd d) ->
      leveled (fst (fst (expand_visit p0 cl (st, pushed) d))) (fst p0 + fst d, snd p0 + snd d)).
Proof.
  intros Hd Hf Hcl. destruct st as [arr expd]. unfold expand_visit.
  set (x := fst p0 + fst d). set (y := snd p0 + snd d).
  destruct (inRoomb x y) eqn:Hin; simpl.
  2:{ split; [apply expand_post_refl|]. intros H. apply inRoomb_spec in H. congruence. }
  apply inRoomb_spec in Hin.
  destruct (arr_get_field arr x y Hf Hin) as [l0 Hl0].
  destruct (is_tag arr x y 0) eqn:Htag.
  2:{ split; [apply expand_post_refl|]. intros _. exists l0. split; [exact Hl0|].
      intros ->. apply is_tag_spec in Hl0. congruence. }
  apply is_tag_spec in Htag. simpl in Hf.
  assert (Hold : ~ leveled arr (x, y)).
  { intros (l & Hl & Hne). unfold levelAt in Hl. simpl in Hl. congruence. }
  assert (Hget : forall p, levelAt (arr_set arr x y (cl + 1)) p
                           = if decide (p = (x, y)) then Some (cl + 1) else levelAt arr p).
  { intros [a b]. unfold levelAt. simpl. destruct (decide ((a, b) = (x, y))) as [E|E].
    - injection E as -> ->. by apply arr_get_set_same.
    - apply arr_get_set_other. congruence. }
  assert (Hset : forall p, leveled (arr_set arr x y (cl + 1)) p <-> p = (x, y) \/ leveled arr p).
  { intros p. unfold leveled. rewrite Hget. destruct (decide (p = (x, y))) as [->|E].
    - split; [auto|]. intros _. exists (cl + 1). split; [reflexivity|lia].
    - split; [auto|]. intros [H|H]; [contradiction|exact H]. }
  split.
  - constructor; simpl.
    + intros _. by apply isField_set.
    + intros p l Hl Hne. rewrite Hget. destruct (decide (p = (x, y))) as [->|E]; [|exact Hl].
      exfalso. apply Hold. exists l. auto.
    + intros p Hp Hn. apply Hset in Hp. destruct Hp as [->|Hp]; [|contradiction].
      split; [exists d; auto|]. split; [exact Hin|].
      rewrite Hget. destruct (decide _); [reflexivity|contradiction].
    + intros p. destruct (cl + 1 <=? 3) eqn:Hle.
      * apply Z.leb_le in Hle. rewrite in_app_iff, Hset. simpl. split.
        -- intros [H|[<-|[]]]; auto.
        -- intros [H|(_ & [->|H] & Hn)]; [auto|auto|contradiction].
      * apply Z.leb_gt in Hle. split; [auto|]. intros [H|(H1 & _)]; [exact H|lia].
    + intros p. rewrite in_app_iff, Hset. simpl. split.
      * intros [H|[<-|[]]]; auto.
      * intros [H|([->|H] & Hn)]; [auto|auto|contradiction].
    + intros Hnd Hall. destruct (cl + 1 <=? 3); [|exact Hnd].
      apply NoDup_app. split; [exact Hnd|]. split; [|apply NoDup_singleton].
      intros p Hp Hp'. apply list_elem_of_In in Hp. apply list_elem_of_In in Hp'.
      destruct Hp' as [<-|[]]. apply Hold. auto.
  - intros _. apply Hset. auto.
Qed.

Lemma expand_fold_post p0 cl ds : forall st pushed,
  (forall d, In d ds -> In d SURROUND_OFFSETS) -> isField (fst st) -> 1 <= cl ->
  expand_post p0 cl st pushed (fst (fold_left (expand_visit p0 cl) ds (st, pushed)))
                              (snd (fold_left (expand_visit p0 cl) ds (st, pushed)))
  /\ (forall d, In d ds -> inRoom (fst p0 + fst d) (snd p0 + snd d) ->
       leveled (fst (fst (fold_left (expand_visit p0 cl) ds (st, pushed))))
               (fst p0 + fst d, snd p0 + snd d)).
Proof.
  induction ds as [|d ds IH]; intros st pushed Hds Hf Hcl.
  - simpl. split; [apply expand_post_refl|]. intros d [].
  - cbn [fold_left].
    destruct (expand_visit_post p0 cl st pushed d) as [Hp1 He1];
      [apply Hds; left; auto|auto|auto|].
    destruct (expand_visit p0 cl (st, pushed) d) as [st1 pushed1] eqn:Hv.
    simpl in Hp1, He1.
    destruct (IH st1 pushed1) as [Hp2 He2].
    { intros d' Hd'. apply Hds. right. exact Hd'. }
    { apply (ep_field _ _ _ _ _ _ Hp1 Hf). }
    { exact Hcl. }
    split; [eapply expand_post_trans; eauto|].
    intros d' [<-|Hd'] Hin; [|auto].
    destruct (He1 Hin) as (l & Hl & Hne). exists l.
    split; [apply (ep_keep _ _ _ _ _ _ Hp2)|]; auto.
Qed.
End Expand.

Section ExpandRun.
Variable seeds : list (Z * Z).
Hypothesis seeds_inRoom : forall s, In s seeds -> inRoom (fst s) (snd s).

Local Abbreviation inv := (expand_inv seeds).

Lemma expand_inv_step st q i p st' pushed :
  inv st q i -> q !! i = Some p -> expand_body st p = (st', pushed) ->
  inv st' (q ++ pushed) (S i).
Proof.
  intros [Hf Hsound Hexp Hqueue Htail Hsorted Hfront Hclosed Hqueued Hseed] Hi Hbody.
  unfold expand_body in Hbody.
  destruct (Hqueue i p Hi) as (cl & Hcl & Hclr).
  unfold levelAt in Hcl. rewrite Hcl in Hbody.
  change (default 0 (Some cl)) with cl in Hbody. fold (levelAt (fst st) p) in Hcl.
  destruct (expand_fold_post p cl SURROUND_OFFSETS st []) as [Hpost Hall]; auto; [lia|].
  rewrite Hbody in Hpost, Hall. simpl in Hpost, Hall.
  destruct Hpost as [P1 Pkeep Pnew Ppush Pexp Pnd].
  assert (Pkeep' : forall t, leveled (fst st) t -> leveled (fst st') t).
  { intros t (l & Hl & Hne). exists l. split; [apply Pkeep|]; auto. }
  assert (Hold : forall t l, leveled (fst st) t -> levelAt (fst st') t = Some l ->
            levelAt (fst st) t = Some l).
  { intros t l (l0 & Hl0 & Hne) Hl. rewrite (Pkeep t l0 Hl0 Hne) in Hl. congruence. }
  assert (Hnew : forall t l, ~ leveled (fst st) t -> levelAt (fst st') t = Some l -> l <> 0 ->
            l = cl + 1 /\ neighbour8 p t /\ inRoom (fst t) (snd t)).
  { intros t l Hn Hl Hne.
    destruct (Pnew t) as (H1 & H2 & H3); [exists l; auto|exact Hn|].
    split; [congruence|auto]. }
  assert (Hle : forall k t l, q !! k = Some t -> levelAt (fst st) t = Some l -> l <= cl + 1).
  { intros k t l Ht Hl. destruct (Hqueue k t Ht) as (l0 & Hl0 & Hr).
    apply (Hfront t l i p cl); auto. rewrite Hl0 in Hl. injection Hl as <-. lia. }
  assert (Hq_lev : forall k t, q !! k = Some t -> leveled (fst st) t).
  { intros k t Ht. destruct (Hqueue k t Ht) as (l0 & Hl0 & Hr). exists l0. split; [auto|lia]. }
  assert (Hin_pushed : forall t, In t pushed ->
            cl + 1 <= 3 /\ ~ leveled (fst st) t /\ levelAt (fst st') t = Some (cl + 1)).
  { intros t Ht. apply Ppush in Ht. destruct Ht as [[]|(H1 & H2 & H3)].
    split; [exact H1|]. split; [exact H3|]. apply (Pnew t H2 H3). }
  assert (Hlookup : forall k t, (q ++ pushed) !! k = Some t ->
            q !! k = Some t \/ ((length q <= k)%nat /\ In t pushed)).
  { intros k t Ht. apply lookup_app_Some in Ht. destruct Ht as [Ht|[Hk Ht]]; [auto|].
    right. split; [exact Hk|]. apply list_elem_of_In. eapply list_elem_of_lookup_2; eauto. }
  constructor; auto.
  - (* sound *)
    intros t l Hl Hne. destruct (leveled_dec (fst st) t) as [Ht|Ht].
    + apply Hsound; auto.
    + destruct (Hnew t l Ht Hl Hne) as (-> & Hnb & Hroom).
      split; [lia|].
      destruct (Hsound p cl Hcl ltac:(lia)) as (_ & s & Hs & Hd).
      exists s. split; [exact Hs|]. pose proof (cheb_neighbour p t s Hnb). lia.
  - (* expanded *)
    intros t. rewrite (Pexp t), (Hexp t). split.
    + intros [H|[H _]]; auto.
    + intros H. destruct (leveled_dec (fst st) t); auto.
  - (* queue *)
    intros k t Ht. apply Hlookup in Ht. destruct Ht as [Ht|[_ Ht]].
    + destruct (Hqueue k t Ht) as (l & Hl & Hr). exists l. split; [apply Pkeep; auto; lia|exact Hr].
    + destruct (Hin_pushed t Ht) as (H1 & H2 & H3). exists (cl + 1). split; [exact H3|lia].
  - (* tail *)
    destruct Htail as (q2 & -> & Hnd). exists (q2 ++ pushed).
    split; [by rewrite app_assoc|].
    apply NoDup_app. split; [exact Hnd|]. split.
    + intros t Ht Ht'. apply list_elem_of_In in Ht'.
      destruct (Hin_pushed t Ht') as (_ & H2 & _). apply H2.
      apply list_elem_of_lookup in Ht. destruct Ht as [k Hk].
      apply (Hq_lev (length seeds + k)%nat).
      rewrite lookup_app_r by lia.
      replace (length seeds + k - length seeds)%nat with k by lia. exact Hk.
    + apply Pnd; [constructor|]. intros t [].
  - (* sorted *)
    intros k k' t t' l l' Hk Ht Ht' Hl Hl'. apply Hlookup in Ht, Ht'.
    destruct Ht as [Ht|[Hlen Ht]], Ht' as [Ht'|[Hlen' Ht']].
    + apply (Hsorted k k' t t'); auto; apply Hold; eauto.
    + destruct (Hin_pushed t' Ht') as (_ & _ & H3). rewrite H3 in Hl'. injection Hl' as <-.
      apply (Hle k t); auto. apply Hold; eauto.
    + apply lookup_lt_Some in Ht'. lia.
    + destruct (Hin_pushed t Ht) as (_ & _ & H3). rewrite H3 in Hl.
      destruct (Hin_pushed t' Ht') as (_ & _ & H3'). rewrite H3' in Hl'.
      injection Hl as <-. injection Hl' as <-. lia.
  - (* front *)
    intros t l k t' l' Hl Hne Hk Ht' Hl'. apply Hlookup in Ht'.
    destruct (leveled_dec (fst st) t) as [Hlev|Hlev].
    + apply Hold in Hl; [|exact Hlev]. destruct Ht' as [Ht'|[_ Ht']].
      * apply (Hfront t l k t' l'); auto; [lia|]. apply Hold; eauto.
      * destruct (Hin_pushed t' Ht') as (_ & _ & H3). rewrite H3 in Hl'. injection Hl' as <-.
        pose proof (Hfront t l i p cl Hl Hne ltac:(lia) Hi Hcl). lia.
    + destruct (Hnew t l Hlev Hl Hne) as (-> & _). destruct Ht' as [Ht'|[_ Ht']].
      * assert (Hl2 : levelAt (fst st) t' = Some l') by (apply Hold; eauto).
        pose proof (Hsorted i k p t' cl l' ltac:(lia) Hi Ht' Hcl Hl2). lia.
      * destruct (Hin_pushed t' Ht') as (_ & _ & H3). rewrite H3 in Hl'. injection Hl' as <-. lia.
  - (* closed *)
    intros k t l Hk Ht Hl t' Hnb Hroom. apply Hlookup in Ht.
    destruct Ht as [Ht|[Hlen Ht]]; [|apply lookup_lt_Some in Hi; lia].
    assert (Hl0 : levelAt (fst st) t = Some l) by (apply Hold; eauto).
    destruct (decide (k = i)) as [->|Hne].
    + rewrite Hi in Ht. injection Ht as <-. rewrite Hcl in Hl0. injection Hl0 as <-.
      destruct Hnb as (d & Hd & ->). simpl in Hroom.
      destruct (Hall d Hd Hroom) as (l' & Hl' & Hne'). exists l'.
      split; [exact Hl'|]. split; [exact Hne'|].
      destruct (leveled_dec (fst st) (fst p + fst d, snd p + snd d)) as [Hlev|Hlev].
      * apply Hold in Hl'; [|exact Hlev].
        apply (Hfront (fst p + fst d, snd p + snd d) l' i p cl); auto.
      * destruct (Hnew _ l' Hlev Hl' Hne') as (-> & _). lia.
    + destruct (Hclosed k t l ltac:(lia) Ht Hl0 t' Hnb Hroom) as (l' & H1 & H2 & H3).
      exists l'. split; [apply Pkeep; auto|auto].
  - (* queued *)
    intros t l Hl Hr. destruct (leveled_dec (fst st) t) as [Hlev|Hlev].
    + apply Hold in Hl; [|exact Hlev]. destruct (Hqueued t l Hl Hr) as [k Hk].
      exists k. apply lookup_app_l_Some. exact Hk.
    + destruct (Hnew t l Hlev Hl ltac:(lia)) as (-> & _).
      assert (Ht : In t pushed).
      { apply Ppush. right. split; [lia|]. split; [exists (cl + 1); split; [auto|lia]|exact Hlev]. }
      apply list_elem_of_In, list_elem_of_lookup in Ht. destruct Ht as [k Ht].
      exists (length q + k)%nat. rewrite lookup_app_r by lia.
      replace (length q + k - length q)%nat with k by lia. exact Ht.
Qed.

Lemma seedLevels_fold l : forall arr,
  isField arr -> (forall s, In s l -> inRoom (fst s) (snd s)) ->
  let arr' := fold_left (fun a pos => arr_set a (fst pos) (snd pos) 1) l arr in
  isField arr'
  /\ forall p, (In p l -> levelAt arr' p = Some 1)
               /\ (~ In p l -> levelAt arr' p = levelAt arr p).
Proof.
  induction l as [|s l IH]; intros arr Hf Hin; simpl.
  - split; [exact Hf|]. intros p. split; [intros []|auto].
  - destruct (IH (arr_set arr (fst s) (snd s) 1)) as [H1 H2].
    { by apply isField_set. }
    { intros s' Hs'. apply Hin. right. exact Hs'. }
    split; [exact H1|]. intros p. destruct (H2 p) as [H3 H4].
    destruct (in_dec (fun a b : Z * Z => decide (a = b)) p l) as [Hl|Hl].
    + split; [auto|]. intros Hn. exfalso. apply Hn. right. exact Hl.
    + rewrite (H4 Hl). split.
      * intros [->|Hp]; [|contradiction]. unfold levelAt.
        apply arr_get_set_same; [exact Hf|]. apply Hin. left. reflexivity.
      * intros Hn. unfold levelAt. apply arr_get_set_other.
        intros Heq. apply Hn. left. destruct s, p. simpl in *. congruence.
Qed.

Lemma expand_inv_init : inv (seedLevels seeds, seeds) seeds 0.
Proof.
  destruct (seedLevels_fold seeds (initArr 0) (isField_initArr 0) seeds_inRoom) as [Hf Hlev].
  fold (seedLevels seeds) in Hf, Hlev.
  assert (Hiff : forall p, leveled (seedLevels seeds) p <-> In p seeds).
  { intros p. destruct (Hlev p) as [H1 H2]. split.
    - intros (l & Hl & Hne).
      destruct (in_dec (fun a b : Z * Z => decide (a = b)) p seeds) as [Hs|Hs]; [exact Hs|].
      rewrite (H2 Hs) in Hl. unfold levelAt in Hl.
      destruct (decide (inRoom (fst p) (snd p))) as [Hr|Hr].
      + rewrite arr_get_initArr in Hl by assumption. congruence.
      + rewrite arr_get_outside in Hl; [discriminate|apply isField_initArr|assumption].
    - intros Hs. exists 1. split; [auto|lia]. }
  assert (Hone : forall p l, levelAt (seedLevels seeds) p = Some l -> l <> 0 -> l = 1 /\ In p seeds).
  { intros p l Hl Hne. assert (Hs : In p seeds) by (apply Hiff; exists l; auto).
    destruct (Hlev p) as [H1 _]. rewrite (H1 Hs) in Hl. split; [congruence|exact Hs]. }
  assert (Hq : forall k p, seeds !! k = Some p -> In p seeds).
  { intros k p Hk. apply list_elem_of_In. eapply list_elem_of_lookup_2; eauto. }
  constructor; simpl.
  - exact Hf.
  - intros p l Hl Hne. destruct (Hone p l Hl Hne) as [-> Hs]. split; [lia|].
    exists p. split; [exact Hs|]. unfold cheb. lia.
  - intros p. symmetry. apply Hiff.
  - intros k p Hk. exists 1. split; [apply Hlev; eauto|lia].
  - exists []. split; [by rewrite app_nil_r|constructor].
  - intros k k' p p' l l' _ Hk Hk' Hl Hl'.
    destruct (Hlev p) as [H1 _], (Hlev p') as [H1' _].
    rewrite (H1 (Hq _ _ Hk)) in Hl. rewrite (H1' (Hq _ _ Hk')) in Hl'.
    injection Hl as <-. injection Hl' as <-. lia.
  - intros p l k p' l' Hl Hne _ Hk' Hl'.
    destruct (Hone p l Hl Hne) as [-> _].
    destruct (Hlev p') as [H1' _]. rewrite (H1' (Hq _ _ Hk')) in Hl'.
    injection Hl' as <-. lia.
  - intros k p l Hk. lia.
  - intros p l Hl Hr. destruct (Hone p l Hl ltac:(lia)) as [_ Hs].
    apply list_elem_of_In, list_elem_of_lookup in Hs. exact Hs.
  - intros s Hs. apply Hlev. exact Hs.
Qed.

Lemma expand_inv_length st q i : inv st q i -> (length q <= length seeds + 2500)%nat.
Proof.
  intros Hinv. destruct (ei_tail _ _ _ _ Hinv) as (q2 & Hq & Hnd).
  rewrite Hq, length_app. apply Nat.add_le_mono_l.
  apply NoDup_room_length; [exact Hnd|].
  intros p Hp. apply list_elem_of_In, list_elem_of_lookup in Hp. destruct Hp as [k Hk].
  destruct (ei_queue _ _ _ _ Hinv (length seeds + k)%nat p) as (l & Hl & Hr).
  { rewrite Hq, lookup_app_r by lia.
    replace (length seeds + k - length seeds)%nat with k by lia. exact Hk. }
  apply (leveled_inRoom (fst st)); [apply (ei_field _ _ _ _ Hinv)|].
  exists l. split; [exact Hl|lia].
Qed.

Lemma expand_loop_terminates fuel :
  (length seeds + 2501 <= fuel)%nat ->
  is_Some (queue_loop expand_body fuel (seedLevels seeds, seeds) seeds 0).
Proof.
  intros Hfuel.
  apply (queue_loop_terminates _ inv) with (bound := (length seeds + 2500)%nat).
  - intros. eapply expand_inv_step; eauto.
  - apply expand_inv_length.
  - apply expand_inv_init.
  - lia.
  - lia.
Qed.

(** At the end of the loop every tile of the room within distance 3 of
    a seed holds a level. *)
Lemma expand_inv_complete st q :
  inv st q (length q) ->
  forall n p s, In s seeds -> inRoom (fst p) (snd p) -> cheb p s = Z.of_nat n -> Z.of_nat n <= 3 ->
    exists l, levelAt (fst st) p = Some l /\ 1 <= l <= Z.of_nat n + 1.
Proof.
  intros Hinv. induction n as [|n IH]; intros p s Hs Hp Hc Hn.
  - assert (p = s) by (apply cheb_zero; lia). subst p.
    exists 1. split; [apply (ei_seed _ _ _ _ Hinv); exact Hs|lia].
  - destruct (cheb_step_towards p s (Z.of_nat n)) as (p0 & Hp0 & Hc0 & Hnb); auto; [lia|lia|].
    destruct (IH p0 s Hs Hp0 Hc0 ltac:(lia)) as (l0 & Hl0 & Hr0).
    destruct (ei_queued _ _ _ _ Hinv p0 l0 Hl0 ltac:(lia)) as [k Hk].
    destruct (ei_closed _ _ _ _ Hinv k p0 l0 (lookup_lt_Some _ _ _ Hk) Hk Hl0 p Hnb Hp)
      as (l & Hl & Hne & Hle).
    exists l. split; [exact Hl|].
    destruct (ei_sound _ _ _ _ Hinv p l Hl Hne) as [Hr _]. lia.
Qed.
End ExpandRun.

(** ** Flows on the adjacency lists *)

Lemma edgesOf_insert edges u l w :
  edgesOf (<[u := l]> edges) w = if decide (w = u) then l else edgesOf edges w.
Proof.
  unfold edgesOf. destruct (decide (w = u)) as [->|Hne].
  - by rewrite lookup_insert_eq.
  - by rewrite lookup_insert_ne.
Qed.

Lemma edgeAt_addFlow edges u i d w j :
  edgeAt (addFlow edges u i d) w j
  = if decide (w = u /\ j = i) then bump d <$> edgeAt edges u i else edgeAt edges w j.
Proof.
  unfold addFlow, edgeAt.
  destruct (edgesOf edges u !! i) as [e|] eqn:He.
  - rewrite edgesOf_insert. destruct (decide (w = u)) as [->|Hne].
    + destruct (decide (j = i)) as [->|Hne'].
      * rewrite decide_True by auto.
        rewrite list_lookup_insert_eq by (eapply lookup_lt_Some; eauto).
        reflexivity.
      * rewrite decide_False by tauto. by rewrite list_lookup_insert_ne.
    + rewrite decide_False by tauto. reflexivity.
  - destruct (decide (w = u /\ j = i)) as [[-> ->]|Hne]; [|reflexivity].
    rewrite He. reflexivity.
Qed.

Lemma sumFlow_insert l i e e' :
  l !! i = Some e -> sumFlow (<[i := e']> l) = sumFlow l - e_f e + e_f e'.
Proof.
  revert i. induction l as [|a l IH]; intros i Hi; [discriminate|].
  destruct i as [|i]; simpl in *.
  - injection Hi as ->. lia.
  - rewrite (IH i Hi). lia.
Qed.

Lemma excess_addFlow edges u i d e w :
  edgeAt edges u i = Some e ->
  excess (addFlow edges u i d) w = excess edges w + (if decide (w = u) then d else 0).
Proof.
  intros He. unfold excess, addFlow. unfold edgeAt in He. rewrite He.
  rewrite edgesOf_insert. destruct (decide (w = u)) as [->|Hne]; [|lia].
  rewrite (sumFlow_insert _ _ e) by exact He. simpl. lia.
Qed.

Lemma same_skel_refl edges : same_skel edges edges.
Proof. intros u. reflexivity. Qed.

Lemma same_skel_trans e1 e2 e3 : same_skel e1 e2 -> same_skel e2 e3 -> same_skel e1 e3.
Proof. intros A B u. rewrite (A u). apply B. Qed.

Lemma same_skel_sym e1 e2 : same_skel e1 e2 -> same_skel e2 e1.
Proof. intros A u. symmetry. apply A. Qed.

Lemma same_skel_addFlow edges u i d : same_skel edges (addFlow edges u i d).
Proof.
  intros w. unfold addFlow. destruct (edgesOf edges u !! i) as [e|] eqn:He; [|reflexivity].
  rewrite edgesOf_insert. destruct (decide (w = u)) as [->|Hne]; [|reflexivity].
  apply list_eq. intros j. rewrite !list_lookup_fmap.
  destruct (decide (j = i)) as [->|Hne].
  - rewrite list_lookup_insert_eq by (eapply lookup_lt_Some; eauto). rewrite He. reflexivity.
  - by rewrite list_lookup_insert_ne.
Qed.

Lemma same_skel_length e1 e2 u :
  same_skel e1 e2 -> length (edgesOf e1 u) = length (edgesOf e2 u).
Proof. intros H. rewrite <- (length_map skel), (H u), length_map. reflexivity. Qed.

Lemma same_skel_edgeAt e1 e2 u i e :
  same_skel e1 e2 -> edgeAt e1 u i = Some e ->
  exists e', edgeAt e2 u i = Some e' /\ skel e' = skel e.
Proof.
  intros H He. unfold edgeAt in *.
  assert (Hm : map skel (edgesOf e1 u) !! i = Some (skel e)).
  { change (map skel) with (fmap (M:=list) skel). rewrite list_lookup_fmap, He. reflexivity. }
  rewrite (H u) in Hm. change (map skel) with (fmap (M:=list) skel) in Hm.
  rewrite list_lookup_fmap in Hm.
  destruct (edgesOf e2 u !! i) as [e'|]; [|discriminate].
  exists e'. split; [reflexivity|]. simpl in Hm. congruence.
Qed.

Lemma skel_inv e e' : skel e' = skel e -> e_v e' = e_v e /\ e_r e' = e_r e /\ e_c e' = e_c e.
Proof. unfold skel. intros H. injection H. auto. Qed.

Lemma paired_skel e1 e2 : same_skel e1 e2 -> paired e1 -> paired e2.
Proof.
  intros Hs [Hp Hl Hc]. apply same_skel_sym in Hs as Hs'.
  constructor.
  - intros u i e He.
    destruct (same_skel_edgeAt _ _ _ _ _ Hs' He) as (e0 & He0 & Hsk).
    apply skel_inv in Hsk. destruct Hsk as (Hv & Hr & _).
    destruct (Hp u i e0 He0) as (p0 & Hp0 & Hpv & Hpr).
    destruct (same_skel_edgeAt _ _ _ _ _ Hs Hp0) as (p & Hp1 & Hsk).
    apply skel_inv in Hsk. destruct Hsk as (Hv' & Hr' & _).
    exists p. rewrite <- Hv, <- Hr. split; [exact Hp1|]. split; congruence.
  - intros u i e He.
    destruct (same_skel_edgeAt _ _ _ _ _ Hs' He) as (e0 & He0 & Hsk).
    apply skel_inv in Hsk. destruct Hsk as (Hv & _). rewrite <- Hv. eapply Hl; eauto.
  - intros u i e He.
    destruct (same_skel_edgeAt _ _ _ _ _ Hs' He) as (e0 & He0 & Hsk).
    apply skel_inv in Hsk. destruct Hsk as (_ & _ & Hc'). rewrite <- Hc'. eapply Hc; eauto.
Qed.

(** The two writes of an augmentation along the edge [e] at [(u, i)],
    whose partner is [p]. *)
Lemma edgeAt_augment edges u i e p r w j :
  edgeAt edges u i = Some e -> edgeAt edges (e_v e) (e_r e) = Some p -> e_v e <> u ->
  edgeAt (addFlow (addFlow edges u i r) (e_v e) (e_r e) (- r)) w j
  = if decide (w = e_v e /\ j = e_r e) then Some (bump (- r) p)
    else if decide (w = u /\ j = i) then Some (bump r e)
    else edgeAt edges w j.
Proof.
  intros He Hp Hne. rewrite edgeAt_addFlow.
  destruct (decide (w = e_v e /\ j = e_r e)) as [[-> ->]|Hn1].
  - rewrite edgeAt_addFlow. rewrite decide_False by tauto. rewrite Hp. reflexivity.
  - rewrite edgeAt_addFlow. destruct (decide (w = u /\ j = i)) as [[-> ->]|Hn2]; [|reflexivity].
    rewrite He. reflexivity.
Qed.

Lemma lvl_insert level u x w :
  lvl (<[u := x]> level) w = if decide (w = u) then x else lvl level w.
Proof.
  unfold lvl. destruct (decide (w = u)) as [->|Hne].
  - by rewrite lookup_insert_eq.
  - by rewrite lookup_insert_ne.
Qed.

Lemma cnt_insert count u x w :
  cnt (<[u := x]> count) w = if decide (w = u) then x else cnt count w.
Proof.
  unfold cnt. destruct (decide (w = u)) as [->|Hne].
  - by rewrite lookup_insert_eq.
  - by rewrite lookup_insert_ne.
Qed.

(** ** One augmenting path: [dfsFlow] *)

Section Dfs.
Variables (level : gmap Z Z) (t : Z).

Local Abbreviation post := (dfs_post level t).
Local Abbreviation dead := (deadInv level t).

Lemma dead_advance edges count u :
  dead edges count ->
  (forall e, edgeAt edges u (cnt count u) = Some e -> admissible level u e ->
     e_v e <> t /\ (length (edgesOf edges (e_v e)) <= cnt count (e_v e))%nat) ->
  dead edges (<[u := S (cnt count u)]> count).
Proof.
  intros Hdead Hcur w i e He Hi Hadm.
  assert (Hmono : forall x, (cnt count x <= cnt (<[u := S (cnt count u)]> count) x)%nat).
  { intros x. rewrite cnt_insert. destruct (decide (x = u)) as [->|]; lia. }
  assert (Hold : e_v e <> t /\ (length (edgesOf edges (e_v e)) <= cnt count (e_v e))%nat).
  { rewrite cnt_insert in Hi. destruct (decide (w = u)) as [->|Hne].
    - destruct (decide (i = cnt count u)) as [->|Hne']; [auto|].
      apply (Hdead u i e); auto. lia.
    - apply (Hdead w i e); auto. }
  destruct Hold as [H1 H2]. split; [exact H1|]. specialize (Hmono (e_v e)). lia.
Qed.

Lemma dfs_post_weaken edges count count2 u f r edges' count' :
  post edges count2 u f r edges' count' ->
  (forall w, (cnt count w <= cnt count2 w)%nat) ->
  (forall w, lvl level w < lvl level u -> cnt count2 w = cnt count w) ->
  post edges count u f r edges' count'.
Proof.
  intros [] Hmono Hframe. constructor; auto.
  - intros w. specialize (Hmono w). specialize (dp_count_mono0 w). lia.
  - intros w Hw. rewrite dp_count_frame0 by exact Hw. auto.
Qed.

Lemma dfs_post_sink edges count f :
  0 < f ->
  (forall w i e e', edgeAt edges w i = Some e ->
     edgeAt edges (e_v e) (e_r e) = Some e' -> e_f e' = - e_f e) ->
  (forall w i e, edgeAt edges w i = Some e -> e_f e <= e_c e) ->
  dead edges count ->
  post edges count t f f edges count.
Proof.
  intros Hf Hanti Hcap Hdead. constructor; auto.
  - lia.
  - apply same_skel_refl.
  - intros w. destruct (decide (w = t)); lia.
  - intros Hz. lia.
Qed.

Lemma dfs_post_exhausted edges count u f :
  0 < f -> u <> t -> edgeAt edges u (cnt count u) = None ->
  (forall w i e e', edgeAt edges w i = Some e ->
     edgeAt edges (e_v e) (e_r e) = Some e' -> e_f e' = - e_f e) ->
  (forall w i e, edgeAt edges w i = Some e -> e_f e <= e_c e) ->
  dead edges count ->
  post edges count u f 0 edges count.
Proof.
  intros Hf Hne Hnone Hanti Hcap Hdead. constructor; auto.
  - lia.
  - apply same_skel_refl.
  - intros w. destruct (decide (w = u)), (decide (w = t)); lia.
  - intros _. split; [exact Hne|]. by apply lookup_ge_None.
Qed.

Lemma dfs_post_augment edges count u f e r1 edges1 count1 :
  paired edges -> u <> t -> 0 < f ->
  edgeAt edges u (cnt count u) = Some e -> admissible level u e ->
  post edges count (e_v e) (Z.min f (e_c e - e_f e)) r1 edges1 count1 ->
  0 < r1 ->
  post edges count u f r1
    (addFlow (addFlow edges1 u (cnt count u) r1) (e_v e) (e_r e) (- r1)) count1.
Proof.
  intros Hpair Hut Hf He [Hlv Hres] P1 Hr1.
  destruct P1 as [Prange Pskel Pzero Panti Pcap Pexc Pframe Pmono Pcframe Pdead Pexh].
  set (cu := cnt count u) in *. set (v := e_v e) in *. set (er := e_r e) in *.
  destruct (pr_partner _ Hpair u cu e He) as (p & Hp & Hpv & Hpr).
  fold v er in Hp.
  pose proof (pr_noloop _ Hpair u cu e He) as Hvu. fold v in Hvu.
  assert (He1 : edgeAt edges1 u cu = Some e).
  { apply Pframe; [exact He|]. left. lia. }
  assert (Hp1 : edgeAt edges1 v er = Some p).
  { apply Pframe; [exact Hp|]. right. rewrite Hpv. lia. }
  assert (Hpair1 : paired edges1) by (eapply paired_skel; eauto).
  assert (Hget := fun w j => edgeAt_augment edges1 u cu e p r1 w j He1 Hp1 Hvu).
  fold v er in Hget.
  set (edges' := addFlow (addFlow edges1 u cu r1) v er (- r1)) in *.
  assert (Hskel' : same_skel edges1 edges').
  { eapply same_skel_trans; apply same_skel_addFlow. }
  constructor.
  - lia.
  - eapply same_skel_trans; eauto.
  - intros Hz. lia.
  - (* antisymmetry *)
    intros w j e0 e0' H0 H0'. rewrite Hget in H0.
    destruct (decide (w = v /\ j = er)) as [[-> ->]|Hn1].
    { injection H0 as <-. simpl in H0'. rewrite Hpv, Hpr in H0'. rewrite Hget in H0'.
      rewrite decide_False in H0' by (intros [? ?]; congruence). rewrite decide_True in H0' by auto.
      injection H0' as <-. simpl. rewrite (Panti u cu e p He1 Hp1). lia. }
    destruct (decide (w = u /\ j = cu)) as [[-> ->]|Hn2].
    { injection H0 as <-. simpl in H0'. fold v er in H0'. rewrite Hget in H0'.
      rewrite decide_True in H0' by auto. injection H0' as <-. simpl.
      rewrite (Panti u cu e p He1 Hp1). lia. }
    rewrite Hget in H0'.
    destruct (pr_partner _ Hpair1 w j e0 H0) as (q & Hq & Hqv & Hqr).
    destruct (decide (e_v e0 = v /\ e_r e0 = er)) as [[E1 E2]|Hn3].
    { exfalso. rewrite E1, E2, Hp1 in Hq. injection Hq as <-. apply Hn2. split; congruence. }
    destruct (decide (e_v e0 = u /\ e_r e0 = cu)) as [[E1 E2]|Hn4].
    { exfalso. rewrite E1, E2, He1 in Hq. injection Hq as <-. apply Hn1.
      unfold v, er. split; congruence. }
    eapply Panti; eauto.
  - (* capacity *)
    intros w j e0 H0. rewrite Hget in H0.
    destruct (decide (w = v /\ j = er)) as [[-> ->]|Hn1].
    { injection H0 as <-. simpl. pose proof (Pcap v er p Hp1). lia. }
    destruct (decide (w = u /\ j = cu)) as [[-> ->]|Hn2].
    { injection H0 as <-. simpl. lia. }
    eapply Pcap; eauto.
  - (* excess *)
    intros w. unfold edges'.
    assert (Hp2 : edgeAt (addFlow edges1 u cu r1) v er = Some p).
    { rewrite edgeAt_addFlow. rewrite decide_False by (intros [? ?]; congruence). exact Hp1. }
    rewrite (excess_addFlow _ _ _ _ p w Hp2).
    rewrite (excess_addFlow _ _ _ _ e w He1).
    rewrite Pexc.
    destruct (decide (w = v)), (decide (w = u)), (decide (w = t)); lia.
  - (* frame *)
    intros w j e0 H0 Hlow. rewrite Hget.
    destruct (decide (w = v /\ j = er)) as [[-> ->]|Hn1].
    { exfalso. rewrite Hp in H0. injection H0 as <-. rewrite Hpv in Hlow. lia. }
    destruct (decide (w = u /\ j = cu)) as [[-> ->]|Hn2].
    { exfalso. rewrite He in H0. injection H0 as <-. fold v in Hlow. lia. }
    apply Pframe; [exact H0|]. destruct Hlow; [left|right]; lia.
  - exact Pmono.
  - intros w Hw. apply Pcframe. lia.
  - (* dead ends *)
    intros w j e0 H0 Hj Hadm. rewrite Hget in H0.
    destruct (decide (w = v /\ j = er)) as [[-> ->]|Hn1].
    { exfalso. injection H0 as <-. destruct Hadm as [Hl _]. simpl in Hl.
      rewrite Hpv in Hl. lia. }
    destruct (decide (w = u /\ j = cu)) as [[-> ->]|Hn2].
    { exfalso. rewrite Pcframe in Hj by lia. unfold cu in Hj. lia. }
    destruct (Pdead w j e0 H0 Hj Hadm) as [H1 H2]. split; [exact H1|].
    rewrite <- (same_skel_length _ _ _ Hskel'). exact H2.
  - intros Hz. lia.
Qed.

Lemma dfs_spec fuel : forall edges count u f r edges' count',
  paired edges ->
  (forall w i e e', edgeAt edges w i = Some e ->
     edgeAt edges (e_v e) (e_r e) = Some e' -> e_f e' = - e_f e) ->
  (forall w i e, edgeAt edges w i = Some e -> e_f e <= e_c e) ->
  dead edges count -> 0 < f ->
  dfsFlow fuel level edges u f t count = Some (r, edges', count') ->
  post edges count u f r edges' count'.
Proof.
  induction fuel as [|fuel IH]; intros edges count u f r edges' count'
    Hpair Hanti Hcap Hdead Hf Hrun; [discriminate|].
  simpl in Hrun. destruct (Z.eqb_spec u t) as [->|Hut].
  { injection Hrun as <- <- <-. by apply dfs_post_sink. }
  destruct (edgesOf edges u !! cnt count u) as [e|] eqn:He.
  2:{ injection Hrun as <- <- <-. by apply dfs_post_exhausted. }
  fold (edgeAt edges u (cnt count u)) in He.
  destruct ((lvl level (e_v e) =? lvl level u + 1) && (e_f e <? e_c e)) eqn:Hadm.
  - apply andb_true_iff in Hadm. destruct Hadm as [Hl Hres].
    apply Z.eqb_eq in Hl. apply Z.ltb_lt in Hres.
    destruct (dfsFlow fuel level edges (e_v e) _ t count) as [[[r1 edges1] count1]|] eqn:Hrec;
      [|discriminate].
    apply IH in Hrec; auto; [|lia].
    destruct (Z.ltb_spec 0 r1) as [Hr1|Hr1].
    + injection Hrun as <- <- <-.
      apply dfs_post_augment; auto. split; assumption.
    + pose proof (dp_range _ _ _ _ _ _ _ _ _ Hrec) as Hrange.
      assert (r1 = 0) by lia. subst r1.
      pose proof (dp_zero _ _ _ _ _ _ _ _ _ Hrec eq_refl) as ->.
      destruct (dp_exhausted _ _ _ _ _ _ _ _ _ Hrec eq_refl) as [Hvt Hlen].
      assert (Hcu : cnt count1 u = cnt count u).
      { apply (dp_count_frame _ _ _ _ _ _ _ _ _ Hrec). lia. }
      apply IH in Hrun; auto.
      * eapply dfs_post_weaken; [exact Hrun| |].
        -- intros w. rewrite cnt_insert.
           pose proof (dp_count_mono _ _ _ _ _ _ _ _ _ Hrec w).
           destruct (decide (w = u)) as [->|]; lia.
        -- intros w Hw. rewrite cnt_insert. destruct (decide (w = u)) as [->|]; [lia|].
           apply (dp_count_frame _ _ _ _ _ _ _ _ _ Hrec). lia.
      * apply dead_advance; [apply (dp_dead _ _ _ _ _ _ _ _ _ Hrec)|].
        rewrite Hcu. intros e0 He0 _. rewrite He in He0. injection He0 as <-. auto.
  - apply IH in Hrun; auto.
    + eapply dfs_post_weaken; [exact Hrun| |].
      * intros w. rewrite cnt_insert. destruct (decide (w = u)) as [->|]; lia.
      * intros w Hw. rewrite cnt_insert. destruct (decide (w = u)) as [->|]; [lia|reflexivity].
    + apply dead_advance; [exact Hdead|].
      intros e0 He0 [Hl Hres]. rewrite He in He0. injection He0 as <-.
      apply andb_false_iff in Hadm. destruct Hadm as [Hadm|Hadm].
      * apply Z.eqb_neq in Hadm. contradiction.
      * apply Z.ltb_ge in Hadm. lia.
Qed.
End Dfs.

(** *** Termination of [dfsFlow] *)

Lemma maxLevel_ge level w : lvl level w <= maxLevel level /\ 0 <= maxLevel level.
Proof.
  unfold maxLevel, lvl.
  assert (Hgen : forall l : list (Z * Z),
            0 <= foldr (fun ux acc => Z.max (snd ux) acc) 0 l
            /\ forall ux, In ux l -> snd ux <= foldr (fun ux acc => Z.max (snd ux) acc) 0 l).
  { induction l as [|a l [IH1 IH2]]; simpl.
    - split; [lia|]. intros ux [].
    - split; [lia|]. intros ux [<-|Hin]; [lia|]. specialize (IH2 ux Hin). lia. }
  destruct (Hgen (map_to_list level)) as [H0 Hall]. split; [|exact H0].
  destruct (level !! w) as [x|] eqn:Hw; simpl; [|lia].
  apply (Hall (w, x)). apply list_elem_of_In, elem_of_map_to_list. exact Hw.
Qed.

Lemma remaining_le edges count count' :
  (forall w, (cnt count w <= cnt count' w)%nat) ->
  (remaining edges count' <= remaining edges count)%nat.
Proof.
  intros Hmono. unfold remaining.
  induction (map_to_list edges) as [|a l IH]; simpl; [lia|].
  specialize (Hmono (fst a)). lia.
Qed.

Lemma remaining_lt edges count count' u :
  (forall w, (cnt count w <= cnt count' w)%nat) ->
  (cnt count u < cnt count' u)%nat ->
  (cnt count u < length (edgesOf edges u))%nat ->
  (remaining edges count' < remaining edges count)%nat.
Proof.
  intros Hmono Hu Hlen. unfold remaining.
  assert (Hin : In (u, edgesOf edges u) (map_to_list edges)).
  { apply list_elem_of_In, elem_of_map_to_list. unfold edgesOf in *.
    destruct (edges !! u) as [l|]; [reflexivity|simpl in Hlen; lia]. }
  induction (map_to_list edges) as [|a l IH]; simpl; [destruct Hin|].
  destruct Hin as [->|Hin].
  - simpl.
    assert (foldr (fun ul acc => (length (snd ul) - cnt count' (fst ul) + acc)%nat) O l
            <= foldr (fun ul acc => (length (snd ul) - cnt count (fst ul) + acc)%nat) O l)%nat.
    { clear -Hmono. induction l as [|b l IH]; simpl; [lia|]. specialize (Hmono (fst b)). lia. }
    lia.
  - specialize (IH Hin). specialize (Hmono (fst a)). lia.
Qed.

Section DfsTermination.
Variables (level : gmap Z Z) (t : Z) (edges0 : gmap Z (list Edge)).

Lemma dfs_terminates fuel : forall edges count u f,
  same_skel edges0 edges -> paired edges ->
  (forall w i e e', edgeAt edges w i = Some e ->
     edgeAt edges (e_v e) (e_r e) = Some e' -> e_f e' = - e_f e) ->
  (forall w i e, edgeAt edges w i = Some e -> e_f e <= e_c e) ->
  deadInv level t edges count -> 0 < f ->
  (remaining edges0 count + Z.to_nat (maxLevel level - lvl level u) < fuel)%nat ->
  is_Some (dfsFlow fuel level edges u f t count).
Proof.
  induction fuel as [|fuel IH]; intros edges count u f Hskel Hpair Hanti Hcap Hdead Hf Hfuel;
    [lia|].
  simpl. destruct (Z.eqb_spec u t) as [->|Hut]; [eauto|].
  destruct (edgesOf edges u !! cnt count u) as [e|] eqn:He; [|eauto].
  assert (Hlen : (cnt count u < length (edgesOf edges0 u))%nat).
  { rewrite (same_skel_length _ _ u Hskel). eapply lookup_lt_Some; eauto. }
  fold (edgeAt edges u (cnt count u)) in He.
  destruct ((lvl level (e_v e) =? lvl level u + 1) && (e_f e <? e_c e)) eqn:Hadm.
  - apply andb_true_iff in Hadm. destruct Hadm as [Hl Hres].
    apply Z.eqb_eq in Hl. apply Z.ltb_lt in Hres.
    pose proof (maxLevel_ge level (e_v e)) as [Hmax _].
    assert (Hf1 : 0 < Z.min f (e_c e - e_f e)) by lia.
    destruct (IH edges count (e_v e) (Z.min f (e_c e - e_f e))) as [[[r1 edges1] count1] Hrec];
      auto; [lia|].
    rewrite Hrec. pose proof (dfs_spec level t fuel _ _ _ _ _ _ _ Hpair Hanti Hcap Hdead
                                Hf1 Hrec) as P1.
    destruct (Z.ltb_spec 0 r1) as [Hr1|Hr1]; [eauto|].
    pose proof (dp_range _ _ _ _ _ _ _ _ _ P1) as Hrange.
    assert (r1 = 0) by lia. subst r1.
    pose proof (dp_zero _ _ _ _ _ _ _ _ _ P1 eq_refl) as ->.
    destruct (dp_exhausted _ _ _ _ _ _ _ _ _ P1 eq_refl) as [Hvt Hlen'].
    assert (Hcu : cnt count1 u = cnt count u).
    { apply (dp_count_frame _ _ _ _ _ _ _ _ _ P1). lia. }
    apply IH; auto.
    + apply dead_advance; [apply (dp_dead _ _ _ _ _ _ _ _ _ P1)|].
      rewrite Hcu. intros e0 He0 _. rewrite He in He0. injection He0 as <-. auto.
    + assert ((remaining edges0 (<[u := S (cnt count1 u)]> count1) < remaining edges0 count)%nat).
      { apply (remaining_lt _ _ _ u).
        - intros w. rewrite cnt_insert.
          pose proof (dp_count_mono _ _ _ _ _ _ _ _ _ P1 w).
          destruct (decide (w = u)) as [->|]; lia.
        - rewrite cnt_insert, decide_True by reflexivity. lia.
        - exact Hlen. }
      lia.
  - apply IH; auto.
    + apply dead_advance; [exact Hdead|].
      intros e0 He0 [Hl Hres]. rewrite He in He0. injection He0 as <-.
      apply andb_false_iff in Hadm. destruct Hadm as [Hadm|Hadm].
      * apply Z.eqb_neq in Hadm. contradiction.
      * apply Z.ltb_ge in Hadm. lia.
    + assert ((remaining edges0 (<[u := S (cnt count u)]> count) < remaining edges0 count)%nat).
      { apply (remaining_lt _ _ _ u).
        - intros w. rewrite cnt_insert. destruct (decide (w = u)) as [->|]; lia.
        - rewrite cnt_insert, decide_True by reflexivity. lia.
        - exact Hlen. }
      lia.
Qed.
End DfsTermination.

(** ** One phase: the blocking flow *)

Lemma sumFlow_le_sumCap l :
  (forall e, In e l -> e_f e <= e_c e) -> sumFlow l <= sumCap l.
Proof.
  induction l as [|a l IH]; intros H; simpl; [lia|].
  pose proof (H a (or_introl eq_refl)). specialize (IH (fun e He => H e (or_intror He))). lia.
Qed.

Lemma sumCap_skel l l' : map skel l = map skel l' -> sumCap l = sumCap l'.
Proof.
  revert l'. induction l as [|a l IH]; intros [|b l'] H; try discriminate; [reflexivity|].
  simpl in *. injection H as Hv Hr Hc Hl.
  rewrite (IH l' Hl). lia.
Qed.

Lemma excess_le_cap edges s t u :
  flow_ok edges s t -> excess edges u <= sumCap (edgesOf edges u).
Proof.
  intros Hok. apply sumFlow_le_sumCap. intros e He.
  apply list_elem_of_In, list_elem_of_lookup in He. destruct He as [i Hi].
  eapply (fo_cap _ _ _ Hok); eauto.
Qed.

Lemma deadInv_empty level t edges : deadInv level t edges ∅.
Proof. intros w i e _ Hi. unfold cnt in Hi. rewrite lookup_empty in Hi. simpl in Hi. lia. Qed.

Section Blocking.
Variables (level : gmap Z Z) (s t : Z).
Hypothesis s_not_t : s <> t.

(** When the cursor of the source has passed all its edges, no path of
    the level graph reaches the sink. *)
Lemma dead_chain edges count :
  deadInv level t edges count ->
  (length (edgesOf edges s) <= cnt count s)%nat ->
  forall w, lchain level edges s w ->
    w <> t /\ (length (edgesOf edges w) <= cnt count w)%nat.
Proof.
  intros Hdead Hs w Hw. induction Hw as [|w i e Hw [IH1 IH2] He Hadm]; [auto|].
  apply (Hdead w i e); auto. apply lookup_lt_Some in He. unfold edgeAt in *. lia.
Qed.

Lemma dfs_post_flow_ok edges count f r edges' count' :
  flow_ok edges s t -> dfs_post level t edges count s f r edges' count' ->
  flow_ok edges' s t /\ excess edges' s = excess edges s + r.
Proof.
  intros Hok P. split.
  - constructor.
    + apply (dp_anti _ _ _ _ _ _ _ _ _ P).
    + apply (dp_cap _ _ _ _ _ _ _ _ _ P).
    + intros w Hs Ht. rewrite (dp_excess _ _ _ _ _ _ _ _ _ P).
      rewrite !decide_False by auto. rewrite (fo_cons _ _ _ Hok) by auto. lia.
  - rewrite (dp_excess _ _ _ _ _ _ _ _ _ P).
    rewrite decide_True by auto. rewrite decide_False by auto. lia.
Qed.

Lemma blocking_spec fuel : forall fuelD edges count rv rv' edges',
  paired edges -> flow_ok edges s t -> deadInv level t edges count ->
  blockingFlow fuel fuelD level edges s t count rv = Some (rv', edges') ->
  same_skel edges edges' /\ flow_ok edges' s t
  /\ rv' - rv = excess edges' s - excess edges s /\ rv <= rv'
  /\ (count = ∅ -> lchain level edges s t -> rv < rv').
Proof.
  induction fuel as [|fuel IH]; intros fuelD edges count rv rv' edges' Hpair Hok Hdead Hrun;
    [discriminate|].
  simpl in Hrun.
  destruct (dfsFlow fuelD level edges s MAX_VALUE t count) as [[[r edges1] count1]|] eqn:Hdfs;
    [|discriminate].
  assert (HM : 0 < MAX_VALUE) by (vm_compute; reflexivity).
  pose proof (dfs_spec level t fuelD _ _ _ _ _ _ _ Hpair (fo_anti _ _ _ Hok)
                (fo_cap _ _ _ Hok) Hdead HM Hdfs) as P.
  destruct (dfs_post_flow_ok _ _ _ _ _ _ Hok P) as [Hok1 Hexc].
  pose proof (dp_range _ _ _ _ _ _ _ _ _ P) as Hrange.
  destruct (Z.ltb_spec 0 r) as [Hr|Hr].
  - apply IH in Hrun; auto.
    + destruct Hrun as (H1 & H2 & H3 & H4 & _).
      split; [eapply same_skel_trans; [apply (dp_skel _ _ _ _ _ _ _ _ _ P)|exact H1]|].
      split; [exact H2|]. split; [lia|]. split; [lia|]. intros _ _. lia.
    + eapply paired_skel; [apply (dp_skel _ _ _ _ _ _ _ _ _ P)|exact Hpair].
    + apply (dp_dead _ _ _ _ _ _ _ _ _ P).
  - injection Hrun as <- <-. assert (r = 0) by lia. subst r.
    pose proof (dp_zero _ _ _ _ _ _ _ _ _ P eq_refl) as ->.
    split; [apply same_skel_refl|]. split; [exact Hok|]. split; [lia|]. split; [lia|].
    intros _ Hchain. exfalso.
    destruct (dp_exhausted _ _ _ _ _ _ _ _ _ P eq_refl) as [_ Hlen].
    destruct (dead_chain edges count1 (dp_dead _ _ _ _ _ _ _ _ _ P) Hlen t Hchain) as [Ht _].
    congruence.
Qed.

Lemma blocking_terminates edges0 fuel : forall fuelD edges count rv,
  same_skel edges0 edges -> paired edges -> flow_ok edges s t ->
  deadInv level t edges count -> -1 <= lvl level s ->
  (dfsBound level edges0 <= fuelD)%nat ->
  (Z.to_nat (sumCap (edgesOf edges0 s) - excess edges s) < fuel)%nat ->
  is_Some (blockingFlow fuel fuelD level edges s t count rv).
Proof.
  induction fuel as [|fuel IH]; intros fuelD edges count rv Hskel Hpair Hok Hdead Hls HfD Hfuel;
    [lia|].
  simpl.
  assert (HM : 0 < MAX_VALUE) by (vm_compute; reflexivity).
  destruct (dfs_terminates level t edges0 fuelD edges count s MAX_VALUE Hskel Hpair
              (fo_anti _ _ _ Hok) (fo_cap _ _ _ Hok) Hdead HM) as [[[r edges1] count1] Hdfs].
  { unfold dfsBound in HfD.
    pose proof (remaining_le edges0 ∅ count) as Hrem.
    assert ((remaining edges0 count <= remaining edges0 ∅)%nat).
    { apply Hrem. intros w. unfold cnt at 1. rewrite lookup_empty. simpl. lia. }
    pose proof (maxLevel_ge level s) as [H1 H2]. lia. }
  rewrite Hdfs.
  pose proof (dfs_spec level t fuelD _ _ _ _ _ _ _ Hpair (fo_anti _ _ _ Hok)
                (fo_cap _ _ _ Hok) Hdead HM Hdfs) as P.
  destruct (dfs_post_flow_ok _ _ _ _ _ _ Hok P) as [Hok1 Hexc].
  destruct (Z.ltb_spec 0 r) as [Hr|Hr]; [|eauto].
  apply IH; auto.
  - eapply same_skel_trans; [exact Hskel|apply (dp_skel _ _ _ _ _ _ _ _ _ P)].
  - eapply paired_skel; [apply (dp_skel _ _ _ _ _ _ _ _ _ P)|exact Hpair].
  - apply (dp_dead _ _ _ _ _ _ _ _ _ P).
  - pose proof (excess_le_cap _ _ _ s Hok1) as Hcap1.
    rewrite <- (sumCap_skel _ _ (same_skel_trans _ _ _ Hskel (dp_skel _ _ _ _ _ _ _ _ _ P) s)) in Hcap1.
    lia.
Qed.
End Blocking.

(** ** The level graph: [bfs] *)

Lemma is_Some_dec {A} (o : option A) : {is_Some o} + {~ is_Some o}.
Proof. destruct o; [left; eauto|right; intros [x Hx]; discriminate]. Qed.

Lemma In_targets edges u i e : edgeAt edges u i = Some e -> In (e_v e) (targets edges).
Proof.
  intros He. unfold targets. apply in_flat_map.
  exists (u, edgesOf edges u). split.
  - apply list_elem_of_In, elem_of_map_to_list. unfold edgeAt, edgesOf in *.
    destruct (edges !! u) as [l|]; [reflexivity|discriminate].
  - simpl. apply in_map. apply list_elem_of_In. eapply list_elem_of_lookup_2. exact He.
Qed.

Lemma lchain_leveled level edges s w :
  (forall v x, level !! v = Some x -> 0 <= x) -> is_Some (level !! s) ->
  lchain level edges s w -> is_Some (level !! w).
Proof.
  intros Hnn Hs Hc. induction Hc as [|w i e Hc IH He [Hl _]]; [exact Hs|].
  destruct IH as [x Hx]. unfold lvl in Hl. rewrite Hx in Hl. simpl in Hl.
  destruct (level !! e_v e) as [y|] eqn:Hy; [eauto|].
  simpl in Hl. specialize (Hnn w x Hx). lia.
Qed.

Lemma lchain_extend level level' edges s w :
  (forall v x, level !! v = Some x -> 0 <= x) -> is_Some (level !! s) ->
  (forall v x, level !! v = Some x -> level' !! v = Some x) ->
  lchain level edges s w -> lchain level' edges s w.
Proof.
  intros Hnn Hs Hext Hc. induction Hc as [|w i e Hc IH He [Hl Hres]]; [constructor|].
  apply (lchain_edge _ _ _ w i e IH He). split; [|exact Hres].
  destruct (lchain_leveled level edges s w Hnn Hs Hc) as [x Hx].
  assert (Hv : is_Some (level !! e_v e)).
  { apply (lchain_leveled level edges s (e_v e) Hnn Hs). econstructor; eauto. split; auto. }
  destruct Hv as [y Hy]. unfold lvl in *.
  rewrite (Hext _ _ Hx), (Hext _ _ Hy). rewrite Hx, Hy in Hl. exact Hl.
Qed.

Section BfsVisit.
Variable u : Z.

Lemma bfs_fold_post es : forall level pushed,
  (forall w x, level !! w = Some x -> 0 <= x) -> is_Some (level !! u) ->
  bfs_post u es level pushed (fst (fold_left (bfs_visit u) es (level, pushed)))
                             (snd (fold_left (bfs_visit u) es (level, pushed)))
  /\ (forall w x, fst (fold_left (bfs_visit u) es (level, pushed)) !! w = Some x -> 0 <= x).
Proof.
  induction es as [|e es IH]; intros level pushed Hnn Hu.
  - simpl. split; [|exact Hnn]. constructor; auto.
    + intros w H1 H2. contradiction.
    + intros w. split; [auto|]. intros [H|[H1 H2]]; [exact H|contradiction].
    + intros e [].
  - cbn [fold_left]. unfold bfs_visit at 2 4 6.
    destruct ((lvl level (e_v e) <? 0) && (e_f e <? e_c e)) eqn:Hc.
    + apply andb_true_iff in Hc. destruct Hc as [Hl Hres].
      apply Z.ltb_lt in Hl. apply Z.ltb_lt in Hres.
      assert (Hnone : level !! e_v e = None).
      { destruct (level !! e_v e) as [y|] eqn:Hy; [|reflexivity].
        unfold lvl in Hl. rewrite Hy in Hl. simpl in Hl. specialize (Hnn _ _ Hy). lia. }
      destruct Hu as [xu Hxu].
      assert (Hne : e_v e <> u) by congruence.
      assert (Hlu : lvl level u = xu) by (unfold lvl; rewrite Hxu; reflexivity).
      set (level1 := <[e_v e := lvl level u + 1]> level).
      assert (Hnn1 : forall w x, level1 !! w = Some x -> 0 <= x).
      { intros w x. unfold level1. rewrite lookup_insert.
        destruct (decide (e_v e = w)); [|apply Hnn].
        intros H. injection H as <-. specialize (Hnn _ _ Hxu). lia. }
      assert (Hu1 : is_Some (level1 !! u)).
      { unfold level1. rewrite lookup_insert_ne by auto. eauto. }
      assert (Hlu1 : lvl level1 u = lvl level u).
      { unfold level1. rewrite lvl_insert. rewrite decide_False by auto. reflexivity. }
      destruct (IH level1 (pushed ++ [e_v e]) Hnn1 Hu1) as [[Bext Bnew Bpush Bnd Ball] Hnn2].
      split; [|exact Hnn2]. constructor.
      * intros w x Hw. apply Bext. unfold level1. rewrite lookup_insert_ne; [exact Hw|congruence].
      * intros w Hw Hn. destruct (decide (w = e_v e)) as [->|Hwe].
        -- split.
           ++ apply Bext. unfold level1. apply lookup_insert_eq.
           ++ exists e. split; [left; reflexivity|auto].
        -- destruct (Bnew w Hw) as [H1 (e' & H2 & H3 & H4)].
           { unfold level1. rewrite lookup_insert_ne by auto. exact Hn. }
           split; [rewrite H1, Hlu1; reflexivity|]. exists e'. split; [right; exact H2|auto].
      * intros w. rewrite Bpush, in_app_iff. simpl. split.
        -- intros [[H|[<-|[]]]|[H1 H2]]; [auto| |].
           ++ right. split; [|rewrite Hnone; intros [? ?]; discriminate].
              exists (lvl level u + 1). apply Bext. unfold level1. apply lookup_insert_eq.
           ++ right. split; [exact H1|]. intros H. apply H2. unfold level1.
              destruct H as [x Hx]. exists x. rewrite lookup_insert_ne; [exact Hx|congruence].
        -- intros [H|[H1 H2]]; [auto|].
           destruct (decide (w = e_v e)) as [->|Hwe]; [left; right; left; reflexivity|].
           right. split; [exact H1|]. unfold level1. rewrite lookup_insert_ne by auto. exact H2.
      * intros Hnd Hall. apply Bnd.
        -- apply NoDup_app. split; [exact Hnd|]. split; [|apply NoDup_singleton].
           intros w Hw Hw'. apply list_elem_of_In in Hw. apply list_elem_of_In in Hw'.
           destruct Hw' as [<-|[]]. apply Hall in Hw. rewrite Hnone in Hw.
           destruct Hw; discriminate.
        -- intros w Hw. apply in_app_iff in Hw. unfold level1.
           destruct Hw as [Hw|[<-|[]]].
           ++ destruct (Hall w Hw) as [x Hx]. exists x.
              rewrite lookup_insert_ne; [exact Hx|congruence].
           ++ rewrite lookup_insert_eq. eauto.
      * intros e' [<-|He'] Hres'.
        -- exists (lvl level u + 1). apply Bext. unfold level1. apply lookup_insert_eq.
        -- apply Ball; auto.
    + destruct (IH level pushed Hnn Hu) as [[Bext Bnew Bpush Bnd Ball] Hnn2].
      split; [|exact Hnn2]. constructor; auto.
      * intros w Hw Hn. destruct (Bnew w Hw Hn) as [H1 (e' & H2 & H3 & H4)].
        split; [exact H1|]. exists e'. split; [right; exact H2|auto].
      * intros e' [<-|He'] Hres'; [|apply Ball; auto].
        apply andb_false_iff in Hc. destruct Hc as [Hc|Hc].
        -- apply Z.ltb_ge in Hc. unfold lvl in Hc.
           destruct (level !! e_v e) as [y|] eqn:Hy; [|simpl in Hc; lia].
           exists y. apply Bext. exact Hy.
        -- apply Z.ltb_ge in Hc. lia.
Qed.
End BfsVisit.

Section BfsRun.
Variables (edges : gmap Z (list Edge)) (s : Z).

Local Abbreviation inv := (bfs_inv edges s).

Lemma bfs_inv_step level q i u level' pushed :
  inv level q i -> q !! i = Some u -> bfs_body edges level u = (level', pushed) ->
  inv level' (q ++ pushed) (S i).
Proof.
  intros [Hnd Hdom Hnn Hsrc Hvert Hchain Hclosed] Hi Hbody.
  assert (Hu : is_Some (level !! u)).
  { apply Hdom. apply list_elem_of_In. eapply list_elem_of_lookup_2; eauto. }
  destruct (bfs_fold_post u (edgesOf edges u) level [] Hnn Hu) as [Hpost Hnn'].
  unfold bfs_body in Hbody. rewrite Hbody in Hpost, Hnn'. simpl in Hpost, Hnn'.
  destruct Hpost as [Bext Bnew Bpush Bnd Ball].
  assert (Hlu : lvl level' u = lvl level u).
  { destruct Hu as [x Hx]. unfold lvl. rewrite (Bext _ _ Hx), Hx. reflexivity. }
  constructor.
  - apply NoDup_app. split; [exact Hnd|]. split.
    + intros w Hw Hw'. apply list_elem_of_In in Hw. apply list_elem_of_In in Hw'.
      apply Bpush in Hw'. destruct Hw' as [[]|[_ Hn]]. apply Hn. apply Hdom. exact Hw.
    + apply Bnd; [constructor|]. intros w [].
  - intros w. rewrite in_app_iff, Bpush. split.
    + intros [Hw|[[]|[Hw _]]]; [|exact Hw].
      apply Hdom in Hw. destruct Hw as [x Hx]. exists x. apply Bext. exact Hx.
    + intros Hw. destruct (is_Some_dec (level !! w)) as [Ho|Ho].
      * left. apply Hdom. exact Ho.
      * right. right. auto.
  - exact Hnn'.
  - apply Bext. exact Hsrc.
  - intros w Hw. apply in_app_iff in Hw. destruct Hw as [Hw|Hw]; [auto|].
    apply Bpush in Hw. destruct Hw as [[]|[Hw Hn]].
    destruct (Bnew w Hw Hn) as [_ (e & He & <- & _)].
    right. apply list_elem_of_In, list_elem_of_lookup in He. destruct He as [j Hj].
    eapply In_targets. exact Hj.
  - intros w Hw. destruct (is_Some_dec (level !! w)) as [Ho|Ho].
    + apply (lchain_extend level level'); eauto.
    + destruct (Bnew w Hw Ho) as [Hl (e & He & <- & Hres)].
      apply list_elem_of_In, list_elem_of_lookup in He. destruct He as [j Hj].
      apply (lchain_edge _ _ _ u j e); [|exact Hj|].
      * apply (lchain_extend level level'); eauto.
      * split; [|exact Hres]. rewrite Hlu. unfold lvl at 1. rewrite Hl. reflexivity.
  - intros k u' j e Hk Hu' He Hres.
    apply lookup_app_Some in Hu'. destruct Hu' as [Hu'|[Hlen _]];
      [|apply lookup_lt_Some in Hi; lia].
    destruct (decide (k = i)) as [->|Hne].
    + rewrite Hi in Hu'. injection Hu' as <-. apply Ball; [|exact Hres].
      apply list_elem_of_In. eapply list_elem_of_lookup_2. exact He.
    + destruct (Hclosed k u' j e ltac:(lia) Hu' He Hres) as [x Hx].
      exists x. apply Bext. exact Hx.
Qed.

Lemma bfs_inv_init : inv (<[s := 0]> ∅) [s] 0.
Proof.
  constructor.
  - apply NoDup_singleton.
  - intros w. simpl. rewrite lookup_insert. destruct (decide (s = w)) as [->|Hne].
    + split; [eauto|auto].
    + rewrite lookup_empty. split; [intros [H|[]]; congruence|intros [x Hx]; discriminate].
  - intros w x. rewrite lookup_insert. destruct (decide (s = w)); [|by rewrite lookup_empty].
    intros H. injection H as <-. lia.
  - apply lookup_insert_eq.
  - intros w [<-|[]]. left. reflexivity.
  - intros w. rewrite lookup_insert. destruct (decide (s = w)) as [->|Hne]; [constructor|].
    rewrite lookup_empty. intros [x Hx]. discriminate.
  - intros k u j e Hk. lia.
Qed.

Lemma bfs_inv_length level q i : inv level q i -> (length q <= S (length (targets edges)))%nat.
Proof.
  intros Hinv. change (S (length (targets edges))) with (length (s :: targets edges)).
  apply NoDup_incl_length; [apply NoDup_ListNoDup, (bi_nodup _ _ _ _ _ Hinv)|].
  intros w Hw. apply (bi_vert _ _ _ _ _ Hinv). exact Hw.
Qed.

Lemma bfs_loop_terminates fuel :
  (S (length (targets edges)) < fuel)%nat ->
  is_Some (queue_loop (bfs_body edges) fuel (<[s := 0]> ∅) [s] 0).
Proof.
  intros Hfuel.
  apply (queue_loop_terminates _ inv) with (bound := S (length (targets edges))).
  - intros. eapply bfs_inv_step; eauto.
  - apply bfs_inv_length.
  - apply bfs_inv_init.
  - simpl. lia.
  - lia.
Qed.

Lemma bfs_loop_spec fuel level q :
  queue_loop (bfs_body edges) fuel (<[s := 0]> ∅) [s] 0 = Some (level, q) ->
  level !! s = Some 0
  /\ (forall w x, level !! w = Some x -> 0 <= x)
  /\ (forall w, is_Some (level !! w) -> lchain level edges s w)
  /\ residualClosed edges (fun w => is_Some (level !! w)).
Proof.
  intros Hloop.
  assert (Hinv : inv level q (length q)).
  { eapply (queue_loop_inv _ inv); [| | |exact Hloop].
    - intros. eapply bfs_inv_step; eauto.
    - apply bfs_inv_init.
    - simpl. lia. }
  destruct Hinv as [Hnd Hdom Hnn Hsrc Hvert Hchain Hclosed].
  split; [exact Hsrc|]. split; [exact Hnn|]. split; [exact Hchain|].
  intros u j e Hu He Hres. apply Hdom in Hu.
  apply list_elem_of_In, list_elem_of_lookup in Hu. destruct Hu as [k Hk].
  apply (Hclosed k u j e); auto. eapply lookup_lt_Some; eauto.
Qed.
End BfsRun.

Lemma bfs_spec fuel g s t b g' :
  t < g_v g -> bfs fuel g s t = Some (b, g') ->
  g_v g' = g_v g /\ g_edges g' = g_edges g
  /\ g_level g' !! s = Some 0
  /\ (forall w x, g_level g' !! w = Some x -> 0 <= x)
  /\ (b = true -> lchain (g_level g') (g_edges g) s t)
  /\ (b = false -> g_level g' !! t = None
        /\ residualClosed (g_edges g) (fun w => is_Some (g_level g' !! w))).
Proof.
  intros Ht Hrun. unfold bfs in Hrun.
  destruct (Z.geb_spec t (g_v g)) as [|_]; [lia|].
  destruct (queue_loop _ fuel _ _ _) as [[level q]|] eqn:Hloop; [|discriminate].
  injection Hrun as <- <-. simpl.
  destruct (bfs_loop_spec _ _ _ _ _ Hloop) as (Hsrc & Hnn & Hchain & Hclosed).
  split; [reflexivity|]. split; [reflexivity|]. split; [exact Hsrc|]. split; [exact Hnn|].
  split.
  - intros Hb. apply Z.leb_le in Hb. apply Hchain.
    unfold lvl in Hb. destruct (level !! t) as [x|]; [eauto|simpl in Hb; lia].
  - intros Hb. apply Z.leb_gt in Hb. split; [|exact Hclosed].
    unfold lvl in Hb. destruct (level !! t) as [x|] eqn:Hx; [|reflexivity].
    simpl in Hb. specialize (Hnn _ _ Hx). lia.
Qed.

Lemma bfs_terminates fuel g s t :
  (S (length (targets (g_edges g))) < fuel)%nat -> is_Some (bfs fuel g s t).
Proof.
  intros Hfuel. unfold bfs. destruct (t >=? g_v g); [eauto|].
  destruct (bfs_loop_terminates (g_edges g) s fuel Hfuel) as [[level q] Hloop].
  rewrite Hloop. eauto.
Qed.

(** ** The phases of [calcMinCut] *)

Section Dinic.
Variables (edges0 : gmap Z (list Edge)) (s t : Z).
Hypothesis s_not_t : s <> t.

Lemma dinic_total (n : nat) : forall g rv,
  paired (g_edges g) -> flow_ok (g_edges g) s t -> same_skel edges0 (g_edges g) ->
  t < g_v g ->
  (Z.to_nat (sumCap (edgesOf edges0 s) - excess (g_edges g) s) <= n)%nat ->
  exists N, forall fuel fuelI, (N <= fuel)%nat -> (N <= fuelI)%nat ->
    exists rv' g', dinicPhases fuel fuelI g s t rv = Some (rv', g')
                   /\ dinic_post edges0 s t g rv g' rv'.
Proof.
  induction n as [|n IH]; intros g rv Hpair Hok Hskel Ht Hpot.
  - (* the flow is at the capacity of the source: [bfs] may still be run *)
    set (Nb := S (S (length (targets (g_edges g))))).
    destruct (bfs_terminates Nb g s t ltac:(unfold Nb; lia)) as [[b g1] Hbfs].
    destruct (bfs_spec _ _ _ _ _ _ Ht Hbfs) as (Hv1 & He1 & Hsrc & Hnn & Htrue & Hfalse).
    destruct b.
    + exfalso. specialize (Htrue eq_refl).
      set (Nd := Nat.max (dfsBound (g_level g1) edges0) 1).
      destruct (blocking_terminates (g_level g1) s t s_not_t edges0 Nd Nd (g_edges g) ∅ rv)
        as [[rv1 edges1] Hblock]; auto.
      { apply deadInv_empty. }
      { unfold lvl. rewrite Hsrc. simpl. lia. }
      { unfold Nd. lia. }
      { unfold Nd. lia. }
      destruct (blocking_spec (g_level g1) s t s_not_t _ _ _ _ _ _ _ Hpair Hok
                  (deadInv_empty _ _ _) Hblock) as (Hsk & Hok1 & Hval & Hle & Hprog).
      specialize (Hprog eq_refl Htrue).
      pose proof (excess_le_cap _ _ _ s Hok1) as Hcap1.
      rewrite <- (sumCap_skel _ _ (same_skel_trans _ _ _ Hskel Hsk s)) in Hcap1. lia.
    + destruct (Hfalse eq_refl) as [Hsink Hclosed].
      exists Nb. intros fuel fuelI Hfuel HfuelI.
      destruct fuel as [|fuel]; [unfold Nb in Hfuel; lia|]. simpl.
      rewrite (bfs_mono _ _ _ _ _ _ HfuelI Hbfs).
      exists rv, g1. split; [reflexivity|].
      constructor; rewrite ?He1; auto. lia.
  - set (Nb := S (S (length (targets (g_edges g))))).
    destruct (bfs_terminates Nb g s t ltac:(unfold Nb; lia)) as [[b g1] Hbfs].
    destruct (bfs_spec _ _ _ _ _ _ Ht Hbfs) as (Hv1 & He1 & Hsrc & Hnn & Htrue & Hfalse).
    destruct b.
    + specialize (Htrue eq_refl).
      set (Nd := Nat.max (dfsBound (g_level g1) edges0) (S (S n))).
      destruct (blocking_terminates (g_level g1) s t s_not_t edges0 Nd Nd (g_edges g) ∅ rv)
        as [[rv1 edges1] Hblock]; auto.
      { apply deadInv_empty. }
      { unfold lvl. rewrite Hsrc. simpl. lia. }
      { unfold Nd. lia. }
      { unfold Nd. lia. }
      destruct (blocking_spec (g_level g1) s t s_not_t _ _ _ _ _ _ _ Hpair Hok
                  (deadInv_empty _ _ _) Hblock) as (Hsk & Hok1 & Hval & Hle & Hprog).
      specialize (Hprog eq_refl Htrue).
      pose proof (excess_le_cap _ _ _ s Hok1) as Hcap1.
      rewrite <- (sumCap_skel _ _ (same_skel_trans _ _ _ Hskel Hsk s)) in Hcap1.
      destruct (IH (mkGraph (g_v g1) (g_level g1) edges1) rv1) as [N2 HN2]; simpl.
      { eapply paired_skel; eauto. }
      { exact Hok1. }
      { eapply same_skel_trans; eauto. }
      { lia. }
      { lia. }
      exists (S (Nat.max (Nat.max Nb Nd) N2)). intros fuel fuelI Hfuel HfuelI.
      destruct fuel as [|fuel]; [lia|]. simpl.
      assert (H1 : (Nb <= fuelI)%nat) by lia.
      assert (H2 : (Nd <= fuelI)%nat) by lia.
      assert (H3 : (N2 <= fuel)%nat) by lia.
      assert (H4 : (N2 <= fuelI)%nat) by lia.
      rewrite (bfs_mono _ _ _ _ _ _ H1 Hbfs). rewrite He1.
      rewrite (blocking_mono_both _ _ _ _ _ _ _ _ _ Hblock H2).
      destruct (HN2 fuel fuelI H3 H4) as (rv' & g' & Hrun & Hpost).
      exists rv', g'. split; [exact Hrun|].
      destruct Hpost as [D1 D2 D3 D4 D5 D6 D7]. simpl in *.
      constructor; auto; lia.
    + destruct (Hfalse eq_refl) as [Hsink Hclosed].
      exists Nb. intros fuel fuelI Hfuel HfuelI.
      destruct fuel as [|fuel]; [unfold Nb in Hfuel; lia|]. simpl.
      rewrite (bfs_mono _ _ _ _ _ _ HfuelI Hbfs).
      exists rv, g1. split; [reflexivity|].
      constructor; rewrite ?He1; auto. lia.
Qed.
End Dinic.

(** ** The flow across a cut *)

Section Zsum.
Context {A : Type}.

Lemma zsum_app (f : A -> Z) l l' : zsum f (l ++ l') = zsum f l + zsum f l'.
Proof. induction l as [|a l IH]; simpl; [reflexivity|]. rewrite IH. lia. Qed.

Lemma zsum_ext (f g : A -> Z) l : (forall x, In x l -> f x = g x) -> zsum f l = zsum g l.
Proof.
  induction l as [|a l IH]; intros H; simpl; [reflexivity|].
  rewrite (H a) by (left; reflexivity). rewrite IH; [reflexivity|].
  intros x Hx. apply H. right. exact Hx.
Qed.

Lemma zsum_zero (f : A -> Z) l : (forall x, In x l -> f x = 0) -> zsum f l = 0.
Proof.
  induction l as [|a l IH]; intros H; simpl; [reflexivity|].
  rewrite (H a) by (left; reflexivity). rewrite IH; [reflexivity|].
  intros x Hx. apply H. right. exact Hx.
Qed.

Lemma zsum_add (f g : A -> Z) l : zsum (fun x => f x + g x) l = zsum f l + zsum g l.
Proof. induction l as [|a l IH]; simpl; [reflexivity|]. rewrite IH. lia. Qed.

Lemma zsum_opp (f : A -> Z) l : zsum (fun x => - f x) l = - zsum f l.
Proof. induction l as [|a l IH]; simpl; [reflexivity|]. rewrite IH. lia. Qed.

Lemma zsum_filter (f : A -> Z) (p : A -> bool) l :
  zsum f (List.filter p l) = zsum (fun x => if p x then f x else 0) l.
Proof.
  induction l as [|a l IH]; simpl; [reflexivity|].
  destruct (p a); simpl; rewrite IH; lia.
Qed.

Lemma zsum_perm (f : A -> Z) l l' : Permutation l l' -> zsum f l = zsum f l'.
Proof. induction 1; simpl; lia. Qed.

Lemma zsum_nonneg (f : A -> Z) l : (forall x, In x l -> 0 <= f x) -> 0 <= zsum f l.
Proof.
  induction l as [|a l IH]; intros H; simpl; [lia|].
  pose proof (H a (or_introl eq_refl)).
  specialize (IH (fun x Hx => H x (or_intror Hx))). lia.
Qed.

Lemma zsum_ge_term (f : A -> Z) l a :
  (forall x, In x l -> 0 <= f x) -> In a l -> f a <= zsum f l.
Proof.
  induction l as [|b l IH]; intros H Ha; [destruct Ha|]. simpl.
  pose proof (H b (or_introl eq_refl)).
  pose proof (zsum_nonneg f l (fun x Hx => H x (or_intror Hx))).
  destruct Ha as [->|Ha]; [lia|].
  specialize (IH (fun x Hx => H x (or_intror Hx)) Ha). lia.
Qed.

(** A sum with one term that is not zero. *)
Lemma zsum_single (f : A -> Z) l a :
  NoDup l -> In a l -> (forall x, In x l -> x <> a -> f x = 0) -> zsum f l = f a.
Proof.
  induction l as [|b l IH]; intros Hnd Ha Hz; [destruct Ha|]. simpl.
  apply NoDup_cons in Hnd. destruct Hnd as [Hb Hnd].
  destruct Ha as [->|Ha].
  - rewrite zsum_zero; [lia|]. intros x Hx. apply Hz; [right; exact Hx|].
    intros ->. apply Hb. apply list_elem_of_In. exact Hx.
  - rewrite IH; auto.
    + rewrite (Hz b); [lia|left; reflexivity|].
      intros ->. apply Hb. apply list_elem_of_In. exact Ha.
    + intros x Hx. apply Hz. right. exact Hx.
Qed.
End Zsum.

Lemma zsum_map {A B} (f : B -> Z) (g : A -> B) l : zsum f (map g l) = zsum (fun x => f (g x)) l.
Proof. induction l as [|a l IH]; simpl; [reflexivity|]. rewrite IH. reflexivity. Qed.

Lemma zsum_flat_map {A B} (f : B -> Z) (g : A -> list B) l :
  zsum f (flat_map g l) = zsum (fun x => zsum f (g x)) l.
Proof. induction l as [|a l IH]; simpl; [reflexivity|]. rewrite zsum_app, IH. reflexivity. Qed.

(** A sum over a list as a sum over its indices. *)
Lemma zsum_indices {A} (f : A -> Z) (l : list A) :
  zsum f l = zsum (fun j => from_option f 0 (l !! j)) (seq 0 (length l)).
Proof.
  induction l as [|a l IH]; simpl; [reflexivity|].
  rewrite IH. f_equal. rewrite <- seq_shift, zsum_map. reflexivity.
Qed.

Lemma sumFlow_zsum l : sumFlow l = zsum e_f l.
Proof. reflexivity. Qed.

Lemma memb_spec q v : memb q v = true <-> In v q.
Proof.
  unfold memb. rewrite existsb_exists. split.
  - intros (x & Hx & He). apply Z.eqb_eq in He. subst. exact Hx.
  - intros H. exists v. split; [exact H|apply Z.eqb_refl].
Qed.

Lemma NoDup_flat_map {A B} (f : A -> list B) (l : list A) :
  NoDup l -> (forall x, In x l -> NoDup (f x)) ->
  (forall x1 x2 y, In x1 l -> In x2 l -> In y (f x1) -> In y (f x2) -> x1 = x2) ->
  NoDup (flat_map f l).
Proof.
  induction l as [|a l IH]; intros Hnd Hf Hdisj; simpl; [constructor|].
  apply NoDup_cons in Hnd. destruct Hnd as [Ha Hnd].
  apply NoDup_app. split; [apply Hf; left; reflexivity|]. split.
  - intros y Hy Hy'. apply list_elem_of_In in Hy. apply list_elem_of_In, in_flat_map in Hy'.
    destruct Hy' as (x & Hx & Hyx).
    assert (a = x) by (apply (Hdisj a x y); simpl; auto).
    subst. apply Ha. apply list_elem_of_In. exact Hx.
  - apply IH; auto.
    + intros x Hx. apply Hf. right. exact Hx.
    + intros x1 x2 y H1 H2. apply Hdisj; right; assumption.
Qed.

Section CutSum.
Variables (edges : gmap Z (list Edge)) (q : list Z).
Hypothesis Hpair : paired edges.
Hypothesis Hanti : forall u i e e', edgeAt edges u i = Some e ->
  edgeAt edges (e_v e) (e_r e) = Some e' -> e_f e' = - e_f e.
Hypothesis Hnd : NoDup q.

Lemma In_innerPos x :
  In x (innerPos edges q) <->
  In (fst x) q /\ exists e, edgeAt edges (fst x) (snd x) = Some e /\ In (e_v e) q.
Proof.
  unfold innerPos. rewrite in_flat_map. split.
  - intros (u & Hu & Hx). apply filter_In in Hx. destruct Hx as [Hx Hin].
    apply in_map_iff in Hx. destruct Hx as (j & <- & Hj). simpl in *.
    split; [exact Hu|]. destruct (edgeAt edges u j) as [e|]; [|discriminate].
    exists e. split; [reflexivity|]. by apply memb_spec.
  - intros (Hu & e & He & Hv). exists (fst x). split; [exact Hu|].
    apply filter_In. split.
    + apply in_map_iff. exists (snd x). split; [by destruct x|].
      apply in_seq. apply lookup_lt_Some in He. unfold edgeAt in *. lia.
    + simpl. rewrite He. by apply memb_spec.
Qed.

Lemma NoDup_innerPos : NoDup (innerPos edges q).
Proof.
  unfold innerPos. apply NoDup_flat_map; [exact Hnd| |].
  - intros u _. apply NoDup_ListNoDup, List.NoDup_filter.
    apply Finite.Injective_map_NoDup; [|apply seq_NoDup].
    intros a b H. congruence.
  - intros u1 u2 y _ _ H1 H2.
    apply filter_In in H1, H2. destruct H1 as [H1 _], H2 as [H2 _].
    apply in_map_iff in H1, H2. destruct H1 as (j1 & <- & _), H2 as (j2 & E & _).
    congruence.
Qed.

Lemma partnerPos_inner x :
  In x (innerPos edges q) ->
  In (partnerPos edges x) (innerPos edges q)
  /\ partnerPos edges (partnerPos edges x) = x
  /\ flowAt edges (partnerPos edges x) = - flowAt edges x.
Proof.
  intros Hx. apply In_innerPos in Hx. destruct Hx as (Hu & e & He & Hv).
  destruct (pr_partner _ Hpair _ _ _ He) as (p & Hp & Hpv & Hpr).
  unfold partnerPos at 1 3 4. rewrite He. split; [|split].
  - apply In_innerPos. simpl. split; [exact Hv|]. exists p. split; [exact Hp|].
    rewrite Hpv. exact Hu.
  - unfold partnerPos. simpl. rewrite Hp. destruct x. simpl in *. congruence.
  - unfold flowAt. simpl. rewrite Hp, He. simpl. eapply Hanti; eauto.
Qed.

Lemma inner_flow_zero : zsum (flowAt edges) (innerPos edges q) = 0.
Proof.
  assert (Hperm : Permutation (map (partnerPos edges) (innerPos edges q)) (innerPos edges q)).
  { apply NoDup_Permutation.
    - change (map (partnerPos edges)) with (fmap (M:=list) (partnerPos edges)).
      apply NoDup_fmap_2_strong; [|apply NoDup_innerPos].
      intros x y Hx Hy Heq. apply list_elem_of_In in Hx. apply list_elem_of_In in Hy.
      destruct (partnerPos_inner x Hx) as (_ & Hxx & _).
      destruct (partnerPos_inner y Hy) as (_ & Hyy & _). congruence.
    - apply NoDup_innerPos.
    - intros x. rewrite !list_elem_of_In. rewrite in_map_iff. split.
      + intros (y & <- & Hy). apply partnerPos_inner. exact Hy.
      + intros Hx. destruct (partnerPos_inner x Hx) as (H1 & H2 & _).
        exists (partnerPos edges x). auto. }
  pose proof (zsum_perm (flowAt edges) _ _ Hperm) as Hs.
  rewrite zsum_map in Hs.
  rewrite (zsum_ext _ (fun x => - flowAt edges x)) in Hs.
  - rewrite zsum_opp in Hs. lia.
  - intros x Hx. apply partnerPos_inner. exact Hx.
Qed.

Lemma inner_flow_edges :
  zsum (fun u => zsum (fun e => if crossing q e then 0 else e_f e) (edgesOf edges u)) q
  = zsum (flowAt edges) (innerPos edges q).
Proof.
  unfold innerPos. rewrite zsum_flat_map. apply zsum_ext. intros u Hu.
  rewrite zsum_filter, zsum_map, zsum_indices. apply zsum_ext. intros j Hj.
  unfold flowAt, edgeAt, crossing. simpl.
  destruct (edgesOf edges u !! j) as [e|]; simpl; [|reflexivity].
  destruct (memb q (e_v e)); reflexivity.
Qed.

(** The value of a flow is the flow across any cut. *)
Lemma cut_identity s t :
  (forall w, w <> s -> w <> t -> excess edges w = 0) ->
  In s q -> ~ In t q -> cutFlow edges q = excess edges s.
Proof.
  intros Hcons Hs Ht.
  assert (Hsum : zsum (excess edges) q = excess edges s).
  { apply zsum_single; auto. intros u Hu Hne. apply Hcons; [exact Hne|].
    intros ->. contradiction. }
  rewrite <- Hsum. unfold cutFlow.
  assert (Hsplit : zsum (excess edges) q
    = zsum (fun u => zsum (fun e => if crossing q e then e_f e else 0) (edgesOf edges u)) q
      + zsum (fun u => zsum (fun e => if crossing q e then 0 else e_f e) (edgesOf edges u)) q).
  { rewrite <- zsum_add. apply zsum_ext. intros u _.
    unfold excess. rewrite sumFlow_zsum, <- zsum_add. apply zsum_ext. intros e _.
    destruct (crossing q e); lia. }
  rewrite Hsplit, inner_flow_edges, inner_flow_zero. lia.
Qed.

(** Across a cut that is closed under the edges that are not full, all
    the edges are at their capacity. *)
Lemma cut_full :
  (forall u i e, edgeAt edges u i = Some e -> e_f e <= e_c e) ->
  residualClosed edges (fun w => In w q) ->
  cutFlow edges q = cutCap edges q.
Proof.
  intros Hcap Hclosed. unfold cutFlow, cutCap.
  apply zsum_ext. intros u Hu. apply zsum_ext. intros e He.
  apply list_elem_of_In, list_elem_of_lookup in He. destruct He as [j Hj].
  unfold crossing. destruct (memb q (e_v e)) eqn:Hm; simpl; [reflexivity|].
  pose proof (Hcap u j e Hj).
  destruct (Z.lt_ge_cases (e_f e) (e_c e)) as [Hlt|Hge]; [|lia].
  exfalso. pose proof (Hclosed u j e Hu Hj Hlt) as Hv. apply memb_spec in Hv. congruence.
Qed.
End CutSum.

(** ** The extraction of the cut: [bfsTheCut] *)

Section CutVisit.
Variable u : Z.

Lemma cut_fold_post es : forall st pushed,
  (forall w x, fst st !! w = Some x -> x = 1) ->
  cut_post u es st pushed (fst (fold_left (cut_visit u) es (st, pushed)))
                          (snd (fold_left (cut_visit u) es (st, pushed)))
  /\ (forall w x, fst (fst (fold_left (cut_visit u) es (st, pushed))) !! w = Some x -> x = 1).
Proof.
  induction es as [|e es IH]; intros [level ec] pushed Hone.
  - simpl. split; [|exact Hone]. constructor; auto.
    + intros w H1 H2. contradiction.
    + intros w. split; [auto|]. intros [H|[H1 H2]]; [exact H|contradiction].
    + intros e [].
    + simpl. by rewrite app_nil_r.
  - cbn [fold_left]. unfold cut_visit at 2 4 6. simpl in Hone.
    set (ec1 := if (e_f e =? e_c e) && (0 <? e_c e) then ec ++ [(u, e)] else ec).
    assert (Hec1 : forall l, ec1 ++ map (pair u) l
              = ec ++ map (pair u) (if saturated e then e :: l else l)).
    { intros l. unfold ec1, saturated.
      destruct ((e_f e =? e_c e) && (0 <? e_c e)); simpl; [|reflexivity].
      by rewrite <- app_assoc. }
    destruct ((e_f e <? e_c e) && (lvl level (e_v e) <? 1)) eqn:Hc.
    + apply andb_true_iff in Hc. destruct Hc as [Hres Hl].
      apply Z.ltb_lt in Hl. apply Z.ltb_lt in Hres.
      assert (Hnone : level !! e_v e = None).
      { destruct (level !! e_v e) as [y|] eqn:Hy; [|reflexivity].
        unfold lvl in Hl. rewrite Hy in Hl. simpl in Hl. specialize (Hone _ _ Hy). lia. }
      set (level1 := <[e_v e := 1]> level).
      assert (Hone1 : forall w x, level1 !! w = Some x -> x = 1).
      { intros w x. unfold level1. rewrite lookup_insert.
        destruct (decide (e_v e = w)); [|apply Hone]. intros H. congruence. }
      destruct (IH (level1, ec1) (pushed ++ [e_v e]) Hone1)
        as [[Bext Bnew Bpush Bnd Ball Bcut] Hone2].
      simpl in *. split; [|exact Hone2]. constructor; simpl.
      * intros w x Hw. apply Bext. unfold level1. rewrite lookup_insert_ne; [exact Hw|congruence].
      * intros w Hw Hn. destruct (decide (w = e_v e)) as [->|Hwe].
        -- split.
           ++ apply Bext. unfold level1. apply lookup_insert_eq.
           ++ exists e. split; [left; reflexivity|auto].
        -- destruct (Bnew w Hw) as [H1 (e' & H2 & H3 & H4)].
           { unfold level1. rewrite lookup_insert_ne by auto. exact Hn. }
           split; [exact H1|]. exists e'. split; [right; exact H2|auto].
      * intros w. rewrite Bpush, in_app_iff. simpl. split.
        -- intros [[H|[<-|[]]]|[H1 H2]]; [auto| |].
           ++ right. split; [|rewrite Hnone; intros [? ?]; discriminate].
              exists 1. apply Bext. unfold level1. apply lookup_insert_eq.
           ++ right. split; [exact H1|]. intros H. apply H2. unfold level1.
              destruct H as [x Hx]. exists x. rewrite lookup_insert_ne; [exact Hx|congruence].
        -- intros [H|[H1 H2]]; [auto|].
           destruct (decide (w = e_v e)) as [->|Hwe]; [left; right; left; reflexivity|].
           right. split; [exact H1|]. unfold level1. rewrite lookup_insert_ne by auto. exact H2.
      * intros Hnd Hall. apply Bnd.
        -- apply NoDup_app. split; [exact Hnd|]. split; [|apply NoDup_singleton].
           intros w Hw Hw'. apply list_elem_of_In in Hw. apply list_elem_of_In in Hw'.
           destruct Hw' as [<-|[]]. apply Hall in Hw. rewrite Hnone in Hw.
           destruct Hw; discriminate.
        -- intros w Hw. apply in_app_iff in Hw. unfold level1.
           destruct Hw as [Hw|[<-|[]]].
           ++ destruct (Hall w Hw) as [x Hx]. exists x.
              rewrite lookup_insert_ne; [exact Hx|congruence].
           ++ rewrite lookup_insert_eq. eauto.
      * intros e' [<-|He'] Hres'.
        -- exists 1. apply Bext. unfold level1. apply lookup_insert_eq.
        -- apply Ball; auto.
      * rewrite Bcut. apply Hec1.
    + destruct (IH (level, ec1) pushed Hone) as [[Bext Bnew Bpush Bnd Ball Bcut] Hone2].
      simpl in *. split; [|exact Hone2]. constructor; simpl; auto.
      * intros w Hw Hn. destruct (Bnew w Hw Hn) as [H1 (e' & H2 & H3 & H4)].
        split; [exact H1|]. exists e'. split; [right; exact H2|auto].
      * intros e' [<-|He'] Hres'; [|apply Ball; auto].
        apply andb_false_iff in Hc. destruct Hc as [Hc|Hc].
        -- apply Z.ltb_ge in Hc. lia.
        -- apply Z.ltb_ge in Hc. unfold lvl in Hc.
           destruct (level !! e_v e) as [y|] eqn:Hy; [|simpl in Hc; lia].
           exists y. apply Bext. exact Hy.
      * rewrite Bcut. apply Hec1.
Qed.
End CutVisit.

Lemma saturatedFrom_snoc edges us u :
  saturatedFrom edges (us ++ [u])
  = saturatedFrom edges us ++ map (pair u) (List.filter saturated (edgesOf edges u)).
Proof. unfold saturatedFrom. rewrite flat_map_app. simpl. by rewrite app_nil_r. Qed.

Lemma cut_filter_one (g : Edge -> bool) (u : Z) (l : list Edge) :
  map fst (List.filter (fun ue : Z * Edge => g (snd ue)) (map (pair u) (List.filter saturated l)))
  = map (fun _ => u) (List.filter (fun e => saturated e && g e) l).
Proof.
  induction l as [|e l IH]; simpl; [reflexivity|].
  destruct (saturated e); simpl; [|exact IH].
  destruct (g e); simpl; [f_equal|]; exact IH.
Qed.

Lemma cut_filter_all edges (g : Edge -> bool) (us : list Z) :
  map fst (List.filter (fun ue : Z * Edge => g (snd ue)) (saturatedFrom edges us))
  = flat_map (fun u => map (fun _ => u)
                (List.filter (fun e => saturated e && g e) (edgesOf edges u))) us.
Proof.
  induction us as [|u us IH]; simpl; [reflexivity|].
  unfold saturatedFrom in *. simpl. rewrite List.filter_app, map_app, IH, cut_filter_one.
  reflexivity.
Qed.

Lemma filter_ext_bool {A} (f g : A -> bool) l :
  (forall x, In x l -> f x = g x) -> List.filter f l = List.filter g l.
Proof.
  induction l as [|a l IH]; intros H; simpl; [reflexivity|].
  rewrite (H a) by (left; reflexivity). rewrite IH; [reflexivity|].
  intros x Hx. apply H. right. exact Hx.
Qed.

Section CutRun.
Variables (edges : gmap Z (list Edge)) (s : Z) (C : Z -> Prop).
Hypothesis C_closed : residualClosed edges C.
Hypothesis C_source : C s.

Local Abbreviation inv := (cut_inv edges s C).

Lemma cut_inv_step st q i u st' pushed :
  inv st q i -> q !! i = Some u -> cut_body edges st u = (st', pushed) ->
  inv st' (q ++ pushed) (S i).
Proof.
  intros [Hnd Hdom Hone Hsrc Hvert Hsub Hclosed Hcut] Hi Hbody.
  assert (Huq : In u q) by (apply list_elem_of_In; eapply list_elem_of_lookup_2; eauto).
  destruct (cut_fold_post u (edgesOf edges u) st [] Hone) as [Hpost Hone'].
  unfold cut_body in Hbody. rewrite Hbody in Hpost, Hone'. simpl in Hpost, Hone'.
  destruct Hpost as [Bext Bnew Bpush Bnd Ball Bcut].
  constructor.
  - apply NoDup_app. split; [exact Hnd|]. split.
    + intros w Hw Hw'. apply list_elem_of_In in Hw. apply list_elem_of_In in Hw'.
      apply Bpush in Hw'. destruct Hw' as [[]|[_ Hn]]. apply Hn. apply Hdom. exact Hw.
    + apply Bnd; [constructor|]. intros w [].
  - intros w. rewrite in_app_iff, Bpush. split.
    + intros [Hw|[[]|[Hw _]]]; [|exact Hw].
      apply Hdom in Hw. destruct Hw as [x Hx]. exists x. apply Bext. exact Hx.
    + intros Hw. destruct (is_Some_dec (fst st !! w)) as [Ho|Ho].
      * left. apply Hdom. exact Ho.
      * right. right. auto.
  - exact Hone'.
  - apply in_app_iff. left. exact Hsrc.
  - intros w Hw. apply in_app_iff in Hw. destruct Hw as [Hw|Hw]; [auto|].
    apply Bpush in Hw. destruct Hw as [[]|[Hw Hn]].
    destruct (Bnew w Hw Hn) as [_ (e & He & <- & _)].
    right. apply list_elem_of_In, list_elem_of_lookup in He. destruct He as [j Hj].
    eapply In_targets. exact Hj.
  - intros w Hw. apply in_app_iff in Hw. destruct Hw as [Hw|Hw]; [auto|].
    apply Bpush in Hw. destruct Hw as [[]|[Hw Hn]].
    destruct (Bnew w Hw Hn) as [_ (e & He & <- & Hres)].
    apply list_elem_of_In, list_elem_of_lookup in He. destruct He as [j Hj].
    apply (C_closed u j e); auto.
  - intros k u' j e Hk Hu' He Hres.
    apply lookup_app_Some in Hu'. destruct Hu' as [Hu'|[Hlen _]];
      [|apply lookup_lt_Some in Hi; lia].
    destruct (decide (k = i)) as [->|Hne].
    + rewrite Hi in Hu'. injection Hu' as <-. apply Ball; [|exact Hres].
      apply list_elem_of_In. eapply list_elem_of_lookup_2. exact He.
    + destruct (Hclosed k u' j e ltac:(lia) Hu' He Hres) as [x Hx].
      exists x. apply Bext. exact Hx.
  - rewrite Bcut, Hcut.
    rewrite take_app_le by (apply lookup_lt_Some in Hi; lia).
    rewrite (take_S_r _ _ _ Hi). by rewrite saturatedFrom_snoc.
Qed.

Lemma cut_inv_init : inv (<[s := 1]> ∅, []) [s] 0.
Proof.
  constructor; simpl.
  - apply NoDup_singleton.
  - intros w. rewrite lookup_insert. destruct (decide (s = w)) as [->|Hne].
    + split; [eauto|auto].
    + rewrite lookup_empty. split; [intros [H|[]]; congruence|intros [x Hx]; discriminate].
  - intros w x. rewrite lookup_insert. destruct (decide (s = w)); [|by rewrite lookup_empty].
    congruence.
  - auto.
  - intros w [<-|[]]. left. reflexivity.
  - intros w [<-|[]]. exact C_source.
  - intros k u j e Hk. lia.
  - reflexivity.
Qed.

Lemma cut_inv_length st q i : inv st q i -> (length q <= S (length (targets edges)))%nat.
Proof.
  intros Hinv. change (S (length (targets edges))) with (length (s :: targets edges)).
  apply NoDup_incl_length; [apply NoDup_ListNoDup, (ki_nodup _ _ _ _ _ _ Hinv)|].
  intros w Hw. apply (ki_vert _ _ _ _ _ _ Hinv). exact Hw.
Qed.

Lemma cut_loop_terminates fuel :
  (S (length (targets edges)) < fuel)%nat ->
  is_Some (queue_loop (cut_body edges) fuel (<[s := 1]> ∅, []) [s] 0).
Proof.
  intros Hfuel.
  apply (queue_loop_terminates _ inv) with (bound := S (length (targets edges))).
  - intros. eapply cut_inv_step; eauto.
  - apply cut_inv_length.
  - apply cut_inv_init.
  - simpl. lia.
  - lia.
Qed.
End CutRun.

(** [bfsTheCut] returns the cut of the set of the vertices it reaches,
    which lies inside every set that holds the source and is closed under
    the edges that are not full. *)
Lemma bfsTheCut_spec fuel g s (C : Z -> Prop) minCut g' :
  residualClosed (g_edges g) C -> C s ->
  bfsTheCut fuel g s = Some (minCut, g') ->
  exists q, NoDup q /\ In s q /\ (forall w, In w q -> C w)
            /\ residualClosed (g_edges g) (fun w => In w q)
            /\ minCut = cutOf (g_edges g) q.
Proof.
  intros HC Hs Hrun. unfold bfsTheCut in Hrun.
  destruct (queue_loop _ fuel _ _ _) as [[[level ec] q]|] eqn:Hloop; [|discriminate].
  injection Hrun as <- <-.
  assert (Hinv : cut_inv (g_edges g) s C (level, ec) q (length q)).
  { eapply (queue_loop_inv _ (cut_inv (g_edges g) s C)); [| | |exact Hloop].
    - intros. eapply cut_inv_step; eauto.
    - by apply cut_inv_init.
    - simpl. lia. }
  destruct Hinv as [Hnd Hdom Hone Hsrc Hvert Hsub Hclosed Hcut]. simpl in *.
  exists q. split; [exact Hnd|]. split; [exact Hsrc|]. split; [exact Hsub|]. split.
  - intros u j e Hu He Hres. apply Hdom.
    apply list_elem_of_In, list_elem_of_lookup in Hu. destruct Hu as [k Hk].
    apply (Hclosed k u j e); auto. eapply lookup_lt_Some; eauto.
  - rewrite Hcut, firstn_all.
    rewrite (cut_filter_all _ (fun e => lvl level (e_v e) =? -1)).
    unfold cutOf. apply flat_map_ext. intros u. f_equal.
    apply filter_ext_bool. intros e _. f_equal. unfold crossing.
    destruct (memb q (e_v e)) eqn:Hm.
    + apply memb_spec, Hdom in Hm. destruct Hm as [x Hx].
      unfold lvl. rewrite Hx. simpl. rewrite (Hone _ _ Hx). reflexivity.
    + unfold lvl. destruct (level !! e_v e) as [x|] eqn:Hx; [|reflexivity].
      exfalso. assert (Hin : In (e_v e) q) by (apply Hdom; eauto).
      apply memb_spec in Hin. congruence.
Qed.

Lemma bfsTheCut_terminates fuel g s :
  (S (length (targets (g_edges g))) < fuel)%nat -> is_Some (bfsTheCut fuel g s).
Proof.
  intros Hfuel. unfold bfsTheCut.
  destruct (cut_loop_terminates (g_edges g) s (fun _ => True) ltac:(intros ? ? ? ? ? ?; exact I) I fuel Hfuel)
    as [[[level ec] q] Hloop].
  rewrite Hloop. eauto.
Qed.

(** ** The graph of [createGraph] *)

Lemma fold_left_flat_map {A B C} (f : C -> B -> C) (g : A -> list B) l c :
  fold_left f (flat_map g l) c = fold_left (fun c x => fold_left f (g x) c) l c.
Proof.
  revert c. induction l as [|a l IH]; intros c; simpl; [reflexivity|].
  rewrite fold_left_app. apply IH.
Qed.

Lemma fold_left_ext_in {A B} (f g : B -> A -> B) l b :
  (forall b x, In x l -> f b x = g b x) -> fold_left f l b = fold_left g l b.
Proof.
  revert b. induction l as [|a l IH]; intros b H; simpl; [reflexivity|].
  rewrite H by (left; reflexivity). apply IH. intros b' x Hx. apply H. right. exact Hx.
Qed.

Lemma connectNeighbours_calls roomArray x y bot graph :
  connectNeighbours roomArray x y bot graph
  = fold_left addEdgeCall (neighbourCalls roomArray x y bot) graph.
Proof.
  unfold connectNeighbours, neighbourCalls. rewrite fold_left_flat_map.
  apply fold_left_ext_in. intros g d _.
  destruct (is_tag roomArray (x + fst d) (y + snd d) NORMAL
            || is_tag roomArray (x + fst d) (y + snd d) TO_EXIT); reflexivity.
Qed.

Lemma addTile_calls roomArray x y graph :
  addTile roomArray x y graph = fold_left addEdgeCall (tileCalls roomArray x y) graph.
Proof.
  unfold addTile, tileCalls.
  destruct (is_tag roomArray x y NORMAL); [simpl; apply connectNeighbours_calls|].
  destruct (is_tag roomArray x y PROTECTED); [simpl; apply connectNeighbours_calls|].
  destruct (is_tag roomArray x y TO_EXIT); reflexivity.
Qed.

Lemma buildGraph_calls roomArray :
  buildGraph roomArray
  = fold_left addEdgeCall (graphCalls roomArray) (newGraph GRAPH_VERTEX_COUNT).
Proof.
  unfold buildGraph, graphCalls. rewrite fold_left_flat_map.
  apply fold_left_ext_in. intros g x _. rewrite fold_left_flat_map.
  apply fold_left_ext_in. intros g' y _. apply addTile_calls.
Qed.

Lemma edgesOf_pushEdge edges u e w :
  edgesOf (pushEdge edges u e) w = if decide (w = u) then edgesOf edges u ++ [e] else edgesOf edges w.
Proof. unfold pushEdge. apply edgesOf_insert. Qed.

Lemma edgesOf_addEdge g u v c w :
  u <> v ->
  edgesOf (g_edges (addEdge g u v c)) w
  = if decide (w = u) then
      edgesOf (g_edges g) u ++ [mkEdge v (length (edgesOf (g_edges g) v)) c 0]
    else if decide (w = v) then
      edgesOf (g_edges g) v ++ [mkEdge u (length (edgesOf (g_edges g) u)) 0 0]
    else edgesOf (g_edges g) w.
Proof.
  intros Hne. unfold addEdge. simpl. rewrite !edgesOf_pushEdge.
  rewrite (decide_False (P := v = u)) by auto.
  rewrite (decide_True (P := u = u)) by reflexivity.
  rewrite length_app. simpl.
  replace (length (edgesOf (g_edges g) u) + 1 - 1)%nat
    with (length (edgesOf (g_edges g) u)) by lia.
  destruct (decide (w = v)) as [->|Hwv].
  - rewrite decide_False by auto. reflexivity.
  - destruct (decide (w = u)) as [->|Hwu]; reflexivity.
Qed.

Lemma g_v_addEdgeCalls calls : forall g, g_v (fold_left addEdgeCall calls g) = g_v g.
Proof. induction calls as [|c calls IH]; intros g; simpl; [reflexivity|]. rewrite IH. reflexivity. Qed.

Lemma g_level_addEdgeCalls calls : forall g, g_level (fold_left addEdgeCall calls g) = g_level g.
Proof. induction calls as [|c calls IH]; intros g; simpl; [reflexivity|]. rewrite IH. reflexivity. Qed.

Lemma sumCap_app l l' : sumCap (l ++ l') = sumCap l + sumCap l'.
Proof. induction l as [|a l IH]; simpl; [reflexivity|]. rewrite IH. lia. Qed.

Lemma built_empty : built [] ∅.
Proof.
  assert (Hnone : forall u i, edgeAt ∅ u i = None).
  { intros u i. unfold edgeAt, edgesOf. rewrite lookup_empty. reflexivity. }
  constructor.
  - constructor; intros u i e He; rewrite Hnone in He; discriminate.
  - intros u i e He. rewrite Hnone in He. discriminate.
  - intros u i e He. rewrite Hnone in He. discriminate.
  - intros u v c [].
  - intros w. unfold edgesOf. rewrite lookup_empty. reflexivity.
  - intros w. unfold edgesOf. rewrite lookup_empty. simpl. lia.
Qed.

Lemma built_addEdge calls g u v c :
  u <> v -> 0 <= c -> built calls (g_edges g) ->
  built (calls ++ [(u, v, c)]) (g_edges (addEdge g u v c)).
Proof.
  intros Hne Hc [Hpair Hzero Hfwd Hhas Hcap Hlen].
  set (E := g_edges g) in *.
  set (fwd := mkEdge v (length (edgesOf E v)) c 0).
  set (rev := mkEdge u (length (edgesOf E u)) 0 0).
  assert (Hget : forall w i, edgeAt (g_edges (addEdge g u v c)) w i
            = if decide (w = u) then (edgesOf E u ++ [fwd]) !! i
              else if decide (w = v) then (edgesOf E v ++ [rev]) !! i
              else edgeAt E w i).
  { intros w i. unfold edgeAt. rewrite edgesOf_addEdge by exact Hne.
    destruct (decide (w = u)); [reflexivity|]. destruct (decide (w = v)); reflexivity. }
  assert (Hold : forall w i e, edgeAt E w i = Some e ->
            edgeAt (g_edges (addEdge g u v c)) w i = Some e).
  { intros w i e He. rewrite Hget. unfold edgeAt in He.
    destruct (decide (w = u)) as [->|]; [by apply lookup_app_l_Some|].
    destruct (decide (w = v)) as [->|]; [by apply lookup_app_l_Some|]. exact He. }
  assert (Hcases : forall w i e, edgeAt (g_edges (addEdge g u v c)) w i = Some e ->
            edgeAt E w i = Some e
            \/ (w = u /\ i = length (edgesOf E u) /\ e = fwd)
            \/ (w = v /\ i = length (edgesOf E v) /\ e = rev)).
  { intros w i e He. rewrite Hget in He.
    destruct (decide (w = u)) as [->|Hwu].
    - apply lookup_app_Some in He. destruct He as [He|[Hi He]]; [left; exact He|].
      right. left. apply list_lookup_singleton_Some in He. destruct He as [Hi' <-].
      split; [reflexivity|]. split; [lia|reflexivity].
    - destruct (decide (w = v)) as [->|Hwv]; [|left; exact He].
      apply lookup_app_Some in He. destruct He as [He|[Hi He]]; [left; exact He|].
      right. right. apply list_lookup_singleton_Some in He. destruct He as [Hi' <-].
      split; [reflexivity|]. split; [lia|reflexivity]. }
  assert (Hfwd_at : edgeAt (g_edges (addEdge g u v c)) u (length (edgesOf E u)) = Some fwd).
  { rewrite Hget, decide_True by reflexivity.
    rewrite lookup_app_r by lia. by rewrite Nat.sub_diag. }
  assert (Hrev_at : edgeAt (g_edges (addEdge g u v c)) v (length (edgesOf E v)) = Some rev).
  { rewrite Hget, decide_False by auto. rewrite decide_True by reflexivity.
    rewrite lookup_app_r by lia. by rewrite Nat.sub_diag. }
  constructor.
  - constructor.
    + intros w i e He. apply Hcases in He. destruct He as [He|[(-> & -> & ->)|(-> & -> & ->)]].
      * destruct (pr_partner _ Hpair w i e He) as (p & Hp & Hpv & Hpr).
        exists p. split; [apply Hold; exact Hp|auto].
      * exists rev. simpl. split; [exact Hrev_at|auto].
      * exists fwd. simpl. split; [exact Hfwd_at|auto].
    + intros w i e He. apply Hcases in He. destruct He as [He|[(-> & -> & ->)|(-> & -> & ->)]].
      * eapply (pr_noloop _ Hpair); eauto.
      * simpl. auto.
      * simpl. auto.
    + intros w i e He. apply Hcases in He. destruct He as [He|[(-> & -> & ->)|(-> & -> & ->)]].
      * eapply (pr_cap _ Hpair); eauto.
      * simpl. exact Hc.
      * simpl. lia.
  - intros w i e He. apply Hcases in He. destruct He as [He|[(-> & -> & ->)|(-> & -> & ->)]];
      [eapply Hzero; eauto|reflexivity|reflexivity].
  - intros w i e He. apply Hcases in He. destruct He as [He|[(-> & -> & ->)|(-> & -> & ->)]].
    + destruct (Hfwd w i e He) as [H|H]; [left; exact H|right].
      apply in_app_iff. left. exact H.
    + right. apply in_app_iff. right. left. reflexivity.
    + left. reflexivity.
  - intros u' v' c' Hin. apply in_app_iff in Hin. destruct Hin as [Hin|[Heq|[]]].
    + destruct (Hhas u' v' c' Hin) as (i & e & He & H1 & H2).
      exists i, e. split; [apply Hold; exact He|auto].
    + injection Heq as <- <- <-. exists (length (edgesOf E u)), fwd. auto.
  - intros w. rewrite edgesOf_addEdge by exact Hne.
    rewrite zsum_app. cbn [zsum fold_right fst snd]. rewrite <- Hcap. fold E.
    destruct (decide (w = u)) as [->|Hwu].
    + rewrite Z.eqb_refl, sumCap_app. simpl. lia.
    + destruct (Z.eqb_spec u w) as [|_]; [congruence|].
      destruct (decide (w = v)) as [->|Hwv]; [rewrite sumCap_app; simpl|]; lia.
  - intros w. rewrite edgesOf_addEdge by exact Hne. fold E.
    pose proof (Hlen w). pose proof (Hlen u). pose proof (Hlen v).
    destruct (decide (w = u)) as [->|Hwu]; [rewrite !length_app; simpl; lia|].
    destruct (decide (w = v)) as [->|Hwv]; rewrite !length_app; simpl; lia.
Qed.

Lemma built_calls calls : forall done g,
  (forall u v c, In (u, v, c) calls -> u <> v /\ 0 <= c) ->
  built done (g_edges g) ->
  built (done ++ calls) (g_edges (fold_left addEdgeCall calls g)).
Proof.
  induction calls as [|[[u v] c] calls IH]; intros done g Hcalls Hb; simpl.
  - by rewrite app_nil_r.
  - replace (done ++ (u, v, c) :: calls) with ((done ++ [(u, v, c)]) ++ calls)
      by (by rewrite <- app_assoc).
    apply IH.
    + intros u' v' c' Hin. apply Hcalls. right. exact Hin.
    + destruct (Hcalls u v c (or_introl eq_refl)) as [Hne Hc].
      apply built_addEdge; auto.
Qed.

Ltac vertex_arith :=
  unfold interior, positionToVertex, TOP_OFFSET, BOT_OFFSET, SOURCE_VERTEX, SINK_VERTEX,
    GRAPH_VERTEX_COUNT, ROOM_SIZE in *; lia.

Lemma In_graphCalls roomArray call :
  In call (graphCalls roomArray)
  <-> exists x y, interior x y /\ In call (tileCalls roomArray x y).
Proof.
  unfold graphCalls, interior. rewrite in_flat_map. split.
  - intros (x & Hx & Hin). apply in_flat_map in Hin. destruct Hin as (y & Hy & Hin).
    apply elem_of_range_excl in Hx, Hy. unfold ROOM_MAX_INDEX in *.
    exists x, y. split; [lia|exact Hin].
  - intros (x & y & [Hx Hy] & Hin). exists x. split.
    + apply elem_of_range_excl. unfold ROOM_MAX_INDEX. lia.
    + apply in_flat_map. exists y. split; [|exact Hin].
      apply elem_of_range_excl. unfold ROOM_MAX_INDEX. lia.
Qed.

Lemma In_neighbourCalls roomArray x y bot call :
  In call (neighbourCalls roomArray x y bot)
  <-> exists d, In d SURROUND_OFFSETS
      /\ call = (bot, positionToVertex (x + fst d) (y + snd d) + TOP_OFFSET, MAX_VALUE)
      /\ (arr_get roomArray (x + fst d) (y + snd d) = Some NORMAL
          \/ arr_get roomArray (x + fst d) (y + snd d) = Some TO_EXIT).
Proof.
  unfold neighbourCalls. rewrite in_flat_map. split.
  - intros (d & Hd & Hin). exists d. split; [exact Hd|].
    destruct (is_tag roomArray (x + fst d) (y + snd d) NORMAL
              || is_tag roomArray (x + fst d) (y + snd d) TO_EXIT) eqn:Ht; [|destruct Hin].
    destruct Hin as [Heq|[]]. split; [congruence|].
    apply orb_true_iff in Ht. rewrite !is_tag_spec in Ht. exact Ht.
  - intros (d & Hd & Heq & Ht). exists d. split; [exact Hd|].
    rewrite <- !is_tag_spec, <- orb_true_iff in Ht. rewrite Ht. left. congruence.
Qed.

Lemma is_tag_false arr x y tag tag' :
  arr_get arr x y = Some tag' -> tag' <> tag -> is_tag arr x y tag = false.
Proof. intros H Hne. unfold is_tag. rewrite H. apply Z.eqb_neq. exact Hne. Qed.

Lemma In_tileCalls roomArray x y call :
  In call (tileCalls roomArray x y) <->
  let top := positionToVertex x y + TOP_OFFSET in
  let bot := top + BOT_OFFSET in
  (call = (top, bot, 1)
     /\ (arr_get roomArray x y = Some NORMAL \/ arr_get roomArray x y = Some PROTECTED))
  \/ (call = (SOURCE_VERTEX, top, MAX_VALUE) /\ arr_get roomArray x y = Some PROTECTED)
  \/ (call = (top, SINK_VERTEX, MAX_VALUE) /\ arr_get roomArray x y = Some TO_EXIT)
  \/ (In call (neighbourCalls roomArray x y bot)
     /\ (arr_get roomArray x y = Some NORMAL \/ arr_get roomArray x y = Some PROTECTED)).
Proof.
  cbv zeta. unfold tileCalls.
  destruct (is_tag roomArray x y NORMAL) eqn:Hn.
  { apply is_tag_spec in Hn. rewrite Hn. split.
    - intros [<-|Hin]; [left; auto|right; right; right; auto].
    - intros [[-> _]|[[_ H]|[[_ H]|[Hin _]]]]; try discriminate H;
        [left; reflexivity|right; exact Hin]. }
  destruct (is_tag roomArray x y PROTECTED) eqn:Hp.
  { apply is_tag_spec in Hp. rewrite Hp. split.
    - intros [<-|[<-|Hin]]; [right; left; auto|left; auto|right; right; right; auto].
    - intros [[-> _]|[[-> _]|[[_ H]|[Hin _]]]]; try discriminate H;
        [right; left; reflexivity|left; reflexivity|right; right; exact Hin]. }
  destruct (is_tag roomArray x y TO_EXIT) eqn:He.
  { apply is_tag_spec in He. rewrite He. split.
    - intros [<-|[]]. right. right. left. auto.
    - intros [[_ [H|H]]|[[_ H]|[[-> _]|[_ [H|H]]]]]; try discriminate H.
      left. reflexivity. }
  assert (Hnot : forall tag, In tag [NORMAL; PROTECTED; TO_EXIT] ->
            arr_get roomArray x y <> Some tag).
  { intros tag Htag Hget. apply is_tag_spec in Hget.
    destruct Htag as [<-|[<-|[<-|[]]]]; congruence. }
  split; [intros []|].
  intros [[_ [H|H]]|[[_ H]|[[_ H]|[_ [H|H]]]]]; eapply Hnot in H; try exact H;
    simpl; auto.
Qed.

Lemma offsets_bound d : In d SURROUND_OFFSETS -> -1 <= fst d <= 1 /\ -1 <= snd d <= 1.
Proof.
  unfold SURROUND_OFFSETS. simpl.
  intros [<-|[<-|[<-|[<-|[<-|[<-|[<-|[<-|[]]]]]]]]]; simpl; lia.
Qed.

(** The shape of every call: the source of the edge, its target and its
    capacity, by the kind of the tile that made it. *)
Lemma graphCalls_shape roomArray u v c :
  In (u, v, c) (graphCalls roomArray) ->
  exists x y, interior x y /\
    let top := positionToVertex x y + TOP_OFFSET in
    let bot := top + BOT_OFFSET in
    (u = top /\ v = bot /\ c = 1
       /\ (arr_get roomArray x y = Some NORMAL \/ arr_get roomArray x y = Some PROTECTED))
    \/ (u = SOURCE_VERTEX /\ v = top /\ c = MAX_VALUE /\ arr_get roomArray x y = Some PROTECTED)
    \/ (u = top /\ v = SINK_VERTEX /\ c = MAX_VALUE /\ arr_get roomArray x y = Some TO_EXIT)
    \/ (u = bot /\ c = MAX_VALUE /\ exists d, In d SURROUND_OFFSETS
         /\ v = positionToVertex (x + fst d) (y + snd d) + TOP_OFFSET).
Proof.
  intros Hin. apply In_graphCalls in Hin. destruct Hin as (x & y & Hxy & Hin).
  exists x, y. split; [exact Hxy|]. cbv zeta.
  apply In_tileCalls in Hin. cbv zeta in Hin.
  destruct Hin as [[Heq H]|[[Heq H]|[[Heq H]|[Hin H]]]].
  - injection Heq as -> -> ->. left. auto.
  - injection Heq as -> -> ->. right. left. auto.
  - injection Heq as -> -> ->. right. right. left. auto.
  - apply In_neighbourCalls in Hin. destruct Hin as (d & Hd & Heq & _).
    injection Heq as -> -> ->. right. right. right. split; [reflexivity|].
    split; [reflexivity|]. exists d. auto.
Qed.

Lemma MAX_VALUE_large : 100000 < MAX_VALUE.
Proof. unfold MAX_VALUE. reflexivity. Qed.

Lemma graphCalls_ok roomArray u v c :
  In (u, v, c) (graphCalls roomArray) -> u <> v /\ 0 <= c.
Proof.
  intros Hin. apply graphCalls_shape in Hin. destruct Hin as (x & y & Hxy & H).
  cbv zeta in H. pose proof MAX_VALUE_large.
  destruct H as [(-> & -> & -> & _)|[(-> & -> & -> & _)|[(-> & -> & -> & _)|
    (-> & -> & d & Hd & ->)]]]; try (split; [vertex_arith|lia]).
  apply offsets_bound in Hd. split; [vertex_arith|lia].
Qed.

Lemma built_graph roomArray :
  built (graphCalls roomArray) (g_edges (buildGraph roomArray))
  /\ g_v (buildGraph roomArray) = GRAPH_VERTEX_COUNT.
Proof.
  rewrite buildGraph_calls. split; [|apply g_v_addEdgeCalls].
  apply (built_calls (graphCalls roomArray) [] (newGraph GRAPH_VERTEX_COUNT)).
  - intros u v c. apply graphCalls_ok.
  - apply built_empty.
Qed.

Lemma In_edgeAt edges u e : In e (edgesOf edges u) <-> exists i, edgeAt edges u i = Some e.
Proof. unfold edgeAt. rewrite <- list_elem_of_In. apply list_elem_of_lookup. Qed.

Lemma built_excess calls edges w : built calls edges -> excess edges w = 0.
Proof.
  intros Hb. unfold excess. rewrite sumFlow_zsum. apply zsum_zero.
  intros e He. apply In_edgeAt in He. destruct He as [i He].
  eapply bl_zero; eauto.
Qed.

Lemma built_flow_ok calls edges s t : built calls edges -> flow_ok edges s t.
Proof.
  intros Hb. constructor.
  - intros u i e e' He He'. rewrite (bl_zero _ _ Hb _ _ _ He), (bl_zero _ _ Hb _ _ _ He').
    reflexivity.
  - intros u i e He. rewrite (bl_zero _ _ Hb _ _ _ He).
    eapply (pr_cap _ (bl_paired _ _ Hb)); eauto.
  - intros w _ _. eapply built_excess; eauto.
Qed.

Lemma tileCalls_from roomArray x y u v c :
  In (u, v, c) (tileCalls roomArray x y) ->
  u = positionToVertex x y + TOP_OFFSET \/ u = SOURCE_VERTEX
  \/ u = positionToVertex x y + TOP_OFFSET + BOT_OFFSET.
Proof.
  intros Hin. apply In_tileCalls in Hin. cbv zeta in Hin.
  destruct Hin as [[Heq _]|[[Heq _]|[[Heq _]|[Hin _]]]];
    try (injection Heq as -> _ _; auto).
  apply In_neighbourCalls in Hin. destruct Hin as (d & _ & Heq & _).
  injection Heq as -> _ _. auto.
Qed.

Lemma NoDup_range_excl lo hi : NoDup (range_excl lo hi).
Proof. unfold range_excl. apply NoDup_seqZ. Qed.

(** The top vertex of a protected tile has one edge of capacity 1, to its
    bottom vertex, and no other edge with a capacity. *)
Lemma capsum_protected roomArray x0 y0 :
  interior x0 y0 -> arr_get roomArray x0 y0 = Some PROTECTED ->
  sumCap (edgesOf (g_edges (buildGraph roomArray)) (positionToVertex x0 y0 + TOP_OFFSET)) = 1.
Proof.
  intros Hint Htag. destruct (built_graph roomArray) as [Hb _].
  rewrite (bl_capsum _ _ Hb). set (w := positionToVertex x0 y0 + TOP_OFFSET).
  set (f := fun call : Z * Z * Z => if fst (fst call) =? w then snd call else 0).
  assert (Hother : forall x y, interior x y -> (x <> x0 \/ y <> y0) ->
            zsum f (tileCalls roomArray x y) = 0).
  { intros x y Hxy Hne. apply zsum_zero. intros [[u v] c] Hin.
    apply tileCalls_from in Hin. unfold f. simpl.
    destruct (Z.eqb_spec u w) as [Heq|]; [|reflexivity].
    exfalso. unfold w in Heq. destruct Hin as [Hu|[Hu|Hu]]; vertex_arith. }
  unfold graphCalls. rewrite zsum_flat_map.
  rewrite (zsum_single _ _ x0).
  - rewrite zsum_flat_map. rewrite (zsum_single _ _ y0).
    + unfold tileCalls. rewrite (is_tag_false _ _ _ NORMAL PROTECTED Htag) by discriminate.
      apply is_tag_spec in Htag. rewrite Htag.
      fold w. set (nb := neighbourCalls roomArray x0 y0 (w + BOT_OFFSET)).
      assert (Hnb : zsum f nb = 0).
      { apply zsum_zero. intros [[u v] c] Hin. apply In_neighbourCalls in Hin.
        destruct Hin as (d & _ & Heq & _). injection Heq as -> _ _. unfold f. simpl.
        destruct (Z.eqb_spec (w + BOT_OFFSET) w) as [Heq|_]; [vertex_arith|reflexivity]. }
      unfold zsum in *. cbn [foldr]. rewrite Hnb. unfold f. cbn [fst snd].
      rewrite Z.eqb_refl.
      destruct (Z.eqb_spec SOURCE_VERTEX w) as [Heq|_]; [unfold w in Heq; vertex_arith|].
      lia.
    + apply NoDup_range_excl.
    + apply elem_of_range_excl. unfold ROOM_MAX_INDEX. vertex_arith.
    + intros y Hy Hne. apply elem_of_range_excl in Hy. unfold ROOM_MAX_INDEX in Hy.
      apply Hother; [|right; exact Hne]. unfold interior in *. lia.
  - apply NoDup_range_excl.
  - apply elem_of_range_excl. unfold ROOM_MAX_INDEX. vertex_arith.
  - intros x Hx Hne. apply elem_of_range_excl in Hx. unfold ROOM_MAX_INDEX in Hx.
    rewrite zsum_flat_map. apply zsum_zero. intros y Hy.
    apply elem_of_range_excl in Hy. unfold ROOM_MAX_INDEX in Hy.
    apply Hother; [|left; exact Hne]. unfold interior in *. lia.
Qed.

(** ** Flows of the graph of a room *)

Lemma sum_except (l : list Edge) : forall r p,
  l !! r = Some p -> (forall e, In e l -> e_f e <= e_c e) ->
  sumFlow l - e_f p <= sumCap l - e_c p.
Proof.
  induction l as [|a l IH]; intros r p Hr Hle; [discriminate|].
  destruct r as [|r]; simpl in *.
  - injection Hr as ->.
    pose proof (sumFlow_le_sumCap l (fun e He => Hle e (or_intror He))). lia.
  - pose proof (Hle a (or_introl eq_refl)).
    pose proof (IH r p Hr (fun e He => Hle e (or_intror He))). lia.
Qed.

Lemma zsum_le {A} (f g : A -> Z) l : (forall x, In x l -> f x <= g x) -> zsum f l <= zsum g l.
Proof.
  unfold zsum. induction l as [|a l IH]; intros H; simpl; [lia|].
  pose proof (H a (or_introl eq_refl)). specialize (IH (fun x Hx => H x (or_intror Hx))).
  lia.
Qed.

Lemma zsum_const {A} (l : list A) : zsum (fun _ => 1) l = Z.of_nat (length l).
Proof.
  induction l as [|a l IH]; [reflexivity|].
  cbn [length]. rewrite Nat2Z.inj_succ, <- IH. unfold zsum. simpl. lia.
Qed.

Lemma length_flat_map_le {A B} (f : A -> list B) l k :
  (forall x, In x l -> (length (f x) <= k)%nat) -> (length (flat_map f l) <= k * length l)%nat.
Proof.
  induction l as [|a l IH]; intros H; simpl; [lia|].
  rewrite length_app. pose proof (H a (or_introl eq_refl)).
  specialize (IH (fun x Hx => H x (or_intror Hx))). lia.
Qed.

Lemma length_range_excl lo hi : length (range_excl lo hi) = Z.to_nat (hi - lo).
Proof. unfold range_excl. apply length_seqZ. Qed.

Lemma length_graphCalls roomArray : Z.of_nat (length (graphCalls roomArray)) <= 23040.
Proof.
  assert (Hn : forall x y bot, (length (neighbourCalls roomArray x y bot) <= 8)%nat).
  { intros x y bot. unfold neighbourCalls.
    change 8%nat with (1 * length SURROUND_OFFSETS)%nat.
    apply length_flat_map_le. intros d _. destruct (_ || _); simpl; lia. }
  assert (Ht : forall x y, (length (tileCalls roomArray x y) <= 10)%nat).
  { intros x y. unfold tileCalls.
    pose proof (Hn x y (positionToVertex x y + TOP_OFFSET + BOT_OFFSET)).
    repeat (destruct (is_tag _ _ _ _)); simpl; lia. }
  assert (Hr : length (range_excl 1 ROOM_MAX_INDEX) = 48%nat).
  { rewrite length_range_excl. reflexivity. }
  assert (Hc : forall x, (length (flat_map (fun y => tileCalls roomArray x y)
                                    (range_excl 1 ROOM_MAX_INDEX)) <= 480)%nat).
  { intros x. change 480%nat with (10 * 48)%nat. rewrite <- Hr.
    apply length_flat_map_le. intros y _. apply Ht. }
  unfold graphCalls.
  pose proof (length_flat_map_le
    (fun x => flat_map (fun y => tileCalls roomArray x y) (range_excl 1 ROOM_MAX_INDEX))
    (range_excl 1 ROOM_MAX_INDEX) 480%nat (fun x _ => Hc x)) as H.
  rewrite Hr in H. lia.
Qed.

Section RoomFlow.
Variables (roomArray : Grid Z) (edges : gmap Z (list Edge)).
Hypothesis Hskel : same_skel (g_edges (buildGraph roomArray)) edges.
Hypothesis Hok : flow_ok edges SOURCE_VERTEX SINK_VERTEX.

Lemma room_paired : paired edges.
Proof.
  eapply paired_skel; [exact Hskel|].
  apply (bl_paired _ _ (proj1 (built_graph roomArray))).
Qed.

Lemma room_edge_call u i e :
  edgeAt edges u i = Some e ->
  e_c e = 0 \/ In (u, e_v e, e_c e) (graphCalls roomArray).
Proof.
  intros He.
  destruct (same_skel_edgeAt _ _ _ _ _ (same_skel_sym _ _ Hskel) He) as (e0 & He0 & Hsk).
  apply skel_inv in Hsk. destruct Hsk as (Hv & _ & Hc).
  destruct (bl_fwd _ _ (proj1 (built_graph roomArray)) _ _ _ He0) as [H|H].
  - left. congruence.
  - right. rewrite <- Hv, <- Hc. exact H.
Qed.

Lemma room_call_edge u v c :
  In (u, v, c) (graphCalls roomArray) ->
  exists i e, edgeAt edges u i = Some e /\ e_v e = v /\ e_c e = c.
Proof.
  intros Hin.
  destruct (bl_has _ _ (proj1 (built_graph roomArray)) _ _ _ Hin) as (i & e0 & He0 & Hv & Hc).
  destruct (same_skel_edgeAt _ _ _ _ _ Hskel He0) as (e & He & Hsk).
  apply skel_inv in Hsk. destruct Hsk as (Hv' & _ & Hc').
  exists i, e. split; [exact He|]. split; congruence.
Qed.

Lemma source_edge_flow i e : edgeAt edges SOURCE_VERTEX i = Some e -> e_f e <= 1.
Proof.
  intros He. pose proof (fo_cap _ _ _ Hok _ _ _ He) as Hcap.
  destruct (room_edge_call _ _ _ He) as [Hc|Hin]; [lia|].
  apply graphCalls_shape in Hin. destruct Hin as (x & y & Hxy & H). cbv zeta in H.
  destruct H as [(Hu & _)|[(_ & Hv & _ & Htag)|[(Hu & _)|(Hu & _)]]];
    try (exfalso; vertex_arith).
  destruct (pr_partner _ room_paired _ _ _ He) as (p & Hp & _ & _).
  pose proof (fo_anti _ _ _ Hok _ _ _ _ He Hp) as Hanti.
  assert (Hcons : excess edges (e_v e) = 0).
  { apply (fo_cons _ _ _ Hok); rewrite Hv; vertex_arith. }
  assert (Hsum : sumCap (edgesOf edges (e_v e)) = 1).
  { rewrite <- (sumCap_skel _ _ (Hskel (e_v e))). rewrite Hv.
    apply capsum_protected; assumption. }
  assert (Hle : forall e', In e' (edgesOf edges (e_v e)) -> e_f e' <= e_c e').
  { intros e' Hin. apply In_edgeAt in Hin. destruct Hin as [j Hj].
    eapply (fo_cap _ _ _ Hok); eauto. }
  pose proof (sum_except _ _ _ Hp Hle) as Hex. unfold excess in Hcons.
  pose proof (pr_cap _ room_paired _ _ _ Hp). lia.
Qed.

Lemma room_value_bound : excess edges SOURCE_VERTEX < MAX_VALUE.
Proof.
  unfold excess. rewrite sumFlow_zsum.
  assert (H1 : zsum e_f (edgesOf edges SOURCE_VERTEX)
               <= Z.of_nat (length (edgesOf edges SOURCE_VERTEX))).
  { rewrite <- zsum_const. apply zsum_le. intros e He.
    apply In_edgeAt in He. destruct He as [i He]. eapply source_edge_flow; eauto. }
  rewrite <- (same_skel_length _ _ SOURCE_VERTEX Hskel) in H1.
  pose proof (bl_len _ _ (proj1 (built_graph roomArray)) SOURCE_VERTEX).
  pose proof (length_graphCalls roomArray). pose proof MAX_VALUE_large. lia.
Qed.
End RoomFlow.

Lemma length_flat_map_zsum {A B} (f : A -> list B) l :
  Z.of_nat (length (flat_map f l)) = zsum (fun x => Z.of_nat (length (f x))) l.
Proof.
  unfold zsum. induction l as [|a l IH]; simpl; [reflexivity|].
  rewrite length_app, Nat2Z.inj_add, IH. reflexivity.
Qed.

Lemma length_filter_zsum {A} (p : A -> bool) l :
  Z.of_nat (length (List.filter p l)) = zsum (fun x => if p x then 1 else 0) l.
Proof.
  unfold zsum. induction l as [|a l IH]; simpl; [reflexivity|].
  destruct (p a); [cbn [length]; rewrite Nat2Z.inj_succ|]; lia.
Qed.

Lemma In_cutOf edges q u :
  In u (cutOf edges q)
  <-> In u q /\ exists e, In e (edgesOf edges u) /\ saturated e = true /\ crossing q e = true.
Proof.
  unfold cutOf. rewrite in_flat_map. split.
  - intros (w & Hw & Hin). apply in_map_iff in Hin. destruct Hin as (e & <- & He).
    apply filter_In in He. destruct He as [He Hb]. apply andb_true_iff in Hb.
    split; [exact Hw|]. exists e. tauto.
  - intros (Hu & e & He & Hs & Hc). exists u. split; [exact Hu|].
    apply in_map_iff. exists e. split; [reflexivity|]. apply filter_In.
    split; [exact He|]. rewrite Hs, Hc. reflexivity.
Qed.

Lemma crossing_spec q e : crossing q e = true <-> ~ In (e_v e) q.
Proof.
  unfold crossing. rewrite negb_true_iff, <- not_true_iff_false, memb_spec. reflexivity.
Qed.

Section RoomCut.
Variables (roomArray : Grid Z) (edges : gmap Z (list Edge)) (q : list Z).
Hypothesis Hskel : same_skel (g_edges (buildGraph roomArray)) edges.
Hypothesis Hok : flow_ok edges SOURCE_VERTEX SINK_VERTEX.
Hypothesis Hnd : NoDup q.
Hypothesis Hs : In SOURCE_VERTEX q.
Hypothesis Ht : ~ In SINK_VERTEX q.
Hypothesis Hcl : residualClosed edges (fun w => In w q).

Lemma room_cut_cap : cutCap edges q = excess edges SOURCE_VERTEX.
Proof.
  rewrite <- (cut_full edges q).
  - apply (cut_identity edges q (room_paired _ _ Hskel) (fo_anti _ _ _ Hok) Hnd
             SOURCE_VERTEX SINK_VERTEX (fo_cons _ _ _ Hok) Hs Ht).
  - apply (fo_cap _ _ _ Hok).
  - exact Hcl.
Qed.

Lemma crossing_edge u i e :
  In u q -> edgeAt edges u i = Some e -> ~ In (e_v e) q ->
  e_f e = e_c e /\ e_c e <= excess edges SOURCE_VERTEX.
Proof.
  intros Hu He Hv. split.
  - pose proof (fo_cap _ _ _ Hok _ _ _ He).
    destruct (Z_lt_le_dec (e_f e) (e_c e)) as [Hlt|Hge]; [|lia].
    exfalso. apply Hv. apply (Hcl u i e Hu He Hlt).
  - rewrite <- room_cut_cap. unfold cutCap.
    set (g := fun e : Edge => if crossing q e then e_c e else 0).
    assert (Hg : forall w e', In e' (edgesOf edges w) -> 0 <= g e').
    { intros w e' Hin. unfold g. destruct (crossing q e'); [|lia].
      apply In_edgeAt in Hin. destruct Hin as [j Hj].
      eapply (pr_cap _ (room_paired _ _ Hskel)); eauto. }
    transitivity (zsum g (edgesOf edges u)).
    + replace (e_c e) with (g e).
      * apply zsum_ge_term; [apply Hg|]. apply In_edgeAt. eauto.
      * unfold g. apply crossing_spec in Hv. rewrite Hv. reflexivity.
    + apply (zsum_ge_term (fun w => zsum g (edgesOf edges w))); [|exact Hu].
      intros w _. apply zsum_nonneg. apply Hg.
Qed.

Lemma crossing_edge_tile u i e :
  In u q -> edgeAt edges u i = Some e -> ~ In (e_v e) q ->
  e_c e = 0 \/
  (e_c e = 1 /\ exists x y, interior x y /\ u = positionToVertex x y + TOP_OFFSET
     /\ e_v e = u + BOT_OFFSET
     /\ (arr_get roomArray x y = Some NORMAL \/ arr_get roomArray x y = Some PROTECTED)).
Proof.
  intros Hu He Hv. destruct (crossing_edge u i e Hu He Hv) as [_ Hle].
  pose proof (room_value_bound _ _ Hskel Hok) as Hlt.
  destruct (room_edge_call _ _ Hskel _ _ _ He) as [Hc|Hin]; [left; exact Hc|right].
  apply graphCalls_shape in Hin. destruct Hin as (x & y & Hxy & H). cbv zeta in H.
  destruct H as [(Hu' & Hv' & Hc & Htag)|[(_ & _ & Hc & _)|[(_ & _ & Hc & _)|(_ & Hc & _)]]];
    try (exfalso; lia).
  split; [exact Hc|]. exists x, y. split; [exact Hxy|]. split; [exact Hu'|].
  split; [rewrite Hv', Hu'; reflexivity|exact Htag].
Qed.

Lemma room_cut_length : Z.of_nat (length (cutOf edges q)) = excess edges SOURCE_VERTEX.
Proof.
  rewrite <- room_cut_cap. unfold cutOf, cutCap. rewrite length_flat_map_zsum.
  apply zsum_ext. intros u Hu. rewrite length_map, length_filter_zsum.
  apply zsum_ext. intros e He. apply In_edgeAt in He. destruct He as [i He].
  destruct (crossing q e) eqn:Hc; [|rewrite andb_false_r; reflexivity].
  rewrite andb_true_r. apply crossing_spec in Hc.
  destruct (crossing_edge u i e Hu He Hc) as [Hf _].
  unfold saturated. rewrite Hf, Z.eqb_refl. simpl.
  destruct (crossing_edge_tile u i e Hu He Hc) as [H0|[H1 _]]; [rewrite H0|rewrite H1];
    reflexivity.
Qed.

Lemma cut_vertex_tile u :
  In u (cutOf edges q) ->
  exists x y, interior x y /\ u = positionToVertex x y + TOP_OFFSET
    /\ In u q /\ ~ In (u + BOT_OFFSET) q
    /\ (arr_get roomArray x y = Some NORMAL \/ arr_get roomArray x y = Some PROTECTED).
Proof.
  intros Hin. apply In_cutOf in Hin. destruct Hin as (Hu & e & He & Hsat & Hc).
  apply In_edgeAt in He. destruct He as [i He]. apply crossing_spec in Hc.
  destruct (crossing_edge_tile u i e Hu He Hc) as [H0|[_ (x & y & Hxy & Hux & Hv & Htag)]].
  - unfold saturated in Hsat. rewrite H0 in Hsat. rewrite andb_comm in Hsat. discriminate.
  - exists x, y. rewrite <- Hv. auto.
Qed.

Lemma tile_in_cut x y :
  interior x y ->
  arr_get roomArray x y = Some NORMAL \/ arr_get roomArray x y = Some PROTECTED ->
  In (positionToVertex x y + TOP_OFFSET) q ->
  ~ In (positionToVertex x y + TOP_OFFSET + BOT_OFFSET) q ->
  In (positionToVertex x y + TOP_OFFSET) (cutOf edges q).
Proof.
  intros Hxy Htag Htop Hbot. apply In_cutOf. split; [exact Htop|].
  assert (Hcall : In (positionToVertex x y + TOP_OFFSET,
                      positionToVertex x y + TOP_OFFSET + BOT_OFFSET, 1)
                     (graphCalls roomArray)).
  { apply In_graphCalls. exists x, y. split; [exact Hxy|].
    apply In_tileCalls. cbv zeta. left. auto. }
  destruct (room_call_edge _ _ Hskel _ _ _ Hcall) as (i & e & He & Hv & Hc).
  exists e. split; [apply In_edgeAt; eauto|].
  assert (Hcr : ~ In (e_v e) q) by (rewrite Hv; exact Hbot).
  destruct (crossing_edge _ i e Htop He Hcr) as [Hf _].
  split; [|apply crossing_spec; exact Hcr].
  unfold saturated. rewrite Hf, Hc. reflexivity.
Qed.

Lemma inf_closed u v :
  In u q -> In (u, v, MAX_VALUE) (graphCalls roomArray) -> In v q.
Proof.
  intros Hu Hcall.
  destruct (room_call_edge _ _ Hskel _ _ _ Hcall) as (i & e & He & Hv & Hc).
  destruct (in_dec Z.eq_dec v q) as [Hin|Hout]; [exact Hin|exfalso].
  rewrite <- Hv in Hout.
  destruct (crossing_edge u i e Hu He Hout) as [_ Hle].
  pose proof (room_value_bound _ _ Hskel Hok). lia.
Qed.
End RoomCut.

(** ** The solver on the graph of a room *)

Lemma source_not_sink : SOURCE_VERTEX <> SINK_VERTEX.
Proof. vertex_arith. Qed.

Lemma calcMinCut_room roomArray :
  exists N count g',
    same_skel (g_edges (buildGraph roomArray)) (g_edges g')
    /\ flow_ok (g_edges g') SOURCE_VERTEX SINK_VERTEX
    /\ count = excess (g_edges g') SOURCE_VERTEX
    /\ g_level g' !! SOURCE_VERTEX = Some 0
    /\ g_level g' !! SINK_VERTEX = None
    /\ residualClosed (g_edges g') (fun w => is_Some (g_level g' !! w))
    /\ forall fuel, (N <= fuel)%nat ->
         calcMinCut fuel (buildGraph roomArray) SOURCE_VERTEX SINK_VERTEX = Some (count, g').
Proof.
  destruct (built_graph roomArray) as [Hb Hv].
  set (g := buildGraph roomArray) in *.
  destruct (dinic_total (g_edges g) SOURCE_VERTEX SINK_VERTEX source_not_sink
              (Z.to_nat (sumCap (edgesOf (g_edges g) SOURCE_VERTEX)
                         - excess (g_edges g) SOURCE_VERTEX)) g 0)
    as [N HN].
  - exact (bl_paired _ _ Hb).
  - eapply built_flow_ok; eauto.
  - apply same_skel_refl.
  - rewrite Hv. vertex_arith.
  - lia.
  - destruct (HN N N (le_n _) (le_n _)) as (count & g' & Hrun & Hpost).
    exists N, count, g'. destruct Hpost as [Hskel Hflow Hval _ Hsrc Hsnk Hcl].
    rewrite (built_excess _ _ SOURCE_VERTEX Hb) in Hval.
    repeat (split; [first [assumption | lia]|]).
    intros fuel Hfuel. unfold calcMinCut.
    destruct (Z.eqb_spec SOURCE_VERTEX SINK_VERTEX) as [Heq|_];
      [exfalso; exact (source_not_sink Heq)|].
    eapply dinicPhases_mono; eauto.
Qed.

Lemma room_solve roomArray :
  exists N count g' g'' q, solved roomArray count g' q /\
    forall fuel, (N <= fuel)%nat ->
      calcMinCut fuel (buildGraph roomArray) SOURCE_VERTEX SINK_VERTEX = Some (count, g')
      /\ bfsTheCut fuel g' SOURCE_VERTEX = Some (cutOf (g_edges g') q, g'')
      /\ cutPositions fuel (buildGraph roomArray)
         = Some (map vertexToPosition (cutOf (g_edges g') q)).
Proof.
  destruct (calcMinCut_room roomArray)
    as (N1 & count & g' & Hskel & Hflow & Hcount & Hsrc & Hsnk & Hcl & Hrun).
  set (N2 := S (S (length (targets (g_edges g'))))).
  destruct (bfsTheCut_terminates N2 g' SOURCE_VERTEX ltac:(unfold N2; lia))
    as [[minCut g''] Hcut].
  assert (Hsome : is_Some (g_level g' !! SOURCE_VERTEX)) by (rewrite Hsrc; eauto).
  destruct (bfsTheCut_spec _ _ _ _ _ _ Hcl Hsome Hcut)
    as (q & Hnd & Hs & Hsub & Hclq & ->).
  assert (Hsolved : solved roomArray count g' q).
  { constructor; auto. intros Hin. apply Hsub in Hin. rewrite Hsnk in Hin.
    destruct Hin as [? Hin]. discriminate. }
  exists (Nat.max N1 N2), count, g', g'', q. split; [exact Hsolved|].
  intros fuel Hfuel.
  assert (Hc : calcMinCut fuel (buildGraph roomArray) SOURCE_VERTEX SINK_VERTEX
               = Some (count, g')) by (apply Hrun; lia).
  assert (Hb : bfsTheCut fuel g' SOURCE_VERTEX = Some (cutOf (g_edges g') q, g'')).
  { eapply bfsTheCut_mono; [|exact Hcut]. lia. }
  split; [exact Hc|]. split; [exact Hb|].
  unfold cutPositions. rewrite Hc.
  destruct (Z.ltb_spec 0 count) as [_|Hzero]; [rewrite Hb; reflexivity|].
  destruct Hsolved as [S1 S2 S3 S4 S5 S6 S7].
  pose proof (room_cut_length roomArray (g_edges g') q S1 S2 S4 S5 S6 S7) as Hlen.
  rewrite <- S3 in Hlen.
  destruct (cutOf (g_edges g') q) as [|c l]; [reflexivity|]. simpl in Hlen. lia.
Qed.

Lemma solved_length roomArray count g' q :
  solved roomArray count g' q -> Z.of_nat (length (cutOf (g_edges g') q)) = count.
Proof.
  intros [S1 S2 S3 S4 S5 S6 S7]. rewrite S3. eapply room_cut_length; eauto.
Qed.

Lemma cutCap_skel e1 e2 q : same_skel e1 e2 -> cutCap e1 q = cutCap e2 q.
Proof.
  intros Hs. unfold cutCap. apply zsum_ext. intros u _.
  set (h := fun k : Z * nat * Z => if negb (memb q (fst (fst k))) then snd k else 0).
  transitivity (zsum h (map skel (edgesOf e1 u))).
  - rewrite zsum_map. reflexivity.
  - rewrite (Hs u), zsum_map. reflexivity.
Qed.

(** No flow on the graph of the room has a larger value than the one the
    solver found. *)
Lemma solved_maximal roomArray count g' q edges :
  solved roomArray count g' q ->
  same_skel (g_edges (buildGraph roomArray)) edges ->
  flow_ok edges SOURCE_VERTEX SINK_VERTEX ->
  excess edges SOURCE_VERTEX <= count.
Proof.
  intros [S1 S2 S3 S4 S5 S6 S7] Hskel Hok.
  rewrite <- (cut_identity edges q (room_paired _ _ Hskel) (fo_anti _ _ _ Hok) S4
                SOURCE_VERTEX SINK_VERTEX (fo_cons _ _ _ Hok) S5 S6).
  rewrite S3, <- (room_cut_cap roomArray (g_edges g') q S1 S2 S4 S5 S6 S7).
  rewrite <- (cutCap_skel edges (g_edges g') q)
    by (eapply same_skel_trans; [apply same_skel_sym; exact Hskel|exact S1]).
  unfold cutFlow, cutCap. apply zsum_le. intros u _. apply zsum_le. intros e He.
  destruct (crossing q e); [|lia].
  apply In_edgeAt in He. destruct He as [i He]. eapply (fo_cap _ _ _ Hok); eauto.
Qed.

(** ** The classifier *)

Lemma arr_get_set_field {A} (a : Grid A) x y v x' y' :
  isField a -> inRoom x y ->
  arr_get (arr_set a x y v) x' y' = if (x =? x') && (y =? y') then Some v else arr_get a x' y'.
Proof.
  intros Hf Hin. rewrite arr_get_set.
  destruct (arr_get_field a x y Hf Hin) as [w ->]. reflexivity.
Qed.

Lemma tagged_set a tag x y v :
  tagged a tag -> inRoom x y ->
  tagged (arr_set a x y v) (fun x' y' => if (x =? x') && (y =? y') then v else tag x' y').
Proof.
  intros [Hf Hget] Hin. split; [apply isField_set; exact Hf|].
  intros x' y' Hin'. rewrite arr_get_set_field by assumption.
  destruct ((x =? x') && (y =? y')); [reflexivity|apply Hget; exact Hin'].
Qed.

Lemma tagged_ext a tag tag' :
  tagged a tag -> (forall x y, inRoom x y -> tag x y = tag' x y) -> tagged a tag'.
Proof.
  intros [Hf Hget] Hext. split; [exact Hf|].
  intros x y Hin. rewrite <- Hext by exact Hin. apply Hget. exact Hin.
Qed.

Lemma tagged_is_tag a tag x y v :
  tagged a tag -> inRoom x y -> is_tag a x y v = (tag x y =? v).
Proof. intros [_ Hget] Hin. unfold is_tag. rewrite Hget by exact Hin. reflexivity. Qed.

Lemma boundsInRoom_spec bounds :
  boundsInRoom bounds = true
  <-> 0 <= x1 bounds /\ 0 <= y1 bounds /\ x2 bounds <= 49 /\ y2 bounds <= 49.
Proof.
  unfold boundsInRoom, ROOM_MAX_INDEX. rewrite !andb_true_iff, !Z.leb_le. tauto.
Qed.

Ltac bool_cases :=
  repeat match goal with
  | |- context [?a =? ?b] => destruct (Z.eqb_spec a b)
  | |- context [?a <? ?b] => destruct (Z.ltb_spec a b)
  | |- context [?a <=? ?b] => destruct (Z.leb_spec a b)
  end; simpl; try reflexivity; try lia.

Lemma classifyTile_tagged terrainData bounds x y a tag :
  tagged a tag -> inRoom x y -> inBounds bounds x y = true ->
  tagged (classifyTile terrainData bounds x y a)
         (fun x' y' => if (x =? x') && (y =? y')
                       then (if negb (terrainData x y =? TERRAIN_MASK_WALL)
                             then baseTag terrainData bounds x y else tag x y)
                       else tag x' y').
Proof.
  intros Ht Hin Hb. unfold classifyTile, baseTag. rewrite Hb. cbn [andb].
  destruct (negb (terrainData x y =? TERRAIN_MASK_WALL)).
  - pose proof (tagged_set _ _ x y NORMAL Ht Hin) as H1.
    destruct ((x =? x1 bounds) || (y =? y1 bounds) || (x =? x2 bounds) || (y =? y2 bounds)).
    + pose proof (tagged_set _ _ x y TO_EXIT H1 Hin) as H2.
      destruct ((x =? 0) || (y =? 0) || (x =? ROOM_MAX_INDEX) || (y =? ROOM_MAX_INDEX)).
      * pose proof (tagged_set _ _ x y EXIT H2 Hin) as H3.
        eapply tagged_ext; [exact H3|]. intros x' y' _. cbv beta.
        destruct ((x =? x') && (y =? y')); reflexivity.
      * eapply tagged_ext; [exact H2|]. intros x' y' _. cbv beta.
        destruct ((x =? x') && (y =? y')); reflexivity.
    + destruct ((x =? 0) || (y =? 0) || (x =? ROOM_MAX_INDEX) || (y =? ROOM_MAX_INDEX)).
      * pose proof (tagged_set _ _ x y EXIT H1 Hin) as H3.
        eapply tagged_ext; [exact H3|]. intros x' y' _. cbv beta.
        destruct ((x =? x') && (y =? y')); reflexivity.
      * exact H1.
  - eapply tagged_ext; [exact Ht|]. intros x' y' _. cbv beta.
    destruct ((x =? x') && (y =? y')) eqn:E; [|reflexivity].
    apply andb_true_iff in E. destruct E as [E1 E2]. apply Z.eqb_eq in E1, E2. congruence.
Qed.

Lemma validBounds_spec bounds :
  validBounds bounds = true
  <-> x1 bounds < x2 bounds /\ y1 bounds < y2 bounds /\ 0 <= x1 bounds /\ 0 <= y1 bounds
      /\ x2 bounds <= 49 /\ y2 bounds <= 49.
Proof.
  unfold validBounds, ROOM_MAX_INDEX.
  rewrite negb_true_iff, !orb_false_iff.
  rewrite !Z.geb_leb, !Z.gtb_ltb, !Z.leb_gt, !Z.ltb_ge. lia.
Qed.

Section Classifier.
Variables (terrainData : TerrainData) (bounds : Bounds).
Hypothesis Hvalid : validBounds bounds = true.

Local Abbreviation base := (baseTag terrainData bounds).

Lemma base_outside x y : inBounds bounds x y = false -> base x y = UNWALKABLE.
Proof. intros H. unfold baseTag. rewrite H. reflexivity. Qed.

Lemma base_wall x y : terrainData x y = TERRAIN_MASK_WALL -> base x y = UNWALKABLE.
Proof.
  intros H. unfold baseTag. rewrite H, Z.eqb_refl, andb_false_r. reflexivity.
Qed.

Lemma classify_column i a :
  x1 bounds <= i <= x2 bounds ->
  tagged a (fun x y => if x <? i then base x y else UNWALKABLE) ->
  tagged (fold_left (fun room2D y => classifyTile terrainData bounds i y room2D)
                    (range_incl (y1 bounds) (y2 bounds)) a)
         (fun x y => if x <? i + 1 then base x y else UNWALKABLE).
Proof.
  intros Hi Ha. apply validBounds_spec in Hvalid as Hv.
  rewrite range_incl_excl.
  pose proof (range_excl_inv
    (fun j st => tagged st (fun x y =>
       if (x <? i) || ((x =? i) && (y <? j)) then base x y else UNWALKABLE))
    (fun room2D y => classifyTile terrainData bounds i y room2D)
    (y1 bounds) (y2 bounds + 1) a) as Hloop.
  cbv beta in Hloop. eapply tagged_ext.
  - apply Hloop; [lia| |].
    + eapply tagged_ext; [exact Ha|]. intros x y Hin. cbv beta.
      destruct (Z.ltb_spec x i); [reflexivity|]. simpl.
      destruct (Z.eqb_spec x i); [|reflexivity]. simpl.
      destruct (Z.ltb_spec y (y1 bounds)); [|reflexivity].
      symmetry. apply base_outside. unfold inBounds.
      destruct (Z.leb_spec (y1 bounds) y); [lia|]. rewrite !andb_false_r. reflexivity.
    + intros j st Hj Hst.
      assert (Hin : inRoom i j) by (unfold inRoom, ROOM_SIZE; lia).
      assert (Hb : inBounds bounds i j = true).
      { unfold inBounds. rewrite !andb_true_iff, !Z.leb_le. lia. }
      eapply tagged_ext; [apply (classifyTile_tagged _ _ _ _ _ _ Hst Hin Hb)|].
      intros x y _. cbv beta.
      destruct (Z.eqb_spec i x) as [<-|Hx]; simpl.
      * rewrite Z.ltb_irrefl, Z.eqb_refl. simpl.
        destruct (Z.eqb_spec j y) as [<-|Hy].
        -- rewrite Z.ltb_irrefl.
           destruct (Z.ltb_spec j (j + 1)); [|lia].
           destruct (Z.eqb_spec (terrainData i j) TERRAIN_MASK_WALL) as [Hw|_];
             [simpl; symmetry; apply base_wall; exact Hw|reflexivity].
        -- destruct (Z.ltb_spec y j), (Z.ltb_spec y (j + 1)); try reflexivity; lia.
      * destruct (Z.eqb_spec x i) as [|_]; [congruence|]. reflexivity.
  - intros x y Hin. cbv beta.
    destruct (Z.ltb_spec x i), (Z.ltb_spec x (i + 1)), (Z.eqb_spec x i);
      simpl; try reflexivity; try lia.
    destruct (Z.ltb_spec y (y2 bounds + 1)); [reflexivity|].
    symmetry. apply base_outside. unfold inBounds.
    destruct (Z.leb_spec y (y2 bounds)); [lia|]. rewrite !andb_false_r. reflexivity.
Qed.

Lemma classify_first_loop :
  tagged (fold_left (fun room2D x =>
            fold_left (fun room2D y => classifyTile terrainData bounds x y room2D)
                      (range_incl (y1 bounds) (y2 bounds)) room2D)
            (range_incl (x1 bounds) (x2 bounds)) (initArr UNWALKABLE))
         base.
Proof.
  apply validBounds_spec in Hvalid as Hv.
  rewrite (range_incl_excl (x1 bounds)).
  pose proof (range_excl_inv
    (fun i st => tagged st (fun x y => if x <? i then base x y else UNWALKABLE))
    (fun room2D x =>
       fold_left (fun room2D y => classifyTile terrainData bounds x y room2D)
                 (range_incl (y1 bounds) (y2 bounds)) room2D)
    (x1 bounds) (x2 bounds + 1) (initArr UNWALKABLE)) as Hloop.
  cbv beta in Hloop. eapply tagged_ext.
  - apply Hloop; [lia| |].
    + split; [apply isField_initArr|]. intros x y Hin.
      rewrite arr_get_initArr by exact Hin. f_equal.
      destruct (Z.ltb_spec x (x1 bounds)); [|reflexivity].
      symmetry. apply base_outside. unfold inBounds.
      destruct (Z.leb_spec (x1 bounds) x); [lia|]. reflexivity.
    + intros i st Hi Hst. apply classify_column; [lia|exact Hst].
  - intros x y Hin. cbv beta.
    destruct (Z.ltb_spec x (x2 bounds + 1)); [reflexivity|].
    symmetry. apply base_outside. unfold inBounds.
    destruct (Z.leb_spec x (x2 bounds)); [lia|]. rewrite !andb_false_r. reflexivity.
Qed.
End Classifier.

Lemma tagged_cond_set a tag (c : bool) x y v :
  tagged a tag -> inRoom x y ->
  tagged (if c then arr_set a x y v else a)
         (fun x' y' => if c && ((x =? x') && (y =? y')) then v else tag x' y').
Proof.
  intros Ht Hin. destruct c; [apply tagged_set; assumption|exact Ht].
Qed.

Section ExitPasses.
Variables (terrainData : TerrainData) (bounds : Bounds).

Local Abbreviation base := (baseTag terrainData bounds).
Local Abbreviation nearLR := (nearLeftRight terrainData bounds).
Local Abbreviation nearTB := (nearTopBottom terrainData bounds).

Lemma markLeftRight_tagged a tag j :
  tagged a tag -> 1 <= j < ROOM_MAX_INDEX ->
  (forall y, tag 0 y = base 0 y) ->
  (forall y, tag ROOM_MAX_INDEX y = base ROOM_MAX_INDEX y) ->
  tagged (markLeftRight a j)
         (fun x y => if (y =? j) && nearLR x y then TO_EXIT else tag x y).
Proof.
  intros Ht Hj H0 H49. unfold markLeftRight, ROOM_MAX_INDEX in *.
  assert (Hin : forall x y, 0 <= x < 50 -> j - 1 <= y <= j + 1 -> inRoom x y)
    by (intros; unfold inRoom, ROOM_SIZE; lia).
  rewrite !(tagged_is_tag a tag) by (first [exact Ht | apply Hin; lia]).
  rewrite !H0.
  set (left := (base 0 (j - 1) =? EXIT) || (base 0 j =? EXIT) || (base 0 (j + 1) =? EXIT)).
  pose proof (tagged_cond_set a tag left 1 j TO_EXIT Ht ltac:(apply Hin; lia)) as H1.
  set (a1 := if left then arr_set a 1 j TO_EXIT else a) in *.
  set (tag1 := fun x' y' => if left && ((1 =? x') && (j =? y')) then TO_EXIT else tag x' y') in *.
  rewrite !(tagged_is_tag a1 tag1) by (first [exact H1 | apply Hin; lia]).
  assert (E49 : forall y, tag1 49 y = base 49 y).
  { intros y. unfold tag1. change (1 =? 49) with false. rewrite andb_false_r. apply H49. }
  rewrite !E49.
  set (right := (base 49 (j - 1) =? EXIT) || (base 49 j =? EXIT) || (base 49 (j + 1) =? EXIT)).
  pose proof (tagged_cond_set a1 tag1 right (49 - 1) j TO_EXIT H1 ltac:(apply Hin; lia)) as H2.
  eapply tagged_ext; [exact H2|].
  intros x y _. cbv beta. unfold tag1, nearLeftRight, exitAt, ROOM_MAX_INDEX.
  destruct (Z.eqb_spec y j) as [->|Hy].
  - destruct (Z.leb_spec 1 j); [|lia]. destruct (Z.ltb_spec j 49); [|lia].
    fold left. fold right. rewrite Z.eqb_refl. cbn [andb orb].
    rewrite (Z.eqb_sym (49 - 1) x), (Z.eqb_sym 1 x), !andb_true_r.
    destruct (x =? 49 - 1), (x =? 1), left, right; reflexivity.
  - destruct (Z.eqb_spec j y); [congruence|]. rewrite !andb_false_r. reflexivity.
Qed.

Lemma markTopBottom_tagged a tag i :
  tagged a tag -> 1 <= i < ROOM_MAX_INDEX ->
  (forall x, tag x 0 = base x 0) ->
  (forall x, tag x ROOM_MAX_INDEX = base x ROOM_MAX_INDEX) ->
  tagged (markTopBottom a i)
         (fun x y => if (x =? i) && nearTB x y then TO_EXIT else tag x y).
Proof.
  intros Ht Hi H0 H49. unfold markTopBottom, ROOM_MAX_INDEX in *.
  assert (Hin : forall x y, i - 1 <= x <= i + 1 -> 0 <= y < 50 -> inRoom x y)
    by (intros; unfold inRoom, ROOM_SIZE; lia).
  rewrite !(tagged_is_tag a tag) by (first [exact Ht | apply Hin; lia]).
  rewrite !H0.
  set (top := (base (i - 1) 0 =? EXIT) || (base i 0 =? EXIT) || (base (i + 1) 0 =? EXIT)).
  pose proof (tagged_cond_set a tag top i 1 TO_EXIT Ht ltac:(apply Hin; lia)) as H1.
  set (a1 := if top then arr_set a i 1 TO_EXIT else a) in *.
  set (tag1 := fun x' y' => if top && ((i =? x') && (1 =? y')) then TO_EXIT else tag x' y') in *.
  rewrite !(tagged_is_tag a1 tag1) by (first [exact H1 | apply Hin; lia]).
  assert (E49 : forall x, tag1 x 49 = base x 49).
  { intros x. unfold tag1. change (1 =? 49) with false. rewrite !andb_false_r. apply H49. }
  rewrite !E49.
  set (bottom := (base (i - 1) 49 =? EXIT) || (base i 49 =? EXIT) || (base (i + 1) 49 =? EXIT)).
  pose proof (tagged_cond_set a1 tag1 bottom i (49 - 1) TO_EXIT H1 ltac:(apply Hin; lia)) as H2.
  eapply tagged_ext; [exact H2|].
  intros x y _. cbv beta. unfold tag1, nearTopBottom, exitAt, ROOM_MAX_INDEX.
  destruct (Z.eqb_spec x i) as [->|Hx].
  - destruct (Z.leb_spec 1 i); [|lia]. destruct (Z.ltb_spec i 49); [|lia].
    fold top. fold bottom. rewrite Z.eqb_refl. cbn [andb orb].
    rewrite (Z.eqb_sym (49 - 1) y), (Z.eqb_sym 1 y).
    destruct (y =? 49 - 1), (y =? 1), top, bottom; reflexivity.
  - destruct (Z.eqb_spec i x); [congruence|]. cbn [andb orb]. rewrite !andb_false_r.
    reflexivity.
Qed.
End ExitPasses.

Lemma nearLeftRight_border terrainData bounds x y :
  x = 0 \/ x = ROOM_MAX_INDEX \/ y = 0 \/ y = ROOM_MAX_INDEX ->
  nearLeftRight terrainData bounds x y = false.
Proof.
  unfold nearLeftRight, ROOM_MAX_INDEX. intros H.
  destruct (Z.leb_spec 1 y), (Z.ltb_spec y 49), (Z.eqb_spec x 1), (Z.eqb_spec x (49 - 1));
    cbn [andb orb]; try reflexivity; lia.
Qed.

Lemma nearTopBottom_border terrainData bounds x y :
  x = 0 \/ x = ROOM_MAX_INDEX \/ y = 0 \/ y = ROOM_MAX_INDEX ->
  nearTopBottom terrainData bounds x y = false.
Proof.
  unfold nearTopBottom, ROOM_MAX_INDEX. intros H.
  destruct (Z.leb_spec 1 x), (Z.ltb_spec x 49), (Z.eqb_spec y 1), (Z.eqb_spec y (49 - 1));
    cbn [andb orb]; try reflexivity; lia.
Qed.

Lemma createRoom_tagged terrainData bounds :
  validBounds bounds = true ->
  tagged (createRoom2DArrayFromTerrain terrainData bounds) (classTag terrainData bounds).
Proof.
  intros Hvalid. unfold createRoom2DArrayFromTerrain.
  pose proof (classify_first_loop terrainData bounds Hvalid) as H1.
  set (a1 := fold_left _ (range_incl (x1 bounds) (x2 bounds)) _) in *.
  set (base := baseTag terrainData bounds) in *.
  set (tag2 := fun x y => if nearLeftRight terrainData bounds x y then TO_EXIT else base x y).
  assert (H2 : tagged (fold_left markLeftRight (range_excl 1 ROOM_MAX_INDEX) a1) tag2).
  { pose proof (range_excl_inv
      (fun j st => tagged st (fun x y =>
         if (y <? j) && nearLeftRight terrainData bounds x y then TO_EXIT else base x y))
      markLeftRight 1 ROOM_MAX_INDEX a1) as Hloop.
    cbv beta in Hloop. eapply tagged_ext.
    - apply Hloop; [unfold ROOM_MAX_INDEX; lia| |].
      + eapply tagged_ext; [exact H1|]. intros x y _. cbv beta.
        unfold nearLeftRight.
        destruct (Z.ltb_spec y 1), (Z.leb_spec 1 y); cbn [andb]; try reflexivity; lia.
      + intros j st Hj Hst. eapply tagged_ext.
        * apply (markLeftRight_tagged terrainData bounds _ _ j Hst Hj).
          -- intros y. rewrite nearLeftRight_border by auto. rewrite andb_false_r. reflexivity.
          -- intros y. rewrite nearLeftRight_border by auto. rewrite andb_false_r. reflexivity.
        * intros x y _. cbv beta.
          destruct (Z.eqb_spec y j), (Z.ltb_spec y j), (Z.ltb_spec y (j + 1));
            cbn [andb]; try reflexivity; try lia;
            destruct (nearLeftRight terrainData bounds x y); reflexivity.
    - intros x y _. cbv beta. unfold tag2, nearLeftRight.
      destruct (Z.ltb_spec y ROOM_MAX_INDEX); [reflexivity|].
      rewrite andb_false_r. reflexivity. }
  set (a2 := fold_left markLeftRight _ a1) in *.
  pose proof (range_excl_inv
    (fun i st => tagged st (fun x y =>
       if (x <? i) && nearTopBottom terrainData bounds x y then TO_EXIT else tag2 x y))
    markTopBottom 1 ROOM_MAX_INDEX a2) as Hloop.
  cbv beta in Hloop. eapply tagged_ext.
  - apply Hloop; [unfold ROOM_MAX_INDEX; lia| |].
    + eapply tagged_ext; [exact H2|]. intros x y _. cbv beta.
      unfold nearTopBottom.
      destruct (Z.ltb_spec x 1), (Z.leb_spec 1 x); cbn [andb]; try reflexivity; lia.
    + intros i st Hi Hst. eapply tagged_ext.
      * apply (markTopBottom_tagged terrainData bounds _ _ i Hst Hi).
        -- intros x. rewrite nearTopBottom_border by auto. rewrite andb_false_r.
           unfold tag2. rewrite nearLeftRight_border by auto. reflexivity.
        -- intros x. rewrite nearTopBottom_border by auto. rewrite andb_false_r.
           unfold tag2. rewrite nearLeftRight_border by auto. reflexivity.
      * intros x y _. cbv beta.
        destruct (Z.eqb_spec x i), (Z.ltb_spec x i), (Z.ltb_spec x (i + 1));
          cbn [andb]; try reflexivity; try lia;
          destruct (nearTopBottom terrainData bounds x y); reflexivity.
  - intros x y _. cbv beta. unfold classTag, tag2.
    assert (E : (x <? ROOM_MAX_INDEX) && nearTopBottom terrainData bounds x y
                = nearTopBottom terrainData bounds x y).
    { unfold nearTopBottom. destruct (x <? ROOM_MAX_INDEX); [reflexivity|].
      rewrite andb_false_r. reflexivity. }
    rewrite E.
    destruct (nearLeftRight terrainData bounds x y), (nearTopBottom terrainData bounds x y);
      reflexivity.
Qed.

Lemma is_tag_inRoom a x y v : isField a -> is_tag a x y v = true -> inRoom x y.
Proof.
  intros Hf Ht. apply is_tag_spec in Ht.
  destruct (in_dec (fun a b : Z * Z => decide (a = b)) (x, y) roomCells) as [Hin|Hout].
  - apply In_roomCells in Hin. exact Hin.
  - rewrite arr_get_outside in Ht; [discriminate|exact Hf|].
    intros Hin. apply Hout. apply In_roomCells. exact Hin.
Qed.

(** Marking the protected coordinates changes NORMAL tags to PROTECTED and
    nothing else. *)
Lemma protected_tags terrainData coords bounds :
  validBounds bounds = true ->
  isField (protectedRoomArray terrainData coords bounds)
  /\ forall x y, inRoom x y ->
       arr_get (protectedRoomArray terrainData coords bounds) x y
         = Some (classTag terrainData bounds x y)
       \/ (classTag terrainData bounds x y = NORMAL
           /\ arr_get (protectedRoomArray terrainData coords bounds) x y = Some PROTECTED).
Proof.
  intros Hvalid. unfold protectedRoomArray.
  destruct (createRoom_tagged terrainData bounds Hvalid) as [Hf Hget].
  set (tag := classTag terrainData bounds) in *.
  assert (Hgen : forall a, isField a ->
            (forall x y, inRoom x y -> arr_get a x y = Some (tag x y)
               \/ (tag x y = NORMAL /\ arr_get a x y = Some PROTECTED)) ->
            isField (fold_left markProtected coords a)
            /\ forall x y, inRoom x y ->
                 arr_get (fold_left markProtected coords a) x y = Some (tag x y)
                 \/ (tag x y = NORMAL
                     /\ arr_get (fold_left markProtected coords a) x y = Some PROTECTED)).
  { induction coords as [|c coords IH]; intros a Ha Hinv; [split; assumption|].
    simpl. apply IH.
    - unfold markProtected. destruct (is_tag a (fst c) (snd c) NORMAL); [|exact Ha].
      apply isField_set. exact Ha.
    - intros x y Hin. unfold markProtected.
      destruct (is_tag a (fst c) (snd c) NORMAL) eqn:Ht; [|apply Hinv; exact Hin].
      pose proof (is_tag_inRoom _ _ _ _ Ha Ht) as Hc. apply is_tag_spec in Ht.
      rewrite arr_get_set_field by assumption.
      destruct (Z.eqb_spec (fst c) x) as [Hx|]; [|apply Hinv; exact Hin].
      destruct (Z.eqb_spec (snd c) y) as [Hy|]; [|apply Hinv; exact Hin].
      cbn [andb]. right. split; [|reflexivity]. subst x y.
      destruct (Hinv _ _ Hc) as [H|[_ H]]; [congruence|].
      rewrite Ht in H. discriminate H. }
  apply Hgen; [exact Hf|]. intros x y Hin. left. apply Hget. exact Hin.
Qed.

Lemma classTag_NORMAL terrainData bounds x y :
  classTag terrainData bounds x y = NORMAL ->
  baseTag terrainData bounds x y = NORMAL
  /\ nearLeftRight terrainData bounds x y = false
  /\ nearTopBottom terrainData bounds x y = false.
Proof.
  unfold classTag.
  destruct (nearLeftRight terrainData bounds x y), (nearTopBottom terrainData bounds x y);
    cbn [orb]; try discriminate. auto.
Qed.

Lemma baseTag_NORMAL terrainData bounds x y :
  validBounds bounds = true ->
  baseTag terrainData bounds x y = NORMAL ->
  interior x y
  /\ x1 bounds < x < x2 bounds /\ y1 bounds < y < y2 bounds
  /\ terrainData x y <> TERRAIN_MASK_WALL.
Proof.
  intros Hv. apply validBounds_spec in Hv.
  unfold baseTag, inBounds, interior, ROOM_MAX_INDEX, EXIT, TO_EXIT, NORMAL, UNWALKABLE.
  destruct (Z.eqb_spec (terrainData x y) TERRAIN_MASK_WALL);
    [rewrite andb_false_r; discriminate|]. rewrite andb_true_r.
  destruct (Z.leb_spec (x1 bounds) x), (Z.leb_spec x (x2 bounds)),
    (Z.leb_spec (y1 bounds) y), (Z.leb_spec y (y2 bounds)); cbn [andb]; try discriminate.
  destruct (Z.eqb_spec x 0), (Z.eqb_spec y 0), (Z.eqb_spec x 49), (Z.eqb_spec y 49);
    cbn [orb]; try discriminate.
  destruct (Z.eqb_spec x (x1 bounds)), (Z.eqb_spec y (y1 bounds)),
    (Z.eqb_spec x (x2 bounds)), (Z.eqb_spec y (y2 bounds)); cbn [orb]; try discriminate.
  intros _. lia.
Qed.

Lemma baseTag_walkable terrainData bounds x y :
  inBounds bounds x y = true -> terrainData x y <> TERRAIN_MASK_WALL ->
  (x = 0 \/ y = 0 \/ x = ROOM_MAX_INDEX \/ y = ROOM_MAX_INDEX) /\ baseTag terrainData bounds x y = EXIT
  \/ ~ (x = 0 \/ y = 0 \/ x = ROOM_MAX_INDEX \/ y = ROOM_MAX_INDEX)
     /\ (baseTag terrainData bounds x y = NORMAL \/ baseTag terrainData bounds x y = TO_EXIT).
Proof.
  intros Hb Hw. unfold baseTag. rewrite Hb.
  destruct (Z.eqb_spec (terrainData x y) TERRAIN_MASK_WALL); [contradiction|]. cbn [andb negb].
  destruct (Z.eqb_spec x 0), (Z.eqb_spec y 0), (Z.eqb_spec x ROOM_MAX_INDEX),
    (Z.eqb_spec y ROOM_MAX_INDEX); cbn [orb]; try (left; split; [tauto|reflexivity]).
  right. split; [tauto|].
  destruct ((x =? x1 bounds) || (y =? y1 bounds) || (x =? x2 bounds) || (y =? y2 bounds)); auto.
Qed.

(** An inner tile next to an EXIT tile is tagged by the second or third loop. *)
Lemma exit_neighbour_marked terrainData bounds x y bx by_ :
  interior x y -> x - 1 <= bx <= x + 1 -> y - 1 <= by_ <= y + 1 ->
  bx = 0 \/ by_ = 0 \/ bx = ROOM_MAX_INDEX \/ by_ = ROOM_MAX_INDEX ->
  exitAt terrainData bounds bx by_ = true ->
  nearLeftRight terrainData bounds x y || nearTopBottom terrainData bounds x y = true.
Proof.
  unfold interior, ROOM_MAX_INDEX. intros [Hx Hy] Hbx Hby Hside Hexit.
  assert (Hys : by_ = y - 1 \/ by_ = y \/ by_ = y + 1) by lia.
  assert (Hxs : bx = x - 1 \/ bx = x \/ bx = x + 1) by lia.
  apply orb_true_iff. unfold nearLeftRight, nearTopBottom, ROOM_MAX_INDEX.
  destruct (Z.leb_spec 1 y); [|lia]. destruct (Z.ltb_spec y 49); [|lia].
  destruct (Z.leb_spec 1 x); [|lia]. destruct (Z.ltb_spec x 49); [|lia].
  cbn [andb].
  destruct Hside as [Hb|[Hb|[Hb|Hb]]]; subst.
  - left. assert (x = 1) by lia. subst x. rewrite Z.eqb_refl. cbn [andb].
    destruct Hys as [ Hq | [ Hq | Hq ] ]; rewrite Hq in Hexit; rewrite Hexit, ?orb_true_r; reflexivity.
  - right. assert (y = 1) by lia. subst y. rewrite Z.eqb_refl. cbn [andb].
    destruct Hxs as [ Hq | [ Hq | Hq ] ]; rewrite Hq in Hexit; rewrite Hexit, ?orb_true_r; reflexivity.
  - left. assert (x = 48) by lia. subst x.
    change (48 =? 49 - 1) with true. cbn [andb].
    change (48 + 1) with 49 in *.
    destruct Hys as [ Hq | [ Hq | Hq ] ]; rewrite Hq in Hexit; rewrite Hexit, ?orb_true_r; reflexivity.
  - right. assert (y = 48) by lia. subst y.
    change (48 =? 49 - 1) with true. cbn [andb].
    change (48 + 1) with 49 in *.
    destruct Hxs as [ Hq | [ Hq | Hq ] ]; rewrite Hq in Hexit; rewrite Hexit, ?orb_true_r; reflexivity.
Qed.

Lemma inBounds_inRoom bounds x y :
  validBounds bounds = true -> inBounds bounds x y = true -> inRoom x y.
Proof.
  intros Hv Hb. apply validBounds_spec in Hv. unfold inBounds in Hb.
  rewrite !andb_true_iff, !Z.leb_le in Hb. unfold inRoom, ROOM_SIZE. lia.
Qed.

(** A tile that is not a wall, next to a tile tagged NORMAL by the
    classifier, is an inner tile of the room, tagged NORMAL or TO_EXIT. *)
Lemma normal_neighbour terrainData bounds x y d :
  validBounds bounds = true ->
  classTag terrainData bounds x y = NORMAL ->
  In d SURROUND_OFFSETS ->
  terrainData (x + fst d) (y + snd d) <> TERRAIN_MASK_WALL ->
  interior (x + fst d) (y + snd d)
  /\ (classTag terrainData bounds (x + fst d) (y + snd d) = NORMAL
      \/ classTag terrainData bounds (x + fst d) (y + snd d) = TO_EXIT).
Proof.
  intros Hv Htag Hd Hwall.
  apply classTag_NORMAL in Htag. destruct Htag as (Hbase & Hlr & Htb).
  apply (baseTag_NORMAL _ _ _ _ Hv) in Hbase.
  destruct Hbase as (Hint & Hx & Hy & _).
  apply offsets_bound in Hd.
  set (nx := x + fst d) in *. set (ny := y + snd d) in *.
  assert (Hb : inBounds bounds nx ny = true).
  { unfold inBounds. rewrite !andb_true_iff, !Z.leb_le. unfold nx, ny. lia. }
  pose proof (inBounds_inRoom _ _ _ Hv Hb) as Hin.
  destruct (baseTag_walkable terrainData bounds nx ny Hb Hwall) as [[Hside He]|[Hside Hn]].
  - exfalso.
    assert (Hm : nearLeftRight terrainData bounds x y || nearTopBottom terrainData bounds x y
                 = true).
    { apply (exit_neighbour_marked terrainData bounds x y nx ny Hint);
        [unfold nx; lia|unfold ny; lia|tauto|].
      unfold exitAt. rewrite He. reflexivity. }
    rewrite Hlr, Htb in Hm. discriminate Hm.
  - split.
    + unfold interior, inRoom, ROOM_SIZE, ROOM_MAX_INDEX in *. lia.
    + unfold classTag. destruct (_ || _); [right; reflexivity|].
      destruct Hn as [Hn|Hn]; rewrite Hn; auto.
Qed.

Lemma classTag_values terrainData bounds x y :
  In (classTag terrainData bounds x y) [UNWALKABLE; NORMAL; TO_EXIT; EXIT].
Proof.
  unfold classTag. destruct (_ || _); [simpl; auto|].
  unfold baseTag. repeat (destruct (_ : bool)); simpl; auto.
Qed.

Lemma classTag_exit terrainData bounds x y :
  inBounds bounds x y = true -> terrainData x y <> TERRAIN_MASK_WALL ->
  x = 0 \/ y = 0 \/ x = ROOM_MAX_INDEX \/ y = ROOM_MAX_INDEX ->
  classTag terrainData bounds x y = EXIT.
Proof.
  intros Hb Hw Hside. unfold classTag.
  rewrite nearLeftRight_border, nearTopBottom_border by tauto. cbn [orb].
  destruct (baseTag_walkable terrainData bounds x y Hb Hw) as [[_ H]|[H _]]; [exact H|].
  contradiction.
Qed.

Lemma inBounds_default x y : inRoom x y -> inBounds defaultBounds x y = true.
Proof.
  unfold inRoom, ROOM_SIZE, inBounds. simpl. intros H.
  rewrite !andb_true_iff, !Z.leb_le. lia.
Qed.

(** With the default bounds, the tiles tagged TO_EXIT are those that the
    second and third loops write: they lie in the band next to the border. *)
Lemma classTag_default_band terrainData x y :
  classTag terrainData defaultBounds x y = TO_EXIT ->
  interior x y /\ (x = 1 \/ x = ROOM_MAX_INDEX - 1 \/ y = 1 \/ y = ROOM_MAX_INDEX - 1).
Proof.
  unfold classTag.
  destruct (nearLeftRight terrainData defaultBounds x y) eqn:Hlr.
  - intros _. unfold nearLeftRight, ROOM_MAX_INDEX in Hlr.
    rewrite !andb_true_iff, orb_true_iff, !andb_true_iff, Z.leb_le, Z.ltb_lt, !Z.eqb_eq in Hlr.
    unfold interior, ROOM_MAX_INDEX. lia.
  - destruct (nearTopBottom terrainData defaultBounds x y) eqn:Htb.
    + intros _. unfold nearTopBottom, ROOM_MAX_INDEX in Htb.
      rewrite !andb_true_iff, orb_true_iff, !andb_true_iff, Z.leb_le, Z.ltb_lt, !Z.eqb_eq in Htb.
      unfold interior, ROOM_MAX_INDEX. lia.
    + cbn [orb]. unfold baseTag, defaultBounds, ROOM_MAX_INDEX, x1, y1, x2, y2.
      destruct (_ && _); [|discriminate].
      destruct ((x =? 0) || (y =? 0) || (x =? 49) || (y =? 49)); discriminate.
Qed.

Lemma validBounds_default : validBounds defaultBounds = true.
Proof. reflexivity. Qed.

(** ** Loops over a stack *)

Section StackLoopRules.
Context {St A : Type} (body : St -> A -> St * list A).
Variable Inv : St -> list A -> Prop.
Hypothesis Inv_step : forall st u rest st' pushed,
  Inv st (u :: rest) -> body st u = (st', pushed) -> Inv st' (rev pushed ++ rest).

(** The invariant holds when the loop ends, with the stack empty. *)
Lemma stack_loop_inv fuel : forall st stack st',
  Inv st stack -> stack_loop body fuel st stack = Some st' -> Inv st' [].
Proof.
  induction fuel as [|fuel IH]; intros st stack st' HI H; [discriminate|].
  simpl in H. destruct stack as [|u rest].
  - injection H as <-. exact HI.
  - destruct (body st u) as [st1 pushed] eqn:Hb.
    eapply IH; [|exact H]. eapply Inv_step; eauto.
Qed.

Variable measure : St -> list A -> nat.
Hypothesis measure_step : forall st u rest st' pushed,
  Inv st (u :: rest) -> body st u = (st', pushed) ->
  (measure st' (rev pushed ++ rest) < measure st (u :: rest))%nat.

(** A measure that every iteration decreases bounds the iterations. *)
Lemma stack_loop_terminates fuel : forall st stack,
  Inv st stack -> (measure st stack < fuel)%nat ->
  is_Some (stack_loop body fuel st stack).
Proof.
  induction fuel as [|fuel IH]; intros st stack HI Hm; [lia|].
  simpl. destruct stack as [|u rest]; [eauto|].
  destruct (body st u) as [st1 pushed] eqn:Hb.
  apply IH; [eapply Inv_step; eauto|].
  pose proof (measure_step _ _ _ _ _ HI Hb). lia.
Qed.
End StackLoopRules.

(** ** The flood fill *)

Lemma filter_length_le {A} (f g : A -> bool) l :
  (forall x, In x l -> g x = true -> f x = true) ->
  (length (List.filter g l) <= length (List.filter f l))%nat.
Proof.
  induction l as [|b l IH]; intros H; simpl; [lia|].
  specialize (IH (fun x Hx => H x (or_intror Hx))).
  pose proof (H b (or_introl eq_refl)) as Hb.
  destruct (g b); [rewrite Hb by reflexivity; simpl; lia|].
  destruct (f b); simpl; lia.
Qed.

Lemma filter_length_lt {A} (f g : A -> bool) l a :
  (forall x, In x l -> g x = true -> f x = true) ->
  In a l -> f a = true -> g a = false ->
  (length (List.filter g l) < length (List.filter f l))%nat.
Proof.
  induction l as [|b l IH]; intros H Ha Hfa Hga; [destruct Ha|]. simpl.
  pose proof (filter_length_le f g l (fun x Hx => H x (or_intror Hx))) as Hle.
  destruct Ha as [->|Ha].
  - rewrite Hfa, Hga. simpl. lia.
  - specialize (IH (fun x Hx => H x (or_intror Hx)) Ha Hfa Hga).
    pose proof (H b (or_introl eq_refl)) as Hb.
    destruct (g b); [rewrite Hb by reflexivity; simpl; lia|].
    destruct (f b); simpl; lia.
Qed.

Lemma normalCount_set ra x y :
  isField ra -> arr_get ra x y = Some NORMAL ->
  (normalCount (arr_set ra x y TO_EXIT) < normalCount ra)%nat.
Proof.
  intros Hf Hget. unfold normalCount.
  assert (Hin : inRoom x y).
  { eapply is_tag_inRoom; [exact Hf|]. apply is_tag_spec. exact Hget. }
  apply (filter_length_lt _ _ _ (x, y)).
  - intros [x' y'] _. cbn [fst snd]. rewrite !is_tag_spec.
    rewrite arr_get_set_field by assumption.
    destruct ((x =? x') && (y =? y')); [discriminate|auto].
  - apply In_roomCells. exact Hin.
  - cbn [fst snd]. apply is_tag_spec. exact Hget.
  - cbn [fst snd]. apply is_tag_false with (tag' := TO_EXIT); [|discriminate].
    apply arr_get_set_same; assumption.
Qed.

Lemma tileVertex_position x y : inRoom x y -> tileVertex (positionToVertex x y).
Proof. unfold inRoom, tileVertex, positionToVertex, ROOM_SIZE. lia. Qed.

Lemma vertexToPosition_positionToVertex x y :
  0 <= x < ROOM_SIZE -> vertexToPosition (positionToVertex x y) = mkPos x y.
Proof.
  unfold vertexToPosition, positionToVertex, ROOM_SIZE. intros Hx. f_equal.
  - rewrite Z.add_comm, Z.mod_add by lia. apply Z.mod_small. lia.
  - rewrite Z.add_comm, Z.div_add by lia. rewrite Z.div_small by lia. lia.
Qed.

Lemma flood_post_refl x y ra pushed : isField ra -> flood_post x y [] ra pushed ra pushed.
Proof.
  intros Hf. constructor.
  - exact Hf.
  - intros x' y'. left. reflexivity.
  - intros d [].
  - exists []. split; [by rewrite app_nil_r|intros v []].
  - lia.
Qed.

Lemma flood_visit_post x y d ra pushed :
  isField ra ->
  flood_post x y [d] ra pushed (fst (flood_visit x y (ra, pushed) d))
             (snd (flood_visit x y (ra, pushed) d)).
Proof.
  intros Hf. unfold flood_visit.
  destruct (is_tag ra (x + fst d) (y + snd d) NORMAL) eqn:Ht; cbn [fst snd].
  - pose proof (is_tag_inRoom _ _ _ _ Hf Ht) as Hin. apply is_tag_spec in Ht.
    constructor.
    + apply isField_set. exact Hf.
    + intros x' y'. rewrite arr_get_set_field by assumption.
      destruct (Z.eqb_spec (x + fst d) x') as [Hx|]; [|left; reflexivity].
      destruct (Z.eqb_spec (y + snd d) y') as [Hy|]; [|left; reflexivity].
      cbn [andb]. right. subst x' y'. split; [exact Ht|]. split; [reflexivity|].
      apply in_app_iff. right. left. reflexivity.
    + intros d' [<-|[]]. rewrite arr_get_set_same by assumption. discriminate.
    + exists [positionToVertex (x + fst d) (y + snd d)]. split; [reflexivity|].
      intros v [<-|[]]. apply tileVertex_position. exact Hin.
    + pose proof (normalCount_set ra _ _ Hf Ht). rewrite length_app. simpl. lia.
  - constructor.
    + exact Hf.
    + intros x' y'. left. reflexivity.
    + intros d' [<-|[]]. intros Hn. apply is_tag_spec in Hn. congruence.
    + exists []. split; [by rewrite app_nil_r|intros v []].
    + lia.
Qed.

Lemma flood_post_trans x y ds1 ds2 ra pushed ra1 pushed1 ra2 pushed2 :
  flood_post x y ds1 ra pushed ra1 pushed1 ->
  flood_post x y ds2 ra1 pushed1 ra2 pushed2 ->
  flood_post x y (ds1 ++ ds2) ra pushed ra2 pushed2.
Proof.
  intros [F1 R1 D1 (m1 & E1 & V1) C1] [F2 R2 D2 (m2 & E2 & V2) C2]. constructor.
  - exact F2.
  - intros x' y'. destruct (R2 x' y') as [H2|(H2 & H2' & H2'')];
      destruct (R1 x' y') as [H1|(H1 & H1' & H1'')].
    + left. congruence.
    + right. split; [exact H1|]. split; [congruence|].
      rewrite E2. apply in_app_iff. left. exact H1''.
    + right. split; [congruence|]. auto.
    + rewrite H1' in H2. discriminate H2.
  - intros d Hd. apply in_app_iff in Hd. destruct Hd as [Hd|Hd]; [|apply D2; exact Hd].
    intros Hn. apply (D1 d Hd).
    destruct (R2 (x + fst d) (y + snd d)) as [H2|(H2 & H2' & _)]; [congruence|].
    rewrite H2' in Hn. discriminate Hn.
  - exists (m1 ++ m2). split; [rewrite E2, E1, app_assoc; reflexivity|].
    intros v Hv. apply in_app_iff in Hv. destruct Hv; auto.
  - lia.
Qed.

Lemma flood_fold_post x y ds : forall ra pushed,
  isField ra ->
  flood_post x y ds ra pushed
    (fst (fold_left (flood_visit x y) ds (ra, pushed)))
    (snd (fold_left (flood_visit x y) ds (ra, pushed))).
Proof.
  induction ds as [|d ds IH]; intros ra pushed Hf; [apply flood_post_refl; exact Hf|].
  cbn [fold_left].
  pose proof (flood_visit_post x y d ra pushed Hf) as H1.
  destruct (flood_visit x y (ra, pushed) d) as [ra1 pushed1]. cbn [fst snd] in H1.
  change (d :: ds) with ([d] ++ ds). eapply flood_post_trans; [exact H1|].
  apply IH. exact (fp_field _ _ _ _ _ _ _ H1).
Qed.

Lemma arr_get_inRoom {A} (a : Grid A) x y v : isField a -> arr_get a x y = Some v -> inRoom x y.
Proof.
  intros Hf Hget.
  destruct (in_dec (fun a b : Z * Z => decide (a = b)) (x, y) roomCells) as [Hin|Hout].
  - apply In_roomCells in Hin. exact Hin.
  - rewrite arr_get_outside in Hget; [discriminate|exact Hf|].
    intros Hin. apply Hout. apply In_roomCells. exact Hin.
Qed.

Lemma flood_inv_step ra0 ra v rest ra' pushed :
  flood_inv ra0 ra (v :: rest) -> flood_body ra v = (ra', pushed) ->
  flood_inv ra0 ra' (rev pushed ++ rest)
  /\ (normalCount ra' + length (rev pushed ++ rest) < normalCount ra + length (v :: rest))%nat.
Proof.
  intros [Hf Hframe Hclosed Hstack] Hbody. unfold flood_body in Hbody.
  set (x := px (vertexToPosition v)) in *. set (y := py (vertexToPosition v)) in *.
  pose proof (flood_fold_post x y SURROUND_OFFSETS ra [] Hf) as Hpost.
  rewrite Hbody in Hpost. cbn [fst snd] in Hpost.
  destruct Hpost as [F R D (more & E & V) C]. cbn [app] in E. subst more.
  split.
  - constructor.
    + exact F.
    + intros x' y'. destruct (R x' y') as [H|(H & H' & _)];
        destruct (Hframe x' y') as [H0|(H0 & H0')].
      * left. congruence.
      * right. split; [exact H0|congruence].
      * right. split; [congruence|exact H'].
      * rewrite H0' in H. discriminate H.
    + assert (Hkeep : forall x' y', arr_get ra' x' y' = Some NORMAL ->
                arr_get ra x' y' = Some NORMAL).
      { intros x' y' Hn. destruct (R x' y') as [H|(_ & H & _)]; [congruence|].
        rewrite H in Hn. discriminate Hn. }
      intros x' y' Ht. destruct (R x' y') as [H|(_ & _ & H)].
      * rewrite H in Ht. destruct (Hclosed x' y' Ht) as [[Hv|Hin]|Hcl].
        -- right. pose proof (arr_get_inRoom _ _ _ _ Hf Ht) as [Hx' _].
           assert (Hpos : vertexToPosition v = mkPos x' y').
           { rewrite Hv. apply vertexToPosition_positionToVertex. exact Hx'. }
           unfold x, y in D. rewrite Hpos in D. exact D.
        -- left. apply in_app_iff. right. exact Hin.
        -- right. intros d Hd Hn. apply (Hcl d Hd). apply Hkeep. exact Hn.
      * left. apply in_app_iff. left. apply in_rev. rewrite rev_involutive. exact H.
    + intros w Hw. apply in_app_iff in Hw. destruct Hw as [Hw|Hw].
      * apply V. apply in_rev. exact Hw.
      * apply Hstack. right. exact Hw.
  - rewrite length_app, length_rev. simpl in *. lia.
Qed.

Lemma flood_terminates ra0 ra stack fuel :
  flood_inv ra0 ra stack -> (normalCount ra + length stack < fuel)%nat ->
  exists ra', stack_loop flood_body fuel ra stack = Some ra' /\ flood_inv ra0 ra' [].
Proof.
  intros Hinv Hfuel.
  destruct (stack_loop_terminates flood_body (flood_inv ra0)
              (fun st u rest st' pushed HI Hb => proj1 (flood_inv_step ra0 st u rest st' pushed HI Hb))
              (fun st stack => (normalCount st + length stack)%nat)
              (fun st u rest st' pushed HI Hb => proj2 (flood_inv_step ra0 st u rest st' pushed HI Hb))
              fuel ra stack Hinv Hfuel) as [ra' Hrun].
  exists ra'. split; [exact Hrun|].
  eapply (stack_loop_inv flood_body (flood_inv ra0)); [|exact Hinv|exact Hrun].
  intros st u rest st' pushed HI Hb. apply (flood_inv_step ra0 st u rest st' pushed HI Hb).
Qed.

Lemma Position_eq_dec (p p' : Position) : {p = p'} + {p <> p'}.
Proof. decide equality; apply Z.eq_dec. Qed.

Lemma markCut_get l : forall a, isField a ->
  isField (fold_left markCutTile l a)
  /\ forall x y, inRoom x y ->
       (In (mkPos x y) l -> arr_get (fold_left markCutTile l a) x y = Some UNWALKABLE)
       /\ (~ In (mkPos x y) l -> arr_get (fold_left markCutTile l a) x y = arr_get a x y).
Proof.
  induction l as [|c l IH]; intros a Hf.
  - split; [exact Hf|]. intros x y _. split; [intros []|reflexivity].
  - cbn [fold_left].
    assert (Hf1 : isField (markCutTile a c)).
    { unfold markCutTile. destruct (arr_get a (px c) (py c)); [apply isField_set|]; exact Hf. }
    destruct (IH _ Hf1) as [Hf2 Hget]. split; [exact Hf2|].
    intros x y Hin. destruct (Hget x y Hin) as [Hyes Hno]. split.
    + intros Hc. destruct (in_dec Position_eq_dec (mkPos x y) l) as [Hl|Hl]; [auto|].
      destruct Hc as [->|Hc]; [|contradiction].
      rewrite (Hno Hl). unfold markCutTile. cbn [px py].
      destruct (arr_get_field a x y Hf Hin) as [w Hw]. rewrite Hw.
      apply arr_get_set_same; assumption.
    + intros Hc. rewrite Hno by (intros H; apply Hc; right; exact H).
      unfold markCutTile. destruct (arr_get a (px c) (py c)) eqn:Hc'; [|reflexivity].
      apply arr_get_set_other. intros Heq. apply Hc. left.
      destruct c as [cx cy]. cbn [px py] in Heq. congruence.
Qed.

(** ** The cut separates *)

Lemma connected_start ok p e : connected ok p e -> ok p.
Proof. intros H. destruct H; assumption. Qed.

Lemma connected_end ok p e : connected ok p e -> ok e.
Proof. induction 1; assumption. Qed.

Lemma connected_snoc ok p e n :
  connected ok p e -> neighbour8 e n -> ok n -> connected ok p n.
Proof.
  induction 1 as [p Hp|p m e Hp Hpm _ IH]; intros Hn Hok.
  - eapply connected_step; [exact Hp|exact Hn|]. apply connected_here. exact Hok.
  - eapply connected_step; [exact Hp|exact Hpm|]. apply IH; assumption.
Qed.

Lemma neighbour8_sym p n : neighbour8 p n -> neighbour8 n p.
Proof.
  intros (d & Hd & ->). exists (- fst d, - snd d). split.
  - unfold SURROUND_OFFSETS in *. simpl in Hd.
    destruct Hd as [<-|[<-|[<-|[<-|[<-|[<-|[<-|[<-|[]]]]]]]]]; simpl; auto 10.
  - destruct p as [x y]. cbn [fst snd]. f_equal; lia.
Qed.

Lemma connected_sym ok p e : connected ok p e -> connected ok e p.
Proof.
  induction 1 as [p Hp|p m e Hp Hpm _ IH]; [apply connected_here; exact Hp|].
  eapply connected_snoc; [exact IH|apply neighbour8_sym; exact Hpm|exact Hp].
Qed.

Lemma connected_weaken (ok ok' : Z * Z -> Prop) p e :
  (forall t, ok t -> ok' t) -> connected ok p e -> connected ok' p e.
Proof.
  intros Himp. induction 1 as [p Hp|p m e Hp Hpm _ IH].
  - apply connected_here. auto.
  - eapply connected_step; eauto.
Qed.

Section Separation.
Variables (terrainData : TerrainData) (coords : list (Z * Z)) (bounds : Bounds).
Variables (count : Z) (g' : Graph) (q : list Z).
Hypothesis Hvalid : validBounds bounds = true.
Hypothesis Hsolved : solved (protectedRoomArray terrainData coords bounds) count g' q.

Local Abbreviation roomArray := (protectedRoomArray terrainData coords bounds).
Local Abbreviation cut := (map vertexToPosition (cutOf (g_edges g') q)).
Local Abbreviation top x y := (positionToVertex x y + TOP_OFFSET).

Local Abbreviation inside := (insideCut terrainData bounds q).

Lemma tag_of_normal x y :
  classTag terrainData bounds x y = NORMAL ->
  interior x y
  /\ (arr_get roomArray x y = Some NORMAL \/ arr_get roomArray x y = Some PROTECTED).
Proof.
  intros Htag. destruct (classTag_NORMAL _ _ _ _ Htag) as (Hbase & _ & _).
  destruct (baseTag_NORMAL _ _ _ _ Hvalid Hbase) as (Hint & _).
  split; [exact Hint|].
  assert (Hin : inRoom x y) by (unfold interior, inRoom, ROOM_SIZE in *; lia).
  destruct (proj2 (protected_tags terrainData coords bounds Hvalid) x y Hin) as [H|[_ H]].
  - left. rewrite H, Htag. reflexivity.
  - right. exact H.
Qed.

Lemma inf_edge u v :
  In u q -> In (u, v, MAX_VALUE) (graphCalls roomArray) -> In v q.
Proof.
  destruct Hsolved as [S1 S2 S3 S4 S5 S6 S7].
  apply (inf_closed roomArray (g_edges g') q S1 S2 S4 S5 S6 S7).
Qed.

Lemma cut_tile_shape p :
  In p cut ->
  interior (px p) (py p) /\ classTag terrainData bounds (px p) (py p) = NORMAL.
Proof.
  destruct Hsolved as [S1 S2 S3 S4 S5 S6 S7].
  intros Hin. apply in_map_iff in Hin. destruct Hin as (u & <- & Hu).
  destruct (cut_vertex_tile roomArray (g_edges g') q S1 S2 S4 S5 S6 S7 u Hu)
    as (x & y & Hxy & -> & _ & _ & Htag).
  unfold TOP_OFFSET. rewrite Z.add_0_r.
  rewrite vertexToPosition_positionToVertex
    by (unfold interior, ROOM_SIZE in *; lia).
  cbn [px py]. split; [exact Hxy|].
  assert (Hin : inRoom x y) by (unfold interior, inRoom, ROOM_SIZE in *; lia).
  destruct (proj2 (protected_tags terrainData coords bounds Hvalid) x y Hin) as [H|[H _]];
    [|exact H].
  pose proof (classTag_values terrainData bounds x y) as Hval.
  destruct Htag as [Ht|Ht]; rewrite Ht in H; injection H as H; [auto|].
  rewrite <- H in Hval. simpl in Hval.
  destruct Hval as [Hv|[Hv|[Hv|[Hv|[]]]]]; discriminate Hv.
Qed.

Lemma not_cut_bot x y :
  classTag terrainData bounds x y = NORMAL ->
  In (top x y) q -> ~ In (mkPos x y) cut -> In (top x y + BOT_OFFSET) q.
Proof.
  intros Htag Htop Hcut. destruct (tag_of_normal x y Htag) as [Hint Harr].
  destruct (in_dec Z.eq_dec (top x y + BOT_OFFSET) q) as [Hin|Hout]; [exact Hin|].
  exfalso. apply Hcut.
  destruct Hsolved as [S1 S2 S3 S4 S5 S6 S7].
  pose proof (tile_in_cut roomArray (g_edges g') q S1 S2 S4 S5 S6 S7 x y Hint Harr Htop Hout)
    as Hc.
  apply in_map_iff. exists (top x y). split; [|exact Hc].
  unfold TOP_OFFSET. rewrite Z.add_0_r.
  apply vertexToPosition_positionToVertex. unfold interior, ROOM_SIZE in *. lia.
Qed.

Lemma inside_step p n :
  inside p -> neighbour8 p n -> walkable terrainData cut n -> inside n.
Proof.
  intros [Htag Hbot] (d & Hd & ->) (Hin & Hwall & Hcut). cbn [fst snd] in *.
  destruct p as [x y]. cbn [fst snd] in *.
  destruct (tag_of_normal x y Htag) as [Hint Harr].
  destruct (normal_neighbour terrainData bounds x y d Hvalid Htag Hd Hwall) as [Hnint Hntag].
  set (nx := x + fst d) in *. set (ny := y + snd d) in *.
  assert (Hedge : arr_get roomArray nx ny = Some NORMAL
                  \/ arr_get roomArray nx ny = Some TO_EXIT ->
                  In (top nx ny) q).
  { intros Hn. apply (inf_edge (top x y + BOT_OFFSET)); [exact Hbot|].
    apply In_graphCalls. exists x, y. split; [exact Hint|].
    apply In_tileCalls. cbv zeta. right. right. right. split; [|exact Harr].
    apply In_neighbourCalls. exists d. auto. }
  destruct Hntag as [Hn|Hn].
  - split; [exact Hn|]. apply not_cut_bot; [exact Hn| |exact Hcut].
    destruct (tag_of_normal nx ny Hn) as [_ [Ha|Ha]]; [apply Hedge; auto|].
    apply (inf_edge SOURCE_VERTEX); [exact (sv_source _ _ _ _ Hsolved)|].
    apply In_graphCalls. exists nx, ny. split; [exact Hnint|].
    apply In_tileCalls. cbv zeta. right. left. auto.
  - exfalso. apply (sv_sink _ _ _ _ Hsolved).
    destruct (proj2 (protected_tags terrainData coords bounds Hvalid) nx ny Hin)
      as [H|[H _]]; [|rewrite Hn in H; discriminate H].
    rewrite Hn in H.
    apply (inf_edge (top nx ny)); [apply Hedge; auto|].
    apply In_graphCalls. exists nx, ny. split; [exact Hnint|].
    apply In_tileCalls. cbv zeta. right. right. left. auto.
Qed.

Lemma inside_connected p e :
  connected (walkable terrainData cut) p e -> inside p -> inside e.
Proof.
  induction 1 as [p Hp|p n e Hp Hpn Hrest IH]; intros Hin; [exact Hin|].
  apply IH. eapply inside_step; eauto. eapply connected_start; eauto.
Qed.

Lemma protected_inside p :
  protectedTile terrainData coords bounds p -> walkable terrainData cut p -> inside p.
Proof.
  unfold protectedTile. intros Hp (Hin & _ & Hcut). destruct p as [x y]. cbn [fst snd] in *.
  assert (Htag : classTag terrainData bounds x y = NORMAL).
  { destruct (proj2 (protected_tags terrainData coords bounds Hvalid) x y Hin) as [H|[H _]];
      [|exact H].
    rewrite Hp in H. injection H as H.
    pose proof (classTag_values terrainData bounds x y) as Hval.
    rewrite <- H in Hval. simpl in Hval.
    destruct Hval as [Hv|[Hv|[Hv|[Hv|[]]]]]; discriminate Hv. }
  split; [exact Htag|]. cbn [fst snd].
  destruct (tag_of_normal x y Htag) as [Hint _].
  apply not_cut_bot; [exact Htag| |exact Hcut].
  apply (inf_edge SOURCE_VERTEX); [exact (sv_source _ _ _ _ Hsolved)|].
  apply In_graphCalls. exists x, y. split; [exact Hint|].
  apply In_tileCalls. cbv zeta. right. left. auto.
Qed.

(** Before the dead ends are removed: no path that avoids the cut leads
    from a protected tile to an exit. *)
Lemma cut_separates p e :
  protectedTile terrainData coords bounds p -> exitTile terrainData e ->
  ~ connected (walkable terrainData cut) p e.
Proof.
  intros Hp (_ & Hside & _) Hpath.
  pose proof (protected_inside p Hp (connected_start _ _ _ Hpath)) as Hin.
  destruct (inside_connected p e Hpath Hin) as [Htag _].
  destruct (tag_of_normal _ _ Htag) as [Hint _].
  unfold interior, ROOM_MAX_INDEX in *. lia.
Qed.
End Separation.

(** ** Dead-end pruning *)

Lemma In_exitBandSeeds ra x y :
  interior x y ->
  x = 1 \/ x = ROOM_MAX_INDEX - 1 \/ y = 1 \/ y = ROOM_MAX_INDEX - 1 ->
  arr_get ra x y = Some TO_EXIT ->
  In (positionToVertex x y) (exitBandSeeds ra).
Proof.
  intros [Hx Hy] Hband Htag. apply is_tag_spec in Htag.
  assert (Hrx : In x (range_excl 1 ROOM_MAX_INDEX))
    by (apply elem_of_range_excl; unfold ROOM_MAX_INDEX; lia).
  assert (Hry : In y (range_excl 1 ROOM_MAX_INDEX))
    by (apply elem_of_range_excl; unfold ROOM_MAX_INDEX; lia).
  unfold exitBandSeeds. apply in_app_iff.
  destruct Hband as [Hb|[Hb|[Hb|Hb]]]; subst.
  - left. apply in_flat_map. exists y. split; [exact Hry|].
    apply in_app_iff. left. rewrite Htag. left. reflexivity.
  - left. apply in_flat_map. exists y. split; [exact Hry|].
    apply in_app_iff. right. rewrite Htag. left. reflexivity.
  - right. apply in_flat_map. exists x. split; [exact Hrx|].
    apply in_app_iff. left. rewrite Htag. left. reflexivity.
  - right. apply in_flat_map. exists x. split; [exact Hrx|].
    apply in_app_iff. right. rewrite Htag. left. reflexivity.
Qed.

Lemma exitBandSeeds_vertex ra v : In v (exitBandSeeds ra) -> tileVertex v.
Proof.
  unfold exitBandSeeds. intros Hin. apply in_app_iff in Hin.
  destruct Hin as [Hin|Hin]; apply in_flat_map in Hin; destruct Hin as (i & Hi & Hin);
    apply elem_of_range_excl in Hi; apply in_app_iff in Hin;
    destruct Hin as [Hin|Hin];
    match type of Hin with
    | In _ (if ?c then _ else _) => destruct c; [destruct Hin as [<-|[]]|destruct Hin]
    end;
    unfold tileVertex, positionToVertex, ROOM_SIZE, ROOM_MAX_INDEX in *; lia.
Qed.

Lemma pruneArray_get terrainData cut :
  isField (pruneArray terrainData cut)
  /\ forall x y, inRoom x y ->
       (In (mkPos x y) cut -> arr_get (pruneArray terrainData cut) x y = Some UNWALKABLE)
       /\ (~ In (mkPos x y) cut ->
           arr_get (pruneArray terrainData cut) x y
           = Some (classTag terrainData defaultBounds x y)).
Proof.
  unfold pruneArray.
  destruct (createRoom_tagged terrainData defaultBounds validBounds_default) as [Hf Hget].
  destruct (markCut_get (rev cut) _ Hf) as [Hf' Hget']. split; [exact Hf'|].
  intros x y Hin. destruct (Hget' x y Hin) as [Hyes Hno]. split.
  - intros Hc. apply Hyes. apply in_rev. rewrite rev_involutive. exact Hc.
  - intros Hc. rewrite Hno; [apply Hget; exact Hin|].
    intros H. apply Hc. apply in_rev. exact H.
Qed.

Lemma prune_init terrainData cut :
  flood_inv (pruneArray terrainData cut) (pruneArray terrainData cut)
            (rev (exitBandSeeds (pruneArray terrainData cut))).
Proof.
  destruct (pruneArray_get terrainData cut) as [Hf Hget]. constructor.
  - exact Hf.
  - intros x y. left. reflexivity.
  - intros x y Htag. left. apply in_rev. rewrite rev_involutive.
    pose proof (arr_get_inRoom _ _ _ _ Hf Htag) as Hin.
    destruct (Hget x y Hin) as [Hyes Hno].
    destruct (in_dec Position_eq_dec (mkPos x y) cut) as [Hc|Hc].
    + rewrite (Hyes Hc) in Htag. discriminate Htag.
    + rewrite (Hno Hc) in Htag. injection Htag as Htag.
      destruct (classTag_default_band _ _ _ Htag) as [Hint Hband].
      apply In_exitBandSeeds; [exact Hint|exact Hband|].
      rewrite (Hno Hc), Htag. reflexivity.
  - intros v Hv. apply in_rev in Hv. eapply exitBandSeeds_vertex; eauto.
Qed.

(** The driver returns, with enough fuel: the solver ends, the cut is
    read off, and the flood fill of the pruning ends. *)
Lemma getCutTiles_total terrainData coords bounds :
  validBounds bounds = true ->
  exists N count g' q flooded,
    solved (protectedRoomArray terrainData coords bounds) count g' q
    /\ flood_inv (pruneArray terrainData (map vertexToPosition (cutOf (g_edges g') q)))
                 flooded []
    /\ forall fuel, (N <= fuel)%nat ->
         cutPositions fuel (buildGraph (protectedRoomArray terrainData coords bounds))
           = Some (map vertexToPosition (cutOf (g_edges g') q))
         /\ deleteTilesToDeadEnds fuel terrainData
              (map vertexToPosition (cutOf (g_edges g') q))
            = Some (List.filter (leadsToExit flooded)
                      (map vertexToPosition (cutOf (g_edges g') q)))
         /\ getCutTiles fuel terrainData coords bounds
            = Some (prunedCut bounds flooded (map vertexToPosition (cutOf (g_edges g') q))).
Proof.
  intros Hvalid.
  destruct (room_solve (protectedRoomArray terrainData coords bounds))
    as (N1 & count & g' & g'' & q & Hsolved & Hrun).
  set (cut := map vertexToPosition (cutOf (g_edges g') q)).
  set (ra := pruneArray terrainData cut).
  set (N2 := S (normalCount ra + length (rev (exitBandSeeds ra)))).
  assert (HN2 : (normalCount ra + length (rev (exitBandSeeds ra)) < N2)%nat)
    by (unfold N2; lia).
  destruct (flood_terminates ra ra _ N2 (prune_init terrainData cut) HN2)
    as (flooded & Hflood & Hinv).
  exists (Nat.max N1 N2), count, g', q, flooded.
  split; [exact Hsolved|]. split; [exact Hinv|].
  intros fuel Hfuel.
  assert (H1 : (N1 <= fuel)%nat) by lia. assert (H2 : (N2 <= fuel)%nat) by lia.
  destruct (Hrun fuel H1) as (_ & _ & Hpos).
  assert (Hdel : deleteTilesToDeadEnds fuel terrainData cut
                 = Some (List.filter (leadsToExit flooded) cut)).
  { unfold deleteTilesToDeadEnds. fold (pruneArray terrainData cut). fold ra.
    fold ra in Hflood.
    rewrite (stack_loop_mono _ N2 fuel _ _ _ H2 Hflood). reflexivity. }
  split; [exact Hpos|]. split; [exact Hdel|].
  unfold getCutTiles, createGraph. rewrite Hvalid, Hpos. fold cut. unfold prunedCut.
  destruct ((0 <? Z.of_nat (length cut)) && negb (isWholeRoom bounds)); [|reflexivity].
  exact Hdel.
Qed.

Lemma offsets_neg d : In d SURROUND_OFFSETS -> In (- fst d, - snd d) SURROUND_OFFSETS.
Proof.
  unfold SURROUND_OFFSETS. simpl.
  intros [<-|[<-|[<-|[<-|[<-|[<-|[<-|[<-|[]]]]]]]]]; simpl; auto 10.
Qed.

Lemma classTag_EXIT_border terrainData bounds x y :
  classTag terrainData bounds x y = EXIT ->
  x = 0 \/ y = 0 \/ x = ROOM_MAX_INDEX \/ y = ROOM_MAX_INDEX.
Proof.
  unfold classTag. destruct (_ || _); [discriminate|].
  unfold baseTag. destruct (_ && _); [|discriminate].
  destruct (Z.eqb_spec x 0), (Z.eqb_spec y 0), (Z.eqb_spec x ROOM_MAX_INDEX),
    (Z.eqb_spec y ROOM_MAX_INDEX); cbn [orb]; auto.
  destruct (_ || _); discriminate.
Qed.

Lemma classTag_default_walkable terrainData x y :
  inRoom x y -> terrainData x y <> TERRAIN_MASK_WALL ->
  classTag terrainData defaultBounds x y = EXIT
  \/ classTag terrainData defaultBounds x y = TO_EXIT
  \/ classTag terrainData defaultBounds x y = NORMAL.
Proof.
  intros Hin Hw. pose proof (inBounds_default x y Hin) as Hb.
  destruct (baseTag_walkable terrainData defaultBounds x y Hb Hw) as [[Hside _]|[_ Hbase]].
  - left. apply classTag_exit; assumption.
  - unfold classTag. destruct (_ || _); [auto|]. destruct Hbase as [-> | ->]; auto.
Qed.

Section Prune.
Variables (terrainData : TerrainData) (coords : list (Z * Z)) (bounds : Bounds).
Variables (count : Z) (g' : Graph) (q : list Z) (flooded : Grid Z).
Hypothesis Hvalid : validBounds bounds = true.
Hypothesis Hsolved : solved (protectedRoomArray terrainData coords bounds) count g' q.

Local Abbreviation cut := (map vertexToPosition (cutOf (g_edges g') q)).
Local Abbreviation kept := (List.filter (leadsToExit flooded) cut).

Hypothesis Hflood : flood_inv (pruneArray terrainData cut) flooded [].

Lemma flooded_of_exit x y :
  arr_get flooded x y = Some EXIT -> ~ In (mkPos x y) cut ->
  x = 0 \/ y = 0 \/ x = ROOM_MAX_INDEX \/ y = ROOM_MAX_INDEX.
Proof.
  intros Htag Hcut.
  pose proof (arr_get_inRoom _ _ _ _ (fl_field _ _ _ Hflood) Htag) as Hin.
  destruct (fl_frame _ _ _ Hflood x y) as [H|[_ H]]; [|rewrite H in Htag; discriminate Htag].
  rewrite Htag in H. symmetry in H.
  rewrite (proj2 (proj2 (pruneArray_get terrainData cut) x y Hin) Hcut) in H.
  injection H as H. eapply classTag_EXIT_border; eauto.
Qed.

Lemma flood_step p n :
  floodSide terrainData cut flooded p -> neighbour8 p n ->
  walkable terrainData kept n -> floodSide terrainData cut flooded n.
Proof.
  intros [(Hpin & Hpwall & Hpcut) Hptag] (d & Hd & ->) (Hin & Hwall & Hkept).
  destruct p as [x y]. cbn [fst snd] in *.
  set (nx := x + fst d) in *. set (ny := y + snd d) in *.
  pose proof (offsets_neg d Hd) as Hd'.
  assert (Hback : x = nx + fst (- fst d, - snd d) /\ y = ny + snd (- fst d, - snd d))
    by (cbn [fst snd]; unfold nx, ny; lia).
  destruct Hback as [Hbx Hby].
  assert (Hcut : ~ In (mkPos nx ny) cut).
  { intros Hc.
    destruct (cut_tile_shape terrainData coords bounds count g' q Hvalid Hsolved _ Hc)
      as [_ Htag]. cbn [px py] in Htag.
    destruct (normal_neighbour terrainData bounds nx ny _ Hvalid Htag Hd') as [Hint _].
    { rewrite <- Hbx, <- Hby. exact Hpwall. }
    rewrite <- Hbx, <- Hby in Hint.
    destruct Hptag as [He|Ht].
    - pose proof (flooded_of_exit x y He Hpcut).
      unfold interior, ROOM_MAX_INDEX in *. lia.
    - apply Hkept. apply filter_In. split; [exact Hc|].
      unfold leadsToExit. apply existsb_exists.
      exists (- fst d, - snd d). split; [exact Hd'|]. cbn [px py].
      rewrite <- Hbx, <- Hby. apply is_tag_spec. exact Ht. }
  split; [split; [exact Hin|split; [exact Hwall|exact Hcut]]|]. cbn [fst snd].
  pose proof (proj2 (proj2 (pruneArray_get terrainData cut) nx ny Hin) Hcut) as Hprune.
  destruct (fl_frame _ _ _ Hflood nx ny) as [Hsame|[_ Hto]]; [|right; exact Hto].
  rewrite Hprune in Hsame.
  destruct (classTag_default_walkable terrainData nx ny Hin Hwall) as [Hn|[Hn|Hn]];
    rewrite Hn in Hsame; [left; exact Hsame|right; exact Hsame|].
  exfalso. destruct Hptag as [He|Ht].
  - pose proof (flooded_of_exit x y He Hpcut) as Hside.
    destruct (normal_neighbour terrainData defaultBounds nx ny _ validBounds_default Hn Hd')
      as [Hint _].
    { rewrite <- Hbx, <- Hby. exact Hpwall. }
    rewrite <- Hbx, <- Hby in Hint. unfold interior, ROOM_MAX_INDEX in *. lia.
  - destruct (fl_closed _ _ _ Hflood x y Ht) as [[]|Hcl].
    apply (Hcl d Hd). exact Hsame.
Qed.

Lemma flood_connected e p :
  connected (walkable terrainData kept) e p ->
  floodSide terrainData cut flooded e ->
  connected (walkable terrainData cut) e p.
Proof.
  induction 1 as [e He|e n p He Hen Hrest IH]; intros Hside.
  - apply connected_here. exact (proj1 Hside).
  - eapply connected_step; [exact (proj1 Hside)|exact Hen|].
    apply IH. eapply flood_step; eauto. eapply connected_start; eauto.
Qed.

Lemma exit_floodSide e :
  exitTile terrainData e -> floodSide terrainData cut flooded e.
Proof.
  intros (Hin & Hside & Hwall). destruct e as [x y]. cbn [fst snd] in *.
  assert (Hcut : ~ In (mkPos x y) cut).
  { intros Hc.
    destruct (cut_tile_shape terrainData coords bounds count g' q Hvalid Hsolved _ Hc)
      as [Hint _]. cbn [px py] in Hint. unfold interior, ROOM_MAX_INDEX in *. lia. }
  split; [split; [exact Hin|split; [exact Hwall|exact Hcut]]|]. cbn [fst snd]. left.
  pose proof (proj2 (proj2 (pruneArray_get terrainData cut) x y Hin) Hcut) as Hprune.
  rewrite (classTag_exit terrainData defaultBounds x y (inBounds_default x y Hin) Hwall Hside)
    in Hprune.
  destruct (fl_frame _ _ _ Hflood x y) as [H|[H _]]; [congruence|].
  rewrite Hprune in H. discriminate H.
Qed.

(** After the dead ends are removed: no path that avoids the tiles that
    are left leads from a protected tile to an exit. *)
Lemma kept_separates p e :
  protectedTile terrainData coords bounds p -> exitTile terrainData e ->
  ~ connected (walkable terrainData kept) p e.
Proof.
  intros Hp He Hpath.
  apply (cut_separates terrainData coords bounds count g' q Hvalid Hsolved p e Hp He).
  apply connected_sym. apply flood_connected; [|apply exit_floodSide; exact He].
  apply connected_sym. exact Hpath.
Qed.

Lemma pruned_separates p e :
  protectedTile terrainData coords bounds p -> exitTile terrainData e ->
  ~ connected (walkable terrainData (prunedCut bounds flooded cut)) p e.
Proof.
  unfold prunedCut. destruct (_ && _).
  - apply kept_separates.
  - apply (cut_separates terrainData coords bounds count g' q Hvalid Hsolved).
Qed.

Lemma pruned_interior p :
  In p (prunedCut bounds flooded cut) -> interior (px p) (py p).
Proof.
  intros Hin.
  assert (Hc : In p cut).
  { unfold prunedCut in Hin. destruct (_ && _); [|exact Hin].
    apply filter_In in Hin. tauto. }
  apply (cut_tile_shape terrainData coords bounds count g' q Hvalid Hsolved _ Hc).
Qed.
End Prune.

(** ** The exposure BFS of [calculate] *)

Lemma exploredAt_set explored x y p :
  isField explored -> inRoom x y ->
  exploredAt (arr_set explored x y true) p <-> p = (x, y) \/ exploredAt explored p.
Proof.
  intros Hf Hin. destruct p as [px' py']. unfold exploredAt, isExplored. cbn [fst snd].
  rewrite arr_get_set_field by assumption.
  destruct (Z.eqb_spec x px') as [Hx|Hx]; destruct (Z.eqb_spec y py') as [Hy|Hy]; cbn [andb].
  - subst. cbn [default]. tauto.
  - split; [auto|]. intros [H|H]; [congruence|exact H].
  - split; [auto|]. intros [H|H]; [congruence|exact H].
  - split; [auto|]. intros [H|H]; [congruence|exact H].
Qed.

Section Exposure.
Variable ra1 : Grid Z.

Local Abbreviation post := expose_post.

Lemma expose_post_refl p st pushed : post p st pushed st pushed.
Proof.
  constructor; auto.
  - intros t Ht Hn. contradiction.
  - intros t. split; [auto|]. intros [H|[H1 H2]]; [exact H|contradiction].
Qed.

Lemma expose_post_trans p st p0 st1 p1 st2 p2 :
  post p st p0 st1 p1 -> post p st1 p1 st2 p2 -> post p st p0 st2 p2.
Proof.
  intros [A1 A2 Akeep Anew Aframe Apush And] [B1 B2 Bkeep Bnew Bframe Bpush Bnd].
  assert (Hun : forall x y, isExplored (snd st1) x y = false ->
            isExplored (snd st) x y = false).
  { intros x y H. destruct (isExplored (snd st) x y) eqn:E; [|reflexivity].
    destruct (Akeep (x, y) E) as [H1 _]. unfold exploredAt in H1. cbn [fst snd] in H1.
    congruence. }
  constructor.
  - auto.
  - auto.
  - intros t Ht. destruct (Akeep t Ht) as [H1 H2]. destruct (Bkeep t H1) as [H3 H4].
    split; [exact H3|congruence].
  - intros t Ht Hn. destruct (exploredAt_dec (snd st1) t) as [H1|H1].
    + destruct (Anew t H1 Hn) as (H2 & H3 & H4). destruct (Bkeep t H1) as [_ H5].
      split; [exact H2|]. split; [exact H3|congruence].
    + destruct (Bnew t Ht H1) as (H2 & (H3 & tag & H4 & H5) & H6).
      split; [exact H2|]. split; [|exact H6].
      split; [exact H3|]. exists tag. split; [|exact H5].
      rewrite <- H4. symmetry. apply Aframe.
      destruct (isExplored (snd st1) (fst t) (snd t)) eqn:E; [|reflexivity].
      exfalso. apply H1. exact E.
  - intros x y H. rewrite (Bframe x y H). apply Aframe.
    destruct (isExplored (snd st1) x y) eqn:E; [|reflexivity].
    destruct (Bkeep (x, y) E) as [H1 _]. unfold exploredAt in H1. cbn [fst snd] in H1.
    congruence.
  - intros t. rewrite (Bpush t), (Apush t). split.
    + intros [[H|[H1 H2]]|[H1 H2]]; [auto| |].
      * right. split; [apply Bkeep; exact H1|exact H2].
      * right. split; [exact H1|]. intros H. apply H2. apply Akeep. exact H.
    + intros [H|[H1 H2]]; [auto|].
      destruct (exploredAt_dec (snd st1) t) as [H5|H5]; [left; right|right]; auto.
  - intros Hnd Hex. apply Bnd.
    + apply And; assumption.
    + intros t Ht. apply Apush in Ht. destruct Ht as [Ht|[Ht _]]; [|exact Ht].
      apply Akeep. auto.
Qed.

Lemma exposed_visit_post p st pushed d :
  In d SURROUND_OFFSETS -> isField (fst st) -> isField (snd st) ->
  post p st pushed (fst (exposed_visit p (st, pushed) d))
       (snd (exposed_visit p (st, pushed) d))
  /\ (passable (fst st) (fst p + fst d, snd p + snd d) ->
      exploredAt (snd (fst (exposed_visit p (st, pushed) d))) (fst p + fst d, snd p + snd d)).
Proof.
  intros Hd HfR HfE. destruct st as [ra ex]. unfold exposed_visit. cbn [fst snd] in *.
  set (x := fst p + fst d). set (y := snd p + snd d).
  destruct (inRoomb x y) eqn:Hin; cbn [andb].
  2:{ split; [apply expose_post_refl|]. intros [H _]. apply inRoomb_spec in H.
      cbn [fst snd] in H. congruence. }
  apply inRoomb_spec in Hin.
  destruct (isExplored ex x y) eqn:Hex; cbn [andb negb].
  { split; [apply expose_post_refl|]. intros _. exact Hex. }
  destruct (arr_get_field ra x y HfR Hin) as [tag Htag]. rewrite Htag.
  fold (passableTag tag).
  destruct (passableTag tag) eqn:Hpass.
  2:{ split; [apply expose_post_refl|].
      intros (_ & tag' & Ht' & Hp'). cbn [fst snd] in Ht'. congruence. }
  unfold markExposed. cbn [fst snd].
  pose proof (exploredAt_set ex x y) as Hset.
  split; [|intros _; apply Hset; auto].
  constructor; cbn [fst snd].
  - intros _. by apply isField_set.
  - intros _. by apply isField_set.
  - intros t Ht. split; [apply Hset; auto|].
    apply arr_get_set_other. intros Heq. injection Heq as Hx Hy.
    unfold exploredAt in Ht. rewrite <- Hx, <- Hy in Ht. congruence.
  - intros t Ht Hn. apply Hset in Ht; [|assumption|assumption].
    destruct Ht as [->|Ht]; [|contradiction]. cbn [fst snd].
    split; [exists d; split; [exact Hd|reflexivity]|].
    split; [split; [exact Hin|exists tag; auto]|].
    by apply arr_get_set_same.
  - intros x' y' H. apply arr_get_set_other. intros Heq. injection Heq as Hx Hy.
    assert (He : exploredAt (arr_set ex x y true) (x', y')).
    { apply Hset; [assumption|assumption|]. left. congruence. }
    unfold exploredAt in He. cbn [fst snd] in He. congruence.
  - intros t. rewrite in_app_iff. cbn [In]. split.
    + intros [H|[H|[]]]; [auto|]. right. subst t.
      split; [apply Hset; auto|]. unfold exploredAt. cbn [fst snd]. congruence.
    + intros [H|[H1 H2]]; [auto|]. right. left.
      apply Hset in H1; [|assumption|assumption].
      destruct H1 as [->|H1]; [reflexivity|contradiction].
  - intros Hnd Hall. apply NoDup_app. split; [exact Hnd|].
    split; [|apply NoDup_singleton].
    intros t Ht Ht'. apply list_elem_of_In in Ht. apply list_elem_of_In in Ht'.
    destruct Ht' as [<-|[]]. apply Hall in Ht.
    unfold exploredAt in Ht. cbn [fst snd] in Ht. congruence.
Qed.

Lemma exposed_fold_post p ds : forall st pushed,
  (forall d, In d ds -> In d SURROUND_OFFSETS) ->
  isField (fst st) -> isField (snd st) ->
  post p st pushed (fst (fold_left (exposed_visit p) ds (st, pushed)))
       (snd (fold_left (exposed_visit p) ds (st, pushed)))
  /\ (forall d, In d ds -> passable (fst st) (fst p + fst d, snd p + snd d) ->
       exploredAt (snd (fst (fold_left (exposed_visit p) ds (st, pushed))))
                  (fst p + fst d, snd p + snd d)).
Proof.
  induction ds as [|d ds IH]; intros st pushed Hds HfR HfE.
  - cbn [fold_left fst snd]. split; [apply expose_post_refl|]. intros d [].
  - cbn [fold_left].
    destruct (exposed_visit_post p st pushed d) as [Hp1 He1];
      [apply Hds; left; auto|auto|auto|].
    destruct (exposed_visit p (st, pushed) d) as [st1 pushed1] eqn:Hv.
    cbn [fst snd] in Hp1, He1.
    destruct (IH st1 pushed1) as [Hp2 He2].
    { intros d' Hd'. apply Hds. right. exact Hd'. }
    { apply (xp_fieldR _ _ _ _ _ Hp1 HfR). }
    { apply (xp_fieldE _ _ _ _ _ Hp1 HfE). }
    split; [eapply expose_post_trans; eauto|].
    intros d' [<-|Hd'] Hpass.
    + apply (xp_keep _ _ _ _ _ Hp2). auto.
    + destruct (exploredAt_dec (snd st1) (fst p + fst d', snd p + snd d')) as [H1|H1].
      * apply (xp_keep _ _ _ _ _ Hp2). exact H1.
      * apply He2; [exact Hd'|].
        destruct Hpass as (Hin & tag & Htag & Hp). split; [exact Hin|].
        exists tag. split; [|exact Hp]. rewrite <- Htag.
        apply (xp_frame _ _ _ _ _ Hp1).
        destruct (isExplored (snd st1) _ _) eqn:E; [|reflexivity].
        exfalso. apply H1. exact E.
Qed.

Local Abbreviation inv := (expose_inv ra1).

Lemma expose_inv_step st q i p st' pushed :
  inv st q i -> q !! i = Some p ->
  exposed_body st p = (st', pushed) ->
  inv st' (q ++ pushed) (S i).
Proof.
  intros [HfR HfE Hexp Hframe Hqueue Hnd Hclosed] Hi Hbody.
  unfold exposed_body in Hbody.
  destruct (exposed_fold_post p SURROUND_OFFSETS st []) as [Hpost Hall]; auto.
  rewrite Hbody in Hpost, Hall. cbn [fst snd] in Hpost, Hall.
  destruct Hpost as [P1 P2 Pkeep Pnew Pframe Ppush Pnd].
  assert (Hp : exploredAt (snd st) p).
  { apply Hqueue. apply list_elem_of_In. eapply list_elem_of_lookup_2; eauto. }
  assert (Hold_pass : forall t, ~ exploredAt (snd st) t -> passable (fst st) t ->
            passable ra1 t).
  { intros t Hn (Hin & tag & Htag & Hpass). split; [exact Hin|]. exists tag.
    split; [|exact Hpass]. rewrite <- Htag. symmetry. apply Hframe.
    destruct (isExplored (snd st) (fst t) (snd t)) eqn:E; [|reflexivity].
    exfalso. apply Hn. exact E. }
  constructor; auto.
  - intros t Ht. destruct (exploredAt_dec (snd st) t) as [Hold|Hnew].
    + destruct (Pkeep t Hold) as [_ Htag]. rewrite Htag. auto.
    + destruct (Pnew t Ht Hnew) as (Hnb & Hpass & Htag). split; [exact Htag|].
      destruct (Hexp p Hp) as [_ (e & He & Hpath)]. exists e. split; [exact He|].
      eapply connected_snoc; [exact Hpath|exact Hnb|]. apply Hold_pass; assumption.
  - intros x y Hun. rewrite (Pframe x y Hun). apply Hframe.
    destruct (isExplored (snd st) x y) eqn:E; [|reflexivity].
    destruct (Pkeep (x, y) E) as [H1 _]. unfold exploredAt in H1. cbn [fst snd] in H1.
    congruence.
  - intros t. rewrite in_app_iff, (Ppush t), (Hqueue t). split.
    + intros [H|[[]|[H _]]]; [apply Pkeep; exact H|exact H].
    + intros H. destruct (exploredAt_dec (snd st) t) as [Hold|Hnew]; [left|right; right]; auto.
  - apply NoDup_app. split; [exact Hnd|]. split.
    + intros t Ht Ht'. apply list_elem_of_In in Ht. apply list_elem_of_In in Ht'.
      apply Hqueue in Ht. apply Ppush in Ht'. destruct Ht' as [[]|[_ Ht']]. contradiction.
    + apply Pnd; [constructor|]. intros t [].
  - intros k t Hk Ht n Hnb Hpass.
    apply lookup_app_Some in Ht. destruct Ht as [Ht|[Hlen _]];
      [|apply lookup_lt_Some in Hi; lia].
    destruct (decide (k = i)) as [->|Hne].
    + rewrite Hi in Ht. injection Ht as <-.
      destruct Hnb as (d & Hd & ->).
      destruct (exploredAt_dec (snd st) (fst p + fst d, snd p + snd d)) as [Hold|Hnew].
      * apply Pkeep. exact Hold.
      * apply (Hall d Hd). destruct Hpass as (Hin & tag & Htag & Hp'). split; [exact Hin|].
        exists tag. split; [|exact Hp']. rewrite <- Htag. apply Hframe.
        destruct (isExplored (snd st) _ _) eqn:E; [|reflexivity].
        exfalso. apply Hnew. exact E.
    + apply Pkeep. apply (Hclosed k t); [lia|exact Ht|exact Hnb|exact Hpass].
Qed.

Lemma expose_inv_length st q i : inv st q i -> (length q <= 2500)%nat.
Proof.
  intros Hinv. apply NoDup_room_length.
  - apply (xi_nodup _ _ _ _ Hinv).
  - intros p Hp. eapply exploredAt_inRoom.
    + apply (xi_fieldE _ _ _ _ Hinv).
    + apply (xi_queue _ _ _ _ Hinv). exact Hp.
Qed.

Lemma expose_loop_terminates fuel st q :
  inv st q 0 -> (2501 <= fuel)%nat ->
  is_Some (queue_loop exposed_body fuel st q 0).
Proof.
  intros Hinv Hfuel.
  apply (queue_loop_terminates _ inv) with (bound := 2500%nat).
  - intros. eapply expose_inv_step; eauto.
  - apply expose_inv_length.
  - exact Hinv.
  - lia.
  - lia.
Qed.

(** At the end of the loop every tile that is reached from an explored
    tile is explored. *)
Lemma expose_inv_complete st q :
  inv st q (length q) ->
  forall a p, connected (passable ra1) a p -> exploredAt (snd st) a ->
    exploredAt (snd st) p.
Proof.
  intros Hinv a p Hpath. induction Hpath as [a Ha|a n p Ha Han Hrest IH]; intros Hex.
  - exact Hex.
  - apply IH. apply (xi_queue _ _ _ _ Hinv) in Hex.
    apply list_elem_of_In, list_elem_of_lookup in Hex. destruct Hex as [k Hk].
    apply (xi_closed _ _ _ _ Hinv k a (lookup_lt_Some _ _ _ Hk) Hk n Han).
    eapply connected_start; eauto.
Qed.
End Exposure.

(** ** [calculate]: ramparts and exposure *)

Lemma NoDup_roomCells : NoDup roomCells.
Proof.
  unfold roomCells. apply NoDup_flat_map.
  - apply NoDup_range_excl.
  - intros x _. apply NoDup_fmap_2; [|apply NoDup_range_excl].
    intros y y' H. congruence.
  - intros x x' p _ _ Hp Hp'. apply in_map_iff in Hp, Hp'.
    destruct Hp as (y & <- & _). destruct Hp' as (y' & Heq & _). congruence.
Qed.

Lemma In_exitSeeds ra p :
  isField ra -> In p (exitSeeds ra) <-> arr_get ra (fst p) (snd p) = Some EXIT.
Proof.
  intros Hf. unfold exitSeeds. fold roomCells. rewrite filter_In, is_tag_spec, In_roomCells.
  split; [tauto|]. intros H. split; [|exact H]. eapply arr_get_inRoom; eauto.
Qed.

Lemma NoDup_exitSeeds ra : NoDup (exitSeeds ra).
Proof.
  unfold exitSeeds. fold roomCells. apply NoDup_ListNoDup, List.NoDup_filter, NoDup_ListNoDup.
  apply NoDup_roomCells.
Qed.

Lemma markRampart_get l : forall a, isField a ->
  isField (fold_left markRampart l a)
  /\ forall x y, inRoom x y ->
       (In (mkPos x y) l -> arr_get (fold_left markRampart l a) x y = Some RAMPART_MIN)
       /\ (~ In (mkPos x y) l -> arr_get (fold_left markRampart l a) x y = arr_get a x y).
Proof.
  induction l as [|c l IH]; intros a Hf.
  - split; [exact Hf|]. intros x y _. split; [intros []|reflexivity].
  - cbn [fold_left].
    assert (Hf1 : isField (markRampart a c)).
    { unfold markRampart. destruct (arr_get a (px c) (py c)); [apply isField_set|]; exact Hf. }
    destruct (IH _ Hf1) as [Hf2 Hget]. split; [exact Hf2|].
    intros x y Hin. destruct (Hget x y Hin) as [Hyes Hno]. split.
    + intros Hc. destruct (in_dec Position_eq_dec (mkPos x y) l) as [Hl|Hl]; [auto|].
      destruct Hc as [Hc|Hc]; [|contradiction]. subst c.
      rewrite (Hno Hl). unfold markRampart. cbn [px py].
      destruct (arr_get_field a x y Hf Hin) as [w Hw]. rewrite Hw.
      apply arr_get_set_same; assumption.
    + intros Hc. rewrite Hno by (intros H; apply Hc; right; exact H).
      unfold markRampart. destruct (arr_get a (px c) (py c)) eqn:Hc'; [|reflexivity].
      apply arr_get_set_other. intros Heq. apply Hc. left.
      destruct c as [cx cy]. cbn [px py] in Heq. congruence.
Qed.

Lemma rampartArray_get terrainData ramparts :
  isField (rampartArray terrainData ramparts)
  /\ forall x y, inRoom x y ->
       (In (mkPos x y) ramparts ->
          arr_get (rampartArray terrainData ramparts) x y = Some RAMPART_MIN)
       /\ (~ In (mkPos x y) ramparts ->
           arr_get (rampartArray terrainData ramparts) x y
           = Some (classTag terrainData defaultBounds x y)).
Proof.
  unfold rampartArray.
  destruct (createRoom_tagged terrainData defaultBounds validBounds_default) as [Hf Hget].
  destruct (markRampart_get ramparts _ Hf) as [Hf' Hget']. split; [exact Hf'|].
  intros x y Hin. destruct (Hget' x y Hin) as [Hyes Hno]. split; [exact Hyes|].
  intros Hc. rewrite (Hno Hc). apply Hget. exact Hin.
Qed.

Lemma rampartArray_not_exposed terrainData ramparts x y :
  arr_get (rampartArray terrainData ramparts) x y <> Some EXPOSED.
Proof.
  destruct (rampartArray_get terrainData ramparts) as [Hf Hget]. intros Htag.
  pose proof (arr_get_inRoom _ _ _ _ Hf Htag) as Hin.
  destruct (Hget x y Hin) as [Hyes Hno].
  destruct (in_dec Position_eq_dec (mkPos x y) ramparts) as [Hc|Hc].
  - rewrite (Hyes Hc) in Htag. discriminate Htag.
  - rewrite (Hno Hc) in Htag. injection Htag as Htag.
    pose proof (classTag_values terrainData defaultBounds x y) as Hv.
    rewrite Htag in Hv. simpl in Hv. destruct Hv as [H|[H|[H|[H|[]]]]]; discriminate H.
Qed.

Lemma markExposed_fold l : forall a e,
  isField a -> isField e -> (forall t, In t l -> inRoom (fst t) (snd t)) ->
  isField (fst (fold_left markExposed l (a, e)))
  /\ isField (snd (fold_left markExposed l (a, e)))
  /\ (forall t, exploredAt (snd (fold_left markExposed l (a, e))) t
               <-> In t l \/ exploredAt e t)
  /\ (forall t, In t l ->
        arr_get (fst (fold_left markExposed l (a, e))) (fst t) (snd t) = Some EXPOSED)
  /\ (forall x y, ~ In (x, y) l ->
        arr_get (fst (fold_left markExposed l (a, e))) x y = arr_get a x y).
Proof.
  induction l as [|c l IH]; intros a e Ha He Hl.
  - cbn [fold_left fst snd]. split; [exact Ha|]. split; [exact He|].
    split; [intros t; cbn [In]; tauto|]. split; [intros t []|intros x y _; reflexivity].
  - destruct c as [cx cy]. cbn [fold_left].
    change (markExposed (a, e) (cx, cy))
      with (arr_set a cx cy EXPOSED, arr_set e cx cy true).
    assert (Hc : inRoom cx cy) by (apply (Hl (cx, cy)); left; reflexivity).
    destruct (IH (arr_set a cx cy EXPOSED) (arr_set e cx cy true))
      as (H1 & H2 & H3 & H4 & H5).
    { apply isField_set. exact Ha. }
    { apply isField_set. exact He. }
    { intros t Ht. apply Hl. right. exact Ht. }
    split; [exact H1|]. split; [exact H2|]. split; [|split].
    + intros t. rewrite H3, (exploredAt_set e _ _ t He Hc). cbn [In]. split.
      * intros [H|[H|H]]; auto.
      * intros [[H|H]|H]; auto.
    + intros t [Ht|Ht]; [|apply H4; exact Ht]. subst t. cbn [fst snd].
      destruct (in_dec (fun a b : Z * Z => decide (a = b)) (cx, cy) l) as [Hin|Hout];
        [apply (H4 (cx, cy)); exact Hin|].
      rewrite (H5 cx cy Hout). apply arr_get_set_same; assumption.
    + intros x y Hout. rewrite H5 by (intros H; apply Hout; right; exact H).
      apply arr_get_set_other. intros Heq. apply Hout. left. exact Heq.
Qed.

Lemma passableTag_EXIT : passableTag EXIT = true.
Proof. reflexivity. Qed.

Lemma initArr_unexplored p : ~ exploredAt (initArr false) p.
Proof.
  unfold exploredAt, isExplored.
  destruct (decide (inRoom (fst p) (snd p))) as [Hin|Hout].
  - rewrite arr_get_initArr by assumption. discriminate.
  - rewrite arr_get_outside; [discriminate|apply isField_initArr|assumption].
Qed.

Lemma expose_inv_init ra1 :
  isField ra1 ->
  expose_inv ra1 (fold_left markExposed (exitSeeds ra1) (ra1, initArr false))
             (exitSeeds ra1) 0.
Proof.
  intros Hf.
  destruct (markExposed_fold (exitSeeds ra1) ra1 (initArr false) Hf (isField_initArr false))
    as (H1 & H2 & H3 & H4 & H5).
  { intros t Ht. apply (In_exitSeeds _ _ Hf) in Ht. exact (arr_get_inRoom _ _ _ _ Hf Ht). }
  assert (Hex : forall t, exploredAt (snd (fold_left markExposed (exitSeeds ra1)
                                             (ra1, initArr false))) t
                          <-> In t (exitSeeds ra1)).
  { intros t. rewrite H3. pose proof (initArr_unexplored t). tauto. }
  constructor.
  - exact H1.
  - exact H2.
  - intros p Hp. apply Hex in Hp. split; [apply H4; exact Hp|].
    apply (In_exitSeeds _ _ Hf) in Hp. exists p. split; [exact Hp|].
    apply connected_here. split; [exact (arr_get_inRoom _ _ _ _ Hf Hp)|].
    exists EXIT. split; [exact Hp|reflexivity].
  - intros x y Hun. apply H5. intros Hin. apply Hex in Hin.
    unfold exploredAt in Hin. cbn [fst snd] in Hin. congruence.
  - intros p. symmetry. apply Hex.
  - apply NoDup_exitSeeds.
  - intros k p Hk. lia.
Qed.

Lemma arr_get_map {A B} (f : A -> B) (a : Grid A) x y :
  arr_get (map (map f) a) x y = option_map f (arr_get a x y).
Proof.
  unfold arr_get. destruct ((x <? 0) || (y <? 0)); [reflexivity|].
  change (map (map f) a) with (fmap (M := list) (fmap (M := list) f) a).
  rewrite list_lookup_fmap. destruct (a !! Z.to_nat x) as [col|]; [|reflexivity].
  cbn [fmap option_fmap option_map]. rewrite list_lookup_fmap.
  destruct (col !! Z.to_nat y); reflexivity.
Qed.

(** The exposure BFS ends, and it retags exactly the tiles that are
    reached from an EXIT tile. *)
Lemma expose_run ra1 fuel :
  isField ra1 -> (forall x y, arr_get ra1 x y <> Some EXPOSED) -> (2501 <= fuel)%nat ->
  exists ra ex q,
    queue_loop exposed_body fuel
      (fold_left markExposed (exitSeeds ra1) (ra1, initArr false)) (exitSeeds ra1) 0
    = Some ((ra, ex), q)
    /\ isField ra
    /\ forall x y, arr_get ra x y = Some EXPOSED <-> exposedFrom ra1 (x, y).
Proof.
  intros Hf Hno Hfuel.
  pose proof (expose_inv_init ra1 Hf) as Hinit.
  destruct (expose_loop_terminates ra1 fuel _ _ Hinit Hfuel) as [[[ra ex] q] Hloop].
  exists ra, ex, q. split; [exact Hloop|].
  assert (Hinv : expose_inv ra1 (ra, ex) q (length q)).
  { eapply (queue_loop_inv _ (expose_inv ra1)); [| | |exact Hloop].
    - intros. eapply expose_inv_step; eauto.
    - exact Hinit.
    - lia. }
  split; [exact (xi_fieldR _ _ _ _ Hinv)|].
  destruct (queue_loop_prefix _ _ _ _ _ _ _ Hloop) as [more Hq].
  intros x y. split.
  - intros Htag. destruct (isExplored ex x y) eqn:E.
    + apply (xi_explored _ _ _ _ Hinv (x, y)). exact E.
    + pose proof (xi_frame _ _ _ _ Hinv x y E) as Hfr. cbn [fst snd] in Hfr.
      rewrite Hfr in Htag. exfalso. exact (Hno x y Htag).
  - intros (e & He & Hpath).
    assert (Hex : exploredAt ex e).
    { apply (xi_queue _ _ _ _ Hinv). rewrite Hq. apply in_app_iff. left.
      apply In_exitSeeds; assumption. }
    pose proof (expose_inv_complete ra1 _ _ Hinv e (x, y) Hpath Hex) as Hp.
    apply (xi_explored _ _ _ _ Hinv (x, y) Hp).
Qed.

(** ** [calculate]: the protected tiles are not exposed *)

Lemma expandProtected_spec (fuel : nat) (protectedPos : list (Z * Z)) :
  (forall s, In s protectedPos -> inRoom (fst s) (snd s)) ->
  (length protectedPos + 2501 <= fuel)%nat ->
  exists expanded,
    expandProtected fuel protectedPos = Some expanded
    /\ forall p, In p expanded <->
         In p protectedPos
         \/ (inRoom (fst p) (snd p) /\ nearestSeedWithin protectedPos p 1 3).
Proof.
  intros Hseeds Hfuel. unfold expandProtected.
  assert (Hall : forallb (fun pos => inRoomb (fst pos) (snd pos)) protectedPos = true).
  { apply forallb_forall. intros s Hs. apply inRoomb_spec. auto. }
  rewrite Hall.
  destruct (expand_loop_terminates protectedPos Hseeds fuel Hfuel)
    as [[[arr expanded] q] Hloop].
  rewrite Hloop. exists expanded. split; [reflexivity|].
  assert (Hinv : expand_inv protectedPos (arr, expanded) q (length q)).
  { eapply (queue_loop_inv _ (expand_inv protectedPos)); [| | |exact Hloop].
    - intros. eapply expand_inv_step; eauto.
    - by apply expand_inv_init.
    - lia. }
  intros p. rewrite (ei_expanded _ _ _ _ Hinv p). cbn [fst snd]. split.
  - intros (l & Hl & Hne).
    destruct (in_dec (fun a b : Z * Z => decide (a = b)) p protectedPos) as [Hp|Hp];
      [left; exact Hp|].
    right. split.
    + apply (leveled_inRoom arr); [apply (ei_field _ _ _ _ Hinv)|]. exists l. auto.
    + destruct (ei_sound _ _ _ _ Hinv p l Hl Hne) as [Hr (s & Hs & Hc)].
      split; [exists s; split; [exact Hs|lia]|].
      intros s' Hs'. destruct (Z.le_gt_cases 1 (cheb p s')) as [H|H]; [exact H|].
      exfalso. apply Hp. assert (p = s') by (apply cheb_zero; lia). subst. exact Hs'.
  - intros [Hp|[Hroom [(s & Hs & Hc) _]]].
    + exists 1. split; [apply (ei_seed _ _ _ _ Hinv); exact Hp|lia].
    + assert (Hnn : 0 <= cheb p s) by (unfold cheb; lia).
      destruct (expand_inv_complete protectedPos Hseeds _ _ Hinv (Z.to_nat (cheb p s))
                  p s Hs Hroom) as (l & Hl & Hr); [lia|lia|].
      exists l. split; [exact Hl|lia].
Qed.

Lemma baseTag_TO_EXIT terrainData bounds x y :
  validBounds bounds = true ->
  baseTag terrainData bounds x y = TO_EXIT -> interior x y.
Proof.
  intros Hv. apply validBounds_spec in Hv.
  unfold baseTag, inBounds, interior, ROOM_MAX_INDEX, EXIT, TO_EXIT, NORMAL, UNWALKABLE.
  destruct (negb (terrainData x y =? TERRAIN_MASK_WALL));
    [rewrite andb_true_r|rewrite andb_false_r; discriminate].
  destruct (Z.leb_spec (x1 bounds) x), (Z.leb_spec x (x2 bounds)),
    (Z.leb_spec (y1 bounds) y), (Z.leb_spec y (y2 bounds)); cbn [andb]; try discriminate.
  destruct (Z.eqb_spec x 0), (Z.eqb_spec y 0), (Z.eqb_spec x 49), (Z.eqb_spec y 49);
    cbn [orb]; try discriminate.
  intros _. lia.
Qed.

(** A tile whose tag is not UNWALKABLE, next to a tile tagged NORMAL by the
    classifier, is an inner tile tagged NORMAL or TO_EXIT. *)
Lemma normal_neighbour_tag terrainData bounds x y d :
  validBounds bounds = true ->
  classTag terrainData bounds x y = NORMAL ->
  In d SURROUND_OFFSETS ->
  classTag terrainData bounds (x + fst d) (y + snd d) <> UNWALKABLE ->
  interior (x + fst d) (y + snd d)
  /\ (classTag terrainData bounds (x + fst d) (y + snd d) = NORMAL
      \/ classTag terrainData bounds (x + fst d) (y + snd d) = TO_EXIT).
Proof.
  intros Hv Htag Hd Hn.
  destruct (classTag_NORMAL _ _ _ _ Htag) as (Hbase & Hlr & Htb).
  destruct (baseTag_NORMAL _ _ _ _ Hv Hbase) as (Hint & Hx & Hy & _).
  pose proof (offsets_bound d Hd) as Hdb.
  set (nx := x + fst d) in *. set (ny := y + snd d) in *.
  pose proof (classTag_values terrainData bounds nx ny) as Hval. simpl in Hval.
  destruct Hval as [H|[H|[H|[H|[]]]]].
  - exfalso. apply Hn. symmetry. exact H.
  - symmetry in H. destruct (classTag_NORMAL _ _ _ _ H) as (Hb' & _ & _).
    destruct (baseTag_NORMAL _ _ _ _ Hv Hb') as (Hint' & _). auto.
  - symmetry in H. split; [|right; exact H].
    unfold classTag in H.
    destruct (nearLeftRight terrainData bounds nx ny) eqn:Hlr'.
    { unfold nearLeftRight, ROOM_MAX_INDEX in Hlr'.
      rewrite !andb_true_iff, orb_true_iff, !andb_true_iff, Z.leb_le, Z.ltb_lt, !Z.eqb_eq
        in Hlr'. unfold interior. lia. }
    destruct (nearTopBottom terrainData bounds nx ny) eqn:Htb'.
    { unfold nearTopBottom, ROOM_MAX_INDEX in Htb'.
      rewrite !andb_true_iff, orb_true_iff, !andb_true_iff, Z.leb_le, Z.ltb_lt, !Z.eqb_eq
        in Htb'. unfold interior. lia. }
    cbn [orb] in H. apply (baseTag_TO_EXIT _ _ _ _ Hv H).
  - exfalso. symmetry in H.
    pose proof (classTag_EXIT_border _ _ _ _ H) as Hside.
    assert (Hbase' : baseTag terrainData bounds nx ny = EXIT).
    { unfold classTag in H. destruct (_ || _); [discriminate H|exact H]. }
    assert (Hm : nearLeftRight terrainData bounds x y || nearTopBottom terrainData bounds x y
                 = true).
    { apply (exit_neighbour_marked terrainData bounds x y nx ny Hint);
        [unfold nx; lia|unfold ny; lia|tauto|].
      unfold exitAt. rewrite Hbase'. reflexivity. }
    rewrite Hlr, Htb in Hm. discriminate Hm.
Qed.

Section Safe.
Variables (terrainData : TerrainData) (coords : list (Z * Z)).
Variables (count : Z) (g' : Graph) (q : list Z).
Hypothesis Hsolved : solved (protectedRoomArray terrainData coords defaultBounds) count g' q.

Local Abbreviation roomArray := (protectedRoomArray terrainData coords defaultBounds).
Local Abbreviation cut := (map vertexToPosition (cutOf (g_edges g') q)).
Local Abbreviation top x y := (positionToVertex x y + TOP_OFFSET).
Local Abbreviation inside := (insideCut terrainData defaultBounds q).
Local Abbreviation ra1 := (rampartArray terrainData cut).

Lemma passable_tag n :
  passable ra1 n ->
  ~ In (mkPos (fst n) (snd n)) cut
  /\ classTag terrainData defaultBounds (fst n) (snd n) <> UNWALKABLE
  /\ arr_get ra1 (fst n) (snd n) = Some (classTag terrainData defaultBounds (fst n) (snd n)).
Proof.
  intros (Hin & tag & Htag & Hpass).
  destruct (proj2 (rampartArray_get terrainData cut) _ _ Hin) as [Hyes Hno].
  destruct (in_dec Position_eq_dec (mkPos (fst n) (snd n)) cut) as [Hc|Hc].
  - rewrite (Hyes Hc) in Htag. injection Htag as <-. discriminate Hpass.
  - split; [exact Hc|]. split; [|exact (Hno Hc)].
    rewrite (Hno Hc) in Htag. injection Htag as <-.
    intros H. rewrite H in Hpass. discriminate Hpass.
Qed.

Lemma inside_step_tag p n :
  inside p -> neighbour8 p n -> passable ra1 n -> inside n.
Proof.
  intros [Htag Hbot] (d & Hd & ->) Hpass.
  destruct (passable_tag _ Hpass) as (Hcut & Hnu & _). destruct Hpass as [Hin _].
  destruct p as [x y]. cbn [fst snd] in *.
  destruct (tag_of_normal terrainData coords defaultBounds validBounds_default x y Htag)
    as [Hint Harr].
  destruct (normal_neighbour_tag terrainData defaultBounds x y d validBounds_default
              Htag Hd Hnu) as [Hnint Hntag].
  set (nx := x + fst d) in *. set (ny := y + snd d) in *.
  assert (Hedge : arr_get roomArray nx ny = Some NORMAL
                  \/ arr_get roomArray nx ny = Some TO_EXIT ->
                  In (top nx ny) q).
  { intros Hn.
    apply (inf_edge terrainData coords defaultBounds count g' q Hsolved
             (top x y + BOT_OFFSET)); [exact Hbot|].
    apply In_graphCalls. exists x, y. split; [exact Hint|].
    apply In_tileCalls. cbv zeta. right. right. right. split; [|exact Harr].
    apply In_neighbourCalls. exists d. auto. }
  destruct Hntag as [Hn|Hn].
  - split; [exact Hn|].
    apply (not_cut_bot terrainData coords defaultBounds count g' q validBounds_default
             Hsolved); [exact Hn| |exact Hcut].
    destruct (tag_of_normal terrainData coords defaultBounds validBounds_default nx ny Hn)
      as [_ [Ha|Ha]]; [apply Hedge; auto|].
    apply (inf_edge terrainData coords defaultBounds count g' q Hsolved SOURCE_VERTEX);
      [exact (sv_source _ _ _ _ Hsolved)|].
    apply In_graphCalls. exists nx, ny. split; [exact Hnint|].
    apply In_tileCalls. cbv zeta. right. left. auto.
  - exfalso. apply (sv_sink _ _ _ _ Hsolved).
    destruct (proj2 (protected_tags terrainData coords defaultBounds validBounds_default)
                nx ny Hin) as [H|[H _]]; [|rewrite Hn in H; discriminate H].
    rewrite Hn in H.
    apply (inf_edge terrainData coords defaultBounds count g' q Hsolved (top nx ny));
      [apply Hedge; auto|].
    apply In_graphCalls. exists nx, ny. split; [exact Hnint|].
    apply In_tileCalls. cbv zeta. right. right. left. auto.
Qed.

Lemma inside_connected_tag p e :
  connected (passable ra1) p e -> inside p -> inside e.
Proof.
  induction 1 as [p Hp|p n e Hp Hpn Hrest IH]; intros Hin; [exact Hin|].
  apply IH. eapply inside_step_tag; eauto. eapply connected_start; eauto.
Qed.

(** No protected tile is reached from an exit once the cut holds
    ramparts. *)
Lemma protected_not_exposed p :
  protectedTile terrainData coords defaultBounds p -> ~ exposedFrom ra1 p.
Proof.
  intros Hp (e & He & Hpath).
  pose proof (connected_end _ _ _ Hpath) as Hpass.
  destruct (passable_tag _ Hpass) as (Hcut & Hnu & _). destruct Hpass as [Hin _].
  assert (Hins : inside p).
  { apply (protected_inside terrainData coords defaultBounds count g' q validBounds_default
             Hsolved p Hp).
    split; [exact Hin|]. split; [|exact Hcut].
    unfold protectedTile in Hp.
    destruct (proj2 (protected_tags terrainData coords defaultBounds validBounds_default)
                _ _ Hin) as [H|[H _]].
    - rewrite Hp in H. injection H as H.
      pose proof (classTag_values terrainData defaultBounds (fst p) (snd p)) as Hval.
      rewrite <- H in Hval. simpl in Hval.
      destruct Hval as [Hv|[Hv|[Hv|[Hv|[]]]]]; discriminate Hv.
    - destruct (classTag_NORMAL _ _ _ _ H) as (Hb & _ & _).
      apply (baseTag_NORMAL _ _ _ _ validBounds_default Hb). }
  apply connected_sym in Hpath.
  destruct (inside_connected_tag p e Hpath Hins) as [Htag _].
  destruct (passable_tag _ (connected_end _ _ _ Hpath)) as (_ & _ & Harr).
  rewrite He in Harr. injection Harr as Harr. rewrite Htag in Harr. discriminate Harr.
Qed.
End Safe.

(** ** [calculate]: the whole run *)

Lemma expandProtected_mono fuel fuel' protectedPos r :
  (fuel <= fuel')%nat ->
  expandProtected fuel protectedPos = Some r -> expandProtected fuel' protectedPos = Some r.
Proof.
  unfold expandProtected. intros Hle H.
  destruct (forallb _ protectedPos); [|discriminate].
  destruct (queue_loop _ fuel _ _ _) as [[[arr ex] q]|] eqn:E; [|discriminate].
  rewrite (queue_loop_mono _ _ _ _ _ _ _ Hle E). exact H.
Qed.

Lemma prunedCut_default flooded cut : prunedCut defaultBounds flooded cut = cut.
Proof. unfold prunedCut. rewrite andb_false_r. reflexivity. Qed.

Lemma In_controllerNeighbours c p :
  In p (controllerNeighbours c) <-> neighbour8 c p /\ inRoom (fst p) (snd p).
Proof.
  unfold controllerNeighbours, neighbour8. rewrite in_flat_map. split.
  - intros (d & Hd & Hin).
    destruct (inRoomb (fst c + fst d) (snd c + snd d)) eqn:E; [|destruct Hin].
    destruct Hin as [<-|[]]. apply inRoomb_spec in E. split; [|exact E].
    exists d. auto.
  - intros [(d & Hd & ->) Hin]. exists d. split; [exact Hd|].
    apply inRoomb_spec in Hin. cbn [fst snd] in Hin. rewrite Hin. left. reflexivity.
Qed.

(** A coordinate is tagged PROTECTED exactly when it is listed and the
    classifier tagged it NORMAL; the other tags are those of the classifier. *)
Lemma protected_iff terrainData coords bounds :
  validBounds bounds = true ->
  isField (protectedRoomArray terrainData coords bounds)
  /\ forall x y,
       (arr_get (protectedRoomArray terrainData coords bounds) x y = Some PROTECTED
        <-> In (x, y) coords
            /\ arr_get (createRoom2DArrayFromTerrain terrainData bounds) x y = Some NORMAL)
       /\ (arr_get (protectedRoomArray terrainData coords bounds) x y <> Some PROTECTED ->
           arr_get (protectedRoomArray terrainData coords bounds) x y
           = arr_get (createRoom2DArrayFromTerrain terrainData bounds) x y).
Proof.
  intros Hvalid. unfold protectedRoomArray.
  destruct (createRoom_tagged terrainData bounds Hvalid) as [Hf Hget].
  set (r0 := createRoom2DArrayFromTerrain terrainData bounds) in *.
  assert (Hno : forall x y, arr_get r0 x y <> Some PROTECTED).
  { intros x y H. pose proof (arr_get_inRoom _ _ _ _ Hf H) as Hin.
    rewrite (Hget x y Hin) in H. injection H as H.
    pose proof (classTag_values terrainData bounds x y) as Hval.
    rewrite H in Hval. simpl in Hval.
    destruct Hval as [Hv|[Hv|[Hv|[Hv|[]]]]]; discriminate Hv. }
  induction coords as [|c l IH] using rev_ind.
  - cbn [fold_left In]. split; [exact Hf|]. intros x y. split; [|reflexivity].
    split; [intros H; exfalso; exact (Hno x y H)|tauto].
  - rewrite fold_left_app. cbn [fold_left]. destruct IH as [Hfl IH].
    set (a := fold_left markProtected l r0) in *.
    unfold markProtected. destruct (is_tag a (fst c) (snd c) NORMAL) eqn:Ht.
    + pose proof (is_tag_inRoom _ _ _ _ Hfl Ht) as Hc. apply is_tag_spec in Ht.
      split; [apply isField_set; exact Hfl|].
      intros x y. rewrite arr_get_set_field by assumption.
      destruct (IH x y) as [IH1 IH2]. rewrite in_app_iff. cbn [In].
      destruct (Z.eqb_spec (fst c) x) as [Hx|Hx];
        [destruct (Z.eqb_spec (snd c) y) as [Hy|Hy]|]; cbn [andb].
      * subst x y. split; [|intros H; exfalso; apply H; reflexivity].
        split; [intros _|reflexivity].
        split; [right; left; by destruct c|].
        rewrite <- (proj2 (IH (fst c) (snd c))); [exact Ht|].
        rewrite Ht. discriminate.
      * split; [|exact IH2]. rewrite IH1. split; [tauto|].
        intros [[H|[H|[]]] Hn]; [tauto|]. subst c. cbn [snd] in Hy. contradiction.
      * split; [|exact IH2]. rewrite IH1. split; [tauto|].
        intros [[H|[H|[]]] Hn]; [tauto|]. subst c. cbn [fst] in Hx. contradiction.
    + split; [exact Hfl|]. intros x y. destruct (IH x y) as [IH1 IH2].
      split; [|exact IH2]. rewrite IH1, in_app_iff. cbn [In]. split; [tauto|].
      intros [[H|[H|[]]] Hn]; [tauto|]. subst c. cbn [fst snd] in Ht.
      assert (Hnn : arr_get a x y <> Some NORMAL).
      { intros H. apply is_tag_spec in H. congruence. }
      assert (Hp : arr_get a x y = Some PROTECTED).
      { destruct (decide (arr_get a x y = Some PROTECTED)) as [Hp|Hp]; [exact Hp|].
        exfalso. apply Hnn. rewrite (IH2 Hp). exact Hn. }
      apply IH1 in Hp. exact Hp.
Qed.

(** The pieces of a run of [calculate], with enough fuel for each. *)
Lemma calculate_run terrainData protectedPos controllerPos :
  (forall s, In s protectedPos -> inRoom (fst s) (snd s)) ->
  exists N count g' q expanded,
    solved (protectedRoomArray terrainData
              (expanded ++ controllerNeighbours controllerPos) defaultBounds) count g' q
    /\ (forall p, In p expanded <->
          In p protectedPos
          \/ (inRoom (fst p) (snd p) /\ nearestSeedWithin protectedPos p 1 3))
    /\ forall fuel, (N <= fuel)%nat ->
         exists matrix,
           expandProtected fuel protectedPos = Some expanded
           /\ getCutTiles fuel terrainData
                (expanded ++ controllerNeighbours controllerPos) defaultBounds
              = Some (map vertexToPosition (cutOf (g_edges g') q))
           /\ calculate fuel terrainData protectedPos controllerPos
              = Some (map vertexToPosition (cutOf (g_edges g') q), matrix)
           /\ isField matrix
           /\ forall x y, inRoom x y ->
                (exposedFrom (rampartArray terrainData
                                (map vertexToPosition (cutOf (g_edges g') q))) (x, y) ->
                   arr_get matrix x y = Some 255)
                /\ (~ exposedFrom (rampartArray terrainData
                                     (map vertexToPosition (cutOf (g_edges g') q))) (x, y) ->
                    arr_get matrix x y = Some 0).
Proof.
  intros Hseeds.
  set (N0 := (length protectedPos + 2501)%nat).
  destruct (expandProtected_spec N0 protectedPos Hseeds (le_n _)) as (expanded & Hexp & Hspec).
  set (coords := expanded ++ controllerNeighbours controllerPos).
  destruct (getCutTiles_total terrainData coords defaultBounds validBounds_default)
    as (N1 & count & g' & q & flooded & Hsolved & _ & Hrun).
  set (cut := map vertexToPosition (cutOf (g_edges g') q)) in *.
  exists (Nat.max N0 (Nat.max N1 2501)), count, g', q, expanded.
  split; [exact Hsolved|]. split; [exact Hspec|].
  intros fuel Hfuel.
  assert (H0 : (N0 <= fuel)%nat) by lia. assert (H1 : (N1 <= fuel)%nat) by lia.
  assert (H2 : (2501 <= fuel)%nat) by lia.
  pose proof (expandProtected_mono _ _ _ _ H0 Hexp) as Hexp'.
  destruct (Hrun fuel H1) as (_ & _ & Hcut). rewrite prunedCut_default in Hcut.
  destruct (rampartArray_get terrainData cut) as [Hf _].
  destruct (expose_run (rampartArray terrainData cut) fuel Hf
              (rampartArray_not_exposed terrainData cut) H2)
    as (ra & ex & qq & Hloop & Hfra & Hexposed).
  exists (exposedCostMatrix ra).
  split; [exact Hexp'|]. split; [exact Hcut|]. split; [|split].
  - unfold calculate. rewrite Hexp'. fold coords. rewrite Hcut.
    fold (rampartArray terrainData cut). rewrite Hloop. reflexivity.
  - unfold exposedCostMatrix. destruct Hfra as [Hlen Hcols]. split.
    + rewrite length_map. exact Hlen.
    + intros col Hcol. apply in_map_iff in Hcol. destruct Hcol as (col0 & <- & Hc0).
      rewrite length_map. apply Hcols. exact Hc0.
  - intros x y Hin. unfold exposedCostMatrix. rewrite arr_get_map.
    destruct (arr_get_field ra x y Hfra Hin) as [tag Htag]. rewrite Htag.
    cbn [option_map]. split.
    + intros He. apply Hexposed in He. rewrite Htag in He. injection He as ->.
      reflexivity.
    + intros Hne. destruct (Z.eqb_spec tag EXPOSED) as [->|_]; [|reflexivity].
      exfalso. apply Hne. apply Hexposed. exact Htag.
Qed.

(** * Graphs made through [addEdge] *)

Lemma level_set (level : gmap Z Z) :
  exists q, NoDup q /\ forall w, In w q <-> is_Some (level !! w).
Proof.
  exists ((map_to_list level).*1). split.
  - apply NoDup_fst_map_to_list.
  - intros w. rewrite <- list_elem_of_In, list_elem_of_fmap. split.
    + intros [[w' x] [-> Hin]]. apply elem_of_map_to_list in Hin. simpl. eauto.
    + intros [x Hx]. exists (w, x). split; [reflexivity|].
      apply elem_of_map_to_list. exact Hx.
Qed.

Lemma residualReach_closed edges s : residualClosed edges (residualReach edges s).
Proof. intros u j e Hu He Hres. eapply reach_edge; eauto. Qed.

Lemma residualReach_least edges s (C : Z -> Prop) w :
  residualClosed edges C -> C s -> residualReach edges s w -> C w.
Proof.
  intros Hcl Hs Hr. induction Hr as [|u i e _ IH He Hres]; [exact Hs|].
  eapply Hcl; eauto.
Qed.

Lemma lchain_reach level edges s w : lchain level edges s w -> residualReach edges s w.
Proof.
  intros Hc. induction Hc as [|w i e _ IH He [_ Hres]]; [constructor|].
  eapply reach_edge; eauto.
Qed.

Lemma graphOf_v calls : forall g, g_v (fold_left addEdgeCall calls g) = g_v g.
Proof. induction calls as [|c calls IH]; intros g; simpl; [reflexivity|]. by rewrite IH. Qed.

Lemma graphOf_built vertexCount calls :
  validCalls vertexCount calls ->
  built calls (g_edges (graphOf vertexCount calls))
  /\ g_v (graphOf vertexCount calls) = vertexCount.
Proof.
  intros [Hvalid _]. split; [|apply graphOf_v].
  apply (built_calls calls [] (newGraph vertexCount)); [|apply built_empty].
  intros u v c Hin. destruct (Hvalid _ Hin) as (_ & _ & Hne & Hc). auto.
Qed.

(** The capacity of a closed set that holds the source and not the sink
    is the value of the flow. *)
Lemma closed_cut_cap edges q s t :
  paired edges -> flow_ok edges s t -> NoDup q -> In s q -> ~ In t q ->
  residualClosed edges (fun w => In w q) ->
  cutCap edges q = excess edges s.
Proof.
  intros Hpair Hok Hnd Hs Ht Hcl.
  rewrite <- (cut_full edges q (fo_cap _ _ _ Hok) Hcl).
  apply (cut_identity edges q Hpair (fo_anti _ _ _ Hok) Hnd s t (fo_cons _ _ _ Hok) Hs Ht).
Qed.

(** No flow is larger than the capacity of a set that holds the source
    and not the sink. *)
Lemma flow_below_cut edges q s t :
  paired edges -> flow_ok edges s t -> NoDup q -> In s q -> ~ In t q ->
  excess edges s <= cutCap edges q.
Proof.
  intros Hpair Hok Hnd Hs Ht.
  rewrite <- (cut_identity edges q Hpair (fo_anti _ _ _ Hok) Hnd s t (fo_cons _ _ _ Hok) Hs Ht).
  unfold cutFlow, cutCap. apply zsum_le. intros u _. apply zsum_le. intros e He.
  destruct (crossing q e); [|lia].
  apply In_edgeAt in He. destruct He as [i He]. eapply (fo_cap _ _ _ Hok); eauto.
Qed.

Lemma stateOf_paired vertexCount calls g :
  validCalls vertexCount calls -> stateOf vertexCount calls g -> paired (g_edges g).
Proof.
  intros Hvalid [_ Hskel]. eapply paired_skel; [exact Hskel|].
  apply (bl_paired _ _ (proj1 (graphOf_built _ _ Hvalid))).
Qed.

(** [calcMinCut] on a fresh graph: it returns, and what it leaves is a
    flow of the returned value with a closed set around the source. *)
Lemma calcMinCut_general vertexCount calls s t :
  validCalls vertexCount calls -> t < vertexCount -> s <> t ->
  exists N count g',
    dinic_post (g_edges (graphOf vertexCount calls)) s t (graphOf vertexCount calls) 0 g' count
    /\ forall fuel, (N <= fuel)%nat ->
         calcMinCut fuel (graphOf vertexCount calls) s t = Some (count, g').
Proof.
  intros Hvalid Ht Hne. destruct (graphOf_built _ _ Hvalid) as [Hb Hv].
  set (g := graphOf vertexCount calls) in *.
  destruct (dinic_total (g_edges g) s t Hne
              (Z.to_nat (sumCap (edgesOf (g_edges g) s) - excess (g_edges g) s)) g 0)
    as [N HN].
  - exact (bl_paired _ _ Hb).
  - eapply built_flow_ok; eauto.
  - apply same_skel_refl.
  - rewrite Hv. exact Ht.
  - lia.
  - destruct (HN N N (le_n _) (le_n _)) as (count & g' & Hrun & Hpost).
    exists N, count, g'. split; [exact Hpost|].
    intros fuel Hfuel. unfold calcMinCut.
    destruct (Z.eqb_spec s t) as [Heq|_]; [contradiction|].
    eapply dinicPhases_mono; eauto.
Qed.

Lemma calcMinCut_maximal vertexCount calls s t g' count edges :
  validCalls vertexCount calls ->
  dinic_post (g_edges (graphOf vertexCount calls)) s t (graphOf vertexCount calls) 0 g' count ->
  same_skel (g_edges (graphOf vertexCount calls)) edges -> flow_ok edges s t ->
  excess edges s <= count.
Proof.
  intros Hvalid [Hskel Hflow Hval Hv Hsrc Hsnk Hcl] Hskel' Hok.
  destruct (graphOf_built _ _ Hvalid) as [Hb _].
  rewrite (built_excess _ _ s Hb) in Hval.
  destruct (level_set (g_level g')) as (q & Hnd & Hq).
  assert (Hs : In s q) by (apply Hq; rewrite Hsrc; eauto).
  assert (Ht : ~ In t q).
  { intros Hin. apply Hq in Hin. rewrite Hsnk in Hin. destruct Hin; discriminate. }
  assert (Hclq : residualClosed (g_edges g') (fun w => In w q)).
  { intros u j e Hu He Hres. apply Hq. apply (Hcl u j e); auto. apply Hq. exact Hu. }
  assert (Hp' : paired (g_edges g')).
  { eapply paired_skel; [exact Hskel|]. exact (bl_paired _ _ Hb). }
  assert (Hp : paired edges).
  { eapply paired_skel; [exact Hskel'|]. exact (bl_paired _ _ Hb). }
  pose proof (closed_cut_cap _ _ _ _ Hp' Hflow Hnd Hs Ht Hclq) as Hcap.
  pose proof (flow_below_cut _ _ _ _ Hp Hok Hnd Hs Ht) as Hle.
  rewrite (cutCap_skel edges (g_edges g') q) in Hle
    by (eapply same_skel_trans; [apply same_skel_sym; exact Hskel'|exact Hskel]).
  lia.
Qed.

(** The levels that [bfs] leaves are those of the vertices that the source
    reaches along edges that are not full. *)
Lemma bfs_general fuel g s t b g' :
  t < g_v g -> bfs fuel g s t = Some (b, g') ->
  g_v g' = g_v g /\ g_edges g' = g_edges g
  /\ (forall w, 0 <= lvl (g_level g') w <-> residualReach (g_edges g) s w)
  /\ (b = true <-> residualReach (g_edges g) s t).
Proof.
  intros Ht Hrun. unfold bfs in Hrun.
  destruct (Z.geb_spec t (g_v g)) as [|_]; [lia|].
  destruct (queue_loop _ fuel _ _ _) as [[level q]|] eqn:Hloop; [|discriminate].
  injection Hrun as <- <-. simpl.
  destruct (bfs_loop_spec _ _ _ _ _ Hloop) as (Hsrc & Hnn & Hchain & Hclosed).
  assert (Hlvl : forall w, 0 <= lvl level w <-> is_Some (level !! w)).
  { intros w. unfold lvl. destruct (level !! w) as [x|] eqn:Hx; simpl.
    - split; [eauto|]. intros _. eapply Hnn; eauto.
    - split; [lia|]. intros [? ?]. discriminate. }
  assert (Hreach : forall w, 0 <= lvl level w <-> residualReach (g_edges g) s w).
  { intros w. rewrite Hlvl. split.
    - intros Hw. eapply lchain_reach, Hchain, Hw.
    - intros Hw.
      apply (residualReach_least _ s (fun w => is_Some (level !! w)) w Hclosed); [|exact Hw].
      rewrite Hsrc. eauto. }
  split; [reflexivity|]. split; [reflexivity|]. split; [exact Hreach|].
  rewrite <- Hreach. split; [apply Z.leb_le|apply Z.leb_le].
Qed.

(** The set that [bfsTheCut] explores is the set of the vertices reached
    from the source along edges that are not full. *)
Lemma bfsTheCut_general fuel g s minCut g' :
  bfsTheCut fuel g s = Some (minCut, g') ->
  g_edges g' = g_edges g
  /\ exists q, NoDup q /\ (forall w, In w q <-> residualReach (g_edges g) s w)
               /\ minCut = cutOf (g_edges g) q.
Proof.
  intros Hrun. split.
  - unfold bfsTheCut in Hrun.
    destruct (queue_loop _ fuel _ _ _) as [[[level ec] q]|]; [|discriminate].
    injection Hrun as _ <-. reflexivity.
  - destruct (bfsTheCut_spec _ _ _ _ _ _ (residualReach_closed (g_edges g) s)
                (reach_start _ _) Hrun) as (q & Hnd & Hs & Hsub & Hcl & Hcut).
    exists q. split; [exact Hnd|]. split; [|exact Hcut].
    intros w. split; [apply Hsub|].
    intros Hw. exact (residualReach_least _ s (fun w => In w q) w Hcl Hs Hw).
Qed.

Lemma validCalls_diamond : validCalls 4 diamondCalls.
Proof.
  split.
  - intros call Hin. unfold validCall. simpl in Hin.
    repeat (destruct Hin as [<-|Hin]; [simpl; lia|]). destruct Hin.
  - unfold MAX_SAFE_INTEGER. simpl. lia.
Qed.

(** An edge that leaves a closed set is full. *)
Lemma closed_edge_full edges q s t u i e :
  flow_ok edges s t -> residualClosed edges (fun w => In w q) ->
  In u q -> edgeAt edges u i = Some e -> ~ In (e_v e) q -> e_f e = e_c e.
Proof.
  intros Hok Hcl Hu He Hv. pose proof (fo_cap _ _ _ Hok u i e He) as Hcap.
  destruct (Z.lt_ge_cases (e_f e) (e_c e)) as [Hlt|Hge]; [|lia].
  exfalso. apply Hv. exact (Hcl u i e Hu He Hlt).
Qed.

(** [calcMinCut] followed by [bfsTheCut]: the set explored is a cut of the
    least capacity. *)
Lemma minCut_general vertexCount calls s t :
  validCalls vertexCount calls -> t < vertexCount -> s <> t ->
  exists N count g' g'' q,
    NoDup q /\ In s q /\ ~ In t q
    /\ flow_ok (g_edges g') s t
    /\ residualClosed (g_edges g') (fun w => In w q)
    /\ cutCap (g_edges (graphOf vertexCount calls)) q = count
    /\ (forall q', NoDup q' -> In s q' -> ~ In t q' ->
          count <= cutCap (g_edges (graphOf vertexCount calls)) q')
    /\ forall fuel, (N <= fuel)%nat ->
         calcMinCut fuel (graphOf vertexCount calls) s t = Some (count, g')
         /\ bfsTheCut fuel g' s = Some (cutOf (g_edges g') q, g'').
Proof.
  intros Hvalid Ht Hne.
  destruct (calcMinCut_general vertexCount calls s t Hvalid Ht Hne)
    as (N1 & count & g' & Hpost & Hrun).
  destruct (graphOf_built _ _ Hvalid) as [Hb _].
  pose proof Hpost as [Hskel Hflow Hval _ Hsrc Hsnk Hcl].
  rewrite (built_excess _ _ s Hb) in Hval.
  set (N2 := S (S (length (targets (g_edges g'))))).
  destruct (bfsTheCut_terminates N2 g' s ltac:(unfold N2; lia)) as [[minCut g''] Hcut].
  assert (Hsome : is_Some (g_level g' !! s)) by (rewrite Hsrc; eauto).
  destruct (bfsTheCut_spec _ _ _ _ _ _ Hcl Hsome Hcut)
    as (q & Hnd & Hs & Hsub & Hclq & ->).
  assert (Htq : ~ In t q).
  { intros Hin. apply Hsub in Hin. rewrite Hsnk in Hin. destruct Hin; discriminate. }
  assert (Hp' : paired (g_edges g')).
  { eapply paired_skel; [exact Hskel|]. exact (bl_paired _ _ Hb). }
  exists (Nat.max N1 N2), count, g', g'', q.
  split; [exact Hnd|]. split; [exact Hs|]. split; [exact Htq|].
  split; [exact Hflow|]. split; [exact Hclq|]. split; [|split].
  - rewrite (cutCap_skel _ _ q Hskel).
    rewrite (closed_cut_cap _ _ _ _ Hp' Hflow Hnd Hs Htq Hclq). lia.
  - intros q' Hnd' Hs' Ht'. rewrite (cutCap_skel _ _ q' Hskel).
    pose proof (flow_below_cut _ _ _ _ Hp' Hflow Hnd' Hs' Ht'). lia.
  - intros fuel Hfuel. split; [apply Hrun; lia|].
    eapply bfsTheCut_mono; [|exact Hcut]. lia.
Qed.

(** Once [calcMinCut] has run, the sink is not reached any more along
    edges that are not full, and a second run stops at its first [bfs]. *)
Lemma calcMinCut_again vertexCount calls s t g' count :
  validCalls vertexCount calls -> t < vertexCount -> s <> t ->
  dinic_post (g_edges (graphOf vertexCount calls)) s t (graphOf vertexCount calls) 0 g' count ->
  ~ residualReach (g_edges g') s t
  /\ exists N, forall fuel, (N <= fuel)%nat ->
       exists g'', calcMinCut fuel g' s t = Some (0, g'') /\ g_edges g'' = g_edges g'.
Proof.
  intros Hvalid Ht Hne [Hskel Hflow Hval Hv Hsrc Hsnk Hcl].
  assert (Hno : ~ residualReach (g_edges g') s t).
  { intros Hr.
    pose proof (residualReach_least (g_edges g') s
                  (fun w => is_Some (g_level g' !! w)) t Hcl) as Hleast.
    destruct Hleast as [x Hx]; [rewrite Hsrc; eauto|exact Hr|].
    rewrite Hsnk in Hx. discriminate Hx. }
  split; [exact Hno|].
  exists (S (S (length (targets (g_edges g'))))). intros fuel Hfuel.
  assert (Htv : t < g_v g').
  { rewrite Hv. rewrite (proj2 (graphOf_built _ _ Hvalid)). exact Ht. }
  destruct (bfs_terminates fuel g' s t ltac:(lia)) as [[b g''] Hbfs].
  destruct (bfs_general fuel g' s t b g'' Htv Hbfs) as (_ & He & _ & Hb).
  assert (b = false).
  { destruct b; [|reflexivity]. exfalso. apply Hno. apply Hb. reflexivity. }
  subst b. exists g''. split; [|exact He].
  unfold calcMinCut. destruct (Z.eqb_spec s t) as [|_]; [contradiction|].
  destruct fuel as [|fuel']; [lia|]. cbn [dinicPhases]. rewrite Hbfs. reflexivity.
Qed.

(** * The tags of the classifier in terms of the terrain *)

Lemma baseTag_cases terrainData bounds x y :
  let inB := x1 bounds <= x <= x2 bounds /\ y1 bounds <= y <= y2 bounds in
  let open := terrainData x y <> TERRAIN_MASK_WALL in
  let border := x = 0 \/ y = 0 \/ x = 49 \/ y = 49 in
  let edge := x = x1 bounds \/ y = y1 bounds \/ x = x2 bounds \/ y = y2 bounds in
  (baseTag terrainData bounds x y = UNWALKABLE <-> ~ (inB /\ open))
  /\ (baseTag terrainData bounds x y = EXIT <-> inB /\ open /\ border)
  /\ (baseTag terrainData bounds x y = TO_EXIT <-> inB /\ open /\ ~ border /\ edge)
  /\ (baseTag terrainData bounds x y = NORMAL <-> inB /\ open /\ ~ border /\ ~ edge).
Proof.
  cbv zeta.
  unfold baseTag, inBounds, ROOM_MAX_INDEX, EXIT, TO_EXIT, NORMAL, UNWALKABLE.
  destruct (Z.eqb_spec (terrainData x y) TERRAIN_MASK_WALL) as [Hw|Hw].
  { rewrite andb_false_r. repeat split; intros; try discriminate; tauto. }
  rewrite andb_true_r.
  destruct (Z.leb_spec (x1 bounds) x); cbn [andb];
    [|repeat split; intros; try discriminate; try lia; tauto].
  destruct (Z.leb_spec x (x2 bounds)); cbn [andb];
    [|repeat split; intros; try discriminate; try lia; tauto].
  destruct (Z.leb_spec (y1 bounds) y); cbn [andb];
    [|repeat split; intros; try discriminate; try lia; tauto].
  destruct (Z.leb_spec y (y2 bounds)); cbn [andb];
    [|repeat split; intros; try discriminate; try lia; tauto].
  destruct (Z.eqb_spec x 0); cbn [orb];
    [repeat split; intros; try discriminate; try lia; tauto|].
  destruct (Z.eqb_spec y 0); cbn [orb];
    [repeat split; intros; try discriminate; try lia; tauto|].
  destruct (Z.eqb_spec x 49); cbn [orb];
    [repeat split; intros; try discriminate; try lia; tauto|].
  destruct (Z.eqb_spec y 49); cbn [orb];
    [repeat split; intros; try discriminate; try lia; tauto|].
  destruct (Z.eqb_spec x (x1 bounds)); cbn [orb];
    [repeat split; intros; try discriminate; try lia; tauto|].
  destruct (Z.eqb_spec y (y1 bounds)); cbn [orb];
    [repeat split; intros; try discriminate; try lia; tauto|].
  destruct (Z.eqb_spec x (x2 bounds)); cbn [orb];
    [repeat split; intros; try discriminate; try lia; tauto|].
  destruct (Z.eqb_spec y (y2 bounds)); cbn [orb];
    repeat split; intros; try discriminate; try lia; tauto.
Qed.

Lemma exitAt_classTag terrainData bounds x y :
  exitAt terrainData bounds x y = true <-> classTag terrainData bounds x y = EXIT.
Proof.
  unfold exitAt. rewrite Z.eqb_eq. split.
  - intros Hb. pose proof (proj1 (proj1 (proj2 (baseTag_cases terrainData bounds x y))) Hb)
      as (_ & _ & Hside).
    unfold classTag.
    rewrite nearLeftRight_border, nearTopBottom_border by (unfold ROOM_MAX_INDEX; tauto).
    exact Hb.
  - unfold classTag. destruct (_ || _); [unfold TO_EXIT, EXIT; discriminate|auto].
Qed.

Ltac near_case bx by_ H :=
  split;
  [unfold interior; lia
  |exists (bx, by_); split;
   [apply neighbour8_intro; simpl; [lia|lia|intros E; injection E; lia]|exact H]].

(** The second and third loops write the inner tiles that have a
    neighbour tagged EXIT. *)
Lemma near_exit terrainData bounds x y :
  nearLeftRight terrainData bounds x y || nearTopBottom terrainData bounds x y = true
  <-> interior x y
      /\ exists n, neighbour8 (x, y) n
                   /\ classTag terrainData bounds (fst n) (snd n) = EXIT.
Proof.
  split.
  - intros H. apply orb_true_iff in H. destruct H as [H|H].
    + unfold nearLeftRight, ROOM_MAX_INDEX in H.
      repeat (rewrite ?andb_true_iff, ?orb_true_iff in H).
      rewrite Z.leb_le, Z.ltb_lt, !Z.eqb_eq, !exitAt_classTag in H.
      destruct H as [[Hy1 Hy2] [[Hx [[H|H]|H]]|[Hx [[H|H]|H]]]].
      * near_case 0 (y - 1) H.
      * near_case 0 y H.
      * near_case 0 (y + 1) H.
      * near_case 49 (y - 1) H.
      * near_case 49 y H.
      * near_case 49 (y + 1) H.
    + unfold nearTopBottom, ROOM_MAX_INDEX in H.
      repeat (rewrite ?andb_true_iff, ?orb_true_iff in H).
      rewrite Z.leb_le, Z.ltb_lt, !Z.eqb_eq, !exitAt_classTag in H.
      destruct H as [[Hx1 Hx2] [[Hy [[H|H]|H]]|[Hy [[H|H]|H]]]].
      * near_case (x - 1) 0 H.
      * near_case x 0 H.
      * near_case (x + 1) 0 H.
      * near_case (x - 1) 49 H.
      * near_case x 49 H.
      * near_case (x + 1) 49 H.
  - intros [Hint ([bx by_] & Hn & Ht)]. cbn [fst snd] in Ht.
    apply neighbour8_bound in Hn. cbn [fst snd] in Hn. destruct Hn as (Hx & Hy & _).
    apply (exit_neighbour_marked terrainData bounds x y bx by_ Hint); [lia|lia| |].
    + exact (classTag_EXIT_border _ _ _ _ Ht).
    + apply exitAt_classTag. exact Ht.
Qed.

Section ClassifierTags.
Variables (terrainData : TerrainData) (bounds : Bounds).
Hypothesis Hvalid : validBounds bounds = true.

Local Abbreviation room2D := (createRoom2DArrayFromTerrain terrainData bounds).

Lemma room2D_get x y tag :
  arr_get room2D x y = Some tag <-> inRoom x y /\ classTag terrainData bounds x y = tag.
Proof.
  destruct (createRoom_tagged terrainData bounds Hvalid) as [Hf Hget]. split.
  - intros H. pose proof (arr_get_inRoom _ _ _ _ Hf H) as Hin.
    rewrite (Hget _ _ Hin) in H. split; [exact Hin|congruence].
  - intros [Hin <-]. apply Hget. exact Hin.
Qed.

Lemma classTag_EXIT_inRoom x y : classTag terrainData bounds x y = EXIT -> inRoom x y.
Proof.
  intros H. apply exitAt_classTag in H. unfold exitAt in H. apply Z.eqb_eq in H.
  apply (proj1 (proj2 (baseTag_cases terrainData bounds x y))) in H.
  apply validBounds_spec in Hvalid. unfold inRoom, ROOM_SIZE. lia.
Qed.

(** An inner tile has a neighbour tagged EXIT in the array exactly when
    the second or third loop writes it. *)
Lemma room2D_near x y :
  nearLeftRight terrainData bounds x y || nearTopBottom terrainData bounds x y = true
  <-> interior x y
      /\ exists n, neighbour8 (x, y) n /\ arr_get room2D (fst n) (snd n) = Some EXIT.
Proof.
  rewrite near_exit. split; intros [Hint (n & Hn & Ht)]; (split; [exact Hint|]); exists n;
    (split; [exact Hn|]).
  - apply room2D_get. split; [apply classTag_EXIT_inRoom; exact Ht|exact Ht].
  - apply room2D_get in Ht. tauto.
Qed.
End ClassifierTags.

(** The four tags of the array in terms of the terrain, the bounds and the
    exits next to the tile. *)
Lemma room2D_cases terrainData bounds x y :
  validBounds bounds = true -> inRoom x y ->
  let room2D := createRoom2DArrayFromTerrain terrainData bounds in
  let near := interior x y
    /\ exists n, neighbour8 (x, y) n /\ arr_get room2D (fst n) (snd n) = Some EXIT in
  let inB := x1 bounds <= x <= x2 bounds /\ y1 bounds <= y <= y2 bounds in
  let open := terrainData x y <> TERRAIN_MASK_WALL in
  let border := x = 0 \/ y = 0 \/ x = 49 \/ y = 49 in
  let edge := x = x1 bounds \/ y = y1 bounds \/ x = x2 bounds \/ y = y2 bounds in
  (arr_get room2D x y = Some UNWALKABLE <-> ~ near /\ ~ (inB /\ open))
  /\ (arr_get room2D x y = Some EXIT <-> inB /\ open /\ border)
  /\ (arr_get room2D x y = Some TO_EXIT <-> near \/ (inB /\ open /\ ~ border /\ edge))
  /\ (arr_get room2D x y = Some NORMAL <-> ~ near /\ inB /\ open /\ ~ border /\ ~ edge).
Proof.
  intros Hvalid Hin. cbv zeta.
  set (near := interior x y /\ exists n, neighbour8 (x, y) n
                 /\ arr_get (createRoom2DArrayFromTerrain terrainData bounds)
                      (fst n) (snd n) = Some EXIT).
  assert (Hnb : near -> ~ (x = 0 \/ y = 0 \/ x = 49 \/ y = 49)).
  { clear. intros [Hi _]. unfold interior in Hi. lia. }
  rewrite !(room2D_get terrainData bounds Hvalid).
  pose proof (room2D_near terrainData bounds Hvalid x y) as Hnear. fold near in Hnear.
  pose proof (baseTag_cases terrainData bounds x y) as (B1 & B2 & B3 & B4).
  cbv zeta in B1, B2, B3, B4.
  assert (T1 : TO_EXIT <> UNWALKABLE) by (unfold TO_EXIT, UNWALKABLE; discriminate).
  assert (T2 : TO_EXIT <> EXIT) by (unfold TO_EXIT, EXIT; discriminate).
  assert (T3 : TO_EXIT <> NORMAL) by (unfold TO_EXIT, NORMAL; discriminate).
  unfold classTag.
  set (inB := x1 bounds <= x <= x2 bounds /\ y1 bounds <= y <= y2 bounds) in *.
  set (open := terrainData x y <> TERRAIN_MASK_WALL) in *.
  set (border := x = 0 \/ y = 0 \/ x = 49 \/ y = 49) in *.
  set (edge := x = x1 bounds \/ y = y1 bounds \/ x = x2 bounds \/ y = y2 bounds) in *.
  set (base := baseTag terrainData bounds x y) in *.
  set (inR := inRoom x y) in *.
  destruct (nearLeftRight terrainData bounds x y || nearTopBottom terrainData bounds x y).
  - assert (Hn := proj1 Hnear eq_refl). clear Hnear.
    clearbody near inB open border edge base inR. clear Hvalid. tauto.
  - assert (Hn : ~ near) by (intros H; apply Hnear in H; discriminate).
    clear Hnear. clearbody near inB open border edge base inR. clear Hvalid. tauto.
Qed.

(** * The claims *)

(** ** Invalid bounds *)

Lemma validBounds_false bounds : invalidBounds bounds -> validBounds bounds = false.
Proof.
  unfold invalidBounds, validBounds, ROOM_MAX_INDEX. intros H.
  apply negb_false_iff. rewrite !orb_true_iff.
  rewrite !Z.geb_le, !Z.ltb_lt, !Z.gtb_lt. lia.
Qed.

(** C8: for bounds with x1 >= x2, or y1 >= y2, or a coordinate outside
    [0,49], [createGraph] returns no graph, and [getCutTiles] returns the
    empty list for every terrain and every list of protected coordinates
    (whatever the fuel: no loop is entered). *)
Theorem invalid_bounds_empty_cut (fuel : nat) (terrainData : TerrainData)
    (coords : list (Z * Z)) (bounds : Bounds) :
  invalidBounds bounds ->
  createGraph terrainData coords bounds = None
  /\ getCutTiles fuel terrainData coords bounds = Some [].
Proof.
  intros H. apply validBounds_false in H.
  unfold getCutTiles, createGraph. rewrite H. split; reflexivity.
Qed.

Lemma invalid_bounds_empty_cut_witness :
  createGraph openTerrain [(25, 25)] (mkBounds 30 10 20 60) = None
  /\ getCutTiles O openTerrain [(25, 25)] (mkBounds 30 10 20 60) = Some [].
Proof.
  apply invalid_bounds_empty_cut. unfold invalidBounds; simpl. lia.
Defined.

(** ** Walls next to an exit *)

(** C4: the claim fails on the code.  In a room whose only wall is (1,1),
    classified with the default bounds, the exit-adjacency pass tags the
    wall tile (1,1) TO_EXIT: the tile (0,0) is an EXIT and the pass writes
    without looking at the terrain. *)
Theorem wall_next_to_exit_is_tagged_TO_EXIT :
  wallAt 1 1 1 1 = TERRAIN_MASK_WALL
  /\ arr_get (createRoom2DArrayFromTerrain (wallAt 1 1) defaultBounds) 1 1
     = Some TO_EXIT.
Proof. split; vm_compute; reflexivity. Qed.

(** ** The open room *)

Lemma open_room_cut_at_fuel :
  getCutTiles openRoomFuel openTerrain [(25, 25)] defaultBounds = Some [mkPos 25 25].
Proof. vm_compute. reflexivity. Qed.

(** C2, as stated, fails: whatever the fuel, the tiles returned for the
    open room with (25,25) protected are not the eight tiles around
    (25,25). *)
Lemma open_room_cut_is_not_the_ring :
  ~ (exists fuel ps,
       getCutTiles fuel openTerrain [(25, 25)] defaultBounds = Some ps
       /\ forall p, In p ps <-> In p ring25).
Proof.
  intros (fuel & ps & Hps & Hring).
  pose proof open_room_cut_at_fuel as H0.
  apply (getCutTiles_mono _ (Nat.max fuel openRoomFuel)) in Hps; [|lia].
  apply (getCutTiles_mono _ (Nat.max fuel openRoomFuel)) in H0; [|lia].
  rewrite Hps in H0. injection H0 as ->.
  destruct (proj2 (Hring (mkPos 24 24))) as [H|[]]; [left; reflexivity|discriminate].
Qed.

(** C2, amended: on a room without walls, [getCutTiles] with the single
    protected coordinate (25,25) and the default bounds returns exactly the
    tile (25,25) itself: the TOP->BOT edge of the protected tile, of
    capacity 1, is the whole minimum cut. *)
Theorem open_room_cut_is_the_protected_tile (fuel : nat) :
  (openRoomFuel <= fuel)%nat ->
  getCutTiles fuel openTerrain [(25, 25)] defaultBounds = Some [mkPos 25 25].
Proof.
  intros Hle. eapply getCutTiles_mono; [exact Hle|]. exact open_room_cut_at_fuel.
Qed.

Lemma open_room_cut_is_the_protected_tile_witness :
  getCutTiles openRoomFuel openTerrain [(25, 25)] defaultBounds = Some [mkPos 25 25].
Proof. apply open_room_cut_is_the_protected_tile. apply Nat.le_refl. Defined.

(** ** The minimum finder *)

(** C6: [findMin] returns the cell of minimum value among the cells of the
    room that satisfy the predicate, the first one in scan order (x outer,
    y inner) among equals, whenever some such cell has a value below the
    sentinel [MAX_VALUE] that stands for a missing cell; it returns (0,0)
    when no cell with a value below the sentinel satisfies the predicate. *)
Theorem findMin_first_minimum (matrix : Grid Z) (predicate : Z -> Z -> bool) :
  ((exists x y, candidate matrix predicate x y) ->
     candidate matrix predicate (fst (findMin matrix predicate)) (snd (findMin matrix predicate))
     /\ (forall x y, inRoom x y -> predicate x y = true ->
           cellValue matrix (fst (findMin matrix predicate)) (snd (findMin matrix predicate))
           <= cellValue matrix x y)
     /\ (forall x y, inRoom x y -> predicate x y = true ->
           scanBefore x y (fst (findMin matrix predicate)) (snd (findMin matrix predicate)) ->
           cellValue matrix (fst (findMin matrix predicate)) (snd (findMin matrix predicate))
           < cellValue matrix x y))
  /\ ((forall x y, ~ candidate matrix predicate x y) ->
        findMin matrix predicate = (0, 0)).
Proof.
  pose proof (findMin_scan_inv matrix predicate) as Hinv.
  unfold findMin.
  destruct (fold_left _ _ _) as [[mv mx] my]. simpl.
  destruct Hinv as (Hmax & Hmin & Hnone & Hsome).
  assert (Hall : forall x y, inRoom x y -> scanBefore x y ROOM_SIZE 0).
  { intros x y [Hx Hy]. unfold scanBefore. lia. }
  split.
  - intros (x & y & Hin & Hp & Hv).
    assert (Hlt : mv < MAX_VALUE).
    { specialize (Hmin x y Hin (Hall x y Hin) Hp). lia. }
    destruct (Hsome Hlt) as (H1 & H2 & H3 & H4 & H5).
    split; [split; [exact H1|split; [exact H3|lia]]|].
    rewrite H4. split.
    + intros x' y' Hin' Hp'. apply Hmin; auto.
    + intros x' y' Hin' Hp' Hb. apply H5; auto.
  - intros Hno.
    assert (Hv : mv = MAX_VALUE).
    { destruct (Z.eq_dec mv MAX_VALUE) as [|Hne]; [assumption|].
      assert (Hlt : mv < MAX_VALUE) by lia.
      destruct (Hsome Hlt) as (H1 & H2 & H3 & H4 & H5).
      exfalso. apply (Hno mx my). split; [exact H1|split; [exact H3|lia]]. }
    destruct (Hnone Hv) as [-> ->]. reflexivity.
Qed.

(** ** The distance field *)

(** C5: after [getCostArrayPure] with a seed in the room and a radius
    R >= 0, a tile that is reached from the seed through non-wall tiles of
    the room in at most R steps of the 8-neighbourhood holds a value that
    is at most the length of every such walk to it (so at most its minimum
    distance), and a tile whose every walk from the seed is longer than R
    holds the value it had before the call.  The loop ends within the
    fuel of one iteration per tile of the room. *)
Theorem distance_field_within_range (fuel : nat) (costArr : Grid Z)
    (sx sy maxRange : Z) (terrainData : TerrainData) :
  isField costArr -> inRoom sx sy -> 0 <= maxRange -> (2501 <= fuel)%nat ->
  exists costArr',
    getCostArrayPure fuel costArr sx sy maxRange terrainData = Some costArr'
    /\ forall x y, inRoom x y ->
         ((exists n, n <= maxRange /\ walk (fieldStep terrainData) (sx, sy) n (x, y)) ->
            exists v, arr_get costArr' x y = Some v
                      /\ forall n, walk (fieldStep terrainData) (sx, sy) n (x, y) -> v <= n)
         /\ ((forall n, walk (fieldStep terrainData) (sx, sy) n (x, y) -> maxRange < n) ->
               arr_get costArr' x y = arr_get costArr x y).
Proof.
  intros Hfield Hseed HR Hfuel.
  unfold getCostArrayPure.
  assert (Hcol : has_column (initArr false) sx = true).
  { unfold has_column, initArr. rewrite length_replicate.
    destruct Hseed as [Hx _]. unfold ROOM_SIZE in *.
    apply andb_true_iff. rewrite Z.leb_le, Z.ltb_lt. lia. }
  rewrite Hcol.
  destruct (cost_loop_terminates terrainData maxRange sx sy costArr HR Hseed Hfield fuel Hfuel)
    as [[[costArr' explored'] q'] Hloop].
  rewrite Hloop. exists costArr'. split; [reflexivity|].
  pose proof (queue_loop_prefix _ _ _ _ _ _ _ Hloop) as [more Hq'].
  assert (Hinv : cost_inv terrainData maxRange sx sy costArr (costArr', explored') q' (length q')).
  { eapply (queue_loop_inv _ (cost_inv terrainData maxRange sx sy costArr)); [| | |exact Hloop].
    - intros. eapply cost_inv_step; eauto.
    - by apply cost_inv_init.
    - simpl. lia. }
  assert (Hq0 : q' !! O = Some (sx, sy, 0)) by (rewrite Hq'; reflexivity).
  intros x y Hxy. split.
  - intros (n0 & Hn0 & Hwalk0).
    destruct (cost_inv_optimal _ _ _ _ _ _ _ Hinv Hq0 n0 (x, y) Hwalk0 Hn0)
      as [Hex (v & Hv & Hle)].
    exists v. split; [exact Hv|]. intros n Hwalk.
    destruct (Z.le_gt_cases n maxRange) as [Hn|Hn].
    + destruct (cost_inv_optimal _ _ _ _ _ _ _ Hinv Hq0 n (x, y) Hwalk Hn)
        as [_ (v' & Hv' & Hle')].
      unfold costAt in Hv, Hv'. simpl in Hv, Hv'. rewrite Hv in Hv'. injection Hv' as <-.
      exact Hle'.
    + lia.
  - intros Hfar. apply (ci_frame _ _ _ _ _ _ _ _ Hinv). simpl.
    destruct (isExplored explored' x y) eqn:E; [|reflexivity].
    destruct (ci_sound _ _ _ _ _ _ _ _ Hinv (x, y) E) as (n & _ & Hwalk & Hn).
    specialize (Hfar n Hwalk). lia.
Qed.

Lemma distance_field_within_range_witness :
  exists costArr',
    getCostArrayPure 2501 (initArr 0) 10 10 3 (wallAt 11 10) = Some costArr'
    /\ forall x y, inRoom x y ->
         ((exists n, n <= 3 /\ walk (fieldStep (wallAt 11 10)) (10, 10) n (x, y)) ->
            exists v, arr_get costArr' x y = Some v
                      /\ forall n, walk (fieldStep (wallAt 11 10)) (10, 10) n (x, y) -> v <= n)
         /\ ((forall n, walk (fieldStep (wallAt 11 10)) (10, 10) n (x, y) -> 3 < n) ->
               arr_get costArr' x y = arr_get (initArr 0) x y).
Proof.
  apply distance_field_within_range.
  - apply isField_initArr.
  - unfold inRoom, ROOM_SIZE. lia.
  - lia.
  - lia.
Defined.

(** ** The expansion of the protected positions *)

(** C7: in [calculate], for protected seed positions in the room, the
    expanded protected list, before the neighbours of the controller are
    appended, consists of the seeds and of every tile of the room whose
    Chebyshev distance to the nearest seed is between 1 and 3; the terrain
    plays no part, and no tile at a distance above 3 is added. *)
Theorem expanded_protected_is_the_3_neighbourhood (fuel : nat) (protectedPos : list (Z * Z)) :
  (forall s, In s protectedPos -> inRoom (fst s) (snd s)) ->
  (length protectedPos + 2501 <= fuel)%nat ->
  exists expanded,
    expandProtected fuel protectedPos = Some expanded
    /\ forall p, In p expanded <->
         In p protectedPos
         \/ (inRoom (fst p) (snd p) /\ nearestSeedWithin protectedPos p 1 3).
Proof.
  intros Hseeds Hfuel. unfold expandProtected.
  assert (Hall : forallb (fun pos => inRoomb (fst pos) (snd pos)) protectedPos = true).
  { apply forallb_forall. intros s Hs. apply inRoomb_spec. auto. }
  rewrite Hall.
  destruct (expand_loop_terminates protectedPos Hseeds fuel Hfuel) as [[[arr expanded] q] Hloop].
  rewrite Hloop. exists expanded. split; [reflexivity|].
  assert (Hinv : expand_inv protectedPos (arr, expanded) q (length q)).
  { eapply (queue_loop_inv _ (expand_inv protectedPos)); [| | |exact Hloop].
    - intros. eapply expand_inv_step; eauto.
    - by apply expand_inv_init.
    - lia. }
  intros p. rewrite (ei_expanded _ _ _ _ Hinv p). simpl. split.
  - intros (l & Hl & Hne).
    destruct (in_dec (fun a b : Z * Z => decide (a = b)) p protectedPos) as [Hp|Hp]; [left; exact Hp|].
    right. split.
    + apply (leveled_inRoom arr); [apply (ei_field _ _ _ _ Hinv)|]. exists l. auto.
    + destruct (ei_sound _ _ _ _ Hinv p l Hl Hne) as [Hr (s & Hs & Hc)].
      split; [exists s; split; [exact Hs|lia]|].
      intros s' Hs'. destruct (Z.le_gt_cases 1 (cheb p s')) as [H|H]; [exact H|].
      exfalso. apply Hp. assert (p = s') by (apply cheb_zero; lia). subst. exact Hs'.
  - intros [Hp|[Hroom [(s & Hs & Hc) _]]].
    + exists 1. split; [apply (ei_seed _ _ _ _ Hinv); exact Hp|lia].
    + assert (Hnn : 0 <= cheb p s) by (unfold cheb; lia).
      destruct (expand_inv_complete protectedPos Hseeds _ _ Hinv (Z.to_nat (cheb p s)) p s Hs Hroom)
        as (l & Hl & Hr); [lia|lia|].
      exists l. split; [exact Hl|lia].
Qed.

Lemma expanded_protected_is_the_3_neighbourhood_witness :
  exists expanded,
    expandProtected 2503 [(25, 25); (0, 49)] = Some expanded
    /\ forall p, In p expanded <->
         In p [(25, 25); (0, 49)]
         \/ (inRoom (fst p) (snd p) /\ nearestSeedWithin [(25, 25); (0, 49)] p 1 3).
Proof.
  apply expanded_protected_is_the_3_neighbourhood.
  - intros s [<-|[<-|[]]]; unfold inRoom, ROOM_SIZE; simpl; lia.
  - simpl. lia.
Defined.

(** ** The size of the cut *)

(** Claim C3.  For every graph that [createGraph] builds, [calcMinCut]
    from the source to the sink returns, with enough fuel, a value
    [count], and [bfsTheCut] run on the graph it leaves returns exactly
    [count] vertices; the list of cut tiles before the dead ends are
    removed has [count] elements; [count] is the value of a flow of the
    graph, and no flow of the graph has a larger value. *)
Theorem cut_size_is_flow_value terrainData coords bounds graph :
  createGraph terrainData coords bounds = Some graph ->
  exists N count graph',
    (flow_ok (g_edges graph') SOURCE_VERTEX SINK_VERTEX
     /\ same_skel (g_edges graph) (g_edges graph')
     /\ count = excess (g_edges graph') SOURCE_VERTEX
     /\ forall edges, same_skel (g_edges graph) edges ->
          flow_ok edges SOURCE_VERTEX SINK_VERTEX ->
          excess edges SOURCE_VERTEX <= count)
    /\ forall fuel, (N <= fuel)%nat ->
       exists cutEdges graph'' positions,
         calcMinCut fuel graph SOURCE_VERTEX SINK_VERTEX = Some (count, graph')
         /\ bfsTheCut fuel graph' SOURCE_VERTEX = Some (cutEdges, graph'')
         /\ Z.of_nat (length cutEdges) = count
         /\ cutPositions fuel graph = Some positions
         /\ Z.of_nat (length positions) = count.
Proof.
  unfold createGraph. intros Hg.
  destruct (validBounds bounds); [|discriminate]. injection Hg as <-.
  set (roomArray := protectedRoomArray terrainData coords bounds).
  destruct (room_solve roomArray) as (N & count & g' & g'' & q & Hsolved & Hrun).
  exists N, count, g'. split.
  - split; [exact (sv_flow _ _ _ _ Hsolved)|]. split; [exact (sv_skel _ _ _ _ Hsolved)|].
    split; [exact (sv_count _ _ _ _ Hsolved)|].
    intros edges Hskel Hok. eapply solved_maximal; eauto.
  - intros fuel Hfuel. destruct (Hrun fuel Hfuel) as (Hc & Hb & Hp).
    exists (cutOf (g_edges g') q), g'', (map vertexToPosition (cutOf (g_edges g') q)).
    pose proof (solved_length _ _ _ _ Hsolved) as Hlen.
    rewrite length_map. auto.
Qed.

Lemma cut_size_is_flow_value_witness :
  exists N count graph',
    (flow_ok (g_edges graph') SOURCE_VERTEX SINK_VERTEX
     /\ same_skel (g_edges (buildGraph (protectedRoomArray openTerrain [(25, 25)] defaultBounds)))
                  (g_edges graph')
     /\ count = excess (g_edges graph') SOURCE_VERTEX
     /\ forall edges,
          same_skel (g_edges (buildGraph (protectedRoomArray openTerrain [(25, 25)] defaultBounds)))
                    edges ->
          flow_ok edges SOURCE_VERTEX SINK_VERTEX ->
          excess edges SOURCE_VERTEX <= count)
    /\ forall fuel, (N <= fuel)%nat ->
       exists cutEdges graph'' positions,
         calcMinCut fuel (buildGraph (protectedRoomArray openTerrain [(25, 25)] defaultBounds))
                    SOURCE_VERTEX SINK_VERTEX = Some (count, graph')
         /\ bfsTheCut fuel graph' SOURCE_VERTEX = Some (cutEdges, graph'')
         /\ Z.of_nat (length cutEdges) = count
         /\ cutPositions fuel (buildGraph (protectedRoomArray openTerrain [(25, 25)] defaultBounds))
            = Some positions
         /\ Z.of_nat (length positions) = count.
Proof.
  apply (cut_size_is_flow_value openTerrain [(25, 25)] defaultBounds).
  reflexivity.
Defined.

(** ** The cut and the exits *)

(** Claim C10.  With enough fuel [getCutTiles] returns, and every position
    it returns has both coordinates in [1,48]: no tile of the cut lies on
    the rows or columns 0 and 49 of the room. *)
Theorem cut_tiles_are_inner_tiles terrainData coords bounds :
  exists N, forall fuel, (N <= fuel)%nat ->
    exists cut, getCutTiles fuel terrainData coords bounds = Some cut
      /\ forall p, In p cut -> 1 <= px p <= 48 /\ 1 <= py p <= 48.
Proof.
  destruct (validBounds bounds) eqn:Hvalid.
  - destruct (getCutTiles_total terrainData coords bounds Hvalid)
      as (N & count & g' & q & flooded & Hsolved & Hflood & Hrun).
    exists N. intros fuel Hfuel. destruct (Hrun fuel Hfuel) as (_ & _ & Hcut).
    eexists. split; [exact Hcut|].
    intros p Hp.
    apply (pruned_interior terrainData coords bounds count g' q flooded Hvalid Hsolved p Hp).
  - exists O. intros fuel _. exists []. split; [|intros p []].
    unfold getCutTiles, createGraph. rewrite Hvalid. reflexivity.
Qed.

Lemma straight_up (ok : Z * Z -> Prop) (x : Z) (n : nat) :
  (forall y, 0 <= y <= Z.of_nat n -> ok (x, y)) ->
  connected ok (x, Z.of_nat n) (x, 0).
Proof.
  induction n as [|n IH]; intros Hok.
  - apply connected_here. apply Hok. lia.
  - eapply connected_step; [apply Hok; lia| |apply IH; intros y Hy; apply Hok; lia].
    exists (0, -1). split; [left; reflexivity|]. cbn [fst snd]. f_equal; lia.
Qed.

(** Claim C1, as stated, fails: in the room without walls, with (25,25)
    protected and the default bounds, the tiles returned are the protected
    tile itself; removing them from the tiles tagged NORMAL removes
    nothing, and the column 25 leads from the protected tile (25,25) to
    the exit tile (25,0). *)
Lemma open_room_protected_tile_reaches_exit :
  ~ (exists fuel cut,
       getCutTiles fuel openTerrain [(25, 25)] defaultBounds = Some cut
       /\ forall p e,
            protectedTile openTerrain [(25, 25)] defaultBounds p ->
            exitTile openTerrain e ->
            ~ connected (normalWalkable openTerrain
                           (protectedRoomArray openTerrain [(25, 25)] defaultBounds) cut)
                        p e).
Proof.
  intros (fuel & cut & Hcut & Hsep).
  pose proof open_room_cut_at_fuel as H0.
  apply (getCutTiles_mono _ (Nat.max fuel openRoomFuel)) in Hcut; [|lia].
  apply (getCutTiles_mono _ (Nat.max fuel openRoomFuel)) in H0; [|lia].
  rewrite Hcut in H0. injection H0 as ->.
  assert (Hprot : arr_get (protectedRoomArray openTerrain [(25, 25)] defaultBounds) 25 25
                  = Some PROTECTED) by (vm_compute; reflexivity).
  apply (Hsep (25, 25) (25, 0)).
  - exact Hprot.
  - unfold exitTile, inRoom, ROOM_SIZE, openTerrain, TERRAIN_MASK_WALL. cbn [fst snd]. lia.
  - apply (straight_up _ 25 25). intros y Hy.
    unfold normalWalkable, inRoom, ROOM_SIZE. cbn [fst snd].
    split; [lia|]. split; [unfold openTerrain, TERRAIN_MASK_WALL; lia|].
    intros [[Heq|[]] Htag].
    injection Heq as Hy'. subst y. rewrite Hprot in Htag. discriminate Htag.
Qed.

(** Claim C1, amended.  For valid bounds, with enough fuel: the solver's
    cut (the tiles before the dead ends are removed), the tiles that
    [deleteTilesToDeadEnds] leaves of it, and the tiles that [getCutTiles]
    returns each disconnect every PROTECTED tile from every exit tile once
    they are removed from the tiles that are not walls, a protected tile
    of the cut included: no path of 8-neighbour steps over tiles of the
    room that are neither walls nor in the set leads from a tile tagged
    PROTECTED to a tile of the border that is not a wall. *)
Theorem cut_disconnects_protected_from_exits terrainData coords bounds :
  validBounds bounds = true ->
  exists N, forall fuel, (N <= fuel)%nat ->
    exists full kept cut,
      cutPositions fuel (buildGraph (protectedRoomArray terrainData coords bounds)) = Some full
      /\ deleteTilesToDeadEnds fuel terrainData full = Some kept
      /\ getCutTiles fuel terrainData coords bounds = Some cut
      /\ forall p e,
           protectedTile terrainData coords bounds p -> exitTile terrainData e ->
           ~ connected (walkable terrainData full) p e
           /\ ~ connected (walkable terrainData kept) p e
           /\ ~ connected (walkable terrainData cut) p e.
Proof.
  intros Hvalid.
  destruct (getCutTiles_total terrainData coords bounds Hvalid)
    as (N & count & g' & q & flooded & Hsolved & Hflood & Hrun).
  exists N. intros fuel Hfuel. destruct (Hrun fuel Hfuel) as (Hfull & Hkept & Hcut).
  eexists. eexists. eexists.
  split; [exact Hfull|]. split; [exact Hkept|]. split; [exact Hcut|].
  intros p e Hp He. split; [|split].
  - apply (cut_separates terrainData coords bounds count g' q Hvalid Hsolved p e Hp He).
  - apply (kept_separates terrainData coords bounds count g' q flooded Hvalid Hsolved
             Hflood p e Hp He).
  - apply (pruned_separates terrainData coords bounds count g' q flooded Hvalid Hsolved
             Hflood p e Hp He).
Qed.

Lemma cut_disconnects_protected_from_exits_witness :
  exists N, forall fuel, (N <= fuel)%nat ->
    exists full kept cut,
      cutPositions fuel
        (buildGraph (protectedRoomArray (wallAt 20 20) [(25, 25); (26, 25)]
                       (mkBounds 10 10 40 40))) = Some full
      /\ deleteTilesToDeadEnds fuel (wallAt 20 20) full = Some kept
      /\ getCutTiles fuel (wallAt 20 20) [(25, 25); (26, 25)] (mkBounds 10 10 40 40) = Some cut
      /\ forall p e,
           protectedTile (wallAt 20 20) [(25, 25); (26, 25)] (mkBounds 10 10 40 40) p ->
           exitTile (wallAt 20 20) e ->
           ~ connected (walkable (wallAt 20 20) full) p e
           /\ ~ connected (walkable (wallAt 20 20) kept) p e
           /\ ~ connected (walkable (wallAt 20 20) cut) p e.
Proof.
  apply (cut_disconnects_protected_from_exits (wallAt 20 20) [(25, 25); (26, 25)]
           (mkBounds 10 10 40 40)).
  reflexivity.
Defined.

(** * Further properties of the code *)

(** ** [calculate] *)

(** X1: for protected positions in the room, [calculate] returns with
    enough fuel: its ramparts are the tiles that [getCutTiles] returns, with
    the default bounds, for the expanded protected list followed by the
    neighbours of the controller, and its cost matrix is a 50 x 50 array
    that holds 255 on exactly the tiles reached from a tile tagged EXIT by
    8-neighbour steps over tiles that are neither UNWALKABLE nor ramparts,
    and 0 on every other tile. *)
Theorem calculate_cost_matrix_marks_the_exposed_tiles terrainData protectedPos controllerPos :
  (forall s, In s protectedPos -> inRoom (fst s) (snd s)) ->
  exists N, forall fuel, (N <= fuel)%nat ->
    exists expanded ramparts matrix,
      expandProtected fuel protectedPos = Some expanded
      /\ getCutTiles fuel terrainData (expanded ++ controllerNeighbours controllerPos)
           defaultBounds = Some ramparts
      /\ calculate fuel terrainData protectedPos controllerPos = Some (ramparts, matrix)
      /\ isField matrix
      /\ forall x y, inRoom x y ->
           (exposedFrom (rampartArray terrainData ramparts) (x, y) ->
              arr_get matrix x y = Some 255)
           /\ (~ exposedFrom (rampartArray terrainData ramparts) (x, y) ->
               arr_get matrix x y = Some 0).
Proof.
  intros Hseeds.
  destruct (calculate_run terrainData protectedPos controllerPos Hseeds)
    as (N & count & g' & q & expanded & _ & _ & Hrun).
  exists N. intros fuel Hfuel. destruct (Hrun fuel Hfuel) as (matrix & H1 & H2 & H3 & H4 & H5).
  exists expanded, (map vertexToPosition (cutOf (g_edges g') q)), matrix. auto.
Qed.

Lemma calculate_cost_matrix_marks_the_exposed_tiles_witness :
  exists N, forall fuel, (N <= fuel)%nat ->
    exists expanded ramparts matrix,
      expandProtected fuel [(25, 25)] = Some expanded
      /\ getCutTiles fuel (wallAt 20 20) (expanded ++ controllerNeighbours (10, 40))
           defaultBounds = Some ramparts
      /\ calculate fuel (wallAt 20 20) [(25, 25)] (10, 40) = Some (ramparts, matrix)
      /\ isField matrix
      /\ forall x y, inRoom x y ->
           (exposedFrom (rampartArray (wallAt 20 20) ramparts) (x, y) ->
              arr_get matrix x y = Some 255)
           /\ (~ exposedFrom (rampartArray (wallAt 20 20) ramparts) (x, y) ->
               arr_get matrix x y = Some 0).
Proof.
  apply (calculate_cost_matrix_marks_the_exposed_tiles (wallAt 20 20) [(25, 25)] (10, 40)).
  intros s [<-|[]]. unfold inRoom, ROOM_SIZE. simpl. lia.
Defined.

(** X2: the cost matrix of [calculate] leaves every protected tile
    unexposed.  A tile of the room that the classifier tags NORMAL and that
    is a protected position, or lies within Chebyshev distance 3 of one, or
    is a neighbour of the controller, holds 0 in the matrix, and so does
    every rampart tile. *)
Theorem calculate_never_exposes_a_protected_tile terrainData protectedPos controllerPos :
  (forall s, In s protectedPos -> inRoom (fst s) (snd s)) ->
  exists N, forall fuel, (N <= fuel)%nat ->
    exists ramparts matrix,
      calculate fuel terrainData protectedPos controllerPos = Some (ramparts, matrix)
      /\ (forall p,
            inRoom (fst p) (snd p) ->
            arr_get (createRoom2DArrayFromTerrain terrainData defaultBounds) (fst p) (snd p)
              = Some NORMAL ->
            (exists s, In s protectedPos /\ cheb p s <= 3) \/ neighbour8 controllerPos p ->
            arr_get matrix (fst p) (snd p) = Some 0)
      /\ (forall r, In r ramparts -> arr_get matrix (px r) (py r) = Some 0).
Proof.
  intros Hseeds.
  destruct (calculate_run terrainData protectedPos controllerPos Hseeds)
    as (N & count & g' & q & expanded & Hsolved & Hspec & Hrun).
  exists N. intros fuel Hfuel. destruct (Hrun fuel Hfuel) as (matrix & _ & _ & H3 & _ & H5).
  set (cut := map vertexToPosition (cutOf (g_edges g') q)) in *.
  set (coords := expanded ++ controllerNeighbours controllerPos) in *.
  exists cut, matrix. split; [exact H3|]. split.
  - intros p Hin Htag Hprot. apply (H5 _ _ Hin).
    rewrite <- (surjective_pairing p).
    apply (protected_not_exposed terrainData coords count g' q Hsolved).
    unfold protectedTile.
    apply (proj1 (proj2 (protected_iff terrainData coords defaultBounds validBounds_default)
                   (fst p) (snd p))).
    split; [|exact Htag]. rewrite <- surjective_pairing. unfold coords. apply in_app_iff.
    destruct Hprot as [(s & Hs & Hc)|Hnb].
    + left. apply Hspec.
      destruct (in_dec (fun a b : Z * Z => decide (a = b)) p protectedPos) as [Hp|Hp];
        [left; exact Hp|].
      right. split; [exact Hin|]. split; [exists s; auto|].
      intros s' Hs'. destruct (Z.le_gt_cases 1 (cheb p s')) as [H|H]; [exact H|].
      exfalso. apply Hp. assert (p = s') by (apply cheb_zero; lia). subst. exact Hs'.
    + right. apply In_controllerNeighbours. auto.
  - intros r Hr.
    destruct (cut_tile_shape terrainData coords defaultBounds count g' q
                validBounds_default Hsolved r Hr) as [Hint _].
    assert (Hin : inRoom (px r) (py r)) by (unfold interior, inRoom, ROOM_SIZE in *; lia).
    apply (H5 _ _ Hin). intros (e & He & Hpath).
    destruct (passable_tag terrainData g' q _ (connected_end _ _ _ Hpath))
      as (Hcut & _). apply Hcut. cbn [fst snd]. destruct r. exact Hr.
Qed.

Lemma calculate_never_exposes_a_protected_tile_witness :
  exists N, forall fuel, (N <= fuel)%nat ->
    exists ramparts matrix,
      calculate fuel (wallAt 20 20) [(25, 25)] (10, 40) = Some (ramparts, matrix)
      /\ (forall p,
            inRoom (fst p) (snd p) ->
            arr_get (createRoom2DArrayFromTerrain (wallAt 20 20) defaultBounds) (fst p) (snd p)
              = Some NORMAL ->
            (exists s, In s [(25, 25)] /\ cheb p s <= 3) \/ neighbour8 (10, 40) p ->
            arr_get matrix (fst p) (snd p) = Some 0)
      /\ (forall r, In r ramparts -> arr_get matrix (px r) (py r) = Some 0).
Proof.
  apply (calculate_never_exposes_a_protected_tile (wallAt 20 20) [(25, 25)] (10, 40)).
  intros s [<-|[]]. unfold inRoom, ROOM_SIZE. simpl. lia.
Defined.

(** ** The class [Graph] *)

(** X3: on a graph made by valid calls of [addEdge], with two different
    vertices [s] and [t], [calcMinCut] returns with enough fuel; what it
    leaves on the edges is a flow from [s] to [t] whose value is the
    returned number, and no flow on these edges has a larger value. *)
Theorem calcMinCut_returns_a_maximum_flow vertexCount calls s t :
  validCalls vertexCount calls ->
  0 <= s < vertexCount -> 0 <= t < vertexCount -> s <> t ->
  exists N count g',
    (forall fuel, (N <= fuel)%nat ->
       calcMinCut fuel (graphOf vertexCount calls) s t = Some (count, g'))
    /\ stateOf vertexCount calls g'
    /\ flow_ok (g_edges g') s t
    /\ count = excess (g_edges g') s
    /\ forall edges, same_skel (g_edges (graphOf vertexCount calls)) edges ->
         flow_ok edges s t -> excess edges s <= count.
Proof.
  intros Hvalid Hs Ht Hne.
  destruct (calcMinCut_general vertexCount calls s t Hvalid (proj2 Ht) Hne)
    as (N & count & g' & Hpost & Hrun).
  exists N, count, g'. split; [exact Hrun|].
  destruct (graphOf_built _ _ Hvalid) as [Hb Hv].
  pose proof Hpost as [Hskel Hflow Hval Hv' _ _ _].
  rewrite (built_excess _ _ s Hb) in Hval.
  split; [split; [congruence|exact Hskel]|]. split; [exact Hflow|]. split; [lia|].
  intros edges Hskel' Hok. eapply calcMinCut_maximal; eauto.
Qed.

Lemma calcMinCut_returns_a_maximum_flow_witness :
  exists N count g',
    (forall fuel, (N <= fuel)%nat ->
       calcMinCut fuel (graphOf 4 diamondCalls) 0 3 = Some (count, g'))
    /\ stateOf 4 diamondCalls g'
    /\ flow_ok (g_edges g') 0 3
    /\ count = excess (g_edges g') 0
    /\ forall edges, same_skel (g_edges (graphOf 4 diamondCalls)) edges ->
         flow_ok edges 0 3 -> excess edges 0 <= count.
Proof.
  apply (calcMinCut_returns_a_maximum_flow 4 diamondCalls 0 3);
    [exact validCalls_diamond|lia|lia|lia].
Defined.

(** X4: after valid calls of [addEdge] on a new graph every edge has flow
    0, is no loop, and [edges[e.v][e.r]] is its partner, which points back
    to it; an edge either has capacity 0 or is the forward edge of one of
    the calls, every call has its forward edge, and the capacities out of a
    vertex add up to those of the calls that start there. *)
Theorem addEdge_keeps_every_edge_paired_with_its_reverse vertexCount calls :
  validCalls vertexCount calls ->
  (forall u i e, edgeAt (g_edges (graphOf vertexCount calls)) u i = Some e ->
     e_f e = 0 /\ e_v e <> u /\ (e_c e = 0 \/ In (u, e_v e, e_c e) calls)
     /\ exists e', edgeAt (g_edges (graphOf vertexCount calls)) (e_v e) (e_r e) = Some e'
                   /\ e_v e' = u /\ e_r e' = i)
  /\ (forall u v c, In (u, v, c) calls ->
        exists i e, edgeAt (g_edges (graphOf vertexCount calls)) u i = Some e
                    /\ e_v e = v /\ e_c e = c)
  /\ forall w, sumCap (edgesOf (g_edges (graphOf vertexCount calls)) w)
      = zsum (fun call : Z * Z * Z => if fst (fst call) =? w then snd call else 0) calls.
Proof.
  intros Hvalid. destruct (graphOf_built _ _ Hvalid) as [[Hp Hz Hf Hh Hc Hl] _].
  split; [|split; [exact Hh|exact Hc]].
  intros u i e He. split; [eapply Hz; eauto|]. split; [eapply (pr_noloop _ Hp); eauto|].
  split; [eapply Hf; eauto|]. eapply (pr_partner _ Hp); eauto.
Qed.

Lemma addEdge_keeps_every_edge_paired_with_its_reverse_witness :
  (forall u i e, edgeAt (g_edges (graphOf 4 diamondCalls)) u i = Some e ->
     e_f e = 0 /\ e_v e <> u /\ (e_c e = 0 \/ In (u, e_v e, e_c e) diamondCalls)
     /\ exists e', edgeAt (g_edges (graphOf 4 diamondCalls)) (e_v e) (e_r e) = Some e'
                   /\ e_v e' = u /\ e_r e' = i)
  /\ (forall u v c, In (u, v, c) diamondCalls ->
        exists i e, edgeAt (g_edges (graphOf 4 diamondCalls)) u i = Some e
                    /\ e_v e = v /\ e_c e = c)
  /\ forall w, sumCap (edgesOf (g_edges (graphOf 4 diamondCalls)) w)
      = zsum (fun call : Z * Z * Z => if fst (fst call) =? w then snd call else 0)
          diamondCalls.
Proof.
  apply (addEdge_keeps_every_edge_paired_with_its_reverse 4 diamondCalls).
  exact validCalls_diamond.
Defined.

(** X5: [bfs] from [s] returns with enough fuel and leaves the edges as
    they are; afterwards the level of a vertex is at least 0 exactly when
    [s] reaches it along edges that are not full, and the result is [true]
    exactly when the sink [t] is reached. *)
Theorem bfs_finds_the_vertices_reached_in_the_residual_graph vertexCount calls g s t :
  validCalls vertexCount calls -> stateOf vertexCount calls g ->
  0 <= s < vertexCount -> 0 <= t < vertexCount ->
  exists N, forall fuel, (N <= fuel)%nat ->
    exists b g', bfs fuel g s t = Some (b, g')
      /\ g_v g' = g_v g /\ g_edges g' = g_edges g
      /\ (forall w, 0 <= lvl (g_level g') w <-> residualReach (g_edges g) s w)
      /\ (b = true <-> residualReach (g_edges g) s t).
Proof.
  intros _ [Hv _] _ Ht.
  exists (S (S (length (targets (g_edges g))))). intros fuel Hfuel.
  destruct (bfs_terminates fuel g s t ltac:(lia)) as [[b g'] Hrun].
  exists b, g'. split; [exact Hrun|].
  apply (bfs_general fuel g s t b g'); [rewrite Hv; lia|exact Hrun].
Qed.

Lemma bfs_finds_the_vertices_reached_in_the_residual_graph_witness :
  exists N, forall fuel, (N <= fuel)%nat ->
    exists b g', bfs fuel (graphOf 4 diamondCalls) 0 3 = Some (b, g')
      /\ g_v g' = g_v (graphOf 4 diamondCalls)
      /\ g_edges g' = g_edges (graphOf 4 diamondCalls)
      /\ (forall w, 0 <= lvl (g_level g') w
                    <-> residualReach (g_edges (graphOf 4 diamondCalls)) 0 w)
      /\ (b = true <-> residualReach (g_edges (graphOf 4 diamondCalls)) 0 3).
Proof.
  apply (bfs_finds_the_vertices_reached_in_the_residual_graph 4 diamondCalls
           (graphOf 4 diamondCalls) 0 3);
    [exact validCalls_diamond|split; [reflexivity|apply same_skel_refl]|lia|lia].
Defined.



(** X7: [calcMinCut] followed by [bfsTheCut] finds a minimum cut.  With
    enough fuel both return; the set [q] that [bfsTheCut] explores holds
    [s] and not [t], every edge that leaves it is full, the capacity that
    leaves it is the number [calcMinCut] returned, and no set of vertices
    with [s] and without [t] is left by less capacity. *)
Theorem bfsTheCut_after_calcMinCut_finds_a_minimum_cut vertexCount calls s t :
  validCalls vertexCount calls ->
  0 <= s < vertexCount -> 0 <= t < vertexCount -> s <> t ->
  exists N count g' g'' q,
    (forall fuel, (N <= fuel)%nat ->
       calcMinCut fuel (graphOf vertexCount calls) s t = Some (count, g')
       /\ bfsTheCut fuel g' s = Some (cutOf (g_edges g') q, g''))
    /\ NoDup q /\ In s q /\ ~ In t q
    /\ (forall u i e, In u q -> edgeAt (g_edges g') u i = Some e -> ~ In (e_v e) q ->
          e_f e = e_c e)
    /\ cutCap (g_edges (graphOf vertexCount calls)) q = count
    /\ forall q', NoDup q' -> In s q' -> ~ In t q' ->
         count <= cutCap (g_edges (graphOf vertexCount calls)) q'.
Proof.
  intros Hvalid _ Ht Hne.
  destruct (minCut_general vertexCount calls s t Hvalid (proj2 Ht) Hne)
    as (N & count & g' & g'' & q & Hnd & Hs & Htq & Hflow & Hcl & Hcap & Hmin & Hrun).
  exists N, count, g', g'', q. split; [exact Hrun|].
  split; [exact Hnd|]. split; [exact Hs|]. split; [exact Htq|].
  split; [|split; [exact Hcap|exact Hmin]].
  intros u i e Hu He Hv. eapply closed_edge_full; eauto.
Qed.

Lemma bfsTheCut_after_calcMinCut_finds_a_minimum_cut_witness :
  exists N count g' g'' q,
    (forall fuel, (N <= fuel)%nat ->
       calcMinCut fuel (graphOf 4 diamondCalls) 0 3 = Some (count, g')
       /\ bfsTheCut fuel g' 0 = Some (cutOf (g_edges g') q, g''))
    /\ NoDup q /\ In 0 q /\ ~ In 3 q
    /\ (forall u i e, In u q -> edgeAt (g_edges g') u i = Some e -> ~ In (e_v e) q ->
          e_f e = e_c e)
    /\ cutCap (g_edges (graphOf 4 diamondCalls)) q = count
    /\ forall q', NoDup q' -> In 0 q' -> ~ In 3 q' ->
         count <= cutCap (g_edges (graphOf 4 diamondCalls)) q'.
Proof.
  apply (bfsTheCut_after_calcMinCut_finds_a_minimum_cut 4 diamondCalls 0 3);
    [exact validCalls_diamond|lia|lia|lia].
Defined.

(** X25: a second run of [calcMinCut] on the graph that the first run
    left finds nothing to add: it returns 0 and leaves every edge as it
    is, and the sink is not reached from the source along edges that are
    not full. *)
Theorem calcMinCut_twice_returns_0_the_second_time vertexCount calls s t :
  validCalls vertexCount calls ->
  0 <= s < vertexCount -> 0 <= t < vertexCount -> s <> t ->
  exists N count g',
    (forall fuel, (N <= fuel)%nat ->
       calcMinCut fuel (graphOf vertexCount calls) s t = Some (count, g')
       /\ exists g'', calcMinCut fuel g' s t = Some (0, g'') /\ g_edges g'' = g_edges g')
    /\ ~ residualReach (g_edges g') s t.
Proof.
  intros Hvalid Hs Ht Hne.
  destruct (calcMinCut_general vertexCount calls s t Hvalid (proj2 Ht) Hne)
    as (N1 & count & g' & Hpost & Hrun).
  destruct (calcMinCut_again vertexCount calls s t g' count Hvalid (proj2 Ht) Hne Hpost)
    as (Hno & N2 & Hrun2).
  exists (Nat.max N1 N2), count, g'. split; [|exact Hno].
  intros fuel Hfuel. split; [apply Hrun; lia|apply Hrun2; lia].
Qed.

Lemma calcMinCut_twice_returns_0_the_second_time_witness :
  exists N count g',
    (forall fuel, (N <= fuel)%nat ->
       calcMinCut fuel (graphOf 4 diamondCalls) 0 3 = Some (count, g')
       /\ exists g'', calcMinCut fuel g' 0 3 = Some (0, g'') /\ g_edges g'' = g_edges g')
    /\ ~ residualReach (g_edges g') 0 3.
Proof.
  apply (calcMinCut_twice_returns_0_the_second_time 4 diamondCalls 0 3);
    [exact validCalls_diamond|lia|lia|lia].
Defined.

(** ** [createRoom2DArrayFromTerrain] *)

(** X8: with bounds that [createGraph] accepts, the classifier returns a
    50 x 50 array of the tags UNWALKABLE, NORMAL, TO_EXIT and EXIT.  A tile
    is tagged EXIT exactly when it lies on the border of the room, inside
    the bounds, and is not a wall; it is tagged UNWALKABLE exactly when it
    is a wall or outside the bounds and not an inner tile with a neighbour
    tagged EXIT. *)
Theorem classifier_tags_open_border_tiles_EXIT terrainData bounds :
  validBounds bounds = true ->
  isField (createRoom2DArrayFromTerrain terrainData bounds)
  /\ forall x y, inRoom x y ->
       (exists tag, arr_get (createRoom2DArrayFromTerrain terrainData bounds) x y = Some tag
                    /\ In tag [UNWALKABLE; NORMAL; TO_EXIT; EXIT])
       /\ (arr_get (createRoom2DArrayFromTerrain terrainData bounds) x y = Some EXIT
           <-> (x1 bounds <= x <= x2 bounds /\ y1 bounds <= y <= y2 bounds)
               /\ terrainData x y <> TERRAIN_MASK_WALL
               /\ (x = 0 \/ y = 0 \/ x = 49 \/ y = 49))
       /\ (arr_get (createRoom2DArrayFromTerrain terrainData bounds) x y = Some UNWALKABLE
           <-> ~ (interior x y
                  /\ exists n, neighbour8 (x, y) n
                       /\ arr_get (createRoom2DArrayFromTerrain terrainData bounds)
                            (fst n) (snd n) = Some EXIT)
               /\ ~ ((x1 bounds <= x <= x2 bounds /\ y1 bounds <= y <= y2 bounds)
                     /\ terrainData x y <> TERRAIN_MASK_WALL)).
Proof.
  intros Hvalid. destruct (createRoom_tagged terrainData bounds Hvalid) as [Hf Hget].
  split; [exact Hf|]. intros x y Hin.
  destruct (room2D_cases terrainData bounds x y Hvalid Hin) as (C1 & C2 & _ & _).
  split; [|split; [exact C2|exact C1]].
  exists (classTag terrainData bounds x y). split; [apply Hget; exact Hin|].
  apply classTag_values.
Qed.

Lemma classifier_tags_open_border_tiles_EXIT_witness :
  isField (createRoom2DArrayFromTerrain (wallAt 20 20) (mkBounds 10 10 40 40))
  /\ forall x y, inRoom x y ->
       (exists tag,
          arr_get (createRoom2DArrayFromTerrain (wallAt 20 20) (mkBounds 10 10 40 40)) x y
            = Some tag
          /\ In tag [UNWALKABLE; NORMAL; TO_EXIT; EXIT])
       /\ (arr_get (createRoom2DArrayFromTerrain (wallAt 20 20) (mkBounds 10 10 40 40)) x y
             = Some EXIT
           <-> (x1 (mkBounds 10 10 40 40) <= x <= x2 (mkBounds 10 10 40 40)
                /\ y1 (mkBounds 10 10 40 40) <= y <= y2 (mkBounds 10 10 40 40))
               /\ wallAt 20 20 x y <> TERRAIN_MASK_WALL
               /\ (x = 0 \/ y = 0 \/ x = 49 \/ y = 49))
       /\ (arr_get (createRoom2DArrayFromTerrain (wallAt 20 20) (mkBounds 10 10 40 40)) x y
             = Some UNWALKABLE
           <-> ~ (interior x y
                  /\ exists n, neighbour8 (x, y) n
                       /\ arr_get (createRoom2DArrayFromTerrain (wallAt 20 20)
                                     (mkBounds 10 10 40 40)) (fst n) (snd n) = Some EXIT)
               /\ ~ ((x1 (mkBounds 10 10 40 40) <= x <= x2 (mkBounds 10 10 40 40)
                      /\ y1 (mkBounds 10 10 40 40) <= y <= y2 (mkBounds 10 10 40 40))
                     /\ wallAt 20 20 x y <> TERRAIN_MASK_WALL)).
Proof.
  apply (classifier_tags_open_border_tiles_EXIT (wallAt 20 20) (mkBounds 10 10 40 40)).
  reflexivity.
Defined.

(** X9: with bounds that [createGraph] accepts, a tile of the room is
    tagged NORMAL exactly when it is not a wall, lies strictly inside the
    bounds, off the border of the room, and none of its eight neighbours is
    tagged EXIT. *)
Theorem classifier_tags_NORMAL_away_from_exits terrainData bounds x y :
  validBounds bounds = true -> inRoom x y ->
  (arr_get (createRoom2DArrayFromTerrain terrainData bounds) x y = Some NORMAL
   <-> terrainData x y <> TERRAIN_MASK_WALL
       /\ x1 bounds < x < x2 bounds /\ y1 bounds < y < y2 bounds
       /\ forall n, neighbour8 (x, y) n ->
            arr_get (createRoom2DArrayFromTerrain terrainData bounds) (fst n) (snd n)
            <> Some EXIT).
Proof.
  intros Hvalid Hin.
  destruct (room2D_cases terrainData bounds x y Hvalid Hin) as (_ & _ & _ & C4).
  apply validBounds_spec in Hvalid. rewrite C4. clear C4. split.
  - intros (Hnear & HB & Hopen & Hborder & Hedge).
    split; [exact Hopen|]. split; [lia|]. split; [lia|].
    intros n Hn Hexit. apply Hnear. split; [unfold interior; lia|]. exists n. auto.
  - intros (Hopen & Hx & Hy & Hnone). split.
    + intros [_ (n & Hn & Hexit)]. exact (Hnone n Hn Hexit).
    + split; [lia|]. split; [exact Hopen|]. split; lia.
Qed.

Lemma classifier_tags_NORMAL_away_from_exits_witness :
  arr_get (createRoom2DArrayFromTerrain (wallAt 20 20) (mkBounds 10 10 40 40)) 25 25
    = Some NORMAL
  <-> wallAt 20 20 25 25 <> TERRAIN_MASK_WALL
      /\ x1 (mkBounds 10 10 40 40) < 25 < x2 (mkBounds 10 10 40 40)
      /\ y1 (mkBounds 10 10 40 40) < 25 < y2 (mkBounds 10 10 40 40)
      /\ forall n, neighbour8 (25, 25) n ->
           arr_get (createRoom2DArrayFromTerrain (wallAt 20 20) (mkBounds 10 10 40 40))
             (fst n) (snd n) <> Some EXIT.
Proof.
  apply (classifier_tags_NORMAL_away_from_exits (wallAt 20 20) (mkBounds 10 10 40 40) 25 25).
  - reflexivity.
  - unfold inRoom, ROOM_SIZE. lia.
Defined.

(** X10: with bounds that [createGraph] accepts, a tile of the room is
    tagged TO_EXIT exactly when it is an inner tile with a neighbour tagged
    EXIT, whatever its terrain, or a tile that is not a wall, off the
    border of the room, on the first or last column or row of the bounds. *)
Theorem classifier_tags_TO_EXIT_next_to_exits_and_on_the_bounds terrainData bounds x y :
  validBounds bounds = true -> inRoom x y ->
  (arr_get (createRoom2DArrayFromTerrain terrainData bounds) x y = Some TO_EXIT
   <-> (interior x y
        /\ exists n, neighbour8 (x, y) n
             /\ arr_get (createRoom2DArrayFromTerrain terrainData bounds) (fst n) (snd n)
                = Some EXIT)
       \/ (terrainData x y <> TERRAIN_MASK_WALL /\ interior x y
           /\ (x1 bounds <= x <= x2 bounds /\ y1 bounds <= y <= y2 bounds)
           /\ (x = x1 bounds \/ y = y1 bounds \/ x = x2 bounds \/ y = y2 bounds))).
Proof.
  intros Hvalid Hin.
  destruct (room2D_cases terrainData bounds x y Hvalid Hin) as (_ & _ & C3 & _).
  rewrite C3. clear C3. unfold inRoom, ROOM_SIZE in Hin. unfold interior. split.
  - intros [Hnear|(HB & Hopen & Hborder & Hedge)]; [left; exact Hnear|].
    right. split; [exact Hopen|]. split; [lia|]. split; [exact HB|exact Hedge].
  - intros [Hnear|(Hopen & Hint & HB & Hedge)]; [left; exact Hnear|].
    right. split; [exact HB|]. split; [exact Hopen|]. split; [lia|exact Hedge].
Qed.

Lemma classifier_tags_TO_EXIT_next_to_exits_and_on_the_bounds_witness :
  arr_get (createRoom2DArrayFromTerrain (wallAt 20 20) (mkBounds 10 10 40 40)) 10 25
    = Some TO_EXIT
  <-> (interior 10 25
       /\ exists n, neighbour8 (10, 25) n
            /\ arr_get (createRoom2DArrayFromTerrain (wallAt 20 20) (mkBounds 10 10 40 40))
                 (fst n) (snd n) = Some EXIT)
      \/ (wallAt 20 20 10 25 <> TERRAIN_MASK_WALL /\ interior 10 25
          /\ (x1 (mkBounds 10 10 40 40) <= 10 <= x2 (mkBounds 10 10 40 40)
              /\ y1 (mkBounds 10 10 40 40) <= 25 <= y2 (mkBounds 10 10 40 40))
          /\ (10 = x1 (mkBounds 10 10 40 40) \/ 25 = y1 (mkBounds 10 10 40 40)
              \/ 10 = x2 (mkBounds 10 10 40 40) \/ 25 = y2 (mkBounds 10 10 40 40))).
Proof.
  apply (classifier_tags_TO_EXIT_next_to_exits_and_on_the_bounds
           (wallAt 20 20) (mkBounds 10 10 40 40) 10 25).
  - reflexivity.
  - unfold inRoom, ROOM_SIZE. lia.
Defined.

(** ** [createGraph] *)

(** The calls of [addEdge] that [createGraph] makes, by kind. *)
Lemma graphCalls_kinds roomArray u v c :
  In (u, v, c) (graphCalls roomArray) <->
  exists x y, interior x y /\
    let top := positionToVertex x y + TOP_OFFSET in
    let bot := top + BOT_OFFSET in
    (u = top /\ v = bot /\ c = 1
       /\ (arr_get roomArray x y = Some NORMAL \/ arr_get roomArray x y = Some PROTECTED))
    \/ (u = SOURCE_VERTEX /\ v = top /\ c = MAX_VALUE
        /\ arr_get roomArray x y = Some PROTECTED)
    \/ (u = top /\ v = SINK_VERTEX /\ c = MAX_VALUE /\ arr_get roomArray x y = Some TO_EXIT)
    \/ (u = bot /\ c = MAX_VALUE
        /\ (arr_get roomArray x y = Some NORMAL \/ arr_get roomArray x y = Some PROTECTED)
        /\ exists n, neighbour8 (x, y) n
             /\ v = positionToVertex (fst n) (snd n) + TOP_OFFSET
             /\ (arr_get roomArray (fst n) (snd n) = Some NORMAL
                 \/ arr_get roomArray (fst n) (snd n) = Some TO_EXIT)).
Proof.
  rewrite In_graphCalls. cbv zeta. split.
  - intros (x & y & Hxy & Hin). exists x, y. split; [exact Hxy|].
    apply In_tileCalls in Hin. cbv zeta in Hin.
    destruct Hin as [[Heq H]|[[Heq H]|[[Heq H]|[Hin H]]]].
    + injection Heq as -> -> ->. left. auto.
    + injection Heq as -> -> ->. right. left. auto.
    + injection Heq as -> -> ->. right. right. left. auto.
    + right. right. right. apply In_neighbourCalls in Hin.
      destruct Hin as (d & Hd & Heq & Ht). injection Heq as -> -> ->.
      split; [reflexivity|]. split; [reflexivity|]. split; [exact H|].
      exists (x + fst d, y + snd d). split; [exists d; auto|]. cbn [fst snd]. auto.
  - intros (x & y & Hxy & H). exists x, y. split; [exact Hxy|].
    apply In_tileCalls. cbv zeta.
    destruct H as [(-> & -> & -> & H)|[(-> & -> & -> & H)|[(-> & -> & -> & H)|
      (-> & -> & H & n & (d & Hd & ->) & -> & Ht)]]].
    + left. auto.
    + right. left. auto.
    + right. right. left. auto.
    + right. right. right. split; [|exact H]. apply In_neighbourCalls.
      exists d. cbn [fst snd] in *. auto.
Qed.

(** X11: the loop of [createGraph] over the coordinates to protect tags
    PROTECTED exactly the listed tiles that the classifier tagged NORMAL;
    every other tile keeps the tag of the classifier, so that listed walls,
    exits, tiles next to exits and coordinates outside the room are ignored. *)
Theorem createGraph_protects_only_listed_NORMAL_tiles terrainData coords bounds :
  validBounds bounds = true ->
  isField (protectedRoomArray terrainData coords bounds)
  /\ forall x y,
       (arr_get (protectedRoomArray terrainData coords bounds) x y = Some PROTECTED
        <-> In (x, y) coords
            /\ arr_get (createRoom2DArrayFromTerrain terrainData bounds) x y = Some NORMAL)
       /\ (arr_get (protectedRoomArray terrainData coords bounds) x y <> Some PROTECTED ->
           arr_get (protectedRoomArray terrainData coords bounds) x y
           = arr_get (createRoom2DArrayFromTerrain terrainData bounds) x y).
Proof. apply protected_iff. Qed.

Lemma createGraph_protects_only_listed_NORMAL_tiles_witness :
  isField (protectedRoomArray (wallAt 20 20) [(25, 25); (20, 20); (0, 7); (60, 3)]
             (mkBounds 10 10 40 40))
  /\ forall x y,
       (arr_get (protectedRoomArray (wallAt 20 20) [(25, 25); (20, 20); (0, 7); (60, 3)]
                   (mkBounds 10 10 40 40)) x y = Some PROTECTED
        <-> In (x, y) [(25, 25); (20, 20); (0, 7); (60, 3)]
            /\ arr_get (createRoom2DArrayFromTerrain (wallAt 20 20) (mkBounds 10 10 40 40))
                 x y = Some NORMAL)
       /\ (arr_get (protectedRoomArray (wallAt 20 20) [(25, 25); (20, 20); (0, 7); (60, 3)]
                      (mkBounds 10 10 40 40)) x y <> Some PROTECTED ->
           arr_get (protectedRoomArray (wallAt 20 20) [(25, 25); (20, 20); (0, 7); (60, 3)]
                      (mkBounds 10 10 40 40)) x y
           = arr_get (createRoom2DArrayFromTerrain (wallAt 20 20) (mkBounds 10 10 40 40))
               x y).
Proof.
  apply (createGraph_protects_only_listed_NORMAL_tiles (wallAt 20 20)
           [(25, 25); (20, 20); (0, 7); (60, 3)] (mkBounds 10 10 40 40)).
  reflexivity.
Defined.

(** X12: with valid bounds [createGraph] returns a graph of 5002 vertices
    whose edges of positive capacity are exactly these, for the inner tiles
    [(x, y)] of the room: top -> bot with capacity 1 for a NORMAL or
    PROTECTED tile; SOURCE -> top with capacity [Number.MAX_VALUE] for a
    PROTECTED tile; top -> SINK with that capacity for a TO_EXIT tile; and
    bot -> top of a neighbour, with that capacity, from a NORMAL or
    PROTECTED tile to a neighbour tagged NORMAL or TO_EXIT. *)
Theorem createGraph_has_exactly_the_edges_of_the_tile_network terrainData coords bounds :
  validBounds bounds = true ->
  exists graph,
    createGraph terrainData coords bounds = Some graph
    /\ g_v graph = GRAPH_VERTEX_COUNT
    /\ forall u v c, 0 < c ->
       ((exists i e, edgeAt (g_edges graph) u i = Some e /\ e_v e = v /\ e_c e = c)
        <-> exists x y, interior x y /\
              let tagAt := arr_get (protectedRoomArray terrainData coords bounds) in
              let top := positionToVertex x y + TOP_OFFSET in
              let bot := top + BOT_OFFSET in
              (u = top /\ v = bot /\ c = 1
                 /\ (tagAt x y = Some NORMAL \/ tagAt x y = Some PROTECTED))
              \/ (u = SOURCE_VERTEX /\ v = top /\ c = MAX_VALUE
                  /\ tagAt x y = Some PROTECTED)
              \/ (u = top /\ v = SINK_VERTEX /\ c = MAX_VALUE /\ tagAt x y = Some TO_EXIT)
              \/ (u = bot /\ c = MAX_VALUE
                  /\ (tagAt x y = Some NORMAL \/ tagAt x y = Some PROTECTED)
                  /\ exists n, neighbour8 (x, y) n
                       /\ v = positionToVertex (fst n) (snd n) + TOP_OFFSET
                       /\ (tagAt (fst n) (snd n) = Some NORMAL
                           \/ tagAt (fst n) (snd n) = Some TO_EXIT))).
Proof.
  intros Hvalid. unfold createGraph. rewrite Hvalid.
  set (roomArray := protectedRoomArray terrainData coords bounds).
  exists (buildGraph roomArray). split; [reflexivity|].
  destruct (built_graph roomArray) as [Hb Hv]. split; [exact Hv|].
  intros u v c Hc. cbv zeta. rewrite <- (graphCalls_kinds roomArray u v c). split.
  - intros (i & e & He & <- & <-).
    destruct (bl_fwd _ _ Hb u i e He) as [H0|Hin]; [lia|exact Hin].
  - intros Hin. exact (bl_has _ _ Hb u v c Hin).
Qed.

Lemma createGraph_has_exactly_the_edges_of_the_tile_network_witness :
  exists graph,
    createGraph (wallAt 20 20) [(25, 25)] (mkBounds 10 10 40 40) = Some graph
    /\ g_v graph = GRAPH_VERTEX_COUNT
    /\ forall u v c, 0 < c ->
       ((exists i e, edgeAt (g_edges graph) u i = Some e /\ e_v e = v /\ e_c e = c)
        <-> exists x y, interior x y /\
              let tagAt :=
                arr_get (protectedRoomArray (wallAt 20 20) [(25, 25)] (mkBounds 10 10 40 40)) in
              let top := positionToVertex x y + TOP_OFFSET in
              let bot := top + BOT_OFFSET in
              (u = top /\ v = bot /\ c = 1
                 /\ (tagAt x y = Some NORMAL \/ tagAt x y = Some PROTECTED))
              \/ (u = SOURCE_VERTEX /\ v = top /\ c = MAX_VALUE
                  /\ tagAt x y = Some PROTECTED)
              \/ (u = top /\ v = SINK_VERTEX /\ c = MAX_VALUE /\ tagAt x y = Some TO_EXIT)
              \/ (u = bot /\ c = MAX_VALUE
                  /\ (tagAt x y = Some NORMAL \/ tagAt x y = Some PROTECTED)
                  /\ exists n, neighbour8 (x, y) n
                       /\ v = positionToVertex (fst n) (snd n) + TOP_OFFSET
                       /\ (tagAt (fst n) (snd n) = Some NORMAL
                           \/ tagAt (fst n) (snd n) = Some TO_EXIT))).
Proof.
  apply (createGraph_has_exactly_the_edges_of_the_tile_network (wallAt 20 20) [(25, 25)]
           (mkBounds 10 10 40 40)).
  reflexivity.
Defined.

(** ** [getCostArrayPure] *)

(** X13: after [getCostArrayPure] with a seed in the room and a radius
    R >= 0 the array is still 50 x 50, and a tile that the seed reaches
    through non-wall tiles of the room in at most R steps holds exactly its
    distance: the value is the length of a walk from the seed to the tile,
    and no walk to the tile is shorter.  What the array held there before
    does not matter. *)
Theorem getCostArrayPure_writes_the_exact_distance (fuel : nat) (costArr : Grid Z)
    (sx sy maxRange : Z) (terrainData : TerrainData) :
  isField costArr -> inRoom sx sy -> 0 <= maxRange -> (2501 <= fuel)%nat ->
  exists costArr',
    getCostArrayPure fuel costArr sx sy maxRange terrainData = Some costArr'
    /\ isField costArr'
    /\ arr_get costArr' sx sy = Some 0
    /\ forall x y,
         (exists n, n <= maxRange /\ walk (fieldStep terrainData) (sx, sy) n (x, y)) ->
         exists v, arr_get costArr' x y = Some v
                   /\ 0 <= v <= maxRange
                   /\ walk (fieldStep terrainData) (sx, sy) v (x, y)
                   /\ forall n, walk (fieldStep terrainData) (sx, sy) n (x, y) -> v <= n.
Proof.
  intros Hfield Hseed HR Hfuel.
  unfold getCostArrayPure.
  assert (Hcol : has_column (initArr false) sx = true).
  { unfold has_column, initArr. rewrite length_replicate.
    destruct Hseed as [Hx _]. unfold ROOM_SIZE in *.
    apply andb_true_iff. rewrite Z.leb_le, Z.ltb_lt. lia. }
  rewrite Hcol.
  destruct (cost_loop_terminates terrainData maxRange sx sy costArr HR Hseed Hfield fuel Hfuel)
    as [[[costArr' explored'] q'] Hloop].
  rewrite Hloop. exists costArr'. split; [reflexivity|].
  pose proof (queue_loop_prefix _ _ _ _ _ _ _ Hloop) as [more Hq'].
  assert (Hinv : cost_inv terrainData maxRange sx sy costArr (costArr', explored') q' (length q')).
  { eapply (queue_loop_inv _ (cost_inv terrainData maxRange sx sy costArr)); [| | |exact Hloop].
    - intros. eapply cost_inv_step; eauto.
    - by apply cost_inv_init.
    - simpl. lia. }
  assert (Hq0 : q' !! O = Some (sx, sy, 0)) by (rewrite Hq'; reflexivity).
  split; [exact (ci_fieldC _ _ _ _ _ _ _ _ Hinv)|]. split.
  - exact (proj2 (ci_queue _ _ _ _ _ _ _ _ Hinv _ _ Hq0)).
  - intros x y (n0 & Hn0 & Hwalk0).
    destruct (cost_inv_optimal _ _ _ _ _ _ _ Hinv Hq0 n0 (x, y) Hwalk0 Hn0)
      as [Hex (v & Hv & Hle)].
    destruct (ci_sound _ _ _ _ _ _ _ _ Hinv (x, y) Hex) as (m & Hm & Hwalk & Hrange).
    assert (m = v) by (unfold costAt in *; simpl in *; congruence). subst m.
    exists v. split; [exact Hv|]. split; [exact Hrange|]. split; [exact Hwalk|].
    intros n Hwalkn.
    destruct (Z.le_gt_cases n maxRange) as [Hn|Hn]; [|lia].
    destruct (cost_inv_optimal _ _ _ _ _ _ _ Hinv Hq0 n (x, y) Hwalkn Hn)
      as [_ (v' & Hv' & Hle')].
    unfold costAt in Hv, Hv'. simpl in Hv, Hv'. rewrite Hv in Hv'. injection Hv' as <-.
    exact Hle'.
Qed.

Lemma getCostArrayPure_writes_the_exact_distance_witness :
  exists costArr',
    getCostArrayPure 2501 (initArr 7) 10 10 3 (wallAt 11 10) = Some costArr'
    /\ isField costArr'
    /\ arr_get costArr' 10 10 = Some 0
    /\ forall x y,
         (exists n, n <= 3 /\ walk (fieldStep (wallAt 11 10)) (10, 10) n (x, y)) ->
         exists v, arr_get costArr' x y = Some v
                   /\ 0 <= v <= 3
                   /\ walk (fieldStep (wallAt 11 10)) (10, 10) v (x, y)
                   /\ forall n, walk (fieldStep (wallAt 11 10)) (10, 10) n (x, y) -> v <= n.
Proof.
  apply getCostArrayPure_writes_the_exact_distance.
  - apply isField_initArr.
  - unfold inRoom, ROOM_SIZE. lia.
  - lia.
  - lia.
Defined.

(** * The flood fill of [deleteTilesToDeadEnds], exactly *)

(** The scan of the offsets [ds] around [(x, y)] changes neighbours of
    [(x, y)] only and pushes tiles that it has tagged TO_EXIT. *)
Lemma flood_fold_near x y ds : forall ra pushed,
  isField ra ->
  (forall x' y',
     arr_get (fst (fold_left (flood_visit x y) ds (ra, pushed))) x' y' <> arr_get ra x' y' ->
     exists d, In d ds /\ x' = x + fst d /\ y' = y + snd d)
  /\ (forall v, In v (snd (fold_left (flood_visit x y) ds (ra, pushed))) ->
        In v pushed
        \/ exists d, In d ds /\ v = positionToVertex (x + fst d) (y + snd d)
             /\ arr_get (fst (fold_left (flood_visit x y) ds (ra, pushed)))
                  (x + fst d) (y + snd d) = Some TO_EXIT).
Proof.
  induction ds as [|d ds IH]; intros ra pushed Hf; cbn [fold_left].
  - split; [intros x' y' H; contradiction H; reflexivity|intros v Hv; left; exact Hv].
  - destruct (flood_visit x y (ra, pushed) d) as [ra1 pushed1] eqn:Hv.
    unfold flood_visit in Hv.
    destruct (is_tag ra (x + fst d) (y + snd d) NORMAL) eqn:Ht.
    + injection Hv as <- <-.
      pose proof (is_tag_inRoom _ _ _ _ Hf Ht) as Hin.
      set (ra1 := arr_set ra (x + fst d) (y + snd d) TO_EXIT) in *.
      set (pushed1 := pushed ++ [positionToVertex (x + fst d) (y + snd d)]) in *.
      assert (Hf1 : isField ra1) by (apply isField_set; exact Hf).
      destruct (IH ra1 pushed1 Hf1) as [Ha Hb].
      pose proof (flood_fold_post x y ds ra1 pushed1 Hf1) as Hpost.
      split.
      * intros x' y' Hne.
        destruct (decide (arr_get (fst (fold_left (flood_visit x y) ds (ra1, pushed1))) x' y'
                          = arr_get ra1 x' y')) as [Heq|Hne1].
        -- rewrite Heq in Hne. unfold ra1 in Hne.
           rewrite arr_get_set_field in Hne by assumption.
           destruct (Z.eqb_spec (x + fst d) x') as [Hx|];
             [|contradiction Hne; reflexivity].
           destruct (Z.eqb_spec (y + snd d) y') as [Hy|];
             [|contradiction Hne; reflexivity].
           exists d. split; [left; reflexivity|]. split; congruence.
        -- destruct (Ha x' y' Hne1) as (d' & Hd' & Hx & Hy).
           exists d'. split; [right; exact Hd'|]. split; assumption.
      * intros v Hin'. destruct (Hb v Hin') as [Hp|(d' & Hd' & Hv' & Htag)].
        -- unfold pushed1 in Hp. apply in_app_iff in Hp. destruct Hp as [Hp|[<-|[]]].
           ++ left. exact Hp.
           ++ right. exists d. split; [left; reflexivity|]. split; [reflexivity|].
              destruct (fp_frame _ _ _ _ _ _ _ Hpost (x + fst d) (y + snd d))
                as [Heq|(Hn & _)].
              ** rewrite Heq. unfold ra1. apply arr_get_set_same; assumption.
              ** unfold ra1 in Hn. rewrite arr_get_set_same in Hn by assumption.
                 discriminate Hn.
        -- right. exists d'. split; [right; exact Hd'|]. split; assumption.
    + injection Hv as <- <-. destruct (IH ra pushed Hf) as [Ha Hb]. split.
      * intros x' y' Hne. destruct (Ha x' y' Hne) as (d' & Hd' & Hx & Hy).
        exists d'. split; [right; exact Hd'|]. split; assumption.
      * intros v Hin'. destruct (Hb v Hin') as [Hp|(d' & Hd' & Hv' & Htag)];
          [left; exact Hp|].
        right. exists d'. split; [right; exact Hd'|]. split; assumption.
Qed.

Lemma exitBandSeeds_tag ra v :
  In v (exitBandSeeds ra) ->
  exists x y, v = positionToVertex x y /\ arr_get ra x y = Some TO_EXIT.
Proof.
  unfold exitBandSeeds. intros Hin. apply in_app_iff in Hin.
  destruct Hin as [Hin|Hin]; apply in_flat_map in Hin; destruct Hin as (i & _ & Hin);
    apply in_app_iff in Hin; destruct Hin as [Hin|Hin];
    match type of Hin with
    | In _ (if ?c then _ else _) =>
        destruct c eqn:Ht; [destruct Hin as [<-|[]]|destruct Hin]
    end;
    apply is_tag_spec in Ht; eauto.
Qed.

Lemma flood_sound_step ra0 ra v rest ra' pushed :
  flood_sound ra0 ra (v :: rest) -> flood_body ra v = (ra', pushed) ->
  flood_sound ra0 ra' (rev pushed ++ rest).
Proof.
  intros [Hinv Hreach Hstack] Hbody.
  pose proof (proj1 (flood_inv_step ra0 ra v rest ra' pushed Hinv Hbody)) as Hinv'.
  pose proof (fl_field _ _ _ Hinv) as Hf.
  destruct (Hstack v (or_introl eq_refl)) as (x & y & Hv & Htag).
  pose proof (arr_get_inRoom _ _ _ _ Hf Htag) as Hin.
  assert (Hpos : vertexToPosition v = mkPos x y).
  { rewrite Hv. apply vertexToPosition_positionToVertex. exact (proj1 Hin). }
  unfold flood_body in Hbody. rewrite Hpos in Hbody. cbn [px py] in Hbody.
  pose proof (flood_fold_post x y SURROUND_OFFSETS ra [] Hf) as Hpost.
  destruct (flood_fold_near x y SURROUND_OFFSETS ra [] Hf) as [Hnear Hpushed].
  rewrite Hbody in Hpost, Hnear, Hpushed. cbn [fst snd] in Hpost, Hnear, Hpushed.
  assert (Hkeep : forall x' y', arr_get ra x' y' = Some TO_EXIT ->
            arr_get ra' x' y' = Some TO_EXIT).
  { intros x' y' Ht. destruct (fp_frame _ _ _ _ _ _ _ Hpost x' y') as [Heq|(Hn & _)];
      [congruence|]. rewrite Hn in Ht. discriminate Ht. }
  constructor.
  - exact Hinv'.
  - intros x' y' Ht.
    destruct (decide (arr_get ra' x' y' = arr_get ra x' y')) as [Heq|Hne].
    + apply Hreach. congruence.
    + destruct (Hnear x' y' Hne) as (d & Hd & Hx & Hy).
      destruct (fp_frame _ _ _ _ _ _ _ Hpost x' y') as [Heq|(Hn & _)]; [contradiction|].
      assert (Hn0 : arr_get ra0 x' y' = Some NORMAL).
      { destruct (fl_frame _ _ _ Hinv x' y') as [H0|(H0 & _)]; [congruence|exact H0]. }
      destruct (Hreach x y Htag) as (e & He & Hpath).
      exists e. split; [exact He|].
      apply (connected_snoc _ _ (x, y)); [exact Hpath| |left; exact Hn0].
      exists d. split; [exact Hd|]. cbn [fst snd]. congruence.
  - intros w Hw. apply in_app_iff in Hw. destruct Hw as [Hw|Hw].
    + apply in_rev in Hw. destruct (Hpushed w Hw) as [[]|(d & _ & Hw' & Ht)]. eauto.
    + destruct (Hstack w (or_intror Hw)) as (x' & y' & Hw' & Ht). eauto.
Qed.

Lemma flood_sound_init terrainData cut :
  flood_sound (pruneArray terrainData cut) (pruneArray terrainData cut)
              (rev (exitBandSeeds (pruneArray terrainData cut))).
Proof.
  constructor.
  - apply prune_init.
  - intros x y Ht. exists (x, y). split; [exact Ht|].
    apply connected_here. right. exact Ht.
  - intros v Hv. apply in_rev in Hv. apply exitBandSeeds_tag. exact Hv.
Qed.

(** When the fill has ended every tile joined to a seed is tagged. *)
Lemma flood_complete ra0 flooded e p :
  flood_inv ra0 flooded [] -> connected (floodOpen ra0) e p ->
  arr_get flooded (fst e) (snd e) = Some TO_EXIT ->
  arr_get flooded (fst p) (snd p) = Some TO_EXIT.
Proof.
  intros Hinv Hpath. induction Hpath as [p _|e n p _ (d & Hd & ->) Hrest IH]; intros He;
    [exact He|].
  apply IH. cbn [fst snd].
  pose proof (connected_start _ _ _ Hrest) as Hopen. unfold floodOpen in Hopen.
  cbn [fst snd] in Hopen.
  destruct (fl_frame _ _ _ Hinv (fst e + fst d) (snd e + snd d)) as [Heq|(_ & Ht)];
    [|exact Ht].
  destruct Hopen as [Hn|Ht]; [|congruence].
  exfalso. destruct (fl_closed _ _ _ Hinv _ _ He) as [[]|Hcl].
  apply (Hcl d Hd). congruence.
Qed.

(** The flood fill of the pruning ends, and tags TO_EXIT exactly the
    tiles that a path over tiles tagged NORMAL or TO_EXIT joins to a tile
    tagged TO_EXIT. *)
Lemma flood_exact terrainData cut :
  exists N flooded,
    (forall fuel, (N <= fuel)%nat ->
       stack_loop flood_body fuel (pruneArray terrainData cut)
         (rev (exitBandSeeds (pruneArray terrainData cut))) = Some flooded)
    /\ forall x y, arr_get flooded x y = Some TO_EXIT
                   <-> floodable (pruneArray terrainData cut) (x, y).
Proof.
  set (ra := pruneArray terrainData cut).
  set (N := S (normalCount ra + length (rev (exitBandSeeds ra)))).
  assert (HN : (normalCount ra + length (rev (exitBandSeeds ra)) < N)%nat)
    by (unfold N; lia).
  destruct (flood_terminates ra ra _ N (prune_init terrainData cut) HN)
    as (flooded & Hrun & Hinv).
  assert (Hsound : flood_sound ra flooded []).
  { eapply (stack_loop_inv flood_body (flood_sound ra)); [|apply flood_sound_init|exact Hrun].
    intros st u rest st' pushed HI Hb. eapply flood_sound_step; eauto. }
  exists N, flooded. split.
  - intros fuel Hfuel. eapply stack_loop_mono; [|exact Hrun]. exact Hfuel.
  - intros x y. split; [apply (fs_reach _ _ _ Hsound)|].
    intros (e & He & Hpath).
    apply (flood_complete ra flooded e (x, y) Hinv Hpath).
    destruct (fl_frame _ _ _ Hinv (fst e) (snd e)) as [Heq|(_ & Ht)]; [congruence|exact Ht].
Qed.

(** ** [deleteTilesToDeadEnds] *)

(** X14: for every terrain and every list of cut tiles,
    [deleteTilesToDeadEnds] ends and keeps, in their order, the tiles with
    a neighbour that the flood fill tags TO_EXIT.  The fill starts from the
    array of the classifier for the whole room with the cut tiles made
    UNWALKABLE, and the neighbours tagged are exactly those joined to a
    tile tagged TO_EXIT in that array by a path over tiles tagged NORMAL or
    TO_EXIT there. *)
Theorem deleteTilesToDeadEnds_keeps_the_tiles_beside_the_flooded_area
    terrainData cutTilesArray :
  exists N (keep : Position -> bool),
    (forall fuel, (N <= fuel)%nat ->
       deleteTilesToDeadEnds fuel terrainData cutTilesArray
       = Some (List.filter keep cutTilesArray))
    /\ (forall tile, keep tile = true <->
          exists n, neighbour8 (px tile, py tile) n
                    /\ floodable (pruneArray terrainData cutTilesArray) n)
    /\ forall x y, inRoom x y ->
         (In (mkPos x y) cutTilesArray ->
            arr_get (pruneArray terrainData cutTilesArray) x y = Some UNWALKABLE)
         /\ (~ In (mkPos x y) cutTilesArray ->
             arr_get (pruneArray terrainData cutTilesArray) x y
             = arr_get (createRoom2DArrayFromTerrain terrainData defaultBounds) x y).
Proof.
  destruct (flood_exact terrainData cutTilesArray) as (N & flooded & Hrun & Hexact).
  exists N, (leadsToExit flooded). split; [|split].
  - intros fuel Hfuel. unfold deleteTilesToDeadEnds.
    fold (pruneArray terrainData cutTilesArray). rewrite (Hrun fuel Hfuel). reflexivity.
  - intros tile. unfold leadsToExit. rewrite existsb_exists. split.
    + intros (d & Hd & Ht). apply is_tag_spec in Ht.
      exists (px tile + fst d, py tile + snd d). split; [exists d; auto|].
      apply Hexact. exact Ht.
    + intros (n & (d & Hd & ->) & Hfl). exists d. split; [exact Hd|].
      apply is_tag_spec. apply Hexact. exact Hfl.
  - intros x y Hin.
    destruct (proj2 (pruneArray_get terrainData cutTilesArray) x y Hin) as [Hyes Hno].
    split; [exact Hyes|]. intros Hc. rewrite (Hno Hc). symmetry.
    apply (proj2 (createRoom_tagged terrainData defaultBounds validBounds_default)).
    exact Hin.
Qed.

(** * Placement of building clusters *)

Lemma isOnWallOrEdgePure_false x y terrainData :
  isOnWallOrEdgePure x y terrainData = false
  <-> 1 <= x <= 48 /\ 1 <= y <= 48 /\ terrainData x y <> TERRAIN_MASK_WALL.
Proof.
  unfold isOnWallOrEdgePure, ROOM_MAX_INDEX.
  destruct (Z.leb_spec x 0); cbn [orb]; [split; [discriminate|lia]|].
  destruct (Z.geb_spec x 49); cbn [orb]; [split; [discriminate|lia]|].
  destruct (Z.leb_spec y 0); cbn [orb]; [split; [discriminate|lia]|].
  destruct (Z.geb_spec y 49); cbn [orb]; [split; [discriminate|lia]|].
  rewrite Z.eqb_neq. split; [intros Hw; repeat split; try lia; exact Hw|tauto].
Qed.

Lemma isNearWallOrEdgePure_false x y terrainData :
  isNearWallOrEdgePure x y terrainData = false
  <-> 2 <= x <= 47 /\ 2 <= y <= 47
      /\ forall d, In d SURROUND_OFFSETS ->
           terrainData (x + fst d) (y + snd d) <> TERRAIN_MASK_WALL.
Proof.
  unfold isNearWallOrEdgePure, ROOM_MAX_INDEX.
  destruct (Z.leb_spec x 1); cbn [orb]; [split; [discriminate|lia]|].
  destruct (Z.geb_spec x (49 - 1)); cbn [orb]; [split; [discriminate|lia]|].
  destruct (Z.leb_spec y 1); cbn [orb]; [split; [discriminate|lia]|].
  destruct (Z.geb_spec y (49 - 1)); cbn [orb]; [split; [discriminate|lia]|].
  rewrite <- not_true_iff_false, existsb_exists. split.
  - intros Hno. split; [lia|]. split; [lia|]. intros d Hd Hw. apply Hno.
    exists d. split; [exact Hd|]. apply Z.eqb_eq. exact Hw.
  - intros (_ & _ & Hall) (d & Hd & Hw). apply Z.eqb_eq in Hw. exact (Hall d Hd Hw).
Qed.

Lemma isBuilt_set built x y x' y' :
  isField built -> inRoom x y ->
  isBuilt (arr_set built x y true) x' y'
  = ((x =? x') && (y =? y')) || isBuilt built x' y'.
Proof.
  intros Hf Hin. unfold isBuilt. rewrite arr_get_set_field by assumption.
  destruct ((x =? x') && (y =? y')); reflexivity.
Qed.

Lemma has_column_field {A} (a : Grid A) x y : isField a -> inRoom x y -> has_column a x = true.
Proof.
  intros [Hlen _] [Hx _]. unfold has_column. rewrite Hlen. unfold ROOM_SIZE in *.
  apply andb_true_iff. rewrite Z.leb_le, Z.ltb_lt. lia.
Qed.

Lemma has_column_outside {A} (a : Grid A) x :
  isField a -> ~ 0 <= x < ROOM_SIZE -> has_column a x = false.
Proof.
  intros [Hlen _] Hx. unfold has_column. rewrite Hlen. unfold ROOM_SIZE in *.
  apply andb_false_iff. rewrite Z.leb_gt, Z.ltb_ge. lia.
Qed.

Section ClusterRules.
Context {K : Type} `{Countable K}.
Implicit Types (cluster : @BuildingCluster K) (layout : @RoomLayout K _ _).

Lemma canPut_offset_spec x y built terrainData d :
  canPut_offset x y built terrainData d = true
  <-> inRoom (x + fst d) (y + snd d)
      /\ isBuilt built (x + fst d) (y + snd d) = false
      /\ terrainData (x + fst d) (y + snd d) <> TERRAIN_MASK_WALL.
Proof.
  unfold canPut_offset, inRoom, ROOM_SIZE. cbv zeta.
  destruct (Z.ltb_spec (x + fst d) 0); cbn [orb]; [split; [discriminate|lia]|].
  destruct (Z.geb_spec (x + fst d) 50); cbn [orb]; [split; [discriminate|lia]|].
  destruct (Z.ltb_spec (y + snd d) 0); cbn [orb]; [split; [discriminate|lia]|].
  destruct (Z.geb_spec (y + snd d) 50); cbn [orb]; [split; [discriminate|lia]|].
  destruct (isBuilt built (x + fst d) (y + snd d));
    [split; [discriminate|intros (_ & Hb & _); discriminate Hb]|].
  destruct (Z.eqb_spec (terrainData (x + fst d) (y + snd d)) TERRAIN_MASK_WALL).
  - split; [discriminate|tauto].
  - split; [intros _; repeat split; try lia; assumption|reflexivity].
Qed.

Lemma canPutPure_spec x y cluster built terrainData :
  canPutPure x y cluster built terrainData = true
  <-> forall p, In p (footprint x y cluster) ->
        inRoom (fst p) (snd p) /\ isBuilt built (fst p) (snd p) = false
        /\ terrainData (fst p) (snd p) <> TERRAIN_MASK_WALL.
Proof.
  unfold canPutPure, footprint. rewrite forallb_forall. split.
  - intros Hall p Hp. apply in_map_iff in Hp. destruct Hp as (d & <- & Hd).
    apply in_flat_map in Hd. destruct Hd as (entry & He & Hd).
    specialize (Hall entry He). rewrite forallb_forall in Hall.
    apply canPut_offset_spec. apply Hall. exact Hd.
  - intros Hall entry He. apply forallb_forall. intros d Hd.
    apply canPut_offset_spec.
    apply (Hall (x + fst d, y + snd d)). apply in_map_iff. exists d.
    split; [reflexivity|]. apply in_flat_map. exists entry. auto.
Qed.

Lemma put_offset_None x y offsets : fold_left (put_offset x y) offsets None = None.
Proof. induction offsets as [|d l IH]; [reflexivity|exact IH]. Qed.

Lemma put_type_None x y cluster : fold_left (put_type (K := K) x y) cluster None = None.
Proof. induction cluster as [|e l IH]; [reflexivity|exact IH]. Qed.

Lemma put_offsets_ok x y offsets : forall placed built,
  isField built ->
  (forall d, In d offsets -> inRoom (x + fst d) (y + snd d)) ->
  exists built',
    fold_left (put_offset x y) offsets (Some (placed, built))
    = Some (placed ++ map (fun d => (x + fst d, y + snd d)) offsets, built')
    /\ isField built'
    /\ forall nx ny, isBuilt built' nx ny = true
         <-> isBuilt built nx ny = true
             \/ In (nx, ny) (map (fun d => (x + fst d, y + snd d)) offsets).
Proof.
  induction offsets as [|d offsets IH]; intros placed built Hf Hin.
  - exists built. cbn [fold_left map]. rewrite app_nil_r.
    split; [reflexivity|]. split; [exact Hf|]. intros nx ny. cbn [In]. tauto.
  - cbn [fold_left put_offset].
    pose proof (Hin d (or_introl eq_refl)) as Hd.
    rewrite (has_column_field built _ _ Hf Hd).
    destruct (IH (placed ++ [(x + fst d, y + snd d)]) (arr_set built (x + fst d) (y + snd d) true)
                (isField_set _ _ _ _ Hf) (fun d' Hd' => Hin d' (or_intror Hd')))
      as (built' & Hrun & Hf' & Hb).
    exists built'. split; [rewrite Hrun, <- app_assoc; reflexivity|]. split; [exact Hf'|].
    intros nx ny. rewrite Hb, (isBuilt_set built _ _ nx ny Hf Hd). cbn [map In].
    rewrite orb_true_iff, andb_true_iff, !Z.eqb_eq. split.
    + intros [[[Hx Hy]|Hold]|Hrest]; [right; left; congruence|left; exact Hold|auto].
    + intros [Hold|[Heq|Hrest]]; [auto| |auto].
      injection Heq as Hx Hy. left. left. auto.
Qed.
Lemma footprint_cons x y (entry : K * list (Z * Z)) cluster :
  footprint x y (entry :: cluster)
  = map (fun d => (x + fst d, y + snd d)) (snd entry) ++ footprint x y cluster.
Proof. unfold footprint. cbn [flat_map]. apply map_app. Qed.

Lemma footprintOf_cons x y (entry : K * list (Z * Z)) cluster k :
  footprintOf x y (entry :: cluster) k
  = (if bool_decide (fst entry = k)
     then map (fun d => (x + fst d, y + snd d)) (snd entry) else [])
    ++ footprintOf x y cluster k.
Proof.
  unfold footprintOf. cbn [List.filter].
  destruct (bool_decide (fst entry = k)); [|reflexivity].
  cbn [flat_map]. apply map_app.
Qed.

(** [put] on a footprint that lies in the room. *)
Lemma put_ok x y cluster : forall layout built,
  isField built ->
  (forall p, In p (footprint x y cluster) -> inRoom (fst p) (snd p)) ->
  exists layout' built',
    put x y layout cluster built = Some (layout', built')
    /\ isField built'
    /\ (forall nx ny, isBuilt built' nx ny = true
          <-> isBuilt built nx ny = true \/ In (nx, ny) (footprint x y cluster))
    /\ forall k, default [] (layout' !! k)
                 = default [] (layout !! k) ++ footprintOf x y cluster k.
Proof.
  unfold put.
  induction cluster as [|[k0 offsets] cluster IH]; intros layout built Hf Hin.
  - exists layout, built. split; [reflexivity|]. split; [exact Hf|]. split.
    + intros nx ny. cbn. tauto.
    + intros k. unfold footprintOf. cbn. by rewrite app_nil_r.
  - cbn [fold_left put_type fst snd].
    assert (Hin0 : forall d, In d offsets -> inRoom (x + fst d) (y + snd d)).
    { intros d Hd. apply (Hin (x + fst d, y + snd d)). rewrite footprint_cons.
      apply in_app_iff. left. cbn [snd]. apply in_map_iff. exists d. auto. }
    destruct (put_offsets_ok x y offsets (default [] (layout !! k0)) built Hf Hin0)
      as (built1 & Hrun1 & Hf1 & Hb1).
    rewrite Hrun1.
    set (layout1 := <[k0 := default [] (layout !! k0)
                        ++ map (fun d => (x + fst d, y + snd d)) offsets]> layout).
    destruct (IH layout1 built1 Hf1) as (layout' & built' & Hrun & Hf' & Hb & Hl).
    { intros p Hp. apply Hin. rewrite footprint_cons. apply in_app_iff. right. exact Hp. }
    exists layout', built'. split; [exact Hrun|]. split; [exact Hf'|]. split.
    + intros nx ny. rewrite Hb, Hb1, footprint_cons, in_app_iff. cbn [snd]. tauto.
    + intros k. rewrite Hl, footprintOf_cons. cbn [fst snd]. unfold layout1.
      unfold RoomLayout in *.
      destruct (decide (k0 = k)) as [->|Hne].
      * rewrite lookup_insert_eq, bool_decide_eq_true_2 by reflexivity.
        cbn [from_option id]. by rewrite <- app_assoc.
      * rewrite lookup_insert_ne by exact Hne.
        rewrite bool_decide_eq_false_2 by exact Hne. reflexivity.
Qed.
Lemma put_offsets_fail x y offsets : forall placed built,
  isField built ->
  (exists d, In d offsets /\ ~ 0 <= x + fst d < ROOM_SIZE) ->
  fold_left (put_offset x y) offsets (Some (placed, built)) = None.
Proof.
  induction offsets as [|d0 offsets IH]; intros placed built Hf (d & Hd & Hout);
    [destruct Hd|].
  cbn [fold_left put_offset].
  destruct (has_column built (x + fst d0)) eqn:Hcol; [|apply put_offset_None].
  destruct Hd as [->|Hd].
  - rewrite (has_column_outside built _ Hf Hout) in Hcol. discriminate Hcol.
  - apply IH; [apply isField_set; exact Hf|]. exists d. auto.
Qed.

Lemma put_offsets_field x y offsets : forall placed built placed' built',
  isField built ->
  fold_left (put_offset x y) offsets (Some (placed, built)) = Some (placed', built') ->
  isField built'.
Proof.
  induction offsets as [|d0 offsets IH]; intros placed built placed' built' Hf Hrun.
  - injection Hrun as _ <-. exact Hf.
  - cbn [fold_left put_offset] in Hrun.
    destruct (has_column built (x + fst d0)); [|rewrite put_offset_None in Hrun; discriminate].
    eapply IH; [|exact Hrun]. apply isField_set. exact Hf.
Qed.

(** [put] throws when a structure of the cluster falls on a column
    outside the room. *)
Lemma put_fail x y cluster : forall layout built,
  isField built ->
  (exists entry d, In entry cluster /\ In d (snd entry) /\ ~ 0 <= x + fst d < ROOM_SIZE) ->
  put x y layout cluster built = None.
Proof.
  unfold put.
  induction cluster as [|entry0 cluster IH]; intros layout built Hf (entry & d & He & Hd & Hout);
    [destruct He|].
  cbn [fold_left put_type].
  destruct (fold_left (put_offset x y) (snd entry0)
              (Some (default [] (layout !! fst entry0), built)))
    as [[placed1 built1]|] eqn:Hrun1; [|apply put_type_None].
  destruct He as [->|He].
  - rewrite put_offsets_fail in Hrun1; [discriminate|exact Hf|]. exists d. auto.
  - apply IH; [eapply put_offsets_field; eauto|]. exists entry, d. auto.
Qed.
End ClusterRules.

(** The cell that [findMin] returns is a candidate when there is one. *)
Lemma findMin_candidate matrix predicate :
  (exists x y, candidate matrix predicate x y) ->
  candidate matrix predicate (fst (findMin matrix predicate)) (snd (findMin matrix predicate)).
Proof.
  pose proof (findMin_scan_inv matrix predicate) as Hinv.
  unfold findMin.
  destruct (fold_left _ _ _) as [[mv mx] my]. simpl.
  destruct Hinv as (Hmax & Hmin & Hnone & Hsome).
  intros (x & y & Hin & Hp & Hv).
  assert (Hlt : mv < MAX_VALUE).
  { assert (Hb : scanBefore x y ROOM_SIZE 0) by (destruct Hin; unfold scanBefore; lia).
    specialize (Hmin x y Hin Hb Hp). lia. }
  destruct (Hsome Hlt) as (H1 & H2 & H3 & H4 & H5).
  split; [exact H1|]. split; [exact H3|lia].
Qed.

(** Without a candidate [findMin] returns the cell (0, 0). *)
Lemma findMin_fallback matrix predicate :
  (forall x y, ~ candidate matrix predicate x y) -> findMin matrix predicate = (0, 0).
Proof.
  pose proof (findMin_scan_inv matrix predicate) as Hinv.
  unfold findMin.
  destruct (fold_left _ _ _) as [[mv mx] my]. simpl.
  destruct Hinv as (Hmax & Hmin & Hnone & Hsome).
  intros Hno.
  assert (Hv : mv = MAX_VALUE).
  { destruct (Z.eq_dec mv MAX_VALUE) as [|Hne]; [assumption|].
    assert (Hlt : mv < MAX_VALUE) by lia.
    destruct (Hsome Hlt) as (H1 & H2 & H3 & H4 & H5).
    exfalso. apply (Hno mx my). split; [exact H1|split; [exact H3|lia]]. }
  destruct (Hnone Hv) as [-> ->]. reflexivity.
Qed.

(** ** [isNearWallOrEdgePure], [canPutPure], [put] *)

(** X15: [isNearWallOrEdgePure] answers for the eight neighbours and not
    for the tile: it is false exactly when none of the neighbours of
    [(x, y)] is on a wall or on the edge in the sense of
    [isOnWallOrEdgePure].  The terrain of [(x, y)] itself is not read. *)
Theorem isNearWallOrEdgePure_is_isOnWallOrEdgePure_of_a_neighbour x y terrainData :
  isNearWallOrEdgePure x y terrainData = false
  <-> forall n, neighbour8 (x, y) n ->
        isOnWallOrEdgePure (fst n) (snd n) terrainData = false.
Proof.
  rewrite isNearWallOrEdgePure_false. split.
  - intros (Hx & Hy & Hall) n (d & Hd & ->). cbn [fst snd].
    apply isOnWallOrEdgePure_false. pose proof (offsets_bound d Hd).
    split; [lia|]. split; [lia|]. apply Hall. exact Hd.
  - intros Hall.
    assert (Hd1 : In (-1, -1) SURROUND_OFFSETS) by (unfold SURROUND_OFFSETS; simpl; tauto).
    assert (Hd2 : In (1, 1) SURROUND_OFFSETS) by (unfold SURROUND_OFFSETS; simpl; tauto).
    pose proof (proj1 (isOnWallOrEdgePure_false _ _ _)
                  (Hall (x + -1, y + -1) (ex_intro _ (-1, -1) (conj Hd1 eq_refl)))) as H1.
    pose proof (proj1 (isOnWallOrEdgePure_false _ _ _)
                  (Hall (x + 1, y + 1) (ex_intro _ (1, 1) (conj Hd2 eq_refl)))) as H2.
    cbn [fst snd] in H1, H2. split; [lia|]. split; [lia|].
    intros d Hd.
    apply (proj1 (isOnWallOrEdgePure_false _ _ _)
             (Hall (x + fst d, y + snd d) (ex_intro _ d (conj Hd eq_refl)))).
Qed.

(** X16: where [canPutPure] accepts a cluster, [put] does not throw: it
    leaves [built] a 50 x 50 array that is true on the tiles it was true on
    and on the tiles of the cluster, and nowhere else, and appends to the
    entry of every structure type of the layout the tiles of that type, in
    the order of the cluster, leaving the other entries as they are. *)
Theorem put_marks_exactly_the_tiles_of_the_cluster {K : Type} `{Countable K}
    (x y : Z) (layout : RoomLayout (K := K)) (cluster : BuildingCluster (K := K))
    (built : Grid bool) (terrainData : TerrainData) :
  isField built -> canPutPure x y cluster built terrainData = true ->
  exists layout' built',
    put x y layout cluster built = Some (layout', built')
    /\ isField built'
    /\ (forall nx ny, isBuilt built' nx ny = true
          <-> isBuilt built nx ny = true \/ In (nx, ny) (footprint x y cluster))
    /\ forall k, default [] (layout' !! k)
                 = default [] (layout !! k) ++ footprintOf x y cluster k.
Proof.
  intros Hf Hcan. apply put_ok; [exact Hf|].
  intros p Hp. exact (proj1 (proj1 (canPutPure_spec x y cluster built terrainData) Hcan p Hp)).
Qed.

Lemma put_marks_exactly_the_tiles_of_the_cluster_witness :
  exists layout' built',
    put 25 25 ∅ labCluster (initArr false) = Some (layout', built')
    /\ isField built'
    /\ (forall nx ny, isBuilt built' nx ny = true
          <-> isBuilt (initArr false) nx ny = true \/ In (nx, ny) (footprint 25 25 labCluster))
    /\ forall k, default [] (layout' !! k)
                 = default [] ((∅ : RoomLayout) !! k) ++ footprintOf 25 25 labCluster k.
Proof.
  apply (put_marks_exactly_the_tiles_of_the_cluster 25 25 ∅ labCluster (initArr false)
           (wallAt 20 20)).
  - apply isField_initArr.
  - vm_compute. reflexivity.
Defined.

(** X17: [put] reserves the tiles of the cluster.  After a placement that
    [canPutPure] accepted, [canPutPure] accepts a cluster at a position
    exactly when it accepted it before and none of its tiles is a tile of
    the cluster just placed. *)
Theorem put_reserves_the_tiles_for_later_clusters {K : Type} `{Countable K}
    (x y : Z) (layout layout' : RoomLayout (K := K)) (cluster cluster' : BuildingCluster (K := K))
    (built built' : Grid bool) (terrainData : TerrainData) (x' y' : Z) :
  isField built -> canPutPure x y cluster built terrainData = true ->
  put x y layout cluster built = Some (layout', built') ->
  (canPutPure x' y' cluster' built' terrainData = true
   <-> canPutPure x' y' cluster' built terrainData = true
       /\ forall p, In p (footprint x' y' cluster') -> ~ In p (footprint x y cluster)).
Proof.
  intros Hf Hcan Hput.
  destruct (put_ok x y cluster layout built Hf) as (l2 & b2 & Hrun & _ & Hb & _).
  { intros p Hp.
    exact (proj1 (proj1 (canPutPure_spec x y cluster built terrainData) Hcan p Hp)). }
  rewrite Hrun in Hput. injection Hput as <- <-.
  assert (Hfalse : forall nx ny, isBuilt b2 nx ny = false
            <-> isBuilt built nx ny = false /\ ~ In (nx, ny) (footprint x y cluster)).
  { intros nx ny. rewrite <- !not_true_iff_false, Hb. tauto. }
  rewrite !canPutPure_spec. split.
  - intros Hall. split.
    + intros p Hp. destruct (Hall p Hp) as (Hin & Hbt & Hw).
      apply Hfalse in Hbt. tauto.
    + intros [px' py'] Hp. destruct (Hall _ Hp) as (_ & Hbt & _).
      apply Hfalse in Hbt. tauto.
  - intros [Hall Hdis] [px' py'] Hp. destruct (Hall _ Hp) as (Hin & Hbt & Hw).
    split; [exact Hin|]. split; [|exact Hw]. apply Hfalse. split; [exact Hbt|].
    exact (Hdis _ Hp).
Qed.

Lemma put_reserves_the_tiles_for_later_clusters_witness :
  canPutPure 26 27 towerCluster
    (snd (default (∅, []) (put 25 25 ∅ labCluster (initArr false)))) (wallAt 20 20) = true
  <-> canPutPure 26 27 towerCluster (initArr false) (wallAt 20 20) = true
      /\ forall p, In p (footprint 26 27 towerCluster) -> ~ In p (footprint 25 25 labCluster).
Proof.
  apply (put_reserves_the_tiles_for_later_clusters 25 25 ∅
           (fst (default (∅, []) (put 25 25 ∅ labCluster (initArr false))))
           labCluster towerCluster (initArr false)).
  - apply isField_initArr.
  - vm_compute. reflexivity.
  - vm_compute. reflexivity.
Defined.

(** X18: [findMin] with the test of [canPut] as its predicate, the pure
    test first and then any test [free] of the host, followed by [put]:
    when some cell of the room passes the test and holds a value below
    [Number.MAX_VALUE], the cell that [findMin] returns passes the test,
    and [put] places the cluster there without throwing. *)
Theorem put_succeeds_at_the_cell_that_findMin_returns {K : Type} `{Countable K}
    (matrix : Grid Z) (layout : RoomLayout (K := K)) (cluster : BuildingCluster (K := K))
    (built : Grid bool) (terrainData : TerrainData) (free : Z -> Z -> bool) :
  isField built ->
  (exists x y, inRoom x y /\ canPutPure x y cluster built terrainData = true
               /\ free x y = true /\ cellValue matrix x y < MAX_VALUE) ->
  exists x y layout' built',
    findMin matrix (fun x y => canPutPure x y cluster built terrainData && free x y) = (x, y)
    /\ inRoom x y
    /\ canPutPure x y cluster built terrainData = true /\ free x y = true
    /\ put x y layout cluster built = Some (layout', built').
Proof.
  intros Hf (x0 & y0 & Hin0 & Hcan0 & Hfree0 & Hv0).
  set (predicate := fun x y => canPutPure x y cluster built terrainData && free x y).
  destruct (findMin_candidate matrix predicate) as (Hin & Hp & _).
  { exists x0, y0. split; [exact Hin0|]. split; [|exact Hv0].
    unfold predicate. rewrite Hcan0, Hfree0. reflexivity. }
  destruct (findMin matrix predicate) as [x y]. cbn [fst snd] in Hin, Hp.
  unfold predicate in Hp. apply andb_true_iff in Hp. destruct Hp as [Hcan Hfree].
  destruct (put_ok x y cluster layout built Hf) as (layout' & built' & Hrun & _).
  { intros p Hp.
    exact (proj1 (proj1 (canPutPure_spec x y cluster built terrainData) Hcan p Hp)). }
  exists x, y, layout', built'. auto.
Qed.

Lemma put_succeeds_at_the_cell_that_findMin_returns_witness :
  exists x y layout' built',
    findMin (initArr 0)
      (fun x y => canPutPure x y labCluster (initArr false) (wallAt 20 20) && true) = (x, y)
    /\ inRoom x y
    /\ canPutPure x y labCluster (initArr false) (wallAt 20 20) = true /\ true = true
    /\ put x y ∅ labCluster (initArr false) = Some (layout', built').
Proof.
  apply (put_succeeds_at_the_cell_that_findMin_returns (initArr 0) ∅ labCluster
           (initArr false) (wallAt 20 20) (fun _ _ => true)).
  - apply isField_initArr.
  - exists 25, 25. split; [unfold inRoom, ROOM_SIZE; lia|].
    split; [vm_compute; reflexivity|]. split; [reflexivity|]. vm_compute. reflexivity.
Defined.

(** X19: when the predicate accepts no cell of the room, [findMin]
    returns (0, 0), and [put] at that cell throws for every cluster with a
    structure to the left of its centre: [built] has no column -1. *)
Theorem put_throws_at_the_fallback_cell_of_findMin {K : Type} `{Countable K}
    (matrix : Grid Z) (predicate : Z -> Z -> bool) (layout : RoomLayout (K := K))
    (cluster : BuildingCluster (K := K)) (built : Grid bool) :
  isField built ->
  (forall x y, inRoom x y -> predicate x y = false) ->
  (exists entry d, In entry cluster /\ In d (snd entry) /\ fst d < 0) ->
  findMin matrix predicate = (0, 0)
  /\ put (fst (findMin matrix predicate)) (snd (findMin matrix predicate)) layout cluster built
     = None.
Proof.
  intros Hf Hnone (entry & d & He & Hd & Hneg).
  assert (Hmin : findMin matrix predicate = (0, 0)).
  { apply findMin_fallback. intros x y (Hin & Hp & _). rewrite (Hnone x y Hin) in Hp.
    discriminate Hp. }
  split; [exact Hmin|]. rewrite Hmin. cbn [fst snd].
  apply put_fail; [exact Hf|]. exists entry, d. split; [exact He|]. split; [exact Hd|].
  unfold ROOM_SIZE. lia.
Qed.

Lemma put_throws_at_the_fallback_cell_of_findMin_witness :
  findMin (initArr 0) (fun _ _ => false) = (0, 0)
  /\ put (fst (findMin (initArr 0) (fun _ _ => false)))
         (snd (findMin (initArr 0) (fun _ _ => false))) ∅ towerCluster (initArr false)
     = None.
Proof.
  apply (put_throws_at_the_fallback_cell_of_findMin (initArr 0) (fun _ _ => false) ∅
           towerCluster (initArr false)).
  - apply isField_initArr.
  - reflexivity.
  - exists (STRUCTURE_TOWER, [(-1, -1); (0, -1); (1, -1)]), (-1, -1).
    split; [left; reflexivity|]. split; [left; reflexivity|]. simpl. lia.
Defined.

(** * Sums and multiples of arrays *)

(** A double loop over the room that rewrites each cell from its own
    value. *)
Lemma cell_loop {N} (f : Z -> Z -> N -> N) (step : Z -> Grid N -> Z -> Grid N) r0 :
  (forall r x y, isField r -> inRoom x y ->
     isField (step x r y)
     /\ forall x' y', arr_get (step x r y) x' y'
          = if (x =? x') && (y =? y') then option_map (f x y) (arr_get r x y)
            else arr_get r x' y') ->
  isField r0 ->
  isField (fold_left (fun r x => fold_left (step x) (range_excl 0 ROOM_SIZE) r)
             (range_excl 0 ROOM_SIZE) r0)
  /\ forall x y, inRoom x y ->
       arr_get (fold_left (fun r x => fold_left (step x) (range_excl 0 ROOM_SIZE) r)
                  (range_excl 0 ROOM_SIZE) r0) x y
       = option_map (f x y) (arr_get r0 x y).
Proof.
  intros Hstep Hf0.
  set (P := fun (i j : Z) (r : Grid N) =>
    isField r /\ forall x y, inRoom x y ->
      arr_get r x y = if (x <? i) || ((x =? i) && (y <? j))
                      then option_map (f x y) (arr_get r0 x y) else arr_get r0 x y).
  assert (Hend : P ROOM_SIZE 0
            (fold_left (fun r x => fold_left (step x) (range_excl 0 ROOM_SIZE) r)
               (range_excl 0 ROOM_SIZE) r0)).
  { apply (range_excl_inv (fun i r => P i 0 r)).
    - unfold ROOM_SIZE. lia.
    - split; [exact Hf0|]. intros x y [Hx Hy].
      destruct (Z.ltb_spec x 0); [lia|]. destruct (Z.ltb_spec y 0); [lia|].
      rewrite andb_false_r. reflexivity.
    - intros i r Hi [Hf Hget].
      assert (Hrow : P i ROOM_SIZE (fold_left (step i) (range_excl 0 ROOM_SIZE) r)).
      { apply (range_excl_inv (fun j r => P i j r)).
        - unfold ROOM_SIZE. lia.
        - split; assumption.
        - intros j r' Hj [Hf' Hget'].
          assert (Hin : inRoom i j) by (unfold inRoom; lia).
          destruct (Hstep r' i j Hf' Hin) as [Hf'' Hget'']. split; [exact Hf''|].
          intros x y Hxy. rewrite Hget''.
          destruct (Z.eqb_spec i x) as [<-|Hx]; cbn [andb].
          + rewrite Z.ltb_irrefl, Z.eqb_refl. cbn [orb andb].
            destruct (Z.eqb_spec j y) as [<-|Hy].
            * destruct (Z.ltb_spec j (j + 1)); [|lia].
              rewrite (Hget' i j Hin), Z.ltb_irrefl, Z.eqb_refl, Z.ltb_irrefl. reflexivity.
            * rewrite (Hget' i y Hxy), Z.ltb_irrefl, Z.eqb_refl. cbn [orb andb].
              destruct (Z.ltb_spec y j), (Z.ltb_spec y (j + 1)); try reflexivity; lia.
          + rewrite (Hget' x y Hxy).
            destruct (Z.eqb_spec x i) as [|_]; [congruence|]. reflexivity. }
      destruct Hrow as [Hf' Hget']. split; [exact Hf'|].
      intros x y Hxy. rewrite (Hget' x y Hxy). destruct Hxy as [Hx Hy].
      destruct (Z.ltb_spec x i), (Z.ltb_spec x (i + 1)), (Z.eqb_spec x i),
        (Z.eqb_spec x (i + 1)), (Z.ltb_spec y ROOM_SIZE), (Z.ltb_spec y 0);
        cbn [orb andb]; try reflexivity; lia. }
  destruct Hend as [Hf Hget]. split; [exact Hf|].
  intros x y Hxy. rewrite (Hget x y Hxy). destruct Hxy as [Hx Hy].
  destruct (Z.ltb_spec x ROOM_SIZE); [reflexivity|lia].
Qed.

Section ArrayRules.
Context {N : Type} (zero : N) (add mul : N -> N -> N).

Lemma addArray_spec (result arr : Grid N) :
  isField result ->
  isField (addArray zero add result arr)
  /\ forall x y, inRoom x y ->
       arr_get (addArray zero add result arr) x y
       = option_map (fun r => add r (cellOrZero zero arr x y)) (arr_get result x y).
Proof.
  intros Hf. unfold addArray.
  apply (cell_loop (fun x y r => add r (cellOrZero zero arr x y)) (addCell zero add arr));
    [|exact Hf].
  intros r x y Hr Hin. unfold addCell.
  destruct (arr_get_field r x y Hr Hin) as [v Hv]. rewrite Hv. split.
  - apply isField_set. exact Hr.
  - intros x' y'. rewrite arr_get_set_field by assumption.
    destruct ((x =? x') && (y =? y')); reflexivity.
Qed.

Lemma fold_left_cons {A B} (f : A -> B -> A) (b : B) (l : list B) (a : A) :
  fold_left f (b :: l) a = fold_left f l (f a b).
Proof. reflexivity. Qed.

Lemma addArrays_from (arrays : list (Grid N)) : forall result,
  isField result ->
  isField (fold_left (addArray zero add) arrays result)
  /\ forall x y, inRoom x y ->
       arr_get (fold_left (addArray zero add) arrays result) x y
       = option_map (cellSum zero add arrays x y) (arr_get result x y).
Proof.
  induction arrays as [|arr arrays IH]; intros result Hf.
  - split; [exact Hf|]. intros x y _. cbn [fold_left]. unfold cellSum. cbn [fold_left].
    destruct (arr_get result x y); reflexivity.
  - rewrite fold_left_cons. destruct (addArray_spec result arr Hf) as [Hf1 Hget1].
    destruct (IH _ Hf1) as [Hf2 Hget2]. split; [exact Hf2|].
    intros x y Hin. rewrite (Hget2 x y Hin), (Hget1 x y Hin).
    unfold cellSum. destruct (arr_get result x y); reflexivity.
Qed.

Lemma multiplyArray_spec (arr : Grid N) (scalar : N) :
  isField (multiplyArray zero mul arr scalar)
  /\ forall x y, inRoom x y ->
       arr_get (multiplyArray zero mul arr scalar) x y
       = Some (mul (cellOrZero zero arr x y) scalar).
Proof.
  unfold multiplyArray.
  destruct (cell_loop (fun x y (_ : N) => mul (cellOrZero zero arr x y) scalar)
              (fun x result y => arr_set result x y (mul (cellOrZero zero arr x y) scalar))
              (initArr zero)) as [Hf Hget].
  - intros r x y Hr Hin. split; [apply isField_set; exact Hr|].
    intros x' y'. rewrite arr_get_set_field by assumption.
    destruct (arr_get_field r x y Hr Hin) as [v Hv]. rewrite Hv.
    destruct ((x =? x') && (y =? y')); reflexivity.
  - apply isField_initArr.
  - split; [exact Hf|]. intros x y Hin. rewrite (Hget x y Hin).
    rewrite arr_get_initArr by exact Hin. reflexivity.
Qed.
End ArrayRules.

(** ** [addArrays], [multiplyArray] *)

(** X20: whatever the shapes of its arguments, [addArrays] returns a
    50 x 50 array; its cell [(x, y)] holds 0 plus the cells [(x, y)] of the
    arguments, added from the first to the last, a missing cell counting
    as 0. *)
Theorem addArrays_adds_cell_by_cell {N : Type} (zero : N) (add : N -> N -> N)
    (arrays : list (Grid N)) :
  isField (addArrays zero add arrays)
  /\ forall x y, inRoom x y ->
       arr_get (addArrays zero add arrays) x y
       = Some (fold_left (fun acc arr => add acc (default zero (arr_get arr x y)))
                 arrays zero).
Proof.
  unfold addArrays.
  destruct (addArrays_from zero add arrays (initArr zero) (isField_initArr zero))
    as [Hf Hget].
  split; [exact Hf|]. intros x y Hin. rewrite (Hget x y Hin).
  rewrite arr_get_initArr by exact Hin. reflexivity.
Qed.

(** X21: whatever the shape of its argument, [multiplyArray] returns a
    50 x 50 array whose cell [(x, y)] holds the cell [(x, y)] of the
    argument, or 0 where it is missing, times the scalar. *)
Theorem multiplyArray_multiplies_cell_by_cell {N : Type} (zero : N) (mul : N -> N -> N)
    (arr : Grid N) (scalar : N) :
  isField (multiplyArray zero mul arr scalar)
  /\ forall x y, inRoom x y ->
       arr_get (multiplyArray zero mul arr scalar) x y
       = Some (mul (default zero (arr_get arr x y)) scalar).
Proof. apply multiplyArray_spec. Qed.

(** * The cut holds every tile once *)

(** The top vertex of a NORMAL or PROTECTED tile has one edge of capacity
    1, to its bottom vertex, and no other edge with a capacity. *)
Lemma capsum_tile roomArray x0 y0 :
  interior x0 y0 ->
  arr_get roomArray x0 y0 = Some NORMAL \/ arr_get roomArray x0 y0 = Some PROTECTED ->
  sumCap (edgesOf (g_edges (buildGraph roomArray)) (positionToVertex x0 y0 + TOP_OFFSET)) = 1.
Proof.
  intros Hint [Htag|Htag]; [|apply capsum_protected; assumption].
  destruct (built_graph roomArray) as [Hb _].
  rewrite (bl_capsum _ _ Hb). set (w := positionToVertex x0 y0 + TOP_OFFSET).
  set (f := fun call : Z * Z * Z => if fst (fst call) =? w then snd call else 0).
  assert (Hother : forall x y, interior x y -> (x <> x0 \/ y <> y0) ->
            zsum f (tileCalls roomArray x y) = 0).
  { intros x y Hxy Hne. apply zsum_zero. intros [[u v] c] Hin.
    apply tileCalls_from in Hin. unfold f. simpl.
    destruct (Z.eqb_spec u w) as [Heq|]; [|reflexivity].
    exfalso. unfold w in Heq. destruct Hin as [Hu|[Hu|Hu]]; vertex_arith. }
  unfold graphCalls. rewrite zsum_flat_map.
  rewrite (zsum_single _ _ x0).
  - rewrite zsum_flat_map. rewrite (zsum_single _ _ y0).
    + unfold tileCalls. apply is_tag_spec in Htag. rewrite Htag.
      fold w. set (nb := neighbourCalls roomArray x0 y0 (w + BOT_OFFSET)).
      assert (Hnb : zsum f nb = 0).
      { apply zsum_zero. intros [[u v] c] Hin. apply In_neighbourCalls in Hin.
        destruct Hin as (d & _ & Heq & _). injection Heq as -> _ _. unfold f. simpl.
        destruct (Z.eqb_spec (w + BOT_OFFSET) w) as [Heq|_]; [vertex_arith|reflexivity]. }
      unfold zsum in *. cbn [foldr]. rewrite Hnb. unfold f. cbn [fst snd].
      rewrite Z.eqb_refl. lia.
    + apply NoDup_range_excl.
    + apply elem_of_range_excl. unfold ROOM_MAX_INDEX. vertex_arith.
    + intros y Hy Hne. apply elem_of_range_excl in Hy. unfold ROOM_MAX_INDEX in Hy.
      apply Hother; [|right; exact Hne]. unfold interior in *. lia.
  - apply NoDup_range_excl.
  - apply elem_of_range_excl. unfold ROOM_MAX_INDEX. vertex_arith.
  - intros x Hx Hne. apply elem_of_range_excl in Hx. unfold ROOM_MAX_INDEX in Hx.
    rewrite zsum_flat_map. apply zsum_zero. intros y Hy.
    apply elem_of_range_excl in Hy. unfold ROOM_MAX_INDEX in Hy.
    apply Hother; [|left; exact Hne]. unfold interior in *. lia.
Qed.

(** Among edges of capacities that are not negative, those that satisfy
    [g] and have capacity 1 are at most as many as the capacities add up
    to. *)
Lemma filter_cap_le (g : Edge -> bool) l :
  (forall e, In e l -> 0 <= e_c e) ->
  (forall e, In e l -> g e = true -> e_c e = 1) ->
  Z.of_nat (length (List.filter g l)) <= sumCap l.
Proof.
  induction l as [|a l IH]; intros Hnn Hone; [simpl; lia|].
  cbn [List.filter]. unfold sumCap. cbn [foldr]. fold (sumCap l).
  pose proof (Hnn a (or_introl eq_refl)) as Ha.
  specialize (IH (fun e He => Hnn e (or_intror He)) (fun e He => Hone e (or_intror He))).
  destruct (g a) eqn:Hg; [|lia].
  pose proof (Hone a (or_introl eq_refl) Hg). cbn [length]. lia.
Qed.

Lemma NoDup_const_map {A} (u : Z) (l : list A) :
  (length l <= 1)%nat -> NoDup (map (fun _ => u) l).
Proof.
  destruct l as [|a [|b l]]; cbn [length map]; intros Hl; [constructor| |lia].
  apply NoDup_cons. split; [intros Hin; inversion Hin|constructor].
Qed.

Lemma NoDup_map_on {A B} (f : A -> B) (l : list A) :
  NoDup l -> (forall a b, In a l -> In b l -> f a = f b -> a = b) -> NoDup (map f l).
Proof.
  induction l as [|a l IH]; intros Hnd Hinj; cbn [map]; [constructor|].
  apply NoDup_cons in Hnd. destruct Hnd as [Ha Hnd]. apply NoDup_cons. split.
  - intros Hin. apply list_elem_of_In, in_map_iff in Hin. destruct Hin as (b & Heq & Hb).
    assert (b = a) by (apply Hinj; [right; exact Hb|left; reflexivity|exact Heq]).
    subst b. apply Ha. apply list_elem_of_In. exact Hb.
  - apply IH; [exact Hnd|]. intros x y Hx Hy. apply Hinj; right; assumption.
Qed.

Lemma solved_cut_nodup roomArray count g' q :
  solved roomArray count g' q -> NoDup (cutOf (g_edges g') q).
Proof.
  intros [S1 S2 S3 S4 S5 S6 S7]. unfold cutOf. apply NoDup_flat_map.
  - exact S4.
  - intros u Hu. apply NoDup_const_map.
    set (g := fun e => saturated e && crossing q e).
    destruct (List.filter g (edgesOf (g_edges g') u)) as [|e0 rest] eqn:Hfilter;
      [simpl; lia|].
    assert (He0 : In e0 (List.filter g (edgesOf (g_edges g') u)))
      by (rewrite Hfilter; left; reflexivity).
    rewrite <- Hfilter. clear Hfilter rest.
    assert (Hone : forall e, In e (edgesOf (g_edges g') u) -> g e = true ->
              e_c e = 1 /\ exists x y, interior x y /\ u = positionToVertex x y + TOP_OFFSET
                /\ (arr_get roomArray x y = Some NORMAL
                    \/ arr_get roomArray x y = Some PROTECTED)).
    { intros e He Hg. unfold g in Hg. apply andb_true_iff in Hg. destruct Hg as [Hsat Hc].
      apply In_edgeAt in He. destruct He as [i He]. apply crossing_spec in Hc.
      destruct (crossing_edge_tile roomArray (g_edges g') q S1 S2 S4 S5 S6 S7 u i e Hu He Hc)
        as [H0|[H1 (x & y & Hxy & Hux & _ & Htag)]].
      - unfold saturated in Hsat. rewrite H0 in Hsat. rewrite andb_comm in Hsat.
        discriminate Hsat.
      - split; [exact H1|]. exists x, y. auto. }
    apply filter_In in He0. destruct He0 as [He0 Hg0].
    destruct (Hone e0 He0 Hg0) as (_ & x & y & Hxy & -> & Htag).
    pose proof (capsum_tile roomArray x y Hxy Htag) as Hsum.
    rewrite (sumCap_skel _ _ (S1 (positionToVertex x y + TOP_OFFSET))) in Hsum.
    pose proof (filter_cap_le g (edgesOf (g_edges g') (positionToVertex x y + TOP_OFFSET)))
      as Hle.
    assert (Hlen : Z.of_nat (length (List.filter g
              (edgesOf (g_edges g') (positionToVertex x y + TOP_OFFSET)))) <= 1).
    { rewrite <- Hsum. apply Hle.
      - intros e He. apply In_edgeAt in He. destruct He as [i He].
        eapply (pr_cap _ (room_paired roomArray (g_edges g') S1)); eauto.
      - intros e He Hg. exact (proj1 (Hone e He Hg)). }
    lia.
  - intros u1 u2 y _ _ H1 H2. apply in_map_iff in H1, H2.
    destruct H1 as (_ & <- & _). destruct H2 as (_ & <- & _). reflexivity.
Qed.

Lemma solved_positions_nodup roomArray count g' q :
  solved roomArray count g' q ->
  NoDup (map vertexToPosition (cutOf (g_edges g') q)).
Proof.
  intros Hsolved. apply NoDup_map_on; [exact (solved_cut_nodup _ _ _ _ Hsolved)|].
  destruct Hsolved as [S1 S2 S3 S4 S5 S6 S7].
  intros u u' Hu Hu' Heq.
  destruct (cut_vertex_tile roomArray (g_edges g') q S1 S2 S4 S5 S6 S7 u Hu)
    as (x & y & Hxy & -> & _).
  destruct (cut_vertex_tile roomArray (g_edges g') q S1 S2 S4 S5 S6 S7 u' Hu')
    as (x' & y' & Hxy' & -> & _).
  unfold TOP_OFFSET in *. rewrite !Z.add_0_r in *.
  rewrite !vertexToPosition_positionToVertex in Heq
    by (unfold interior, ROOM_SIZE in *; lia).
  injection Heq as -> ->. reflexivity.
Qed.

(** ** [getCutTiles], [vertexToPosition], [positionToVertex] *)

(** X22: with enough fuel [getCutTiles] returns a list without
    repetition, and every tile of it can hold a rampart: it is not a wall,
    it lies strictly inside the bounds, and the classifier tags it NORMAL. *)
Theorem getCutTiles_returns_distinct_NORMAL_tiles terrainData coords bounds :
  exists N, forall fuel, (N <= fuel)%nat ->
    exists cut, getCutTiles fuel terrainData coords bounds = Some cut
      /\ NoDup cut
      /\ forall p, In p cut ->
           terrainData (px p) (py p) <> TERRAIN_MASK_WALL
           /\ x1 bounds < px p < x2 bounds /\ y1 bounds < py p < y2 bounds
           /\ arr_get (createRoom2DArrayFromTerrain terrainData bounds) (px p) (py p)
              = Some NORMAL.
Proof.
  destruct (validBounds bounds) eqn:Hvalid.
  - destruct (getCutTiles_total terrainData coords bounds Hvalid)
      as (N & count & g' & q & flooded & Hsolved & Hflood & Hrun).
    exists N. intros fuel Hfuel. destruct (Hrun fuel Hfuel) as (_ & _ & Hcut).
    eexists. split; [exact Hcut|].
    set (cut := map vertexToPosition (cutOf (g_edges g') q)).
    assert (Hsub : forall p, In p (prunedCut bounds flooded cut) -> In p cut).
    { intros p Hin. unfold prunedCut in Hin. destruct (_ && _); [|exact Hin].
      apply filter_In in Hin. tauto. }
    split.
    + unfold prunedCut. destruct (_ && _).
      * apply NoDup_ListNoDup, List.NoDup_filter, NoDup_ListNoDup.
        exact (solved_positions_nodup _ _ _ _ Hsolved).
      * exact (solved_positions_nodup _ _ _ _ Hsolved).
    + intros p Hp. apply Hsub in Hp.
      destruct (cut_tile_shape terrainData coords bounds count g' q Hvalid Hsolved p Hp)
        as [Hint Htag].
      destruct (classTag_NORMAL _ _ _ _ Htag) as (Hbase & _ & _).
      destruct (baseTag_NORMAL _ _ _ _ Hvalid Hbase) as (_ & Hx & Hy & Hw).
      split; [exact Hw|]. split; [exact Hx|]. split; [exact Hy|].
      rewrite <- Htag.
      apply (proj2 (createRoom_tagged terrainData bounds Hvalid)).
      unfold interior, inRoom, ROOM_SIZE in *. lia.
  - exists O. intros fuel _. exists []. split; [|split; [constructor|intros p []]].
    unfold getCutTiles, createGraph. rewrite Hvalid. reflexivity.
Qed.

(** X23: vertex numbers and positions convert back and forth.  For a
    vertex number [v >= 0], [vertexToPosition] gives a column between 0
    and 49 and a row that is not negative, from which [positionToVertex]
    gives [v] back; for a column [x] between 0 and 49 and a row [y >= 0],
    [vertexToPosition] gives [(x, y)] back from [positionToVertex x y]. *)
Theorem vertexToPosition_inverts_positionToVertex v x y :
  0 <= v -> 0 <= x < ROOM_SIZE -> 0 <= y ->
  positionToVertex (px (vertexToPosition v)) (py (vertexToPosition v)) = v
  /\ 0 <= px (vertexToPosition v) < ROOM_SIZE /\ 0 <= py (vertexToPosition v)
  /\ vertexToPosition (positionToVertex x y) = mkPos x y.
Proof.
  intros Hv Hx Hy. unfold vertexToPosition, positionToVertex, ROOM_SIZE in *. cbn [px py].
  pose proof (Z.div_mod v 50 ltac:(lia)) as Hdm.
  pose proof (Z.mod_pos_bound v 50 ltac:(lia)) as Hm.
  pose proof (Z.div_pos v 50 Hv ltac:(lia)) as Hd.
  split; [lia|]. split; [lia|]. split; [lia|].
  f_equal.
  - rewrite Z.add_comm, Z.mod_add by lia. apply Z.mod_small. lia.
  - rewrite Z.add_comm, Z.div_add by lia. rewrite Z.div_small by lia. lia.
Qed.

Lemma vertexToPosition_inverts_positionToVertex_witness :
  positionToVertex (px (vertexToPosition 2500)) (py (vertexToPosition 2500)) = 2500
  /\ 0 <= px (vertexToPosition 2500) < ROOM_SIZE /\ 0 <= py (vertexToPosition 2500)
  /\ vertexToPosition (positionToVertex 49 49) = mkPos 49 49.
Proof.
  apply (vertexToPosition_inverts_positionToVertex 2500 49 49); unfold ROOM_SIZE; lia.
Defined.

(** * No blocking set of tiles is smaller than the cut *)

Lemma cutEdge_tile T x y c :
  In (mkPos x y) T ->
  cutEdge T (positionToVertex x y + TOP_OFFSET,
             positionToVertex x y + TOP_OFFSET + BOT_OFFSET, c) = true.
Proof.
  intros Hin. unfold cutEdge. cbn [fst snd]. rewrite Z.eqb_refl, andb_true_r.
  apply existsb_exists. exists (mkPos x y). split; [exact Hin|]. cbn [px py].
  apply Z.eqb_refl.
Qed.

Lemma cutEdge_top T u v c :
  cutEdge T (u, v, c) = true ->
  In u (map (fun t => positionToVertex (px t) (py t) + TOP_OFFSET) T)
  /\ v = u + BOT_OFFSET.
Proof.
  unfold cutEdge. cbn [fst snd]. rewrite andb_true_iff, existsb_exists, Z.eqb_eq.
  intros [(t & Ht & Hu) Hv]. apply Z.eqb_eq in Hu. split; [|exact Hv].
  apply in_map_iff. exists t. auto.
Qed.

Lemma escapes_tag roomArray T p :
  escapes roomArray T p ->
  interior (fst p) (snd p)
  /\ (arr_get roomArray (fst p) (snd p) = Some NORMAL
      \/ arr_get roomArray (fst p) (snd p) = Some PROTECTED).
Proof. intros H. destruct H; auto. Qed.

Lemma positionToVertex_inj x y x' y' :
  inRoom x y -> inRoom x' y' -> positionToVertex x y = positionToVertex x' y' ->
  x = x' /\ y = y'.
Proof. unfold inRoom, positionToVertex, ROOM_SIZE. lia. Qed.

Lemma interior_inRoom x y : interior x y -> inRoom x y.
Proof. unfold interior, inRoom, ROOM_SIZE. lia. Qed.

Section Blocking.
Variables (roomArray : Grid Z) (T : list Position).
Hypothesis Hfield : isField roomArray.

Local Abbreviation top x y := (positionToVertex x y + TOP_OFFSET).

(** Along an edge that is left, what escapes at its end escapes at its
    start. *)
Lemma escape_edge u v c :
  In (u, v, c) (openCalls roomArray T) ->
  escapesVertex roomArray T v -> escapesVertex roomArray T u.
Proof.
  unfold openCalls. intros Hin. apply filter_In in Hin. destruct Hin as [Hcall Hopen].
  apply negb_true_iff in Hopen.
  apply graphCalls_kinds in Hcall. destruct Hcall as (x & y & Hxy & Hkind).
  cbv zeta in Hkind.
  destruct Hkind as [(-> & -> & -> & Htag)|[(-> & -> & -> & Htag)|[(-> & -> & -> & Htag)|
    (-> & -> & Htag & n & Hn & -> & Hntag)]]].
  - (* top -> bot *)
    intros [Hv|[[Hv _]|[(x' & y' & Hv & Hxy' & _)|(x' & y' & Hv & Hxy' & _ & n & Hn & Hni & Hesc)]]];
      try (exfalso; vertex_arith).
    assert (Hsame : x' = x /\ y' = y).
    { apply positionToVertex_inj; [apply interior_inRoom; exact Hxy'|
        apply interior_inRoom; exact Hxy|]. unfold TOP_OFFSET, BOT_OFFSET in Hv. lia. }
    destruct Hsame as [-> ->].
    assert (Hnot : ~ In (mkPos x y) T).
    { intros HT. rewrite (cutEdge_tile T x y 1 HT) in Hopen. discriminate Hopen. }
    right. right. left. exists x, y. split; [reflexivity|]. split; [exact Hxy|]. right.
    destruct Hesc as [Hexit|[Hnorm Hesc]].
    + apply (escapes_exit roomArray T (x, y) n); assumption.
    + apply (escapes_step roomArray T (x, y) n); assumption.
  - (* SOURCE -> top *)
    intros [Hv|[[Hv _]|[(x' & y' & Hv & Hxy' & Hesc)|(x' & y' & Hv & Hxy' & _)]]];
      try (exfalso; vertex_arith).
    assert (Hsame : x' = x /\ y' = y).
    { apply positionToVertex_inj; [apply interior_inRoom; exact Hxy'|
        apply interior_inRoom; exact Hxy|]. unfold TOP_OFFSET in Hv. lia. }
    destruct Hsame as [-> ->].
    right. left. split; [reflexivity|]. exists x, y. split; [exact Hxy|]. split; [exact Htag|].
    destruct Hesc as [Hexit|Hesc]; [rewrite Htag in Hexit; discriminate Hexit|exact Hesc].
  - (* top -> SINK *)
    intros _. right. right. left. exists x, y. auto.
  - (* bot -> top of a neighbour *)
    intros [Hv|[[Hv _]|[(x' & y' & Hv & Hxy' & Hesc)|(x' & y' & Hv & Hxy' & _)]]].
    + exfalso. assert (Hin : inRoom (fst n) (snd n)).
      { destruct Hntag as [H|H]; exact (arr_get_inRoom _ _ _ _ Hfield H). }
      unfold inRoom in Hin. vertex_arith.
    + exfalso. assert (Hin : inRoom (fst n) (snd n)).
      { destruct Hntag as [H|H]; exact (arr_get_inRoom _ _ _ _ Hfield H). }
      unfold inRoom in Hin. vertex_arith.
    + assert (Hin : inRoom (fst n) (snd n)).
      { destruct Hntag as [H|H]; exact (arr_get_inRoom _ _ _ _ Hfield H). }
      assert (Hsame : x' = fst n /\ y' = snd n).
      { apply positionToVertex_inj; [apply interior_inRoom; exact Hxy'|exact Hin|].
        unfold TOP_OFFSET in Hv. lia. }
      destruct Hsame as [-> ->].
      right. right. right. exists x, y. split; [reflexivity|]. split; [exact Hxy|].
      split; [exact Htag|]. exists n. split; [exact Hn|]. split; [exact Hxy'|].
      destruct Hesc as [Hexit|Hesc]; [left; exact Hexit|].
      right. split; [|rewrite <- (surjective_pairing n) in Hesc; exact Hesc].
      rewrite <- (surjective_pairing n) in Hesc.
      destruct (escapes_tag _ _ _ Hesc) as [_ [Hnn|Hnp]]; [exact Hnn|].
      destruct Hntag as [H|H]; [exact H|]. rewrite H in Hnp. discriminate Hnp.
    + exfalso. assert (Hin : inRoom (fst n) (snd n)).
      { destruct Hntag as [H|H]; exact (arr_get_inRoom _ _ _ _ Hfield H). }
      unfold inRoom in Hin. vertex_arith.
Qed.
Lemma openCalls_ok u v c : In (u, v, c) (openCalls roomArray T) -> u <> v /\ 1 <= c.
Proof.
  unfold openCalls. intros Hin. apply filter_In in Hin. destruct Hin as [Hcall _].
  split; [exact (proj1 (graphCalls_ok _ _ _ _ Hcall))|].
  apply graphCalls_shape in Hcall. destruct Hcall as (x & y & _ & H). cbv zeta in H.
  pose proof MAX_VALUE_large.
  destruct H as [(_ & _ & -> & _)|[(_ & _ & -> & _)|[(_ & _ & -> & _)|(_ & -> & _)]]]; lia.
Qed.

Lemma openGraph_built : built (openCalls roomArray T) (g_edges (openGraph roomArray T)).
Proof.
  unfold openGraph.
  apply (built_calls (openCalls roomArray T) [] (newGraph GRAPH_VERTEX_COUNT));
    [|apply built_empty].
  intros u v c Hin. destruct (openCalls_ok u v c Hin). split; [assumption|lia].
Qed.

(** The edges of the open graph that are not full are the calls left. *)
Lemma openGraph_edge u i e :
  edgeAt (g_edges (openGraph roomArray T)) u i = Some e -> e_f e < e_c e ->
  In (u, e_v e, e_c e) (openCalls roomArray T).
Proof.
  intros He Hres. pose proof openGraph_built as Hb.
  rewrite (bl_zero _ _ Hb _ _ _ He) in Hres.
  destruct (bl_fwd _ _ Hb _ _ _ He) as [H0|Hin]; [lia|exact Hin].
Qed.

Lemma openGraph_reach u v c :
  residualReach (g_edges (openGraph roomArray T)) SOURCE_VERTEX u ->
  In (u, v, c) (openCalls roomArray T) ->
  residualReach (g_edges (openGraph roomArray T)) SOURCE_VERTEX v.
Proof.
  intros Hu Hin. pose proof openGraph_built as Hb.
  destruct (bl_has _ _ Hb _ _ _ Hin) as (i & e & He & <- & Hc).
  apply (reach_edge _ _ u i e Hu He).
  rewrite (bl_zero _ _ Hb _ _ _ He). destruct (openCalls_ok _ _ _ Hin). lia.
Qed.

Lemma reach_escapes v :
  residualReach (g_edges (openGraph roomArray T)) SOURCE_VERTEX v ->
  escapesVertex roomArray T v -> escapesVertex roomArray T SOURCE_VERTEX.
Proof.
  intros Hr. induction Hr as [|u i e _ IH He Hres]; [auto|].
  intros Hv. apply IH. eapply escape_edge; [|exact Hv].
  eapply openGraph_edge; eauto.
Qed.

Lemma blocked_sink :
  blocks roomArray T ->
  ~ residualReach (g_edges (openGraph roomArray T)) SOURCE_VERTEX SINK_VERTEX.
Proof.
  intros Hblocks Hr.
  destruct (reach_escapes SINK_VERTEX Hr (or_introl eq_refl))
    as [Hv|[[_ (x & y & Hxy & Htag & Hesc)]|[(x & y & Hv & Hxy & _)|(x & y & Hv & Hxy & _)]]];
    try (exfalso; vertex_arith).
  exact (Hblocks x y Hxy Htag Hesc).
Qed.
(** The call of an edge from a vertex to the vertex 2500 above it is the
    edge through a tile. *)
Lemma call_to_bot u c :
  In (u, u + BOT_OFFSET, c) (graphCalls roomArray) ->
  exists x y, interior x y /\ u = top x y
    /\ (arr_get roomArray x y = Some NORMAL \/ arr_get roomArray x y = Some PROTECTED).
Proof.
  intros Hcall. apply graphCalls_kinds in Hcall. destruct Hcall as (x & y & Hxy & Hkind).
  cbv zeta in Hkind.
  destruct Hkind as [(Hu & _ & _ & Htag)|[(Hu & Hv & _)|[(Hu & Hv & _)|
    (Hu & _ & _ & n & _ & Hv & Hntag)]]].
  - exists x, y. auto.
  - exfalso. vertex_arith.
  - exfalso. vertex_arith.
  - exfalso. assert (Hin : inRoom (fst n) (snd n)).
    { destruct Hntag as [H|H]; exact (arr_get_inRoom _ _ _ _ Hfield H). }
    unfold inRoom in Hin. vertex_arith.
Qed.

Section OpenSide.
Variable q : list Z.
Hypothesis Hnd : NoDup q.
Hypothesis Hq : forall w, In w q
  <-> residualReach (g_edges (openGraph roomArray T)) SOURCE_VERTEX w.

Local Abbreviation tops := (map (fun t => top (px t) (py t)) T).

(** What leaves the open side at one vertex: nothing, or the one edge
    through a tile of [T]. *)
Lemma open_cut_vertex u :
  In u q ->
  zsum (fun e => if crossing q e then e_c e else 0)
       (edgesOf (g_edges (buildGraph roomArray)) u)
  <= (if memb tops u then 1 else 0).
Proof.
  intros Hu. destruct (built_graph roomArray) as [Hb _].
  set (edges := g_edges (buildGraph roomArray)) in *.
  assert (Hcap : forall e, In e (edgesOf edges u) -> 0 <= e_c e).
  { intros e He. apply In_edgeAt in He. destruct He as [i He].
    eapply (pr_cap _ (bl_paired _ _ Hb)); eauto. }
  destruct (existsb (fun e => crossing q e && (0 <? e_c e)) (edgesOf edges u)) eqn:Hex.
  - apply existsb_exists in Hex. destruct Hex as (e & He & Hce).
    apply andb_true_iff in Hce. destruct Hce as [Hcross Hpos].
    apply Z.ltb_lt in Hpos. apply crossing_spec in Hcross.
    apply In_edgeAt in He. destruct He as [i He].
    destruct (bl_fwd _ _ Hb _ _ _ He) as [H0|Hcall]; [lia|].
    destruct (cutEdge T (u, e_v e, e_c e)) eqn:Hcut.
    + apply cutEdge_top in Hcut. destruct Hcut as [Htop Hv].
      rewrite (proj2 (memb_spec tops u) Htop).
      rewrite Hv in Hcall. destruct (call_to_bot u _ Hcall) as (x & y & Hxy & -> & Htag).
      rewrite <- (capsum_tile roomArray x y Hxy Htag). fold edges.
      unfold sumCap. change (foldr (fun e acc => e_c e + acc) 0) with (zsum e_c).
      apply zsum_le. intros e' He'. specialize (Hcap e' He').
      destruct (crossing q e'); lia.
    + exfalso. apply Hcross. apply Hq.
      apply (openGraph_reach u (e_v e) (e_c e)); [apply Hq; exact Hu|].
      unfold openCalls. apply filter_In. split; [exact Hcall|]. rewrite Hcut. reflexivity.
  - assert (Hzero : zsum (fun e => if crossing q e then e_c e else 0) (edgesOf edges u) = 0).
    { apply zsum_zero. intros e He. destruct (crossing q e) eqn:Hc; [|reflexivity].
      assert (Hf : crossing q e && (0 <? e_c e) = false).
      { destruct (crossing q e && (0 <? e_c e)) eqn:Hb'; [|reflexivity].
        exfalso. rewrite <- not_true_iff_false in Hex. apply Hex.
        apply existsb_exists. exists e. auto. }
      rewrite Hc in Hf. cbn [andb] in Hf. apply Z.ltb_ge in Hf.
      specialize (Hcap e He). lia. }
    rewrite Hzero. destruct (memb tops u); lia.
Qed.

Lemma open_cut_cap :
  cutCap (g_edges (buildGraph roomArray)) q <= Z.of_nat (length T).
Proof.
  unfold cutCap.
  transitivity (zsum (fun u => if memb tops u then 1 else 0) q).
  - apply zsum_le. intros u Hu. apply open_cut_vertex. exact Hu.
  - rewrite <- length_filter_zsum.
    replace (length T) with (length tops) by apply length_map.
    apply inj_le. apply NoDup_incl_length.
    + apply List.NoDup_filter, NoDup_ListNoDup. exact Hnd.
    + intros u Hin. apply filter_In in Hin. apply memb_spec. tauto.
Qed.
End OpenSide.
End Blocking.

(** The solver's value is at most the size of any set of tiles that
    blocks. *)
Lemma min_cut_bound roomArray count g' q T :
  isField roomArray -> solved roomArray count g' q -> blocks roomArray T ->
  count <= Z.of_nat (length T).
Proof.
  intros Hfield [S1 S2 S3 S4 S5 S6 S7] Hblocks.
  set (go := openGraph roomArray T).
  set (N := S (S (length (targets (g_edges go))))).
  destruct (bfsTheCut_terminates N go SOURCE_VERTEX ltac:(unfold N; lia))
    as [[minCut go'] Hrun].
  destruct (bfsTheCut_general _ _ _ _ _ Hrun) as (_ & q' & Hnd & Hq & _).
  assert (Hs : In SOURCE_VERTEX q') by (apply Hq; constructor).
  assert (Ht : ~ In SINK_VERTEX q').
  { intros Hin. apply Hq in Hin. exact (blocked_sink roomArray T Hfield Hblocks Hin). }
  pose proof (flow_below_cut (g_edges g') q' SOURCE_VERTEX SINK_VERTEX
                (room_paired roomArray (g_edges g') S1) S2 Hnd Hs Ht) as Hle.
  rewrite <- (cutCap_skel _ _ q' S1) in Hle.
  pose proof (open_cut_cap roomArray T Hfield q' Hnd Hq). lia.
Qed.

(** The cut that the solver finds blocks. *)
Lemma cut_blocks roomArray count g' q :
  solved roomArray count g' q ->
  blocks roomArray (map vertexToPosition (cutOf (g_edges g') q)).
Proof.
  intros Hsolved. pose proof Hsolved as [S1 S2 S3 S4 S5 S6 S7].
  set (cut := map vertexToPosition (cutOf (g_edges g') q)).
  assert (Hinf : forall u v, In u q -> In (u, v, MAX_VALUE) (graphCalls roomArray) -> In v q).
  { intros u v. apply (inf_closed roomArray (g_edges g') q S1 S2 S4 S5 S6 S7). }
  assert (Hbot : forall x y, interior x y ->
            arr_get roomArray x y = Some NORMAL \/ arr_get roomArray x y = Some PROTECTED ->
            ~ In (mkPos x y) cut ->
            In (positionToVertex x y + TOP_OFFSET) q ->
            In (positionToVertex x y + TOP_OFFSET + BOT_OFFSET) q).
  { intros x y Hxy Htag Hcut Htop.
    destruct (in_dec Z.eq_dec (positionToVertex x y + TOP_OFFSET + BOT_OFFSET) q)
      as [Hin|Hout]; [exact Hin|].
    exfalso. apply Hcut. apply in_map_iff. exists (positionToVertex x y + TOP_OFFSET).
    split.
    - unfold TOP_OFFSET. rewrite Z.add_0_r. apply vertexToPosition_positionToVertex.
      unfold interior, ROOM_SIZE in *. lia.
    - apply (tile_in_cut roomArray (g_edges g') q S1 S2 S4 S5 S6 S7 x y Hxy Htag Htop Hout). }
  assert (Hesc : forall p, escapes roomArray cut p ->
            ~ In (positionToVertex (fst p) (snd p) + TOP_OFFSET) q).
  { intros p Hp. induction Hp as [p n Hint Htag Hcut Hn Hnint Hntag
                                  |p n Hint Htag Hcut Hn Hntag _ IH]; intros Htop.
    - destruct p as [x y]. cbn [fst snd] in *.
      pose proof (Hbot x y Hint Htag Hcut Htop) as Hb.
      apply S6. apply (Hinf (positionToVertex (fst n) (snd n) + TOP_OFFSET)).
      + apply (Hinf _ _ Hb). apply graphCalls_kinds. exists x, y. split; [exact Hint|].
        cbv zeta. right. right. right. split; [reflexivity|]. split; [reflexivity|].
        split; [exact Htag|]. exists n. auto.
      + apply graphCalls_kinds. exists (fst n), (snd n). split; [exact Hnint|].
        cbv zeta. right. right. left. auto.
    - destruct p as [x y]. cbn [fst snd] in *.
      pose proof (Hbot x y Hint Htag Hcut Htop) as Hb.
      apply IH. apply (Hinf _ _ Hb). apply graphCalls_kinds. exists x, y.
      split; [exact Hint|]. cbv zeta. right. right. right. split; [reflexivity|].
      split; [reflexivity|]. split; [exact Htag|]. exists n. auto. }
  intros x y Hxy Htag Hp. apply (Hesc (x, y) Hp). cbn [fst snd].
  apply (Hinf SOURCE_VERTEX); [exact S5|].
  apply graphCalls_kinds. exists x, y. split; [exact Hxy|]. cbv zeta. right. left. auto.
Qed.

(** ** The cut is a smallest blocking set *)

(** X24: the tiles that the solver finds are a smallest set of tiles
    that blocks the ways of the graph from the protected tiles to the
    tiles tagged TO_EXIT.  With valid bounds and enough fuel the cut read
    off the graph blocks every such way, no list of tiles that blocks them
    all is shorter, and the list that [getCutTiles] returns after the
    pruning is no longer than the cut; with the bounds of the whole room
    nothing is pruned and it is the cut. *)
Theorem no_blocking_set_is_smaller_than_the_cut terrainData coords bounds :
  validBounds bounds = true ->
  exists N, forall fuel, (N <= fuel)%nat ->
    exists cut0 cut,
      cutPositions fuel (buildGraph (protectedRoomArray terrainData coords bounds))
      = Some cut0
      /\ getCutTiles fuel terrainData coords bounds = Some cut
      /\ blocks (protectedRoomArray terrainData coords bounds) cut0
      /\ (length cut <= length cut0)%nat
      /\ (isWholeRoom bounds = true -> cut = cut0)
      /\ forall T, blocks (protectedRoomArray terrainData coords bounds) T ->
           (length cut0 <= length T)%nat.
Proof.
  intros Hvalid.
  destruct (getCutTiles_total terrainData coords bounds Hvalid)
    as (N & count & g' & q & flooded & Hsolved & Hflood & Hrun).
  exists N. intros fuel Hfuel. destruct (Hrun fuel Hfuel) as (Hpos & _ & Hcut).
  set (roomArray := protectedRoomArray terrainData coords bounds) in *.
  set (cut0 := map vertexToPosition (cutOf (g_edges g') q)) in *.
  exists cut0, (prunedCut bounds flooded cut0).
  split; [exact Hpos|]. split; [exact Hcut|].
  split; [exact (cut_blocks roomArray count g' q Hsolved)|]. split; [|split].
  - unfold prunedCut. destruct (_ && _); [apply List.filter_length_le|lia].
  - intros Hwhole. unfold prunedCut. rewrite Hwhole, andb_false_r. reflexivity.
  - intros T HT.
    pose proof (min_cut_bound roomArray count g' q T
                  (proj1 (protected_iff terrainData coords bounds Hvalid)) Hsolved HT) as Hle.
    pose proof (solved_length roomArray count g' q Hsolved) as Hlen.
    unfold cut0. rewrite length_map. lia.
Qed.

Lemma no_blocking_set_is_smaller_than_the_cut_witness :
  exists N, forall fuel, (N <= fuel)%nat ->
    exists cut0 cut,
      cutPositions fuel
        (buildGraph (protectedRoomArray (wallAt 20 20) [(25, 25)] (mkBounds 10 10 40 40)))
      = Some cut0
      /\ getCutTiles fuel (wallAt 20 20) [(25, 25)] (mkBounds 10 10 40 40) = Some cut
      /\ blocks (protectedRoomArray (wallAt 20 20) [(25, 25)] (mkBounds 10 10 40 40)) cut0
      /\ (length cut <= length cut0)%nat
      /\ (isWholeRoom (mkBounds 10 10 40 40) = true -> cut = cut0)
      /\ forall T,
           blocks (protectedRoomArray (wallAt 20 20) [(25, 25)] (mkBounds 10 10 40 40)) T ->
           (length cut0 <= length T)%nat.
Proof.
  apply (no_blocking_set_is_smaller_than_the_cut (wallAt 20 20) [(25, 25)]
           (mkBounds 10 10 40 40)).
  reflexivity.
Defined.

(** * The distance field, call after call *)

(** One call of [getCostArrayPure]: exact distances within the range,
    nothing written beyond. *)
Lemma getCostArrayPure_spec (fuel : nat) (costArr : Grid Z) (sx sy maxRange : Z)
    (terrainData : TerrainData) :
  isField costArr -> inRoom sx sy -> 0 <= maxRange -> (2501 <= fuel)%nat ->
  exists costArr',
    getCostArrayPure fuel costArr sx sy maxRange terrainData = Some costArr'
    /\ isField costArr'
    /\ forall x y,
         (withinRange terrainData (sx, sy) maxRange (x, y) ->
            exists v, arr_get costArr' x y = Some v
                      /\ distanceFrom terrainData (sx, sy) (x, y) v)
         /\ (~ withinRange terrainData (sx, sy) maxRange (x, y) ->
             arr_get costArr' x y = arr_get costArr x y).
Proof.
  intros Hfield Hseed HR Hfuel.
  unfold getCostArrayPure.
  assert (Hcol : has_column (initArr false) sx = true).
  { apply (has_column_field _ sx sy); [apply isField_initArr|exact Hseed]. }
  rewrite Hcol.
  destruct (cost_loop_terminates terrainData maxRange sx sy costArr HR Hseed Hfield fuel Hfuel)
    as [[[costArr' explored'] q'] Hloop].
  rewrite Hloop. exists costArr'. split; [reflexivity|].
  pose proof (queue_loop_prefix _ _ _ _ _ _ _ Hloop) as [more Hq'].
  assert (Hinv : cost_inv terrainData maxRange sx sy costArr (costArr', explored') q' (length q')).
  { eapply (queue_loop_inv _ (cost_inv terrainData maxRange sx sy costArr)); [| | |exact Hloop].
    - intros. eapply cost_inv_step; eauto.
    - by apply cost_inv_init.
    - simpl. lia. }
  assert (Hq0 : q' !! O = Some (sx, sy, 0)) by (rewrite Hq'; reflexivity).
  split; [exact (ci_fieldC _ _ _ _ _ _ _ _ Hinv)|].
  intros x y. split.
  - intros (n0 & Hn0 & Hwalk0).
    destruct (cost_inv_optimal _ _ _ _ _ _ _ Hinv Hq0 n0 (x, y) Hwalk0 Hn0)
      as [Hex (v & Hv & Hle)].
    destruct (ci_sound _ _ _ _ _ _ _ _ Hinv (x, y) Hex) as (m & Hm & Hwalk & Hrange).
    assert (m = v) by (unfold costAt in *; simpl in *; congruence). subst m.
    exists v. split; [exact Hv|]. split; [exact Hwalk|].
    intros n Hwalkn.
    destruct (Z.le_gt_cases n maxRange) as [Hn|Hn]; [|lia].
    destruct (cost_inv_optimal _ _ _ _ _ _ _ Hinv Hq0 n (x, y) Hwalkn Hn)
      as [_ (v' & Hv' & Hle')].
    unfold costAt in Hv, Hv'. simpl in Hv, Hv'. rewrite Hv in Hv'. injection Hv' as <-.
    exact Hle'.
  - intros Hfar. apply (ci_frame _ _ _ _ _ _ _ _ Hinv). simpl.
    destruct (isExplored explored' x y) eqn:E; [|reflexivity].
    destruct (ci_sound _ _ _ _ _ _ _ _ Hinv (x, y) E) as (n & _ & Hwalk & Hn).
    exfalso. apply Hfar. exists n. split; [lia|exact Hwalk].
Qed.

(** ** [getCostArrayPure], call after call *)

(** X26: two calls of [getCostArrayPure] on the same array, as
    [buildLayout] makes them for the sources of a room, do not keep the
    smaller distance: a tile within the range of the second seed holds its
    distance from the second seed, whatever its distance from the first; a
    tile within the range of the first seed only holds its distance from
    the first; every other tile holds what it held before. *)
Theorem getCostArrayPure_twice_keeps_the_distance_from_the_later_seed
    (fuel : nat) (costArr : Grid Z) (s1 s2 : Z * Z) (r1 r2 : Z) (terrainData : TerrainData) :
  isField costArr -> inRoom (fst s1) (snd s1) -> inRoom (fst s2) (snd s2) ->
  0 <= r1 -> 0 <= r2 -> (2501 <= fuel)%nat ->
  exists costArr1 costArr2,
    getCostArrayPure fuel costArr (fst s1) (snd s1) r1 terrainData = Some costArr1
    /\ getCostArrayPure fuel costArr1 (fst s2) (snd s2) r2 terrainData = Some costArr2
    /\ forall x y,
         (withinRange terrainData s2 r2 (x, y) ->
            exists v, arr_get costArr2 x y = Some v /\ distanceFrom terrainData s2 (x, y) v)
         /\ (~ withinRange terrainData s2 r2 (x, y) ->
             withinRange terrainData s1 r1 (x, y) ->
             exists v, arr_get costArr2 x y = Some v /\ distanceFrom terrainData s1 (x, y) v)
         /\ (~ withinRange terrainData s2 r2 (x, y) ->
             ~ withinRange terrainData s1 r1 (x, y) ->
             arr_get costArr2 x y = arr_get costArr x y).
Proof.
  intros Hfield Hs1 Hs2 Hr1 Hr2 Hfuel. destruct s1 as [x1 y1], s2 as [x2 y2].
  cbn [fst snd] in *.
  destruct (getCostArrayPure_spec fuel costArr x1 y1 r1 terrainData Hfield Hs1 Hr1 Hfuel)
    as (a1 & Hrun1 & Hf1 & Hspec1).
  destruct (getCostArrayPure_spec fuel a1 x2 y2 r2 terrainData Hf1 Hs2 Hr2 Hfuel)
    as (a2 & Hrun2 & Hf2 & Hspec2).
  exists a1, a2. split; [exact Hrun1|]. split; [exact Hrun2|].
  intros x y. destruct (Hspec1 x y) as [Hin1 Hout1]. destruct (Hspec2 x y) as [Hin2 Hout2].
  split; [exact Hin2|]. split.
  - intros Hfar2 Hnear1. rewrite (Hout2 Hfar2). exact (Hin1 Hnear1).
  - intros Hfar2 Hfar1. rewrite (Hout2 Hfar2). exact (Hout1 Hfar1).
Qed.

Lemma getCostArrayPure_twice_keeps_the_distance_from_the_later_seed_witness :
  exists costArr1 costArr2,
    getCostArrayPure 2501 (initArr 0) (fst (10, 10)) (snd (10, 10)) 3 (wallAt 11 10)
    = Some costArr1
    /\ getCostArrayPure 2501 costArr1 (fst (12, 10)) (snd (12, 10)) 3 (wallAt 11 10)
       = Some costArr2
    /\ forall x y,
         (withinRange (wallAt 11 10) (12, 10) 3 (x, y) ->
            exists v, arr_get costArr2 x y = Some v
                      /\ distanceFrom (wallAt 11 10) (12, 10) (x, y) v)
         /\ (~ withinRange (wallAt 11 10) (12, 10) 3 (x, y) ->
             withinRange (wallAt 11 10) (10, 10) 3 (x, y) ->
             exists v, arr_get costArr2 x y = Some v
                       /\ distanceFrom (wallAt 11 10) (10, 10) (x, y) v)
         /\ (~ withinRange (wallAt 11 10) (12, 10) 3 (x, y) ->
             ~ withinRange (wallAt 11 10) (10, 10) 3 (x, y) ->
             arr_get costArr2 x y = arr_get (initArr 0) x y).
Proof.
  apply (getCostArrayPure_twice_keeps_the_distance_from_the_later_seed 2501 (initArr 0)
           (10, 10) (12, 10) 3 3 (wallAt 11 10)).
  - apply isField_initArr.
  - unfold inRoom, ROOM_SIZE. simpl. lia.
  - unfold inRoom, ROOM_SIZE. simpl. lia.
  - lia.
  - lia.
  - lia.
Defined.

(** ** The empty cut *)

(** X27: with valid bounds the cut read off the graph is empty exactly
    when there is nothing to block: no protected tile has a way over
    NORMAL tiles to a tile tagged TO_EXIT.  [getCutTiles] then returns the
    empty list. *)
Theorem the_cut_is_empty_exactly_when_no_protected_tile_escapes
    terrainData coords bounds :
  validBounds bounds = true ->
  exists N, forall fuel, (N <= fuel)%nat ->
    exists cut0,
      cutPositions fuel (buildGraph (protectedRoomArray terrainData coords bounds))
      = Some cut0
      /\ (cut0 = [] <-> blocks (protectedRoomArray terrainData coords bounds) [])
      /\ (cut0 = [] -> getCutTiles fuel terrainData coords bounds = Some []).
Proof.
  intros Hvalid.
  destruct (getCutTiles_total terrainData coords bounds Hvalid)
    as (N & count & g' & q & flooded & Hsolved & Hflood & Hrun).
  exists N. intros fuel Hfuel. destruct (Hrun fuel Hfuel) as (Hpos & _ & Hcut).
  set (roomArray := protectedRoomArray terrainData coords bounds) in *.
  set (cut0 := map vertexToPosition (cutOf (g_edges g') q)) in *.
  exists cut0. split; [exact Hpos|]. split; [split|].
  - intros Hempty. rewrite <- Hempty. exact (cut_blocks roomArray count g' q Hsolved).
  - intros Hblocks.
    pose proof (min_cut_bound roomArray count g' q []
                  (proj1 (protected_iff terrainData coords bounds Hvalid)) Hsolved Hblocks)
      as Hle.
    pose proof (solved_length roomArray count g' q Hsolved) as Hlen.
    destruct cut0 as [|c rest] eqn:Hc; [reflexivity|].
    exfalso. unfold cut0 in Hc.
    assert (Hl : length (map vertexToPosition (cutOf (g_edges g') q)) = S (length rest))
      by (rewrite Hc; reflexivity).
    rewrite length_map in Hl. rewrite Hl in Hlen. cbn [length] in Hle. lia.
  - intros Hempty. rewrite Hcut, Hempty. unfold prunedCut.
    destruct (_ && _); reflexivity.
Qed.

Lemma the_cut_is_empty_exactly_when_no_protected_tile_escapes_witness :
  exists N, forall fuel, (N <= fuel)%nat ->
    exists cut0,
      cutPositions fuel
        (buildGraph (protectedRoomArray (wallAt 20 20) [(20, 20)] (mkBounds 10 10 40 40)))
      = Some cut0
      /\ (cut0 = []
          <-> blocks (protectedRoomArray (wallAt 20 20) [(20, 20)] (mkBounds 10 10 40 40)) [])
      /\ (cut0 = [] ->
          getCutTiles fuel (wallAt 20 20) [(20, 20)] (mkBounds 10 10 40 40) = Some []).
Proof.
  apply (the_cut_is_empty_exactly_when_no_protected_tile_escapes (wallAt 20 20) [(20, 20)]
           (mkBounds 10 10 40 40)).
  reflexivity.
Defined.
